(** * QGit core: a shallow embedding of [Git] (git.cpp) and of the
      repository switch, the recent-repository menu and the import of
      dropped revisions of [MainImpl] (mainimpl.cpp)

    The development follows the C++ sources function by function.

    - [Module Qt] gives the few [QString]/[QStringList]/[QDir] operations the
      sources call, after Qt's documented behaviour.
    - [Module Git] holds the data model ([Rev], [RevFile], [Reference]), the
      state of a [Git] object, the command monad in which its member
      functions are written, and the member functions themselves.
    - [Module MainImpl] holds the repository-switch entry point with its
      guard flag.
    - [Module Sample] is a small repository on which the statements are
      exercised.
    - [Module QtText] adds the string and list operations that the
      further member functions call.
    - [Module GitTools] holds further member functions of [Git]: the order
      of tree entries, the classification of files, the lists, diffs and
      blobs of the working directory and of revisions, the making and the
      applying of patches; [Module SampleTools] extends the sample for
      them.
    - [Module MainMenu] and [Module MainDrop] hold the menu of recent
      repositories and the import of dropped revisions of [MainImpl];
      [Module SampleDrop] is a drop onto the sample.
    - [Module GitRuns] holds the remaining member functions of [Git]
      that run a command, the history of everything the object does, and
      the call of any member function that runs a command;
      [Module SampleRuns] is a file whose history is asked for.
    - [QtFacts], [GitFacts] and [MainImplFacts] hold the lemmas and the
      theorems about the first three; [QtTextFacts], [GitCacheFacts],
      [GitNamesFacts], [GitCommitFacts], [GitOrderFacts], [GitToolsFacts],
      [MainMenuFacts] and [MainDropFacts] hold further properties of the
      member functions, each module named after what it is about;
      [GitRunsFacts] follows every command that is run through every
      member function, for the commands that are run again.

    Conventions.  A C++ [int] is a [Z].  A [QString] is a [string]; the empty
    string doubles as the null string, as it does for every test the sources
    make ([isEmpty]).  A null pointer result is [None].  Dereferencing a null
    pointer or indexing a vector out of range has no defined result in the
    source: the embedded function then yields [None] for the whole call
    (written [crash]).  Debug output ([dbs], [dbp]) is not part of the
    model.

    The outside world.  The external tool, the file system and the event
    loop are not part of the sources.  [Git::run] is taken by its contract:
    it returns a status and the captured output, chosen by the outside as
    a function of everything that happened before.  A turn of the event
    loop inside a [Git] member function is recorded and has no effect on
    the [Git] object; exceptions that unwind a call are modelled where the
    sources catch them, in [MainImpl::setRepository]. *)

From Stdlib Require Import ZArith Ascii String List Bool Lia.
From stdpp Require Import base option list gmap strings sorting pretty.

Local Open Scope Z_scope.

(* ===================================================================== *)
(** * Qt string and path helpers *)
(* ===================================================================== *)

Module Qt.

Definition isEmpty (s : string) : bool :=
  match s with EmptyString => true | String _ _ => false end.

Definition size (s : string) : Z := Z.of_nat (String.length s).

Fixpoint takeS (n : nat) (s : string) : string :=
  match n, s with
  | S k, String a s' => String a (takeS k s')
  | _, _ => EmptyString
  end.

Fixpoint dropS (n : nat) (s : string) : string :=
  match n, s with
  | S k, String _ s' => dropS k s'
  | _, _ => s
  end.

(** [QString::left(n)]: the whole string when [n] is negative or not
    smaller than the size. *)
Definition left (n : Z) (s : string) : string :=
  if (n <? 0) || (size s <=? n) then s else takeS (Z.to_nat n) s.

(** [QString::mid(pos)]: empty beyond the end, from the start for a
    negative position. *)
Definition mid (pos : Z) (s : string) : string :=
  if size s <? pos then EmptyString else dropS (Z.to_nat pos) s.

(** [QString::startsWith]. *)
Fixpoint startsWith (pre s : string) : bool :=
  match pre, s with
  | EmptyString, _ => true
  | String a p, String b s' => if Ascii.eqb a b then startsWith p s' else false
  | String _ _, EmptyString => false
  end.

(** [QString::lastIndexOf(QChar)]: -1 when the character is missing. *)
Fixpoint lastIndexOf_from (c : ascii) (s : string) (i last : Z) : Z :=
  match s with
  | EmptyString => last
  | String a s' =>
      lastIndexOf_from c s' (i + 1) (if Ascii.eqb a c then i else last)
  end.

Definition lastIndexOf (c : ascii) (s : string) : Z :=
  lastIndexOf_from c s 0 (-1).

(** [QString::indexOf(QString)], for a separator that is not empty. *)
Fixpoint indexOf_from (sep s : string) (i : Z) : Z :=
  match s with
  | EmptyString => -1
  | String _ s' => if startsWith sep s then i else indexOf_from sep s' (i + 1)
  end.

Definition indexOf (sep s : string) : Z := indexOf_from sep s 0.

Definition contains (sep s : string) : bool := 0 <=? indexOf sep s.

(** [QString::split(sep)] keeping empty parts, for a separator that is not
    empty (every separator in the sources is a literal).  Occurrences are
    taken left to right and do not overlap: [skip] counts the characters of
    a matched separator that are still to be passed over, [cur] is the
    field being read. *)
Fixpoint split_from (sep : string) (skip : nat) (cur s : string)
  : list string :=
  match s with
  | EmptyString => [cur]
  | String a s' =>
      match skip with
      | S k => split_from sep k cur s'
      | O =>
          if startsWith sep s
          then cur :: split_from sep (String.length sep - 1) EmptyString s'
          else split_from sep O (cur +:+ String a EmptyString) s'
      end
  end.

Definition split (sep s : string) : list string :=
  split_from sep O EmptyString s.

Fixpoint join (sep : string) (l : list string) : string :=
  match l with
  | [] => EmptyString
  | [x] => x
  | x :: l' => x +:+ sep +:+ join sep l'
  end.

(** [QString::section(sep, start, end)] with the default flags: fields
    [start] to [end] of the split, joined by the separator again; a
    negative index counts from the last field. *)
Definition section (sep : string) (start end_ : Z) (s : string) : string :=
  let fields := split sep s in
  let n := Z.of_nat (length fields) in
  let start' := if start <? 0 then start + n else start in
  let end' := if end_ <? 0 then end_ + n else end_ in
  if (n <=? start') || (end' <? 0) || (end' <? start') then EmptyString
  else
    let first := Z.to_nat (Z.max 0 start') in
    join sep (take (Z.to_nat end' + 1 - first)%nat (drop first fields)).

(** [QString::replace(before, after)]: every occurrence, left to right,
    for a [before] that is not empty. *)
Fixpoint replace_from (before after : string) (skip : nat) (s : string)
  : string :=
  match s with
  | EmptyString => EmptyString
  | String a s' =>
      match skip with
      | S k => replace_from before after k s'
      | O =>
          if startsWith before s
          then after +:+ replace_from before after (String.length before - 1) s'
          else String a (replace_from before after O s')
      end
  end.

Definition replace (before after s : string) : string :=
  replace_from before after O s.

(** [QChar::isSpace] on Latin-1: tab, line feed, vertical tab, form
    feed, carriage return, space, next line and no-break space. *)
Definition isSpace (a : ascii) : bool :=
  let n := nat_of_ascii a in
  ((9 <=? n)%nat && (n <=? 13)%nat) || (n =? 32)%nat
  || (n =? 133)%nat || (n =? 160)%nat.

Fixpoint dropSpaces (s : string) : string :=
  match s with
  | String a s' => if isSpace a then dropSpaces s' else s
  | EmptyString => EmptyString
  end.

(** [QString::trimmed]. *)
Definition trimmed (s : string) : string :=
  String.rev (dropSpaces (String.rev (dropSpaces s))).

(** [QString("%1").arg(n, fieldWidth)]: the decimal text of [n], padded
    with spaces on the left up to [fieldWidth] characters. *)
Fixpoint spaces (n : nat) : string :=
  match n with
  | O => EmptyString
  | S k => String " " (spaces k)
  end.

Definition arg_int (n : Z) (fieldWidth : nat) : string :=
  let digits := pretty n in
  spaces (fieldWidth - String.length digits) +:+ digits.

(** [QStringList::sort]: ascending in the code-point order of
    [QString::operator<]. *)
Definition sort (l : list string) : list string :=
  merge_sort String.le l.

(** [QDir::filePath], the resolution [QDir::remove] applies to its
    argument: an absolute path stands for itself, a relative one is taken
    below the directory.  Unix paths: absolute means a leading slash. *)
Definition isRelativePath (p : string) : bool := negb (startsWith "/" p).

Definition filePath (dir name : string) : string :=
  if isRelativePath name then dir +:+ "/" +:+ name else name.

(** The string holds no occurrence of the character. *)
Fixpoint noChar (c : ascii) (s : string) : bool :=
  match s with
  | EmptyString => true
  | String a s' => negb (Ascii.eqb a c) && noChar c s'
  end.

End Qt.

(* ===================================================================== *)
(** * The Git object *)
(* ===================================================================== *)

Module Git.

(** ** Data model *)

(** [enum RefType] of git.h: the kinds of reference a query can ask for. *)
Inductive RefType :=
| TAG | BRANCH | RMT_BRANCH | CUR_BRANCH | REF | APPLIED | UN_APPLIED
| ANY_REF.

Definition RefType_eqb (a b : RefType) : bool :=
  match a, b with
  | TAG, TAG | BRANCH, BRANCH | RMT_BRANCH, RMT_BRANCH
  | CUR_BRANCH, CUR_BRANCH | REF, REF | APPLIED, APPLIED
  | UN_APPLIED, UN_APPLIED | ANY_REF, ANY_REF => true
  | _, _ => false
  end.

(** Modelled from the spec: the [Reference] entry (declared in git.h,
    which is not among the sources): tag names, local and remote branch
    names, other reference names and at most one patch name, for one
    identifier. *)
Record Reference := {
  tags : list string;
  branches : list string;
  remoteBranches : list string;
  refs : list string;
  stgitPatch : string
}.

(** Modelled from the spec: the revision record [Rev] (declared in
    common.h, which is not among the sources): identifier, ordered parent
    identifiers, short log, position in load order, child positions and
    the indices into the shared near-tag and branch summaries. *)
Record Rev := {
  sha : string;
  parents : list string;
  childs : list Z;
  orderIdx : Z;
  shortLog : string;
  descRefsMaster : Z;
  ancRefsMaster : Z;
  descBrnMaster : Z;
  descRefs : list Z;
  ancRefs : list Z;
  descBranches : list Z
}.

Definition parentsCount (r : Rev) : Z := Z.of_nat (length (parents r)).

(** [QVector::operator[]]: no defined result out of range. *)
Definition vec_at {A} (v : list A) (i : Z) : option A :=
  if i <? 0 then None else v !! Z.to_nat i.

Definition parent (r : Rev) (i : Z) : option string := vec_at (parents r) i.

(** Modelled from the spec: the status of a changed file,
    [RevFile::StatusFlag] (declared in common.h, which is not among the
    sources), one bit per status so that a query can name several. *)
Definition MODIFIED : Z := 1.
Definition DELETED : Z := 2.
Definition NEW : Z := 4.
Definition RENAMED : Z := 8.
Definition COPIED : Z := 16.
Definition UNKNOWN : Z := 32.
Definition IN_INDEX : Z := 64.

(** Modelled from the spec: the changed-file set [RevFile] (declared in
    common.h, which is not among the sources): an ordered list of entries,
    each a directory index and a name index into the shared name tables,
    a status per entry ([onlyModified] stands for "every entry is
    modified"), and the extended status text that carries a rename or copy
    arrow. *)
Record RevFile := {
  pathsIdx : list (Z * Z);
  status : list Z;
  onlyModified : bool;
  extStatus : list string
}.

Definition count (rf : RevFile) : Z := Z.of_nat (length (pathsIdx rf)).
Definition dirAt (rf : RevFile) (i : Z) : option Z := fst <$> vec_at (pathsIdx rf) i.
Definition nameAt (rf : RevFile) (i : Z) : option Z := snd <$> vec_at (pathsIdx rf) i.

Definition statusCmp (rf : RevFile) (idx : Z) (sf : Z) : option bool :=
  if onlyModified rf then Some (negb (Z.land MODIFIED sf =? 0))
  else st ← vec_at (status rf) idx; Some (negb (Z.land st sf =? 0)).

Definition extendedStatus (rf : RevFile) (idx : Z) : string :=
  match vec_at (extStatus rf) idx with
  | Some e => e
  | None => EmptyString
  end.

(** [FileHistory]: the revision store of one history domain. *)
Record FileHistory := {
  revs : gmap string Rev;
  revOrder : list string
}.

(** ** The environment of a Git object

    What the object observes and does outside itself is recorded in a
    trace; the outside answers as a function of everything that happened
    so far. *)
Inductive Event :=
| EvRun (dir cmd : string) (reportErrors ok : bool)
| EvProcessEvents
| EvPostError (cmd desc : string)
| EvWriteFile (path data : string) (ok : bool)
| EvRemoveFile (path : string).

(** Constants and helpers of the repository that are declared outside the
    sources at hand (common.h, git.h, git_startup.cpp, settings), and the
    behaviour of the outside world. *)
Record Env := {
  ZERO_SHA : string;
  CUSTOM_SHA : string;
  ALL_MERGE_FILES : string;
  QUOTE_CHAR : string;
  GIT_VERSION : string;
  optOnlyInIndex : bool;
  CMT_ARGS : string;
  SIGN_CMT_F : bool;
  VERIFY_CMT_F : bool;
  systemEnvironment : list string;
  (** the external tool: exit status and captured output of a command run
      in a directory *)
  tool : list Event -> string -> string -> bool * string;
  (** whether a file can be written *)
  writable : list Event -> string -> bool;
  (** [parseDiffFormat] followed by [flushFileNames]: decodes diff output
      into a file set, interning names into the two name tables *)
  parseDiffFormat :
    string -> list string * list string -> RevFile * (list string * list string)
}.

(** ** State of the object *)
Record State := {
  errorReportingEnabled : bool;
  isTextHighlighterFound : bool;
  textHighlighterVersionFound : string;
  cacheNeedsUpdate : bool;
  workDir : string;
  gitDir : string;
  revData : FileHistory;
  refsShaMap : list (string * Reference);
  revsFiles : gmap string RevFile;
  fileNamesVec : list string;
  dirNamesVec : list string;
  (** files present on disk, by path *)
  files : gset string;
  trace : list Event
}.

Definition set_errorReportingEnabled (b : bool) (s : State) : State :=
  {| errorReportingEnabled := b;
     isTextHighlighterFound := isTextHighlighterFound s;
     textHighlighterVersionFound := textHighlighterVersionFound s;
     cacheNeedsUpdate := cacheNeedsUpdate s;
     workDir := workDir s; gitDir := gitDir s; revData := revData s;
     refsShaMap := refsShaMap s; revsFiles := revsFiles s;
     fileNamesVec := fileNamesVec s; dirNamesVec := dirNamesVec s;
     files := files s; trace := trace s |}.

Definition set_textHighlighter (found : bool) (version : string) (s : State) : State :=
  {| errorReportingEnabled := errorReportingEnabled s;
     isTextHighlighterFound := found;
     textHighlighterVersionFound := version;
     cacheNeedsUpdate := cacheNeedsUpdate s;
     workDir := workDir s; gitDir := gitDir s; revData := revData s;
     refsShaMap := refsShaMap s; revsFiles := revsFiles s;
     fileNamesVec := fileNamesVec s; dirNamesVec := dirNamesVec s;
     files := files s; trace := trace s |}.

Definition set_cacheNeedsUpdate (b : bool) (s : State) : State :=
  {| errorReportingEnabled := errorReportingEnabled s;
     isTextHighlighterFound := isTextHighlighterFound s;
     textHighlighterVersionFound := textHighlighterVersionFound s;
     cacheNeedsUpdate := b;
     workDir := workDir s; gitDir := gitDir s; revData := revData s;
     refsShaMap := refsShaMap s; revsFiles := revsFiles s;
     fileNamesVec := fileNamesVec s; dirNamesVec := dirNamesVec s;
     files := files s; trace := trace s |}.

Definition set_fileCache (rf : gmap string RevFile) (names : list string * list string)
    (s : State) : State :=
  {| errorReportingEnabled := errorReportingEnabled s;
     isTextHighlighterFound := isTextHighlighterFound s;
     textHighlighterVersionFound := textHighlighterVersionFound s;
     cacheNeedsUpdate := cacheNeedsUpdate s;
     workDir := workDir s; gitDir := gitDir s; revData := revData s;
     refsShaMap := refsShaMap s; revsFiles := rf;
     fileNamesVec := fst names; dirNamesVec := snd names;
     files := files s; trace := trace s |}.

Definition set_files (f : gset string) (s : State) : State :=
  {| errorReportingEnabled := errorReportingEnabled s;
     isTextHighlighterFound := isTextHighlighterFound s;
     textHighlighterVersionFound := textHighlighterVersionFound s;
     cacheNeedsUpdate := cacheNeedsUpdate s;
     workDir := workDir s; gitDir := gitDir s; revData := revData s;
     refsShaMap := refsShaMap s; revsFiles := revsFiles s;
     fileNamesVec := fileNamesVec s; dirNamesVec := dirNamesVec s;
     files := f; trace := trace s |}.

Definition log_event (e : Event) (s : State) : State :=
  {| errorReportingEnabled := errorReportingEnabled s;
     isTextHighlighterFound := isTextHighlighterFound s;
     textHighlighterVersionFound := textHighlighterVersionFound s;
     cacheNeedsUpdate := cacheNeedsUpdate s;
     workDir := workDir s; gitDir := gitDir s; revData := revData s;
     refsShaMap := refsShaMap s; revsFiles := revsFiles s;
     fileNamesVec := fileNamesVec s; dirNamesVec := dirNamesVec s;
     files := files s; trace := trace s ++ [e] |}.

(** ** The command monad: environment, state, and [None] for a call that
    has no defined result *)
Definition M (A : Type) : Type := Env -> State -> option (A * State).

Definition ret {A} (a : A) : M A := fun _ s => Some (a, s).
Definition bind {A B} (m : M A) (k : A -> M B) : M B :=
  fun env s =>
    match m env s with
    | Some (a, s') => k a env s'
    | None => None
    end.
Definition crash {A} : M A := fun _ _ => None.
Definition ask : M Env := fun env s => Some (env, s).
Definition gets {A} (f : State -> A) : M A := fun _ s => Some (f s, s).
Definition modify (f : State -> State) : M unit := fun _ s => Some (tt, f s).
Definition deref {A} (o : option A) : M A :=
  match o with Some a => ret a | None => crash end.

Declare Scope git_scope.
Delimit Scope git_scope with git.
Notation "x <- c ;; k" := (bind c (fun x => k))
  (at level 100, c at next level, right associativity) : git_scope.
Notation "c ;;; k" := (bind c (fun _ => k))
  (at level 100, right associativity) : git_scope.
Local Open Scope git_scope.

(** ** Process runner and files *)

(** [Git::run]: one synchronous invocation of the external tool in the
    working directory, under the current error-reporting setting.  The
    receiver and the input buffer keep their defaults at every call site
    embedded here. *)
Definition run (runCmd : string) : M (bool * string) := fun env s =>
  let r := tool env (trace s) (workDir s) runCmd in
  Some (r, log_event (EvRun (workDir s) runCmd (errorReportingEnabled s) r.1) s).

(** [EM_PROCESS_EVENTS]: the event loop is given a turn. *)
Definition EM_PROCESS_EVENTS : M unit := modify (log_event EvProcessEvents).

(** Modelled from the spec: [QGit::writeToFile] (common.cpp, which is not
    among the sources) writes the text to the named file before an
    invocation and reports whether it could. *)
Definition writeToFile (fileName data : string) : M bool := fun env s =>
  let ok := writable env (trace s) fileName in
  let s1 := log_event (EvWriteFile fileName data ok) s in
  Some (ok, if ok then set_files ({[fileName]} ∪ files s1) s1 else s1).

(** [QDir dir(d); dir.remove(name)]; the sources ignore its result, and
    the removal is taken to succeed. *)
Definition QDir_remove (d name : string) : M unit :=
  modify (fun s =>
    let p := Qt.filePath d name in
    set_files (files s ∖ {[p]}) (log_event (EvRemoveFile p) s)).

Definition quote (env : Env) (nm : string) : string :=
  QUOTE_CHAR env +:+ nm +:+ QUOTE_CHAR env.

Definition quoteList (env : Env) (sl : list string) : string :=
  QUOTE_CHAR env
    +:+ Qt.join (QUOTE_CHAR env +:+ " " +:+ QUOTE_CHAR env) sl
    +:+ QUOTE_CHAR env.

Definition nl : string := String (ascii_of_nat 10) EmptyString.
Definition tab : string := String (ascii_of_nat 9) EmptyString.

(** ** Start-up probes *)

Definition checkEnvironment : M unit :=
  env <- ask ;;
  r <- run "git --version" ;;
  if r.1 then
    let version := Qt.section "." 0 2 (Qt.section " " (-1) (-1) r.2) in
    (if String.ltb version (GIT_VERSION env)
     then
       modify (log_event (EvPostError
         ("Current git version is " +:+ version +:+ " but is required "
            +:+ GIT_VERSION env +:+ " or better")
         ("Your installed git is too old." +:+ nl
            +:+ "Please upgrade to avoid possible misbehaviours.")))
     else ret tt) ;;;
    modify (set_errorReportingEnabled false) ;;;
    h <- run "source-highlight -V" ;;
    modify (set_errorReportingEnabled true) ;;;
    modify (set_textHighlighter h.1
              (if h.1 then Qt.section nl 0 0 h.2
               else "GNU source-highlight not installed"))
  else ret tt.

Definition userInfo : M (list string) :=
  e <- ask ;;
  let env := Qt.join "," (systemEnvironment e) in
  let user0 := Qt.trimmed (Qt.section "=" 1 (-1) (Qt.section "," 0 0
                 (Qt.section "GIT_AUTHOR_NAME" 1 (-1) env))) in
  let email0 := Qt.trimmed (Qt.section "=" 1 (-1) (Qt.section "," 0 0
                 (Qt.section "GIT_AUTHOR_EMAIL" 1 (-1) env))) in
  modify (set_errorReportingEnabled false) ;;;
  user1 <- run "git config user.name" ;;
  email1 <- run "git config user.email" ;;
  user2 <- run "git config --global user.name" ;;
  email2 <- run "git config --global user.email" ;;
  modify (set_errorReportingEnabled true) ;;;
  ret ["Environment"; user0; email0;
       "Local config"; user1.2; email1.2;
       "Global config"; user2.2; email2.2].

(** ** Reference index *)

(** [QStringList::isEmpty]. *)
Definition isNil {A} (l : list A) : bool :=
  match l with [] => true | _ :: _ => false end.

(** [QStringList::contains]. *)
Definition containsName (name : string) (l : list string) : bool :=
  existsb (String.eqb name) l.

(** The loop of [getRefSha] over the entries of the index, in the
    enumeration order of the hash. *)
Fixpoint scanRefs (refName : string) (type : RefType)
    (m : list (string * Reference)) : option string :=
  match m with
  | [] => None
  | (key, rf) :: rest =>
      let any := RefType_eqb type ANY_REF in
      if (any || RefType_eqb type TAG) && containsName refName (tags rf)
      then Some key
      else if (any || RefType_eqb type BRANCH)
              && containsName refName (branches rf)
      then Some key
      else if (any || RefType_eqb type RMT_BRANCH)
              && containsName refName (remoteBranches rf)
      then Some key
      else if (any || RefType_eqb type REF) && containsName refName (refs rf)
      then Some key
      else if (any || RefType_eqb type APPLIED || RefType_eqb type UN_APPLIED)
              && String.eqb (stgitPatch rf) refName
      then Some key
      else scanRefs refName type rest
  end.

(** The empty string is the absent identifier. *)
Definition getRefSha (refName : string) (type : RefType) (askGit : bool)
  : M string :=
  m <- gets refsShaMap ;;
  match scanRefs refName type m with
  | Some key => ret key
  | None =>
      if negb askGit then ret EmptyString
      else
        modify (set_errorReportingEnabled false) ;;;
        r <- run ("git rev-parse --revs-only " +:+ refName) ;;
        modify (set_errorReportingEnabled true) ;;;
        ret (if r.1 then Qt.trimmed r.2 else EmptyString)
  end.

Definition isPatchName (nm : string) : M bool :=
  u <- getRefSha nm UN_APPLIED false ;;
  if negb (Qt.isEmpty u) then ret true
  else a <- getRefSha nm APPLIED false ;; ret (negb (Qt.isEmpty a)).

(** [RefMap::find]. *)
Fixpoint findRef (key : string) (m : list (string * Reference))
  : option Reference :=
  match m with
  | [] => None
  | (k, rf) :: rest => if String.eqb k key then Some rf else findRef key rest
  end.

(** ** Revision store queries *)

(** [Git::revLookup]; [fh] is the optional history domain, the main one
    when it is missing. *)
Definition revLookup (sha : string) (fh : option FileHistory) (s : State)
  : option Rev :=
  let r := match fh with Some h => revs h | None => revs (revData s) end in
  r !! sha.

Definition getChilds (parent_ : string) (s : State) : option (list string) :=
  match revLookup parent_ None s with
  | None => Some []
  | Some r =>
      childs0 ← mapM (vec_at (revOrder (revData s))) (childs r);
      (* reorder childs by loading order *)
      childs1 ← mapM (fun c =>
                   rc ← revLookup c None s;
                   Some (Qt.arg_int (orderIdx rc) 6 +:+ " " +:+ c)) childs0;
      Some (Qt.section " " (-1) (-1) <$> Qt.sort childs1)
  end.

Definition getShortLog (sha_ : string) (s : State) : string :=
  match revLookup sha_ None s with
  | Some r => shortLog r
  | None => EmptyString
  end.

Fixpoint descendantBranchNames (shaOnly : bool) (s : State) (nr : list Z)
  : option (list string) :=
  match nr with
  | [] => Some []
  | i :: rest =>
      sha_i ← vec_at (revOrder (revData s)) i;
      tl ← descendantBranchNames shaOnly s rest;
      if shaOnly then Some (sha_i :: tl)
      else
        let cap := " (" +:+ sha_i +:+ ") " in
        match findRef sha_i (refsShaMap s) with
        | None => Some tl
        | Some rf =>
            Some ((if isNil (branches rf)
                   then [] else [Qt.join " " (branches rf) +:+ cap])
                  ++ (if isNil (remoteBranches rf)
                      then [] else [Qt.join " " (remoteBranches rf) +:+ cap])
                  ++ tl)
        end
  end.

Definition getDescendantBranches (sha_ : string) (shaOnly : bool) (s : State)
  : option (list string) :=
  match revLookup sha_ None s with
  | None => Some []
  | Some r =>
      if descBrnMaster r =? -1 then Some []
      else
        m ← vec_at (revOrder (revData s)) (descBrnMaster r);
        master ← revLookup m None s;
        descendantBranchNames shaOnly s (descBranches master)
  end.

Fixpoint nearTagNames (s : State) (nr : list Z) : option (list string) :=
  match nr with
  | [] => Some []
  | i :: rest =>
      sha_i ← vec_at (revOrder (revData s)) i;
      tl ← nearTagNames s rest;
      let cap := " (" +:+ sha_i +:+ ")" in
      match findRef sha_i (refsShaMap s) with
      | Some rf => Some ((Qt.join cap (tags rf) +:+ cap) :: tl)
      | None => Some tl
      end
  end.

Definition getNearTags (goDown : bool) (sha_ : string) (s : State)
  : option (list string) :=
  match revLookup sha_ None s with
  | None => Some []
  | Some r =>
      let nearRefsMaster := if goDown then descRefsMaster r else ancRefsMaster r in
      if nearRefsMaster =? -1 then Some []
      else
        m ← vec_at (revOrder (revData s)) nearRefsMaster;
        master ← revLookup m None s;
        nearTagNames s (if goDown then descRefs master else ancRefs master)
  end.

(** ** File-state cache *)

Definition insertNewFiles (sha_ data : string) : M RevFile := fun env s =>
  let parsed := parseDiffFormat env data (fileNamesVec s, dirNamesVec s) in
  Some (parsed.1, set_fileCache (<[sha_ := parsed.1]> (revsFiles s)) parsed.2 s).

(** The output reaches the caller through a pointer that both attempts
    write; the pair returned here is the status and what that pointer
    holds at the end. *)
Definition runDiffTreeWithRenameDetection (runCmd : string)
  : M (bool * string) :=
  let cmd := Qt.replace "git diff-tree" "git diff-tree -C" runCmd in
  modify (set_errorReportingEnabled false) ;;;
  r <- run cmd ;;
  modify (set_errorReportingEnabled true) ;;;
  if negb r.1 then run runCmd (* retry without rename detection *)
  else ret (true, r.2).

Definition getAllMergeFiles (r : Rev) : M (option RevFile) :=
  env <- ask ;;
  let mySha := ALL_MERGE_FILES env +:+ sha r in
  cache <- gets revsFiles ;;
  match cache !! mySha with
  | Some rf => ret (Some rf)
  | None =>
      EM_PROCESS_EVENTS ;;;
      o <- runDiffTreeWithRenameDetection
             ("git diff-tree --no-color -r -m " +:+ sha r) ;;
      if negb o.1 then ret None
      else rf <- insertNewFiles mySha o.2 ;; ret (Some rf)
  end.

Definition getFiles (sha_ diffToSha : string) (allFiles : bool) (path : string)
  : M (option RevFile) :=
  env <- ask ;;
  r <- gets (revLookup sha_ None) ;;
  match r with
  | None => ret None
  | Some r =>
      if parentsCount r =? 0 then ret None (* skip initial rev *)
      else if (1 <? parentsCount r) && Qt.isEmpty diffToSha && allFiles
      then getAllMergeFiles r
      else if negb (Qt.isEmpty diffToSha) && negb (String.eqb sha_ (ZERO_SHA env))
      then
        let runCmd :=
          ("git diff-tree --no-color -r -m " +:+ diffToSha +:+ " " +:+ sha_)
            +:+ (if negb (Qt.isEmpty path) then " " +:+ path else EmptyString) in
        EM_PROCESS_EVENTS ;;;
        o <- runDiffTreeWithRenameDetection runCmd ;;
        if negb o.1 then ret None
        else
          (* a dummy revision file object, overwritten at each request *)
          rf <- insertNewFiles (CUSTOM_SHA env) o.2 ;; ret (Some rf)
      else
        cache <- gets revsFiles ;;
        match cache !! sha r with
        | Some rf => ret (Some rf) (* ZERO_SHA search arrives here *)
        | None =>
            if String.eqb sha_ (ZERO_SHA env) then ret None
            else
              EM_PROCESS_EVENTS ;;;
              o <- runDiffTreeWithRenameDetection
                     ("git diff-tree --no-color -r -c " +:+ sha_) ;;
              if negb o.1 then ret None
              else
                cache' <- gets revsFiles ;;
                match cache' !! sha r with
                | Some rf => ret (Some rf) (* created in the mean time *)
                | None =>
                    modify (set_cacheNeedsUpdate true) ;;;
                    rf <- insertNewFiles sha_ o.2 ;; ret (Some rf)
                end
        end
  end.

(** The loop of [isTreeModified] from entry [i] on, over [n] entries. *)
Fixpoint isTreeModified_from (f : RevFile) (i : Z) (n : nat) : option bool :=
  match n with
  | O => Some false
  | S k =>
      m ← statusCmp f i MODIFIED;
      if negb m then Some true else isTreeModified_from f (i + 1) k
  end.

Definition isTreeModified (sha_ : string) : M bool :=
  f <- getFiles sha_ EmptyString false EmptyString ;;
  match f with
  | None => ret true (* no files info, stay on the safe side *)
  | Some f => deref (isTreeModified_from f 0 (Z.to_nat (count f)))
  end.

Definition isParentOf (par child : string) (s : State) : bool :=
  match revLookup child None s with
  | Some c =>
      (parentsCount c =? 1)
      && match parent c 0 with
         | Some p => String.eqb p par
         | None => false
         end (* no merges *)
  | None => false
  end.

Definition isSameFiles_cmd (tree1Sha tree2Sha : string) : string :=
  "git diff-tree --no-color -r " +:+ tree1Sha +:+ " " +:+ tree2Sha.

Definition isSameFiles (tree1Sha tree2Sha : string) : M bool :=
  p1 <- gets (isParentOf tree1Sha tree2Sha) ;;
  if p1 then m <- isTreeModified tree2Sha ;; ret (negb m)
  else
    p2 <- gets (isParentOf tree2Sha tree1Sha) ;;
    if p2 then m <- isTreeModified tree1Sha ;; ret (negb m)
    else
      r <- run (isSameFiles_cmd tree1Sha tree2Sha) ;;
      if negb r.1 then ret false
      else
        let isChanged :=
          negb (Qt.indexOf (" A" +:+ tab) r.2 =? -1)
          || negb (Qt.indexOf (" D" +:+ tab) r.2 =? -1) in
        ret (negb isChanged).

(** ** File names *)

(** The loop of [findFileIndex] from entry [i] on, over [n] entries. *)
Fixpoint findFileIndex_from (rf : RevFile) (nm dr : string) (s : State)
    (i : Z) (n : nat) : option Z :=
  match n with
  | O => Some (-1)
  | S k =>
      ni ← nameAt rf i;
      fname ← vec_at (fileNamesVec s) ni;
      if String.eqb fname nm
      then
        di ← dirAt rf i;
        dname ← vec_at (dirNamesVec s) di;
        if String.eqb dname dr then Some i
        else findFileIndex_from rf nm dr s (i + 1) k
      else findFileIndex_from rf nm dr s (i + 1) k
  end.

Definition findFileIndex (rf : RevFile) (name : string) (s : State)
  : option Z :=
  if Qt.isEmpty name then Some (-1)
  else
    let idx := Qt.lastIndexOf "/" name + 1 in
    let dr := Qt.left idx name in
    let nm := Qt.mid idx name in
    findFileIndex_from rf nm dr s 0 (Z.to_nat (count rf)).

Definition removeExtraFileInfo (rowName : string) : string :=
  if Qt.contains " --> " rowName (* return destination file name *)
  then Qt.section " (" 0 0 (Qt.section " --> " 1 1 rowName)
  else rowName.

(** Modelled from the spec: [Git::filePath] (declared in git.h, which is
    not among the sources): the directory name followed by the file name
    of an entry, both read from the shared name tables. *)
Definition filePath (rf : RevFile) (i : Z) (s : State) : option string :=
  di ← dirAt rf i;
  dname ← vec_at (dirNamesVec s) di;
  ni ← nameAt rf i;
  fname ← vec_at (fileNamesVec s) ni;
  Some (dname +:+ fname).

Definition addExtraFileInfo (rowName sha_ diffToSha : string) (allMergeFiles : bool)
  : M string :=
  files_ <- getFiles sha_ diffToSha allMergeFiles EmptyString ;;
  match files_ with
  | None => ret rowName
  | Some f =>
      idx <- (s <- gets id ;; deref (findFileIndex f rowName s)) ;;
      if idx =? -1 then ret rowName
      else
        let extSt := extendedStatus f idx in
        if Qt.isEmpty extSt then ret rowName else ret extSt
  end.

Definition formatPatchFileHeader (rowName sha_ diffToSha : string)
    (combined allMergeFiles : bool) : M string :=
  if combined
  then ret ("diff --combined " +:+ rowName)
       (* rename/copy still not supported in this case *)
  else
    (* let's see if it's a rename/copy... *)
    rowName' <- addExtraFileInfo rowName sha_ diffToSha allMergeFiles ;;
    if Qt.contains " --> " rowName' (* ...it is! *)
    then
      let destFile := Qt.section " (" 0 0 (Qt.section " --> " 1 1 rowName') in
      let origFile := Qt.section " --> " 0 0 rowName' in
      ret ("diff --git a/" +:+ origFile +:+ " b/" +:+ destFile)
    else ret ("diff --git a/" +:+ rowName' +:+ " b/" +:+ rowName').

(** ** Working directory, index and commits *)

(** The loop of [getOtherFiles] from entry [i] on, over [n] entries. *)
Fixpoint getOtherFiles_from (f : RevFile) (selFiles : list string)
    (onlyInIndex : bool) (s : State) (i : Z) (n : nat) : option (list string) :=
  match n with
  | O => Some []
  | S k =>
      fp ← filePath f i s;
      keep ← (if negb (containsName fp selFiles) (* not selected... *)
              then if negb onlyInIndex then Some true
                   else statusCmp f i IN_INDEX
              else Some false);
      rest ← getOtherFiles_from f selFiles onlyInIndex s (i + 1) k;
      Some (if keep : bool then fp :: rest else rest)
  end.

Definition getOtherFiles (selFiles : list string) (onlyInIndex : bool)
  : M (list string) :=
  env <- ask ;;
  files_ <- getFiles (ZERO_SHA env) EmptyString false EmptyString ;;
  f <- deref files_ ;; (* files != NULL *)
  s <- gets id ;;
  deref (getOtherFiles_from f selFiles onlyInIndex s 0 (Z.to_nat (count f))).

(** The loop of [updateIndex]: the selected files split into those to add
    and those to remove. *)
Fixpoint updateIndex_split (files_ : option RevFile) (selFiles : list string)
    (s : State) : option (list string * list string) :=
  match selFiles with
  | [] => Some ([], [])
  | it :: rest =>
      f ← files_;
      idx ← findFileIndex f it s;
      del ← statusCmp f idx DELETED;
      split ← updateIndex_split files_ rest s;
      Some (if del : bool then (split.1, it :: split.2)
            else (it :: split.1, split.2))
  end.

Definition updateIndex (selFiles : list string) : M bool :=
  env <- ask ;;
  files_ <- getFiles (ZERO_SHA env) EmptyString false EmptyString ;;
  s <- gets id ;;
  split <- deref (updateIndex_split files_ selFiles s) ;;
  let toAdd := split.1 in
  let toRemove := split.2 in
  rmFailed <- (if negb (isNil toRemove)
               then r <- run ("git rm --cached --ignore-unmatch -- "
                                +:+ quoteList env toRemove) ;;
                    ret (negb r.1)
               else ret false) ;;
  if rmFailed then ret false
  else
    addFailed <- (if negb (isNil toAdd)
                  then r <- run ("git add -- " +:+ quoteList env toAdd) ;;
                       ret (negb r.1)
                  else ret false) ;;
    if addFailed then ret false else ret true.

(** The part of [commitFiles] between the writing of the message file and
    the label [fail]; the result is the value of [ret] on arrival there. *)
Definition commitFiles_steps (selFiles : list string)
    (cmtOptions msgFile : string) : M bool :=
  env <- ask ;;
  (* get not selected files but updated in index to restore at the end *)
  notSel <- getOtherFiles selFiles (optOnlyInIndex env) ;;
  (* call git reset to remove not selected files from index *)
  resetFailed <- (if negb (isNil notSel)
                  then r <- run ("git reset -- " +:+ quoteList env notSel) ;;
                       ret (negb r.1)
                  else ret false) ;;
  if resetFailed then ret false
  else
    (* update index with selected files *)
    u <- updateIndex selFiles ;;
    if negb u then ret false
    else
      (* now we can finally commit.. *)
      c <- run ("git commit" +:+ cmtOptions +:+ " -F " +:+ quote env msgFile) ;;
      if negb c.1 then ret false
      else
        (* restore not selected files that were already in index *)
        restoreFailed <- (if negb (isNil notSel)
                          then u' <- updateIndex notSel ;; ret (negb u')
                          else ret false) ;;
        if restoreFailed then ret false else ret true.

Definition commitFiles (selFiles : list string) (msg : string) (amend : bool)
  : M bool :=
  env <- ask ;;
  gd <- gets gitDir ;;
  let msgFile := gd +:+ "/qgit_cmt_msg.txt" in
  w <- writeToFile msgFile msg ;;
  if negb w then ret false (* early skip *)
  else
    (* add user selectable commit options *)
    let cmtOptions :=
      (if negb (Qt.isEmpty (CMT_ARGS env)) then " " +:+ CMT_ARGS env
       else EmptyString)
      +:+ (if SIGN_CMT_F env then " -s" else EmptyString)
      +:+ (if VERIFY_CMT_F env then " -v" else EmptyString)
      +:+ (if amend then " --amend" else EmptyString) in
    ret_ <- commitFiles_steps selFiles cmtOptions msgFile ;;
    (* fail: *)
    wd <- gets workDir ;;
    QDir_remove wd msgFile ;;;
    ret ret_.

Definition mkPatchFromWorkDir (msg patchFile : string) (files_ : list string)
  : M bool :=
  env <- ask ;;
  u <- updateIndex files_ ;;
  if negb u then ret false
  else
    r <- run ("git diff -C HEAD -- " +:+ quoteList env files_) ;;
    if negb r.1 then ret false
    else
      writeToFile patchFile
        ("Subject: " +:+ msg +:+ nl +:+ "---" +:+ nl +:+ r.2).

(** Where the straight-line part of [stgCommit] leaves to. *)
Inductive StgExit := StgDone | StgFail | StgFailAndUnstash.

(** Steps 1 to 5 of [stgCommit], up to the jump to one of its labels. *)
Definition stgCommit_steps (selFiles : list string)
    (msg patchName : string) (fold : bool) (patchFile : string)
    (partialSelection : bool) (notSel : list string) : M StgExit :=
  env <- ask ;;
  (* create a patch with diffs between working dir and HEAD *)
  p <- mkPatchFromWorkDir msg patchFile selFiles ;;
  if negb p then ret StgFail
  else
    (* Step 2: stash working dir modified files *)
    (if partialSelection
     then
       modify (set_errorReportingEnabled false) ;;;
       _ <- run "git stash" ;;
       modify (set_errorReportingEnabled true)
     else ret tt) ;;;
    (* Step 3: call stg import/fold; setup a clean state *)
    st <- run "stg status --reset" ;;
    if negb st.1 then ret StgFailAndUnstash
    else
      failed <-
        (if fold
         then
           editFailed <- (if negb (Qt.isEmpty msg)
                          then r <- run ("stg edit --message "
                                           +:+ quote env (Qt.trimmed msg)) ;;
                               ret (negb r.1)
                          else ret false) ;;
           if editFailed then ret true
           else
             f <- run ("stg fold " +:+ quote env patchFile) ;;
             if negb f.1 then ret true
             else
               rf <- run "stg refresh" ;; (* refresh needed after fold *)
               ret (negb rf.1)
         else
           r <- run ("stg import --mail --name " +:+ quote env patchName
                       +:+ " " +:+ quote env patchFile) ;;
           ret (negb r.1)) ;;
      if failed then ret StgFailAndUnstash
      else if partialSelection
      then
        (* Step 4: unstash and merge working dir modified files *)
        modify (set_errorReportingEnabled false) ;;;
        _ <- run "git stash pop" ;;
        modify (set_errorReportingEnabled true) ;;;
        (* Step 5: restore not selected files that were already in index *)
        restoreFailed <- (if negb (isNil notSel)
                          then u <- updateIndex notSel ;; ret (negb u)
                          else ret false) ;;
        if restoreFailed then ret StgFail else ret StgDone
      else ret StgDone.

Definition stgCommit (selFiles : list string) (msg patchName : string)
    (fold : bool) : M bool :=
  env <- ask ;;
  gd <- gets gitDir ;;
  let patchFile := gd +:+ "/qgit_tmp_patch.txt" in
  (* in case we don't have files to restore we can shortcut various commands *)
  other <- getOtherFiles selFiles (negb (optOnlyInIndex env)) ;;
  let partialSelection := negb (isNil other) in
  (* get not selected files but updated in index to restore at the end *)
  notSel <- (if partialSelection
             then getOtherFiles selFiles (optOnlyInIndex env)
             else ret []) ;;
  e <- stgCommit_steps selFiles msg patchName fold patchFile
         partialSelection notSel ;;
  (match e with
   | StgFailAndUnstash =>
       (* fail_and_unstash: *)
       if partialSelection
       then
         _ <- run "git reset" ;;
         modify (set_errorReportingEnabled false) ;;;
         _ <- run "git stash pop" ;;
         modify (set_errorReportingEnabled true)
       else ret tt
   | _ => ret tt
   end) ;;;
  (* fail: exit: *)
  wd <- gets workDir ;;
  QDir_remove wd patchFile ;;;
  ret (match e with StgDone => true | _ => false end).

(** ** Vocabulary of the statements below *)

(** The index maps tag name [t] to identifier [A]: some entry keyed [A]
    lists [t] among its tags, and no entry under another key does. *)
Definition tagAt (m : list (string * Reference)) (t A : string) : Prop :=
  (exists rf, In (A, rf) m /\ In t (tags rf))
  /\ forall A' rf', In (A', rf') m -> In t (tags rf') -> A' = A.

(** The same for a local branch name. *)
Definition branchAt (m : list (string * Reference)) (b B : string) : Prop :=
  (exists rf, In (B, rf) m /\ In b (branches rf))
  /\ forall B' rf', In (B', rf') m -> In b (branches rf') -> B' = B.

(** The name is present in no entry of the index. *)
Definition unnamed (m : list (string * Reference)) (name : string) : Prop :=
  forall key rf, In (key, rf) m ->
    ~ In name (tags rf) /\ ~ In name (branches rf)
    /\ ~ In name (remoteBranches rf) /\ ~ In name (refs rf)
    /\ stgitPatch rf <> name.

(** The command by which [getFiles] computes the file set of one revision
    against its parents. *)
Definition getFiles_cmd (sha_ : string) : string :=
  "git diff-tree --no-color -r -c " +:+ sha_.

(** What a plain [getFiles] request (no diff target, no merge files) lets
    the outside see: a turn of the event loop, and the command above with
    or without rename detection. *)
Definition plainEvent (sha_ : string) (e : Event) : Prop :=
  match e with
  | EvProcessEvents => True
  | EvRun _ c _ _ =>
      c = Qt.replace "git diff-tree" "git diff-tree -C" (getFiles_cmd sha_)
      \/ c = getFiles_cmd sha_
  | _ => False
  end.

(** The commands that are run with error reporting switched off because
    they may legitimately fail. *)
Inductive Probe : string -> Prop :=
| probe_highlight : Probe "source-highlight -V"
| probe_user_name : Probe "git config user.name"
| probe_user_email : Probe "git config user.email"
| probe_global_name : Probe "git config --global user.name"
| probe_global_email : Probe "git config --global user.email"
| probe_stash : Probe "git stash"
| probe_stash_pop : Probe "git stash pop"
| probe_abbreviated (refName : string) :
    Probe ("git rev-parse --revs-only " +:+ refName)
| probe_renames (runCmd : string) :
    Probe (Qt.replace "git diff-tree" "git diff-tree -C" runCmd).

(** A silent run is in order when it is a probe. *)
Definition silentOk (e : Event) : Prop :=
  match e with
  | EvRun _ c false _ => Probe c
  | _ => True
  end.

(** A successful write is in order when it writes a file that [W] admits. *)
Definition writeOk (W : string -> Prop) (e : Event) : Prop :=
  match e with
  | EvWriteFile p _ true => W p
  | _ => True
  end.

(** The flag invariant: error reporting has value [b], and every silent
    run recorded since the trace [tr0] is a probe. *)
Definition Inv (tr0 : list Event) (b : bool) (s : State) : Prop :=
  errorReportingEnabled s = b
  /\ exists new, trace s = tr0 ++ new /\ Forall silentOk new.

(** The file invariant: every successful write recorded since the trace
    [tr0] is admitted by [W]. *)
Definition Writes (tr0 : list Event) (W : string -> Prop) (s : State) : Prop :=
  exists new, trace s = tr0 ++ new /\ Forall (writeOk W) new.

(** A command takes states that satisfy [I] to states that satisfy [J],
    whenever it returns. *)
Definition trans {A} (env : Env) (I J : State -> Prop) (m : M A) : Prop :=
  forall s a s', I s -> m env s = Some (a, s') -> J s'.

(** A family of state properties, indexed by the value of the error
    reporting flag, that the primitive steps of the member functions carry
    along: switching the flag moves between the members of the family, a
    run keeps the member (a silent run provided it is a probe), a write
    keeps it provided [W] admits the file, and the other steps keep it. *)
Record Carried (env : Env) (W : string -> Prop) (I : bool -> State -> Prop)
  : Prop := {
  carried_set : forall b b',
    trans env (I b) (I b') (modify (set_errorReportingEnabled b'));
  carried_run : forall b c,
    (b = false -> Probe c) -> trans env (I b) (I b) (run c);
  carried_events : forall b, trans env (I b) (I b) EM_PROCESS_EVENTS;
  carried_post : forall b c d,
    trans env (I b) (I b) (modify (log_event (EvPostError c d)));
  carried_highlighter : forall b f v,
    trans env (I b) (I b) (modify (set_textHighlighter f v));
  carried_cacheNeedsUpdate : forall b c,
    trans env (I b) (I b) (modify (set_cacheNeedsUpdate c));
  carried_insert : forall b k d, trans env (I b) (I b) (insertNewFiles k d);
  carried_write : forall b p d,
    W p -> trans env (I b) (I b) (writeToFile p d);
  carried_remove : forall b d n, trans env (I b) (I b) (QDir_remove d n)
}.

(** The operations, among those embedded here, that switch error
    reporting off for a probe or can reach one that does. *)
Inductive Operation :=
| OpCheckEnvironment
| OpUserInfo
| OpGetRefSha (refName : string) (type : RefType) (askGit : bool)
| OpIsPatchName (nm : string)
| OpRunDiffTree (runCmd : string)
| OpFormatPatchFileHeader (rowName sha_ diffToSha : string)
    (combined allMergeFiles : bool)
| OpMkPatchFromWorkDir (msg patchFile : string) (files_ : list string)
| OpGetFiles (sha_ diffToSha : string) (allFiles : bool) (path : string)
| OpIsTreeModified (sha_ : string)
| OpIsSameFiles (tree1Sha tree2Sha : string)
| OpAddExtraFileInfo (rowName sha_ diffToSha : string) (allMergeFiles : bool)
| OpUpdateIndex (selFiles : list string)
| OpCommitFiles (selFiles : list string) (msg : string) (amend : bool)
| OpStgCommit (selFiles : list string) (msg patchName : string) (fold : bool).

Definition exec (op : Operation) : M unit :=
  match op with
  | OpCheckEnvironment => checkEnvironment
  | OpUserInfo => _ <- userInfo ;; ret tt
  | OpGetRefSha n t a => _ <- getRefSha n t a ;; ret tt
  | OpIsPatchName n => _ <- isPatchName n ;; ret tt
  | OpRunDiffTree c => _ <- runDiffTreeWithRenameDetection c ;; ret tt
  | OpFormatPatchFileHeader a b c d e =>
      _ <- formatPatchFileHeader a b c d e ;; ret tt
  | OpMkPatchFromWorkDir m p l => _ <- mkPatchFromWorkDir m p l ;; ret tt
  | OpGetFiles a b c d => _ <- getFiles a b c d ;; ret tt
  | OpIsTreeModified a => _ <- isTreeModified a ;; ret tt
  | OpIsSameFiles a b => _ <- isSameFiles a b ;; ret tt
  | OpAddExtraFileInfo a b c d => _ <- addExtraFileInfo a b c d ;; ret tt
  | OpUpdateIndex l => _ <- updateIndex l ;; ret tt
  | OpCommitFiles l m a => _ <- commitFiles l m a ;; ret tt
  | OpStgCommit l m n f => _ <- stgCommit l m n f ;; ret tt
  end.

Fixpoint exec_all (ops : list Operation) : M unit :=
  match ops with
  | [] => ret tt
  | op :: ops' => exec op ;;; exec_all ops'
  end.

(** One [getFiles] request. *)
Record FilesRequest := {
  req_sha : string;
  req_diffToSha : string;
  req_allFiles : bool;
  req_path : string
}.

(** A request for the difference between two arbitrary trees: the diff
    target is given and the source is not the working directory. *)
Definition pairwise (env : Env) (q : FilesRequest) : Prop :=
  Qt.isEmpty (req_diffToSha q) = false /\ req_sha q <> ZERO_SHA env.

(** A sequence of requests, served one after the other. *)
Fixpoint getFiles_all (qs : list FilesRequest) : M (list (option RevFile)) :=
  match qs with
  | [] => ret []
  | q :: qs' =>
      r <- getFiles (req_sha q) (req_diffToSha q) (req_allFiles q) (req_path q) ;;
      rs <- getFiles_all qs' ;;
      ret (r :: rs)
  end.

End Git.

(* ===================================================================== *)
(** * The main window: opening or changing the repository *)
(* ===================================================================== *)

Module MainImpl.

(** The arguments of one [setRepository] call. *)
Record Call := {
  newDir : string;
  refresh : bool;
  keepSelection : bool;
  passedArgs : option (list string);
  overwriteArgs : bool
}.

(** What the window does to its collaborators, in order. *)
Inductive Event :=
| EvRegister                       (* EM_REGISTER(exExiting) *)
| EvRemove                         (* EM_REMOVE(exExiting) *)
| EvGetBaseDir (dir : string)
| EvStop (archiveChanged : bool)
| EvSetWindowTitle (title : string)
| EvClear (complete : bool)
| EvCloseAllTabs
| EvUpdateGlobalActions (b : bool)
| EvUpdateContextActions
| EvActCommitSetEnabled (b : bool)
| EvInitEnter (dir : string) (args : option (list string)) (overwrite : bool)
                                   (* git->init is entered *)
| EvInitLeave                      (* git->init is left, by return or throw *)
| EvUpdateCommitMenu (b : bool)
| EvActCheckWorkDirSetChecked (b : bool)
| EvUpdateRecentRepoMenu (dir : string)
| EvShowMessage (msg : string)
| EvThrowPending.

(** What a blocking [git->init] does while it is in flight.  It gives the
    event loop a turn from time to time; during such a turn a further
    [setRepository] call can arrive ([Reenters], with the behaviour the
    initialisation of that call would have), and a turn can end with a
    pending exception being thrown ([Throws]). *)
Inductive InitRun :=
| Returns (ok isStGITStack diffIndexFlag : bool)
| Throws (excpId : Z)
| Reenters (call : Call) (nested : InitRun) (rest : InitRun).

(** Answers of the collaborators that are not part of the sources. *)
Record Env := {
  exExiting : Z;
  (** [git->getBaseDir]: the base directory and whether the archive changed *)
  getBaseDir : string -> string * bool;
  (** [EM_THROW_PENDING]: an exception is still pending *)
  pending : option Z
}.

Record State := {
  setRepositoryBusy : bool;
  curDir : string;
  trace : list Event
}.

Definition set_busy (b : bool) (s : State) : State :=
  {| setRepositoryBusy := b; curDir := curDir s; trace := trace s |}.
Definition set_curDir (d : string) (s : State) : State :=
  {| setRepositoryBusy := setRepositoryBusy s; curDir := d; trace := trace s |}.
Definition log (es : list Event) (s : State) : State :=
  {| setRepositoryBusy := setRepositoryBusy s; curDir := curDir s;
     trace := trace s ++ es |}.

(** How a call ends: it returns, or an exception leaves it. *)
Inductive Outcome := Returned | Threw (excpId : Z).

(** How [git->init] ends: an exception leaves it, or it returns its status
    together with what [git->isStGITStack()] and [testFlag(DIFF_INDEX_F)]
    answer afterwards. *)
Definition Verdict : Type := Z + bool * bool * bool.

(** [git->init] in flight: calls that arrive meanwhile are served by
    [reenter]; an exception that leaves one of them leaves the
    initialisation too. *)
Definition git_init (reenter : InitRun -> Call -> State -> Outcome * State)
  : InitRun -> State -> Verdict * State :=
  fix init (b : InitRun) (s : State) {struct b} : Verdict * State :=
    match b with
    | Returns ok stg flag => (inr (ok, stg, flag), s)
    | Throws i => (inl i, s)
    | Reenters call nested rest =>
        match reenter nested call s with
        | (Returned, s') => init rest s'
        | (Threw j, s') => (inl j, s')
        end
    end.

(** The text of [MainImpl::setRepository], over the initialisation it
    starts. *)
Definition setRepository_with (env : Env) (init : State -> Verdict * State)
    (c : Call) (s : State) : Outcome * State :=
  if setRepositoryBusy s then (Returned, s)
  else
    let s := set_busy true s in
    (* try *)
    let s := log [EvRegister] s in
    let base := getBaseDir env (newDir c) in
    let archiveChanged := base.2 in
    let s := set_curDir base.1 (log [EvGetBaseDir (newDir c)] s) in
    (* stop all pending processes, non blocking *)
    let s := log [EvStop archiveChanged] s in
    (* now we can clear all our data *)
    let s := log [EvSetWindowTitle (curDir s +:+ " - QGit")] s in
    let complete := negb (refresh c) || negb (keepSelection c) in
    let s := log [EvClear complete] s in
    let s := if archiveChanged then log [EvCloseAllTabs] s else s in
    (* disable all actions *)
    let s := log [EvUpdateGlobalActions false; EvUpdateContextActions;
                  EvActCommitSetEnabled false] s in
    (* blocking call *)
    match init (log [EvInitEnter (curDir s) (passedArgs c) (overwriteArgs c)] s)
    with
    | (inr (ok, stg, flag), s) =>
        let s := log [EvInitLeave] s in
        let s := log [EvUpdateCommitMenu (ok && stg);
                      EvActCheckWorkDirSetChecked flag] s in
        let s :=
          if ok
          then
            let s := log [EvUpdateGlobalActions true] s in
            if archiveChanged then log [EvUpdateRecentRepoMenu (curDir s)] s
            else s
          else log [EvShowMessage "Not a git archive"] s in
        let s := set_busy false s in
        (Returned, log [EvRemove] s)
    | (inl i, s) =>
        (* catch (int i) *)
        let s := log [EvInitLeave] s in
        let s := log [EvRemove] s in
        if i =? exExiting env
        then
          let s := log [EvThrowPending] s in
          match pending env with
          | Some j => (Threw j, s)
          | None => (Returned, s)
          end
        else (Threw i, s) (* re-throw *)
    end.

Fixpoint setRepository (env : Env) (beh : InitRun) (c : Call) (s : State)
    {struct beh} : Outcome * State :=
  setRepository_with env (git_init (setRepository env) beh) c s.

(** How an initialisation ends when the calls that arrive meanwhile leave
    it alone. *)
Fixpoint verdict (beh : InitRun) : Verdict :=
  match beh with
  | Returns ok stg flag => inr (ok, stg, flag)
  | Throws i => inl i
  | Reenters _ _ rest => verdict rest
  end.

(** Whether an initialisation runs to its end. *)
Fixpoint completes (beh : InitRun) : bool :=
  match beh with
  | Returns _ _ _ => true
  | Throws _ => false
  | Reenters _ _ rest => completes rest
  end.

(** The number of initialisations in flight at the end of a trace, and
    the largest number in flight at any point of it. *)
Fixpoint inFlight_from (cur top : nat) (tr : list Event) : nat * nat :=
  match tr with
  | [] => (cur, top)
  | EvInitEnter _ _ _ :: tr' => inFlight_from (S cur) (Nat.max top (S cur)) tr'
  | EvInitLeave :: tr' => inFlight_from (Nat.pred cur) top tr'
  | _ :: tr' => inFlight_from cur top tr'
  end.

Definition inFlight (tr : list Event) : nat := (inFlight_from 0 0 tr).1.
Definition maxInFlight (tr : list Event) : nat := (inFlight_from 0 0 tr).2.

End MainImpl.

(* ===================================================================== *)
(** * A small repository, used to exercise the statements *)
(* ===================================================================== *)

Module Sample.

Import Git.


Definition env0 : Env := {|
  ZERO_SHA := "0000000000000000000000000000000000000000";
  CUSTOM_SHA := "*** CUSTOM * CUSTOM * CUSTOM * CUSTOM **";
  ALL_MERGE_FILES := "ALL_MERGE_FILES";
  QUOTE_CHAR := "$";
  GIT_VERSION := "1.5.5";
  optOnlyInIndex := true;
  CMT_ARGS := EmptyString;
  SIGN_CMT_F := false;
  VERIFY_CMT_F := false;
  systemEnvironment := ["HOME=/home/joe"; "GIT_AUTHOR_NAME=Joe"];
  tool := fun _ _ _ => (false, EmptyString);
  writable := fun _ _ => true;
  parseDiffFormat := fun _ names =>
    ({| pathsIdx := []; status := []; onlyModified := true; extStatus := [] |},
     names)
|}.

Definition rev_of (id : string) (ps : list string) (idx : Z) : Rev := {|
  sha := id; parents := ps; childs := []; orderIdx := idx;
  shortLog := "log of " +:+ id;
  descRefsMaster := -1; ancRefsMaster := -1; descBrnMaster := -1;
  descRefs := []; ancRefs := []; descBranches := []
|}.

(** A renamed file as two entries, the new name added and the old name
    deleted, both carrying the arrow. *)
Definition renameSet : RevFile := {|
  pathsIdx := [(0, 0); (0, 1)];
  status := [NEW; DELETED];
  onlyModified := false;
  extStatus := ["old.txt --> new.txt (R100%)"; "old.txt --> new.txt (R100%)"]
|}.

(** History [root <- mid <- tip], tag v1 on [mid], branch main on [tip]. *)
Definition state0 : State := {|
  errorReportingEnabled := true;
  isTextHighlighterFound := false;
  textHighlighterVersionFound := EmptyString;
  cacheNeedsUpdate := false;
  workDir := "/repo";
  gitDir := "/repo/.git";
  revData := {|
    revs := <["tip" := rev_of "tip" ["mid"] 0]>
              (<["mid" := rev_of "mid" ["root"] 1]>
                 (<["root" := rev_of "root" [] 2]> ∅));
    revOrder := ["tip"; "mid"; "root"] |};
  refsShaMap :=
    [("mid", {| tags := ["v1"]; branches := []; remoteBranches := [];
                refs := []; stgitPatch := EmptyString |});
     ("tip", {| tags := []; branches := ["main"]; remoteBranches := [];
                refs := []; stgitPatch := EmptyString |})];
  revsFiles := <["tip" := renameSet]> ∅;
  fileNamesVec := ["new.txt"; "old.txt"];
  dirNamesVec := [EmptyString];
  files := ∅;
  trace := []
|}.

(** An outside world in which rename detection fails for want of memory
    and every other command succeeds. *)
Definition env1 : Env := {|
  ZERO_SHA := "0000000000000000000000000000000000000000";
  CUSTOM_SHA := "*** CUSTOM * CUSTOM * CUSTOM * CUSTOM **";
  ALL_MERGE_FILES := "ALL_MERGE_FILES";
  QUOTE_CHAR := "$";
  GIT_VERSION := "1.5.5";
  optOnlyInIndex := true;
  CMT_ARGS := EmptyString;
  SIGN_CMT_F := true;
  VERIFY_CMT_F := false;
  systemEnvironment := ["HOME=/home/joe"; "GIT_AUTHOR_NAME=Joe"];
  tool := fun _ _ cmd =>
    if Qt.startsWith "git diff-tree -C" cmd then (false, EmptyString)
    else (true, "git version 2.1.0");
  writable := fun _ _ => true;
  parseDiffFormat := fun _ names => (renameSet, names)
|}.

(** The same history with uncommitted changes on top: the working
    directory revision, with its file set in the cache, and a stale commit
    message file on disk. *)
Definition state1 : State := {|
  errorReportingEnabled := true;
  isTextHighlighterFound := false;
  textHighlighterVersionFound := EmptyString;
  cacheNeedsUpdate := false;
  workDir := "/repo";
  gitDir := "/repo/.git";
  revData := {|
    revs := <[ZERO_SHA env1 := rev_of (ZERO_SHA env1) ["tip"] 0]>
              (<["tip" := rev_of "tip" ["mid"] 1]>
                 (<["mid" := rev_of "mid" ["root"] 2]>
                    (<["root" := rev_of "root" [] 3]> ∅)));
    revOrder := [ZERO_SHA env1; "tip"; "mid"; "root"] |};
  refsShaMap := refsShaMap state0;
  revsFiles := <[ZERO_SHA env1 := renameSet]> ∅;
  fileNamesVec := ["new.txt"; "old.txt"];
  dirNamesVec := [EmptyString];
  files := {["/repo/.git/qgit_cmt_msg.txt"]};
  trace := []
|}.

(** The main window before a repository is opened; and a session during
    which the user asks twice more for the repository, the second time while
    the first further call is still being looked at. *)
Definition window_env : MainImpl.Env := {|
  MainImpl.exExiting := 1;
  MainImpl.getBaseDir := fun d => (d, true);
  MainImpl.pending := None
|}.

Definition window0 : MainImpl.State := {|
  MainImpl.setRepositoryBusy := false;
  MainImpl.curDir := EmptyString;
  MainImpl.trace := []
|}.

Definition open_repo : MainImpl.Call := {|
  MainImpl.newDir := "/repo";
  MainImpl.refresh := false;
  MainImpl.keepSelection := false;
  MainImpl.passedArgs := None;
  MainImpl.overwriteArgs := false
|}.

Definition impatient : MainImpl.InitRun :=
  MainImpl.Reenters open_repo
    (MainImpl.Reenters open_repo (MainImpl.Returns true false false)
       (MainImpl.Returns true false false))
    (MainImpl.Returns true false true).

End Sample.

(* ===================================================================== *)
(** * Further string and list operations *)
(* ===================================================================== *)

Module QtText.

(** [QChar::toLower] on Latin-1: the capital letters, accented ones
    included, move to their small forms. *)
Definition toLowerChar (a : ascii) : ascii :=
  let n := nat_of_ascii a in
  if ((65 <=? n)%nat && (n <=? 90)%nat)
     || ((192 <=? n)%nat && (n <=? 222)%nat && negb (n =? 215)%nat)
  then ascii_of_nat (n + 32) else a.

(** [QString::toLower]. *)
Fixpoint toLower (s : string) : string :=
  match s with
  | EmptyString => EmptyString
  | String a s' => String (toLowerChar a) (toLower s')
  end.

(** [QChar::isDigit] on Latin-1. *)
Definition isDigit (a : ascii) : bool :=
  let n := nat_of_ascii a in (48 <=? n)%nat && (n <=? 57)%nat.

(** [QString::count(QChar)]. *)
Fixpoint countChar (c : ascii) (s : string) : nat :=
  match s with
  | EmptyString => O
  | String a s' => ((if Ascii.eqb a c then 1 else 0) + countChar c s')%nat
  end.

(** [QString::mid(position, n)] for a position that is not negative:
    empty beyond the end, at most [n] characters, all of the rest when [n]
    is negative. *)
Definition midN (pos n : Z) (s : string) : string :=
  if Qt.size s <? pos then EmptyString
  else if n <? 0 then Qt.dropS (Z.to_nat pos) s
  else Qt.takeS (Z.to_nat n) (Qt.dropS (Z.to_nat pos) s).

(** [QString::replace(position, n, after)]: the [n] characters from
    [position] on make room for [after]; nothing happens for a position
    outside the string. *)
Definition replaceAt (pos n : Z) (after s : string) : string :=
  if (pos <? 0) || (Qt.size s <? pos) then s
  else Qt.takeS (Z.to_nat pos) s +:+ after +:+ Qt.dropS (Z.to_nat (pos + n)) s.

(** [QString::number(int)]. *)
Definition number (n : Z) : string := pretty n.

(** [QStringList::indexOf]: the first position of the text, -1 when it is
    missing. *)
Fixpoint indexOf_from (x : string) (l : list string) (i : Z) : Z :=
  match l with
  | [] => -1
  | y :: l' => if String.eqb y x then i else indexOf_from x l' (i + 1)
  end.

Definition indexOf (x : string) (l : list string) : Z := indexOf_from x l 0.

(** [QStringList::removeAt] at a valid position. *)
Definition removeAt (i : Z) (l : list string) : list string :=
  delete (Z.to_nat i) l.

(** [QString::split(QRegularExpression("\n|(\r\n)"))]: a line ends at a
    line feed, or at a carriage return that a line feed follows. *)
Definition lf : ascii := ascii_of_nat 10.
Definition cr : ascii := ascii_of_nat 13.

Fixpoint splitLines_from (cur s : string) : list string :=
  match s with
  | EmptyString => [cur]
  | String a s' =>
      if Ascii.eqb a lf then cur :: splitLines_from EmptyString s'
      else
        match s' with
        | String b s'' =>
            if Ascii.eqb a cr && Ascii.eqb b lf
            then cur :: splitLines_from EmptyString s''
            else splitLines_from (cur +:+ String a EmptyString) s'
        | EmptyString => splitLines_from (cur +:+ String a EmptyString) s'
        end
  end.

Definition splitLines (s : string) : list string :=
  splitLines_from EmptyString s.

End QtText.

(* ===================================================================== *)
(** * The Git object: trees, working directory files, diffs and patches *)
(* ===================================================================== *)

Module GitTools.

Import Git.
Local Open Scope git_scope.

(** ** Tree entries *)

Module TreeEntry.

(** [Git::TreeEntry] with the fields its comparison and [getTree] use. *)
Record t := { name : string; sha : string; type : string }.

(** [TreeEntry::operator<]. *)
Definition operator_lt (this te : t) : bool :=
  if String.eqb (type this) (type te)
  then String.ltb (name this) (name te)
  else
    (* directories are smaller then files to appear as first when sorted *)
    if String.eqb (type this) "tree" then true
    else if String.eqb (type te) "tree" then false
    else String.ltb (name this) (name te).

End TreeEntry.

(** ** File kinds *)

(** [QImageReader::supportedImageFormats()] depends on the plugins that
    are installed; it is the parameter [formats]. *)
Definition isImageFile (formats : list string) (file : string) : bool :=
  let ext := QtText.toLower (Qt.section "." (-1) (-1) file) in
  containsName ext formats.

Definition binaryFileExtensions : list string :=
  ["bmp"; "gif"; "jpeg"; "jpg"; "png"; "svg"; "tiff"; "pcx"; "xcf"; "xpm";
   "bz"; "bz2"; "rar"; "tar"; "z"; "gz"; "tgz"; "zip"].

Definition isBinaryFile (formats : list string) (file : string) : bool :=
  if isImageFile formats file then true
  else
    let ext := QtText.toLower (Qt.section "." (-1) (-1) file) in
    existsb (String.eqb ext) binaryFileExtensions.

(** ** Names in load order *)

Definition appendNamesWithId (names : list string) (sha_ : string)
    (data : list string) (onlyLoaded : bool) (s : State) : option (list string) :=
  let r := revLookup sha_ None s in
  if onlyLoaded && negb (bool_decide (is_Some r)) then Some names
  else if onlyLoaded
  then (* prepare for later sorting *)
    r' ← r;
    let cap := Qt.arg_int (orderIdx r') 6 +:+ " " in
    Some (names ++ ((fun it => cap +:+ it) <$> data))
  else Some (names ++ data).

(** The first loop of [sortShaListByIndex]. *)
Fixpoint sortShaListByIndex_tag (orderedShaList shaList : list string)
    (s : State) : option (list string) :=
  match shaList with
  | [] => Some orderedShaList
  | it :: rest =>
      l ← appendNamesWithId orderedShaList it [it] true s;
      sortShaListByIndex_tag l rest s
  end.

Definition sortShaListByIndex (shaList : list string) (s : State)
  : option (list string) :=
  orderedShaList ← sortShaListByIndex_tag [] shaList s;
  (* strip 'idx' *)
  Some (Qt.section " " (-1) (-1) <$> Qt.sort orderedShaList).

(** ** Files of the working directory *)

(** The inner loop of [getWorkDirFiles]: the leading directories of one
    path, each appended unless it is there. *)
Fixpoint getWorkDirFiles_dirs (fp : string) (j : Z) (cnt : nat)
    (dirs : list string) : list string :=
  match cnt with
  | O => dirs
  | S k =>
      let dir := Qt.section "/" 0 j fp in
      getWorkDirFiles_dirs fp (j + 1) k
        (if QtText.indexOf dir dirs =? -1 then dirs ++ [dir] else dirs)
  end.

(** The outer loop of [getWorkDirFiles] from entry [i] on, over [n]
    entries. *)
Fixpoint getWorkDirFiles_from (f : RevFile) (status_ : Z) (s : State)
    (i : Z) (n : nat) (files_ dirs : list string)
  : option (list string * list string) :=
  match n with
  | O => Some (files_, dirs)
  | S k =>
      c ← statusCmp f i status_;
      if c : bool
      then
        fp ← filePath f i s;
        getWorkDirFiles_from f status_ s (i + 1) k (files_ ++ [fp])
          (getWorkDirFiles_dirs fp 0 (QtText.countChar "/" fp) dirs)
      else getWorkDirFiles_from f status_ s (i + 1) k files_ dirs
  end.

(** The two lists the function fills are its result. *)
Definition getWorkDirFiles (status_ : Z) : M (list string * list string) :=
  env <- ask ;;
  f <- getFiles (ZERO_SHA env) EmptyString false EmptyString ;;
  match f with
  | None => ret ([], [])
  | Some f =>
      s <- gets id ;;
      deref (getWorkDirFiles_from f status_ s 0 (Z.to_nat (count f)) [] [])
  end.

(** ** Diffs and file contents *)

(** [Git::getDiff(sha)], the synchronous overload. *)
Definition getDiff (sha_ : string) : M string :=
  if Qt.isEmpty sha_ then ret EmptyString
  else
    r <- run ("git diff-tree --find-renames -p " +:+ sha_) ;;
    let lines := QtText.splitLines r.2 in
    ret (Qt.join nl (tail lines)).

Definition getWorkDirDiff (fileName : string) : M string :=
  env <- ask ;;
  let runCmd :=
    "git diff-index --no-color -r -z -m -p --full-index --no-commit-id HEAD"
      +:+ (if negb (Qt.isEmpty fileName) then " -- " +:+ quote env fileName
           else EmptyString) in
  r <- run runCmd ;;
  if negb r.1 then ret EmptyString
  else
    (* the file sha of the index is replaced with ZERO_SHA *)
    let idx := Qt.indexOf ".." r.2 in
    ret (if negb (idx =? -1)
         then QtText.replaceAt (idx + 2) 40 (ZERO_SHA env) r.2
         else r.2).

(** [RevFile::ANY], the status that every entry matches, is declared in
    common.h; it is the parameter [ANY]. *)
Definition getFileSha (ANY : Z) (file revSha : string) : M string :=
  env <- ask ;;
  known <- (if String.eqb revSha (ZERO_SHA env)
            then
              w <- getWorkDirFiles ANY ;;
              ret (containsName file w.1) (* it is unknown to git *)
            else ret false) ;;
  if known then ret (ZERO_SHA env)
  else
    let sha_ := if String.eqb revSha (ZERO_SHA env) then "HEAD" else revSha in
    r <- run ("git ls-tree -r " +:+ sha_ +:+ " " +:+ quote env file) ;;
    if negb r.1 then ret EmptyString
    else ret (QtText.midN 12 40 r.2). (* could be empty, deleted file case *)

(** [Git::getFile] called without a receiver: the synchronous read, whose
    status is ignored; the result is what the buffer holds. *)
Definition getFile (fileSha fileName : string) : M string :=
  env <- ask ;;
  let runCmd :=
    if String.eqb fileSha (ZERO_SHA env) then "cat " +:+ quote env fileName
    else if Qt.isEmpty fileSha (* deleted *)
    then "git diff-tree HEAD HEAD" (* fake an empty file reading *)
    else "git cat-file blob " +:+ fileSha in
  r <- run runCmd ;;
  ret r.2.

Definition saveFile (formats : list string) (fileSha fileName path : string)
  : M bool :=
  fileData <- getFile fileSha fileName ;; (* sync call *)
  if isBinaryFile formats fileName then writeToFile path fileData
  else writeToFile path fileData.

(** ** Patches *)

Definition set_workDir (d : string) (s : State) : State :=
  {| errorReportingEnabled := errorReportingEnabled s;
     isTextHighlighterFound := isTextHighlighterFound s;
     textHighlighterVersionFound := textHighlighterVersionFound s;
     cacheNeedsUpdate := cacheNeedsUpdate s;
     workDir := d; gitDir := gitDir s; revData := revData s;
     refsShaMap := refsShaMap s; revsFiles := revsFiles s;
     fileNamesVec := fileNamesVec s; dirNamesVec := dirNamesVec s;
     files := files s; trace := trace s |}.

(** The settings that the patch functions read: the flags [NUMBERS_F] and
    [SIGN_PATCH_F], the extra options stored under [FMT_P_OPT_KEY] and
    [AM_P_OPT_KEY], and whether the repository is an StGit one. *)
Record PatchSettings := {
  NUMBERS_F : bool;
  SIGN_PATCH_F : bool;
  FPOpt : string;
  APOpt : string;
  isStGIT : bool
}.

Definition resetCommits (parentDepth : Z) : M bool :=
  r <- run ("git reset --soft HEAD~" +:+ QtText.number parentDepth) ;;
  ret r.1.

Definition applyPatchFile (cfg : PatchSettings) (patchPath : string)
    (fold isDragDrop : bool) : M bool :=
  env <- ask ;;
  if isStGIT cfg
  then
    if fold
    then
      ok <- run ("stg fold " +:+ quote env patchPath) ;; (* merge in working dir *)
      if ok.1
      then ok' <- run "stg refresh" ;; ret ok'.1 (* update top patch *)
      else ret false
    else r <- run ("stg import --mail " +:+ quote env patchPath) ;; ret r.1
  else
    let runCmd :=
      "git am --utf8 --3way "
        +:+ (if negb (Qt.isEmpty (APOpt cfg))
             then Qt.trimmed (APOpt cfg) +:+ " " else EmptyString)
        +:+ (if isDragDrop then "--keep " else EmptyString)
        +:+ (if SIGN_PATCH_F cfg then "--signoff " else EmptyString) in
    r <- run (runCmd +:+ quote env patchPath) ;;
    ret r.1.

(** [shaList.last()] and [shaList.first()] have no defined result on an
    empty list. *)
Definition formatPatch (cfg : PatchSettings) (shaList : list string)
    (dirPath remoteDir : string) : M bool :=
  env <- ask ;;
  let remote := negb (Qt.isEmpty remoteDir) in
  let runCmd :=
    "git format-patch --no-color"
      +:+ (if NUMBERS_F cfg && negb remote then " -n" else EmptyString)
      +:+ (if remote then " --keep-subject" else EmptyString)
      +:+ " -o " +:+ quote env dirPath
      +:+ (if negb (Qt.isEmpty (FPOpt cfg))
           then " " +:+ Qt.trimmed (FPOpt cfg) else EmptyString) in
  tmp <- gets workDir ;;
  (if remote then modify (set_workDir remoteDir) (* run() uses workDir value *)
   else ret tt) ;;;
  (* shaList is ordered by newest to oldest *)
  last_ <- deref (last shaList) ;;
  first_ <- deref (head shaList) ;;
  r <- run (runCmd +:+ " " +:+ last_ +:+ "^.." +:+ first_) ;;
  modify (set_workDir tmp) ;;;
  ret r.1.

(** ** Vocabulary of the statements below *)

(** The entry lists the name under the kind of reference asked for. *)
Definition listed (type : RefType) (refName : string) (rf : Reference) : Prop :=
  match type with
  | TAG => In refName (tags rf)
  | BRANCH => In refName (branches rf)
  | RMT_BRANCH => In refName (remoteBranches rf)
  | REF => In refName (refs rf)
  | APPLIED | UN_APPLIED => stgitPatch rf = refName
  | CUR_BRANCH => False
  | ANY_REF =>
      In refName (tags rf) \/ In refName (branches rf)
      \/ In refName (remoteBranches rf) \/ In refName (refs rf)
      \/ stgitPatch rf = refName
  end.

(** Entry [i] of the file set reads its two names from the shared
    tables. *)
Definition spells (rf : RevFile) (s : State) (i : Z) (dname fname : string)
  : Prop :=
  exists di ni,
    dirAt rf i = Some di /\ nameAt rf i = Some ni
    /\ vec_at (dirNamesVec s) di = Some dname
    /\ vec_at (fileNamesVec s) ni = Some fname.

(** The identifier has a record in the revision store. *)
Definition loaded (s : State) (sha_ : string) : bool :=
  bool_decide (is_Some (revLookup sha_ None s)).

(** The first revision was loaded no later than the second. *)
Definition byLoadOrder (s : State) (a b : string) : Prop :=
  forall ra rb,
    revLookup a None s = Some ra -> revLookup b None s = Some rb ->
    orderIdx ra <= orderIdx rb.

(** A command started in a state that satisfies [P] ends, whenever it
    returns, with a result and a state that satisfy [Q]. *)
Definition hoare {A} (env : Env) (P : State -> Prop) (m : M A)
    (Q : A -> State -> Prop) : Prop :=
  forall s a s', P s -> m env s = Some (a, s') -> Q a s'.

(** The event reports no failure. *)
Definition succeeded (e : Event) : bool :=
  match e with
  | EvRun _ _ _ ok => ok
  | EvWriteFile _ _ ok => ok
  | _ => true
  end.

(** Since the trace [tr0] every step has succeeded ([ok] is true), or
    every step but the last one has ([ok] is false). *)
Definition failFast (tr0 : list Event) (ok : bool) (s : State) : Prop :=
  exists new,
    trace s = tr0 ++ new
    /\ if ok then Forall (fun e => succeeded e = true) new
       else exists pre e,
              new = pre ++ [e] /\ Forall (fun e => succeeded e = true) pre
              /\ succeeded e = false.

(** The command by which [commitFiles] commits. *)
Definition commitFiles_cmd (env : Env) (amend : bool) (msgFile : string)
  : string :=
  "git commit"
    +:+ ((if negb (Qt.isEmpty (CMT_ARGS env)) then " " +:+ CMT_ARGS env
          else EmptyString)
         +:+ (if SIGN_CMT_F env then " -s" else EmptyString)
         +:+ (if VERIFY_CMT_F env then " -v" else EmptyString)
         +:+ (if amend then " --amend" else EmptyString))
    +:+ " -F " +:+ quote env msgFile.

(** The event records the removal of a file. *)
Definition isRemoval (e : Event) : Prop :=
  match e with EvRemoveFile _ => True | _ => False end.

(** The number of stashes that are open after the events, starting from
    [d] open ones: [git stash] opens one, [git stash pop] closes one, and
    there is no result when a stash is closed that was never opened. *)
Fixpoint stashNesting (d : nat) (tr : list Event) : option nat :=
  match tr with
  | [] => Some d
  | EvRun _ c _ _ :: tr' =>
      if String.eqb c "git stash" then stashNesting (S d) tr'
      else if String.eqb c "git stash pop"
      then match d with
           | O => None
           | S d' => stashNesting d' tr'
           end
      else stashNesting d tr'
  | _ :: tr' => stashNesting d tr'
  end.

(** Since the trace [tr0] the stash calls are well nested and [d] of them
    are open. *)
Definition stashOpen (tr0 : list Event) (d : nat) (s : State) : Prop :=
  exists new, trace s = tr0 ++ new /\ stashNesting 0 new = Some d.

End GitTools.

(* ===================================================================== *)
(** * More sample data *)
(* ===================================================================== *)

Module SampleTools.

Import Git Sample.

Definition rev_with (id : string) (ps : list string) (cs : list Z) (idx : Z)
  : Rev := {|
  sha := id; parents := ps; childs := cs; orderIdx := idx;
  shortLog := "log of " +:+ id;
  descRefsMaster := -1; ancRefsMaster := -1; descBrnMaster := -1;
  descRefs := []; ancRefs := []; descBranches := []
|}.

(** Three files changed in the working directory, two of them below
    [src]. *)
Definition workSet : RevFile := {|
  pathsIdx := [(1, 1); (2, 2); (0, 0)];
  status := [MODIFIED; NEW; DELETED];
  onlyModified := false;
  extStatus := []
|}.

(** A history that forks at [root], the branch [b] loaded before the
    branch [a], with uncommitted changes on top of [a]. *)
Definition fork : State := {|
  errorReportingEnabled := true;
  isTextHighlighterFound := false;
  textHighlighterVersionFound := EmptyString;
  cacheNeedsUpdate := false;
  workDir := "/repo";
  gitDir := "/repo/.git";
  revData := {|
    revs := <[ZERO_SHA env1 := rev_with (ZERO_SHA env1) ["a"] [] 0]>
              (<["b" := rev_with "b" ["root"] [] 1]>
                 (<["a" := rev_with "a" ["root"] [0] 2]>
                    (<["root" := rev_with "root" [] [2; 1] 3]> ∅)));
    revOrder := [ZERO_SHA env1; "b"; "a"; "root"] |};
  refsShaMap := [];
  revsFiles := <[ZERO_SHA env1 := workSet]> ∅;
  fileNamesVec := ["README"; "git.cpp"; "main.cpp"];
  dirNamesVec := [EmptyString; "src/"; "src/ui/"];
  files := ∅;
  trace := []
|}.

(** An outside world that answers the tree listing, the two diffs and
    the patch commands, and fails everything else. *)
Definition blobSha : string := "89abcdef0123456789abcdef0123456789abcdef".

Definition env2 : Env := {|
  ZERO_SHA := ZERO_SHA env1;
  CUSTOM_SHA := CUSTOM_SHA env1;
  ALL_MERGE_FILES := ALL_MERGE_FILES env1;
  QUOTE_CHAR := QUOTE_CHAR env1;
  GIT_VERSION := GIT_VERSION env1;
  optOnlyInIndex := true;
  CMT_ARGS := EmptyString;
  SIGN_CMT_F := false;
  VERIFY_CMT_F := false;
  systemEnvironment := [];
  tool := fun _ _ cmd =>
    if Qt.startsWith "git ls-tree" cmd
    then (true, "100644 blob " +:+ blobSha +:+ tab +:+ "src/git.cpp")
    else if Qt.startsWith "git diff-tree --find-renames" cmd
    then (true, "0123abcd" +:+ nl +:+ "diff --git a/x.c b/x.c" +:+ nl
                  +:+ "+int x;")
    else if Qt.startsWith "git diff-index" cmd
    then (true, "diff --git a/x.c b/x.c" +:+ nl +:+ "index 1234567.."
                  +:+ blobSha +:+ " 100644")
    else if Qt.startsWith "git format-patch" cmd then (true, EmptyString)
    else (false, "fatal");
  writable := fun _ _ => true;
  parseDiffFormat := parseDiffFormat env1
|}.

Definition patchSettings : GitTools.PatchSettings := {|
  GitTools.NUMBERS_F := true;
  GitTools.SIGN_PATCH_F := false;
  GitTools.FPOpt := EmptyString;
  GitTools.APOpt := EmptyString;
  GitTools.isStGIT := false
|}.

End SampleTools.

(* ===================================================================== *)
(** * The main window: the menu of recent repositories *)
(* ===================================================================== *)

Module MainMenu.

(** [!txt.isEmpty() && txt.at(0).isDigit()]: the text of an entry of the
    recent-repository list, as opposed to the other actions of the File
    menu. *)
Definition isNumbered (txt : string) : bool :=
  match txt with
  | String c _ => QtText.isDigit c
  | EmptyString => false
  end.

(** The last loop of [doUpdateRecentRepoMenu] from position [idx] on: the
    actions it adds and the list it collects.  [MAX_RECENT_REPOS] is
    declared in common.h; it is the parameter [MAX]. *)
Fixpoint addRecents (MAX idx : Z) (recents : list string)
  : list string * list string :=
  match recents with
  | [] => ([], [])
  | it :: rest =>
      let action := QtText.number idx +:+ " " +:+ it in
      if idx + 1 >? MAX then ([action], [it])
      else
        let r := addRecents MAX (idx + 1) rest in
        (action :: r.1, it :: r.2)
  end.

(** [MainImpl::doUpdateRecentRepoMenu] on the File menu of one window,
    given as the texts of its actions, and on the list stored in the
    settings under [REC_REP_KEY]; the result is the menu and the list
    afterwards. *)
Definition doUpdateRecentRepoMenu (MAX : Z) (newEntry : string)
    (menu recents : list string) : list string * list string :=
  let menu1 := List.filter (fun txt => negb (isNumbered txt)) menu in
  let idx := QtText.indexOf newEntry recents in
  let recents1 :=
    if negb (idx =? -1) then QtText.removeAt idx recents else recents in
  let recents2 :=
    if negb (Qt.isEmpty newEntry) then newEntry :: recents1 else recents1 in
  let r := addRecents MAX 1 recents2 in
  (menu1 ++ r.1, r.2).

(** [MainImpl::updateRecentRepoMenu]: the menu of every main window is
    updated in turn, all of them against the one list in the settings. *)
Fixpoint updateRecentRepoMenu (MAX : Z) (newEntry : string)
    (menus : list (list string)) (recents : list string)
  : list (list string) * list string :=
  match menus with
  | [] => ([], recents)
  | menu :: rest =>
      let w := doUpdateRecentRepoMenu MAX newEntry menu recents in
      let r := updateRecentRepoMenu MAX newEntry rest w.2 in
      (w.1 :: r.1, r.2)
  end.

(** ** Vocabulary of the statements below *)

(** The entries of a list as the menu shows them, numbered from [idx]. *)
Fixpoint numberedFrom (idx : Z) (l : list string) : list string :=
  match l with
  | [] => []
  | it :: rest =>
      (QtText.number idx +:+ " " +:+ it) :: numberedFrom (idx + 1) rest
  end.

End MainMenu.

(* ===================================================================== *)
(** * The main window: importing dropped revisions *)
(* ===================================================================== *)

Module MainDrop.

Import GitTools.

(** What the main window does to the screen and to the directory of
    temporary patches. *)
Inductive UiEvent :=
| UiShowMessage (msg : string)
| UiClearMessage
| UiSetOverrideCursor
| UiRaise
| UiProcessEvents
| UiRestoreOverrideCursor
| UiDirRefresh
| UiDirRemove (fileName : string)
| UiDirRmdir (path : string)
| UiRefreshRepo.

(** What [revisionsDropped] reads from outside the sources at hand: the
    Git object's own environment and settings, the directory of the
    repository, the constants [QGit::PATCHES_DIR] and [Git::optDragDrop],
    whether the patches directory is there on entry, the button chosen in
    the dialog, which directories exist, and the files that the patches
    directory lists after a refresh, given everything done so far. *)
Record Env := {
  gitEnv : Git.Env;
  cfg : PatchSettings;
  curDir : string;
  PATCHES_DIR : string;
  optDragDrop : bool;
  staleDir : bool;
  answer : Z;
  dirExists : string -> bool;
  patchFiles : list Git.Event -> list UiEvent -> list string
}.

Record State := {
  git : Git.State;
  dropping : bool;
  ui : list UiEvent
}.

Definition D (A : Type) : Type := Env -> State -> option (A * State).

Definition retD {A} (a : A) : D A := fun _ s => Some (a, s).
Definition bindD {A B} (m : D A) (k : A -> D B) : D B :=
  fun env s =>
    match m env s with
    | Some (a, s') => k a env s'
    | None => None
    end.
Definition crashD {A} : D A := fun _ _ => None.
Definition askD : D Env := fun env s => Some (env, s).
Definition getsD {A} (f : State -> A) : D A := fun _ s => Some (f s, s).

(** A member function of the Git object, called on [git]. *)
Definition liftGit {A} (m : Git.M A) : D A := fun env s =>
  match m (gitEnv env) (git s) with
  | Some (a, g) => Some (a, {| git := g; dropping := dropping s; ui := ui s |})
  | None => None
  end.

Definition uiDo (e : UiEvent) : D unit := fun _ s =>
  Some (tt, {| git := git s; dropping := dropping s; ui := ui s ++ [e] |}).

Definition setDropping (b : bool) : D unit := fun _ s =>
  Some (tt, {| git := git s; dropping := b; ui := ui s |}).

Declare Scope drop_scope.
Delimit Scope drop_scope with drop.
Notation "x <- c ;; k" := (bindD c (fun x => k))
  (at level 100, c at next level, right associativity) : drop_scope.
Notation "c ;;; k" := (bindD c (fun _ => k))
  (at level 100, right associativity) : drop_scope.
Local Open Scope drop_scope.

(** [MainImpl::askApplyPatchParameters]: the answer of the dialog, 0 for
    Cancel, decides between the working directory and a commit, or, on an
    StGit stack, between folding and importing.  The result is the
    returned status with the two flags. *)
Definition askApplyPatchParameters (isStGITStack : bool) (ret : Z)
  : bool * (bool * bool) :=
  if negb isStGITStack
  then (negb (ret =? 0), (ret =? 1, false))
  else (negb (ret =? 0), (false, ret =? 1)).

(** The loop of [revisionsDropped].  [revs] holds the entries still to
    import, the one the iterator moves to next in front; the result is
    the counter and whether the iterator stands at the beginning of the
    list when the loop is left.  Stepping back from the end of an empty
    list has no defined result.  The counter is an unsigned 32-bit
    integer that [resetCommits] takes as a signed one; it counts the
    attempts, one per entry at most, and is kept here without the
    wrap-around, which a list of fewer than 2^31 entries does not
    reach. *)
Fixpoint revisionsDropped_loop (fold : bool) (total : Z) (revs : list string)
    (revNum : Z) : D (Z * bool) :=
  match revs with
  | [] => crashD
  | it :: rest =>
      env <- askD ;;
      let revNum := revNum + 1 in
      uiDo (UiShowMessage ("Importing revision " +:+ QtText.number revNum
                             +:+ " of " +:+ QtText.number total)) ;;;
      let sha := Qt.section "@" 0 0 it in
      let remoteRepo := Qt.section "@" 1 (-1) it in
      let atBegin := Git.isNil rest in
      let dr := curDir env +:+ PATCHES_DIR env in
      if negb (dirExists env remoteRepo) then retD (revNum, atBegin)
      else
        (* we create patches one by one *)
        ok <- liftGit (formatPatch (cfg env) [sha] dr remoteRepo) ;;
        if negb ok then retD (revNum, atBegin)
        else
          uiDo UiDirRefresh ;;;
          fs <- getsD (fun s => patchFiles env (Git.trace (git s)) (ui s)) ;;
          match fs with
          | [f] =>
              let fn := Qt.filePath dr f in
              is_applied <- liftGit (applyPatchFile (cfg env) fn fold
                                       (optDragDrop env)) ;;
              uiDo (UiDirRemove fn) ;;;
              if negb is_applied then retD (revNum, atBegin)
              else if atBegin then retD (revNum, true)
              else revisionsDropped_loop fold total rest revNum
          | _ => retD (revNum, atBegin)
          end
  end.

Definition revisionsDropped (remoteRevs : list string) : D unit :=
  env <- askD ;;
  d <- getsD dropping ;;
  if d then retD tt (* avoid reentrancy *)
  else
    let dr := curDir env +:+ PATCHES_DIR env in
    if staleDir env
    then uiDo (UiShowMessage ("Please remove stale import directory " +:+ dr))
    else
      let a := askApplyPatchParameters (isStGIT (cfg env)) (answer env) in
      let workDirOnly := a.2.1 in
      let fold := a.2.2 in
      if negb a.1 then retD tt
      else
        (* ok, let's go *)
        setDropping true ;;;
        uiDo UiSetOverrideCursor ;;;
        uiDo UiRaise ;;;
        uiDo UiProcessEvents ;;;
        r <- revisionsDropped_loop fold (Z.of_nat (length remoteRevs))
               (rev remoteRevs) 0 ;;
        revNum <- (if r.2 : bool
                   then uiDo UiClearMessage ;;; retD r.1
                   else
                     uiDo (UiShowMessage ("Failed to import revision "
                                            +:+ QtText.number r.1)) ;;;
                     retD (r.1 - 1)) ;;
        (if workDirOnly && (0 <? revNum)
         then _ <- liftGit (resetCommits revNum) ;; retD tt
         else retD tt) ;;;
        uiDo (UiDirRmdir dr) ;;; (* 'dr' must be already empty *)
        uiDo UiRestoreOverrideCursor ;;;
        setDropping false ;;;
        uiDo UiRefreshRepo.

(** ** Vocabulary of the statements below *)

(** The command by which [resetCommits] takes back [n] commits. *)
Definition resetCommits_cmd (n : Z) : string :=
  "git reset --soft HEAD~" +:+ QtText.number n.

(** The message that reports the failure of attempt [k]. *)
Definition failedMessage (k : Z) : UiEvent :=
  UiShowMessage ("Failed to import revision " +:+ QtText.number k).

(** The event neither reports a failure nor clears the status bar. *)
Definition inProgress (e : UiEvent) : Prop :=
  match e with
  | UiShowMessage m =>
      forall k, m <> "Failed to import revision " +:+ QtText.number k
  | UiClearMessage => False
  | _ => True
  end.

(** The event is not a run of the command that takes commits back. *)
Definition noReset (e : Git.Event) : Prop :=
  match e with
  | Git.EvRun _ c _ _ => forall d, c <> resetCommits_cmd d
  | _ => True
  end.

End MainDrop.

Module SampleDrop.

Import Sample SampleTools.

(** A drop onto a repository without StGit, the user choosing the working
    directory, with an outside world in which every command fails. *)
Definition dropEnv : MainDrop.Env := {|
  MainDrop.gitEnv := env0;
  MainDrop.cfg := patchSettings;
  MainDrop.curDir := "/repo";
  MainDrop.PATCHES_DIR := "/.qgit_patches_copy";
  MainDrop.optDragDrop := true;
  MainDrop.staleDir := false;
  MainDrop.answer := 1;
  MainDrop.dirExists := fun _ => true;
  MainDrop.patchFiles := fun _ _ => ["0001-change.patch"]
|}.

Definition dropWindow : MainDrop.State := {|
  MainDrop.git := fork;
  MainDrop.dropping := false;
  MainDrop.ui := []
|}.

End SampleDrop.

(* ===================================================================== *)
(** * Every command that git.cpp runs *)
(* ===================================================================== *)

Module GitRuns.

Import Git GitTools.

(** ** The history of the object

    The member functions below post messages, start processes without
    waiting for them and call functions of the class that are defined in
    other files.  The history holds everything the object does, in order:
    the events of the [Git] module as they are, and the further ones. *)
Inductive Action :=
| DoGit (e : Git.Event)
| DoRunInput (dir cmd buf : string) (reportErrors ok : bool)
| DoRunAsync (dir cmd : string) (reportErrors started : bool)
| DoConnect (slot : string)
| DoPostMessage (msg : string)
| DoProcessEventsNoInput
| DoResetFileNames (fileName : string)
| DoPopulateRenamedPatches (renamedSha : string) (newNames : list string)
    (ok : bool)
| DoStartRevList (args : list string) (ok : bool).

(** The fields of a [Reference] (git.h) that the functions below read
    beside its lists of names: the kinds of reference that the identifier
    carries, one bit per kind, the tag object and the tag message, which
    is fetched when first asked for.  They are kept beside the entry,
    under the same key. *)
Record RefMore := {
  type : Z;
  tagObj : string;
  tagMsg : string
}.

(** A value of the mapping that [getDesc] hands to the template. *)
Inductive Variant :=
| VString (s : string)
| VInt (n : Z)
| VBool (b : bool)
| VStringList (l : list string)
| VDiff (d : string).

(** What [TreeDiff::createFromString] makes of a diff: an error, or a
    value, with whether the hunks of its first entry can be read. *)
Inductive TreeDiffResult :=
| DiffError
| DiffValue (d : string) (firstHunks : bool).

(** What the functions below read from outside the sources at hand: the
    environment of the [Git] module; the values of [enum RefType] and the
    constants [SCRIPT_EXT], [optGoDown], [RevFile::ANY] and
    [TYPE_WRITER_FONT]; the image formats that Qt supports; the fields of
    a revision record beyond those of [Rev]; [getLocalDate]; the Qt and
    Grantlee functions [Qt::convertFromPlainText], [QString::remove] of
    the PGP signature pattern, [qSort], [TreeDiff::createFromString] and
    the rendering of a template, which gives a text and an error when
    there is one; and the outside world: the external tool when it is
    given input, whether a process starts, and the two member functions
    of git_startup.cpp that are called here, [populateRenamedPatches] and
    [startRevList], each as a function of everything done so far. *)
Record Env := {
  gitEnv : Git.Env;
  refBit : RefType -> Z;
  SCRIPT_EXT : string;
  optGoDown : bool;
  ANY : Z;
  imageFormats : list string;
  TYPE_WRITER_FONT : string * Z;
  longLog : Rev -> string;
  isDiffCache : Rev -> bool;
  isApplied : Rev -> bool;
  isUnApplied : Rev -> bool;
  committer : Rev -> string;
  author : Rev -> string;
  authorDate : Rev -> string;
  getLocalDate : string -> string;
  convertFromPlainText : string -> string;
  removePgp : string -> string;
  qSort : list TreeEntry.t -> list TreeEntry.t;
  createFromString : string -> TreeDiffResult;
  render : string -> list (string * Variant) -> string * option string;
  toolInput : list Action -> string -> string -> string -> bool * string;
  asyncStart : list Action -> string -> string -> bool;
  populateRenamedPatches :
    list Action -> string -> list string -> bool * list string;
  startRevList : list Action -> list string -> bool
}.

Record State := {
  git : Git.State;
  isGIT : bool;
  refMore : gmap string RefMore;
  history : list Action
}.

Definition R (A : Type) : Type := Env -> State -> option (A * State).

Definition retR {A} (a : A) : R A := fun _ s => Some (a, s).
Definition bindR {A B} (m : R A) (k : A -> R B) : R B :=
  fun env s =>
    match m env s with
    | Some (a, s') => k a env s'
    | None => None
    end.
Definition crashR {A} : R A := fun _ _ => None.
Definition askR : R Env := fun env s => Some (env, s).
Definition getsR {A} (f : State -> A) : R A := fun _ s => Some (f s, s).
Definition derefR {A} (o : option A) : R A :=
  match o with Some a => retR a | None => crashR end.

Definition log (a : Action) (s : State) : State :=
  {| git := git s; isGIT := isGIT s; refMore := refMore s;
     history := history s ++ [a] |}.

Definition act (a : Action) : R unit := fun _ s => Some (tt, log a s).

(** A member function of the [Git] module: what it adds to the trace
    enters the history, in its order. *)
Definition liftGit {A} (m : Git.M A) : R A := fun env s =>
  match m (gitEnv env) (git s) with
  | Some (a, g) =>
      Some (a, {| git := g; isGIT := isGIT s; refMore := refMore s;
                  history := history s
                             ++ (DoGit <$> drop (length (trace (git s)))
                                             (trace g)) |})
  | None => None
  end.

Declare Scope runs_scope.
Delimit Scope runs_scope with runs.
Notation "x <- c ;; k" := (bindR c (fun x => k))
  (at level 100, c at next level, right associativity) : runs_scope.
Notation "c ;;; k" := (bindR c (fun _ => k))
  (at level 100, right associativity) : runs_scope.
Local Open Scope runs_scope.

(** ** The runner *)

(** [Git::run] with an input buffer. *)
Definition runInput (runCmd buf : string) : R (bool * string) := fun env s =>
  let r := toolInput env (history s) (workDir (git s)) runCmd buf in
  Some (r, log (DoRunInput (workDir (git s)) runCmd buf
                  (errorReportingEnabled (git s)) r.1) s).

(** [Git::runAsync]: the result tells whether a process is returned. *)
Definition runAsync (runCmd : string) : R bool := fun env s =>
  let started := asyncStart env (history s) (workDir (git s)) runCmd in
  Some (started, log (DoRunAsync (workDir (git s)) runCmd
                        (errorReportingEnabled (git s)) started) s).

Definition runAsScript (runCmd : string) : R bool :=
  env <- askR ;;
  wd <- getsR (fun s => workDir (git s)) ;;
  let scriptFile := wd +:+ "/qgit_script" +:+ SCRIPT_EXT env in
  (* without this process doesn't start under Linux *)
  let cmd := if Qt.startsWith "#!" runCmd then runCmd
             else "#!/bin/sh" +:+ nl +:+ runCmd in
  w <- liftGit (writeToFile scriptFile cmd) ;;
  if negb w then retR false
  else
    p <- runAsync scriptFile ;;
    (if p then act (DoConnect "on_runAsScript_eof") else retR tt) ;;;
    retR p.

(** ** Settings *)

(** [tc] is the name of the codec, when there is one. *)
Definition setTextCodec (tc : option string) : M unit :=
  let name := match tc with Some n => n | None => "Latin1" end in
  (* workaround Qt issue of mime name different from standard *)
  let name := if String.eqb name "Big5-HKSCS" then "Big5" else name in
  (_ <- run ("git config i18n.commitencoding " +:+ name) ;; ret tt)%git.

(** The result is the flag and the name of the codec that is looked up,
    when one is. *)
Definition getTextCodec : R (bool * option string) :=
  isGitArchive <- getsR isGIT ;;
  if negb isGitArchive (* can be called also when not in an archive *)
  then retR (isGitArchive, None)
  else
    r <- liftGit (run "git config --get i18n.commitencoding") ;;
    if negb r.1 then retR (isGitArchive, None)
    else if Qt.isEmpty r.2 (* git docs says default is utf-8 *)
    then retR (isGitArchive, Some "utf8")
    else retR (isGitArchive, Some (Qt.trimmed r.2)).

(** ** References *)

Definition refMoreOf (sha_ : string) (s : State) : RefMore :=
  match refMore s !! sha_ with
  | Some m => m
  | None => {| type := 0; tagObj := EmptyString; tagMsg := EmptyString |}
  end.

Definition checkRef (sha_ : string) (mask : Z) (s : State) : Z :=
  match findRef sha_ (refsShaMap (git s)) with
  | Some _ => Z.land (type (refMoreOf sha_ s)) mask
  | None => 0
  end.

Definition getRefName (env : Env) (sha_ : string) (ty : RefType) (s : State)
  : list string :=
  if checkRef sha_ (refBit env ty) s =? 0 then []
  else
    match findRef sha_ (refsShaMap (git s)) with
    | None => []
    | Some rf =>
        match ty with
        | TAG => tags rf
        | BRANCH => branches rf
        | RMT_BRANCH => remoteBranches rf
        | REF => refs rf
        | APPLIED | UN_APPLIED => [stgitPatch rf]
        | _ => []
        end
    end.

Definition getAllRefSha (mask : Z) (s : State) : list string :=
  omap (fun e : string * Reference =>
          if Z.land (type (refMoreOf e.1 s)) mask =? 0 then None
          else Some e.1)
       (refsShaMap (git s)).

Definition set_tagMsg (sha_ msg : string) (s : State) : State :=
  let m := refMoreOf sha_ s in
  {| git := git s; isGIT := isGIT s;
     refMore := <[sha_ := {| type := type m; tagObj := tagObj m;
                             tagMsg := msg |}]> (refMore s);
     history := history s |}.

Definition getTagMsg (sha_ : string) : R string :=
  env <- askR ;;
  t <- getsR (checkRef sha_ (refBit env TAG)) ;;
  if t =? 0 then retR EmptyString
  else
    rf <- getsR (refMoreOf sha_) ;;
    if negb (Qt.isEmpty (tagMsg rf)) then retR (tagMsg rf)
    else if negb (Qt.isEmpty (tagObj rf))
    then
      ro <- liftGit (run ("git cat-file tag " +:+ tagObj rf)) ;;
      if ro.1
      then
        let msg := Qt.trimmed
                     (removePgp env (Qt.section (nl +:+ nl) 1 (-1) ro.2)) in
        (fun _ s => Some (tt, set_tagMsg sha_ msg s)) ;;;
        retR msg
      else retR (tagMsg rf)
    else retR (tagMsg rf).

Definition getRevInfo (sha_ : string) : R string :=
  env <- askR ;;
  if Qt.isEmpty sha_ then retR EmptyString
  else
    ty <- getsR (checkRef sha_ (refBit env ANY_REF)) ;;
    if ty =? 0 then retR EmptyString
    else
      s <- getsR id ;;
      let has t := negb (Z.land ty (refBit env t) =? 0) in
      let names t := Qt.join " " (getRefName env sha_ t s) in
      let i1 :=
        if has BRANCH
        then (if has CUR_BRANCH then "HEAD: " else "Branch: ") +:+ names BRANCH
        else EmptyString in
      let i2 := if has RMT_BRANCH
                then i1 +:+ "   Remote branch: " +:+ names RMT_BRANCH
                else i1 in
      let i3 := if has TAG then i2 +:+ "   Tag: " +:+ names TAG else i2 in
      let i4 := if has REF then i3 +:+ "   Ref: " +:+ names REF else i3 in
      let i5 := if has APPLIED
                then i4 +:+ "   Patch: " +:+ names APPLIED else i4 in
      let i6 := if has UN_APPLIED
                then i5 +:+ "   Patch: " +:+ names UN_APPLIED else i5 in
      i7 <- (if has TAG
             then
               msg <- getTagMsg sha_ ;;
               retR (if negb (Qt.isEmpty msg)
                     then i6 +:+ "  [" +:+ msg +:+ "]" else i6)
             else retR i6) ;;
      retR (Qt.trimmed i7).

(** ** Diffs, files and trees *)

(** [Git::getDiff] with a receiver, the asynchronous overload. *)
Definition getDiffAsync (sha_ diffToSha : string) (combined : bool) : R bool :=
  env <- askR ;;
  if Qt.isEmpty sha_ then retR false
  else
    let runCmd :=
      if negb (String.eqb sha_ (ZERO_SHA (gitEnv env)))
      then
        "git diff-tree --no-color -r --patch-with-stat "
          +:+ (if combined then "-c " else "-C -m ")
          +:+ diffToSha +:+ " " +:+ sha_ (* diffToSha could be empty *)
      else "git diff-index --no-color -r -m --patch-with-stat HEAD" in
    runAsync runCmd.

(** [Git::getFile]: without a receiver the synchronous read of the [Git]
    module, whose result is the content read; with one, the start of the
    same command, whose result is whether a process is returned. *)
Definition getFileFor (receiver : bool) (fileSha fileName : string)
  : R (bool * option string) :=
  env <- askR ;;
  if negb receiver
  then
    data <- liftGit (getFile fileSha fileName) ;;
    retR (false, Some data) (* in case of sync call we ignore run() return value *)
  else
    let runCmd :=
      if String.eqb fileSha (ZERO_SHA (gitEnv env))
      then "cat " +:+ quote (gitEnv env) fileName
      else if Qt.isEmpty fileSha (* deleted *)
      then "git diff-tree HEAD HEAD" (* fake an empty file reading *)
      else "git cat-file blob " +:+ fileSha in
    p <- runAsync runCmd ;;
    retR (p, None).

(** [QString::section(sep, -1, -1, SectionIncludeLeadingSep)]: the last
    field, with the separator before it when there is one. *)
Definition sectionLastWithSep (sep s : string) : string :=
  match Qt.split sep s with
  | [] | [_] => s
  | fields => sep +:+ List.last fields EmptyString
  end.

(** [QDir::entryList] for the pattern [pre*]: the names of the files of
    the directory that start with [pre], sorted by name. *)
Definition entryList (dir pre : string) (fs : gset string) : list string :=
  Qt.sort
    (omap (fun p =>
             let n := Qt.mid (Qt.size dir + 1) p in
             if Qt.startsWith (dir +:+ "/" +:+ pre) p && Qt.noChar "/" n
             then Some n else None)
          (elements fs)).

Fixpoint removeEach (dir : string) (sl : list string) : M unit :=
  match sl with
  | [] => ret tt
  | it :: rest => (QDir_remove dir it ;;; removeEach dir rest)%git
  end.

Definition on_getHighlightedFile_eof : M unit :=
  (wd <- gets workDir ;;
   fs <- gets files ;;
   removeEach wd (entryList wd "qgit_hlght_input" fs))%git.

(** [isTextHighlighter()] of git.h reads the flag set by
    [checkEnvironment]. *)
Definition getHighlightedFile (receiver : bool) (fileSha fileName : string)
  : R (bool * option string) :=
  env <- askR ;;
  found <- getsR (fun s => isTextHighlighterFound (git s)) ;;
  if negb found then retR (false, None)
  else
    wd <- getsR (fun s => workDir (git s)) ;;
    let ext := sectionLastWithSep "." fileName in
    let inputFile := wd +:+ "/qgit_hlght_input" +:+ ext in
    saved <- liftGit (saveFile (imageFormats env) fileSha fileName inputFile) ;;
    if negb saved then retR (false, None)
    else
      let runCmd := "source-highlight --failsafe -f html -i "
                      +:+ quote (gitEnv env) inputFile in
      if negb receiver
      then
        r <- liftGit (run runCmd) ;;
        liftGit on_getHighlightedFile_eof ;;;
        retR (false, Some r.2) (* in case of sync call we ignore run() return value *)
      else
        p <- runAsync runCmd ;;
        (if p then act (DoConnect "on_getHighlightedFile_eof") else retR tt) ;;;
        retR (p, None).

(** [QFileInfo::dir().path()] and [QFileInfo::fileName()] of a path. *)
Definition QFileInfo_dirPath (p : string) : string :=
  let i := Qt.lastIndexOf "/" p in
  if i =? -1 then "." else if i =? 0 then "/" else Qt.left i p.

Definition QFileInfo_fileName (p : string) : string :=
  Qt.mid (Qt.lastIndexOf "/" p + 1) p.

(** [QString::split(sep, QString::SkipEmptyParts)]. *)
Definition splitSkipEmpty (sep s : string) : list string :=
  List.filter (fun x => negb (Qt.isEmpty x)) (Qt.split sep s).

(** [ti] is the tree information on entry; the result is the status and
    the tree information on return. *)
Definition getTree (qSort_ : list TreeEntry.t -> list TreeEntry.t)
    (treeSha : string) (ti : list TreeEntry.t) (isWorkingDir : bool)
    (path : string) : M (bool * list TreeEntry.t) :=
  (env <- ask ;;
   w <- (if isWorkingDir
         then
           (* retrieve unknown and deleted files under path *)
           unknowns <- getWorkDirFiles UNKNOWN ;;
           let ti1 :=
             fold_left
               (fun acc it =>
                  (* don't add files under other directories *)
                  let d := QFileInfo_dirPath it in
                  if String.eqb d path || (Qt.isEmpty path && String.eqb d ".")
                  then acc ++ [{| TreeEntry.name := QFileInfo_fileName it;
                                  TreeEntry.sha := EmptyString;
                                  TreeEntry.type := "?" |}]
                  else acc)
               unknowns.1 ti in
           deleted <- getWorkDirFiles DELETED ;;
           ret (ti1, deleted.1)
         else ret (ti, [])) ;;
   let ti1 := w.1 in
   let deleted := w.2 in
   (* if needed fake a working directory tree starting from HEAD tree *)
   t <- (if String.eqb treeSha (ZERO_SHA env)
         then
           (* HEAD could be empty for just init'ed repositories *)
           r <- run "git rev-parse --revs-only HEAD" ;;
           ret (r.1, Qt.trimmed r.2)
         else ret (true, treeSha)) ;;
   if negb t.1 then ret (false, ti1)
   else
     let tree := t.2 in
     o <- (if negb (Qt.isEmpty tree) then run ("git ls-tree " +:+ tree)
           else ret (true, EmptyString)) ;;
     if negb o.1 then ret (false, ti1)
     else
       let sl := splitSkipEmpty nl o.2 in
       let ti2 :=
         fold_left
           (fun acc it =>
              (* append any not deleted file *)
              let fn := Qt.section tab 1 1 it in
              let fp := if Qt.isEmpty path then fn else path +:+ "/" +:+ fn in
              if isNil deleted || (QtText.indexOf fp deleted =? -1)
              then acc ++ [{| TreeEntry.name := fn;
                              TreeEntry.sha := QtText.midN 12 40 it;
                              TreeEntry.type := QtText.midN 7 4 it |}]
              else acc)
           sl ti1 in
       ret (true, qSort_ ti2))%git. (* list directories before files *)

(** ** Commit messages and descriptions *)

Definition getLastCommitMsg : R string :=
  env <- askR ;;
  top <- liftGit (run "git rev-parse --verify HEAD") ;;
  if negb top.1 then retR EmptyString
  else
    let sha_ := Qt.trimmed top.2 in
    c <- getsR (fun s => revLookup sha_ None (git s)) ;;
    match c with
    | None => retR EmptyString
    | Some c =>
        retR (shortLog c +:+ nl +:+ nl +:+ Qt.trimmed (longLog env c))
    end.

Definition getDesc (sha_ : string) (fh : option FileHistory) : R string :=
  env <- askR ;;
  if Qt.isEmpty sha_ then retR EmptyString
  else
    c <- getsR (fun s => revLookup sha_ fh (git s)) ;;
    match c with
    | None => retR EmptyString (* sha of a not loaded revision *)
    | Some c =>
        if isDiffCache env c
        then retR (convertFromPlainText env (longLog env c))
        else
          (* render template into text with the help of grantlee *)
          s <- getsR id ;;
          let mapping1 :=
            [("TYPE_WRITER_FONT_FAMILY", VString (TYPE_WRITER_FONT env).1);
             ("TYPE_WRITER_FONT_SIZE", VInt (TYPE_WRITER_FONT env).2);
             ("committer", VString (committer env c));
             ("author", VString (author env c));
             ("author_date", VString (getLocalDate env (authorDate env c)))] in
          mapping2 <-
            (if isApplied env c || isUnApplied env c
             then
               retR [("patches",
                      VStringList (getRefName env sha_ APPLIED s
                                     ++ getRefName env sha_ UN_APPLIED s))]
             else
               children <- derefR (getChilds sha_ (git s)) ;;
               brs <- derefR (getDescendantBranches sha_ false (git s)) ;;
               following <- derefR (getNearTags (negb (optGoDown env)) sha_
                                      (git s)) ;;
               preceding <- derefR (getNearTags (optGoDown env) sha_ (git s)) ;;
               retR [("parents", VStringList (parents c));
                     ("children", VStringList children);
                     ("branches", VStringList brs);
                     ("following", VStringList following);
                     ("preceding", VStringList preceding)]) ;;
          let mapping3 := [("short_log", VString (shortLog c));
                           ("long_log", VString (longLog env c))] in
          (* load diff for this commit *)
          diffText <- liftGit (getDiff sha_) ;;
          mapping4 <-
            match createFromString env diffText with
            | DiffValue d firstHunks =>
                if firstHunks
                then retR [("diff_exists", VBool true); ("diff", VDiff d)]
                else crashR
            | DiffError => retR [("diff_exists", VBool false)]
            end ;;
          let t := render env "desc.html"
                     (mapping1 ++ mapping2 ++ mapping3 ++ mapping4) in
          retR (match t.2 with Some errorString => errorString | None => t.1 end)
    end.

(** ** File history *)

(** One turn of the loop of [getNewestFileName]: the name to go on with,
    or nothing when the loop is left. *)
Definition getNewestFileName_turn (branches : list string)
    (curFileName : string) : R (option string) :=
  env <- askR ;;
  let args := Qt.join " " branches +:+ " -- " +:+ curFileName in
  ls <- liftGit (run ("git ls-tree " +:+ args)) ;;
  if negb ls.1 then retR None
  else if negb (Qt.isEmpty ls.2) then retR None
  else
    act (DoPostMessage ("Retrieving file renames, now at '" +:+ curFileName
                          +:+ "'...")) ;;;
    act DoProcessEventsNoInput ;;;
    r <- liftGit (run ("git rev-list -n1 " +:+ args)) ;;
    if negb r.1 then retR None
    else
      h <- (if Qt.isEmpty r.2 (* try harder *)
            then liftGit (run ("git rev-list --full-history -n1 " +:+ args))
            else retR r) ;;
      if negb h.1 then retR None
      else if Qt.isEmpty h.2 then retR None
      else
        let sha_ := Qt.trimmed h.2 in
        p <- (fun env s =>
                let p := populateRenamedPatches env (history s) sha_
                           [curFileName] in
                Some (p, log (DoPopulateRenamedPatches sha_ [curFileName] p.1)
                           s)) ;;
        if negb p.1 then retR None
        else
          newCur <- derefR (head p.2) ;;
          retR (Some newCur).

(** The loop has no bound in the source.  [turns] is the number of turns
    allowed; there is no result beyond it. *)
Fixpoint getNewestFileName (turns : nat) (branches : list string)
    (fileName : string) : R string :=
  match turns with
  | O => crashR
  | S k =>
      n <- getNewestFileName_turn branches fileName ;;
      match n with
      | None => retR fileName
      | Some newCur => getNewestFileName k branches newCur
      end
  end.

(** [fh], the file history to load, is only handed on to
    [FileHistory::resetFileNames] and to [startRevList]. *)
Definition startFileHistory (turns : nat) (sha_ startingFileName : string)
  : R bool :=
  env <- askR ;;
  d <- getsR (fun s => getDescendantBranches sha_ true (git s)) ;;
  branches <- derefR d ;;
  let args := if isNil branches then ["HEAD"] else branches in
  newestFileName <- getNewestFileName turns args startingFileName ;;
  act (DoResetFileNames newestFileName) ;;;
  (* load history from all the branches *)
  shas <- getsR (getAllRefSha (Z.lor (refBit env BRANCH)
                                 (refBit env RMT_BRANCH))) ;;
  let args := shas ++ ["--"; newestFileName] in
  fun env s =>
    let ok := startRevList env (history s) args in
    Some (ok, log (DoStartRevList args ok) s).

(** The result is the status and the lines put into the set. *)
Definition getPatchFilter (exp : string) (isRegExp : bool)
  : R (bool * list string) :=
  env <- askR ;;
  order <- getsR (fun s => revOrder (revData (git s))) ;;
  let buf :=
    fold_left
      (fun b it => if negb (String.eqb it (ZERO_SHA (gitEnv env)))
                   then b +:+ it +:+ nl else b)
      order EmptyString in
  if Qt.isEmpty buf then retR (true, [])
  else
    liftGit EM_PROCESS_EVENTS ;;; (* 'git diff-tree' could be slow *)
    let runCmd :=
      "git diff-tree --no-color -r -s --stdin "
        +:+ (if isRegExp then "--pickaxe-regex " else EmptyString)
        +:+ quote (gitEnv env) ("-S" +:+ exp) in
    r <- runInput runCmd buf ;;
    if negb r.1 then retR (false, [])
    else retR (true, splitSkipEmpty nl r.2).

(** ** Branches, tags and patches of the stack *)

Definition makeBranch (sha_ branchName : string) : M bool :=
  (r <- run ("git branch " +:+ branchName +:+ " " +:+ sha_) ;; ret r.1)%git.

Definition makeTag (sha_ tagName msg : string) : M bool :=
  (if Qt.isEmpty msg
   then r <- run ("git tag " +:+ tagName +:+ " " +:+ sha_) ;; ret r.1
   else
     r <- run ("git tag -m " +:+ String (ascii_of_nat 34) EmptyString +:+ msg
                 +:+ String (ascii_of_nat 34) EmptyString +:+ " "
                 +:+ tagName +:+ " " +:+ sha_) ;;
     ret r.1)%git.

Definition deleteTag (sha_ : string) : R bool :=
  env <- askR ;;
  tags_ <- getsR (getRefName env sha_ TAG) ;;
  match tags_ with
  | first_ :: _ =>
      r <- liftGit (run ("git tag -d " +:+ first_)) ;; (* only one *)
      retR r.1
  | [] => retR false
  end.

Definition stgPush (sha_ : string) : R bool :=
  env <- askR ;;
  patch <- getsR (getRefName env sha_ UN_APPLIED) ;;
  match patch with
  | [first_] =>
      r <- liftGit (run ("stg push " +:+ quote (gitEnv env) first_)) ;;
      retR r.1
  | _ => retR false
  end.

Definition stgPop (sha_ : string) : R bool :=
  env <- askR ;;
  patch <- getsR (getRefName env sha_ APPLIED) ;;
  match patch with
  | [_] =>
      r <- liftGit (run ("stg pop " +:+ quoteList (gitEnv env) patch)) ;;
      retR r.1
  | _ => retR false
  end.

(** ** The member functions that run a command

    Every member function of git.cpp that calls [run] or [runAsync],
    itself or through another one, with its arguments. *)
Inductive Member :=
| CallRun (runCmd : string)
| CallRunInput (runCmd buf : string)
| CallRunAsync (runCmd : string)
| CallRunAsScript (runCmd : string)
| CallCheckEnvironment
| CallUserInfo
| CallSetTextCodec (tc : option string)
| CallGetTextCodec
| CallGetRefSha (refName : string) (type : RefType) (askGit : bool)
| CallIsPatchName (nm : string)
| CallGetTagMsg (sha_ : string)
| CallGetRevInfo (sha_ : string)
| CallAddExtraFileInfo (rowName sha_ diffToSha : string) (allMergeFiles : bool)
| CallFormatPatchFileHeader (rowName sha_ diffToSha : string)
    (combined allMergeFiles : bool)
| CallGetDiffAsync (sha_ diffToSha : string) (combined : bool)
| CallGetDiff (sha_ : string)
| CallGetWorkDirDiff (fileName : string)
| CallGetFileSha (file revSha : string)
| CallGetFile (receiver : bool) (fileSha fileName : string)
| CallGetHighlightedFile (receiver : bool) (fileSha fileName : string)
| CallSaveFile (fileSha fileName path : string)
| CallGetTree (treeSha : string) (ti : list TreeEntry.t) (isWorkingDir : bool)
    (path : string)
| CallGetWorkDirFiles (status_ : Z)
| CallIsTreeModified (sha_ : string)
| CallIsSameFiles (tree1Sha tree2Sha : string)
| CallGetLastCommitMsg
| CallGetDesc (sha_ : string) (fh : option FileHistory)
| CallRunDiffTreeWithRenameDetection (runCmd : string)
| CallGetAllMergeFiles (r : Rev)
| CallGetFiles (sha_ diffToSha : string) (allFiles : bool) (path : string)
| CallStartFileHistory (turns : nat) (sha_ startingFileName : string)
| CallGetNewestFileName (turns : nat) (branches : list string)
    (fileName : string)
| CallGetPatchFilter (exp : string) (isRegExp : bool)
| CallResetCommits (parentDepth : Z)
| CallApplyPatchFile (cfg : PatchSettings) (patchPath : string)
    (fold isDragDrop : bool)
| CallFormatPatch (cfg : PatchSettings) (shaList : list string)
    (dirPath remoteDir : string)
| CallGetOtherFiles (selFiles : list string) (onlyInIndex : bool)
| CallUpdateIndex (selFiles : list string)
| CallCommitFiles (selFiles : list string) (msg : string) (amend : bool)
| CallMkPatchFromWorkDir (msg patchFile : string) (files_ : list string)
| CallStgCommit (selFiles : list string) (msg patchName : string) (fold : bool)
| CallMakeBranch (sha_ branchName : string)
| CallMakeTag (sha_ tagName msg : string)
| CallDeleteTag (sha_ : string)
| CallStgPush (sha_ : string)
| CallStgPop (sha_ : string).

(** The call, its result left aside. *)
Definition call {A} (m : R A) : R unit := _ <- m ;; retR tt.

Definition invoke (f : Member) : R unit :=
  env <- askR ;;
  match f with
  | CallRun c => call (liftGit (run c))
  | CallRunInput c buf => call (runInput c buf)
  | CallRunAsync c => call (runAsync c)
  | CallRunAsScript c => call (runAsScript c)
  | CallCheckEnvironment => call (liftGit checkEnvironment)
  | CallUserInfo => call (liftGit userInfo)
  | CallSetTextCodec tc => call (liftGit (setTextCodec tc))
  | CallGetTextCodec => call getTextCodec
  | CallGetRefSha n t a => call (liftGit (getRefSha n t a))
  | CallIsPatchName n => call (liftGit (isPatchName n))
  | CallGetTagMsg x => call (getTagMsg x)
  | CallGetRevInfo x => call (getRevInfo x)
  | CallAddExtraFileInfo n x d a => call (liftGit (addExtraFileInfo n x d a))
  | CallFormatPatchFileHeader n x d c a =>
      call (liftGit (formatPatchFileHeader n x d c a))
  | CallGetDiffAsync x d c => call (getDiffAsync x d c)
  | CallGetDiff x => call (liftGit (getDiff x))
  | CallGetWorkDirDiff f => call (liftGit (getWorkDirDiff f))
  | CallGetFileSha f r => call (liftGit (getFileSha (ANY env) f r))
  | CallGetFile rc x f => call (getFileFor rc x f)
  | CallGetHighlightedFile rc x f => call (getHighlightedFile rc x f)
  | CallSaveFile x f p => call (liftGit (saveFile (imageFormats env) x f p))
  | CallGetTree t ti w p => call (liftGit (getTree (qSort env) t ti w p))
  | CallGetWorkDirFiles st => call (liftGit (getWorkDirFiles st))
  | CallIsTreeModified x => call (liftGit (isTreeModified x))
  | CallIsSameFiles a b => call (liftGit (isSameFiles a b))
  | CallGetLastCommitMsg => call getLastCommitMsg
  | CallGetDesc x fh => call (getDesc x fh)
  | CallRunDiffTreeWithRenameDetection c =>
      call (liftGit (runDiffTreeWithRenameDetection c))
  | CallGetAllMergeFiles r => call (liftGit (getAllMergeFiles r))
  | CallGetFiles x d a p => call (liftGit (getFiles x d a p))
  | CallStartFileHistory n x f => call (startFileHistory n x f)
  | CallGetNewestFileName n b f => call (getNewestFileName n b f)
  | CallGetPatchFilter e r => call (getPatchFilter e r)
  | CallResetCommits n => call (liftGit (resetCommits n))
  | CallApplyPatchFile cfg p f d => call (liftGit (applyPatchFile cfg p f d))
  | CallFormatPatch cfg l d r => call (liftGit (formatPatch cfg l d r))
  | CallGetOtherFiles l o => call (liftGit (getOtherFiles l o))
  | CallUpdateIndex l => call (liftGit (updateIndex l))
  | CallCommitFiles l m a => call (liftGit (commitFiles l m a))
  | CallMkPatchFromWorkDir m p l => call (liftGit (mkPatchFromWorkDir m p l))
  | CallStgCommit l m n f => call (liftGit (stgCommit l m n f))
  | CallMakeBranch x b => call (liftGit (makeBranch x b))
  | CallMakeTag x t m => call (liftGit (makeTag x t m))
  | CallDeleteTag x => call (deleteTag x)
  | CallStgPush x => call (stgPush x)
  | CallStgPop x => call (stgPop x)
  end.

(** ** Vocabulary of the statements below *)

(** The words of a command line, at its spaces. *)
Fixpoint words_from (cur s : string) : list string :=
  match s with
  | EmptyString => [cur]
  | String a s' =>
      if Ascii.eqb a " " then cur :: words_from EmptyString s'
      else words_from (cur +:+ String a EmptyString) s'
  end.

Definition isOption (w : string) : bool :=
  match w with
  | String a _ => Ascii.eqb a "-"
  | EmptyString => false
  end.

(** What a command line runs: its words that are not options. *)
Definition commandWords (c : string) : list string :=
  List.filter (fun w => negb (Qt.isEmpty w) && negb (isOption w))
    (words_from EmptyString c).

(** The two command lines run the same command, be it with other
    options. *)
Definition sameCommand (c c' : string) : Prop :=
  commandWords c = commandWords c'.

(** The command line with rename detection switched on. *)
Definition withRenameDetection (runCmd : string) : string :=
  Qt.replace "git diff-tree" "git diff-tree -C" runCmd.

(** The command that the action runs or starts, with its status. *)
Definition attemptGit (e : Git.Event) : option (string * bool) :=
  match e with
  | EvRun _ c _ ok => Some (c, ok)
  | _ => None
  end.

Definition attempt (a : Action) : option (string * bool) :=
  match a with
  | DoGit e => attemptGit e
  | DoRunInput _ c _ _ ok => Some (c, ok)
  | DoRunAsync _ c _ started => Some (c, started)
  | _ => None
  end.

Definition attempts (h : list Action) : list (string * bool) :=
  omap attempt h.

Definition attemptsGit (tr : list Git.Event) : list (string * bool) :=
  omap attemptGit tr.

(** Among the attempts [c] is made, and later [c'], the same command. *)
Definition triedAgain (rs : list (string * bool)) (ok : bool)
    (c c' : string) : Prop :=
  exists pre mid post ok',
    rs = pre ++ (c, ok) :: mid ++ (c', ok') :: post /\ sameCommand c c'.

(** Among the attempts [c] fails, and later the same command is run
    again as [c']. *)
Definition rerunAfterFailure (rs : list (string * bool)) (c c' : string)
  : Prop :=
  triedAgain rs false c c'.

(** The attempt [r] does not run [c] again, unless [c] is a tree diff
    with rename detection and [r] the same tree diff without it. *)
Definition notAgain (c : string) (r : string * bool) : Prop :=
  sameCommand c r.1 -> c = withRenameDetection r.1.

(** No attempt that failed is run again later, the tree diff apart. *)
Fixpoint settledRuns (rs : list (string * bool)) : Prop :=
  match rs with
  | [] => True
  | r :: rest => (r.2 = false -> Forall (notAgain r.1) rest) /\ settledRuns rest
  end.

(** The attempts that failed are among [K]. *)
Definition failuresIn (K : list string) (rs : list (string * bool)) : Prop :=
  Forall (fun r => r.2 = false -> In r.1 K) rs.

(** Since the trace [tr0] no failed attempt was run again, and the
    attempts that failed are among [K]; with no bound on them, the same
    of a call that runs nothing more. *)
Definition Calm (tr0 : list Git.Event) (K : option (list string))
    (s : Git.State) : Prop :=
  exists new,
    trace s = tr0 ++ new
    /\ settledRuns (attemptsGit new)
    /\ match K with
       | Some K => failuresIn K (attemptsGit new)
       | None => True
       end.

(** The call adds no attempt to the trace. *)
Definition quiet {A} (env : Git.Env) (m : M A) : Prop :=
  forall s a s',
    m env s = Some (a, s') ->
    exists ev, trace s' = trace s ++ ev /\ attemptsGit ev = [].

(** The same for the history of the object. *)
Definition CalmR (h0 : list Action) (K : option (list string)) (s : State)
  : Prop :=
  exists new,
    history s = h0 ++ new
    /\ settledRuns (attempts new)
    /\ match K with
       | Some K => failuresIn K (attempts new)
       | None => True
       end.

Definition quietR {A} (env : Env) (m : R A) : Prop :=
  forall s a s',
    m env s = Some (a, s') ->
    exists ev, history s' = history s ++ ev /\ attempts ev = [].

(** From a state in which [P] holds the call leads, when it returns [a],
    to a state in which [Q a] holds. *)
Definition hoareR {A} (env : Env) (P : State -> Prop) (m : R A)
    (Q : A -> State -> Prop) : Prop :=
  forall s a s', P s -> m env s = Some (a, s') -> Q a s'.

End GitRuns.

(* ===================================================================== *)
(** * A file whose history is asked for *)
(* ===================================================================== *)

Module SampleRuns.

Import Sample.

(** An outside world in which the file is not in the tree of the branch
    and the plain search for its last revision finds nothing; the search
    through the full history finds one, in which no rename is found. *)
Definition listing (found : string) : Git.Env := {|
  Git.ZERO_SHA := Git.ZERO_SHA env0;
  Git.CUSTOM_SHA := Git.CUSTOM_SHA env0;
  Git.ALL_MERGE_FILES := Git.ALL_MERGE_FILES env0;
  Git.QUOTE_CHAR := Git.QUOTE_CHAR env0;
  Git.GIT_VERSION := Git.GIT_VERSION env0;
  Git.optOnlyInIndex := Git.optOnlyInIndex env0;
  Git.CMT_ARGS := Git.CMT_ARGS env0;
  Git.SIGN_CMT_F := Git.SIGN_CMT_F env0;
  Git.VERIFY_CMT_F := Git.VERIFY_CMT_F env0;
  Git.systemEnvironment := Git.systemEnvironment env0;
  Git.tool := fun _ _ cmd =>
    if Qt.startsWith "git ls-tree" cmd then (true, EmptyString)
    else if Qt.startsWith "git rev-list -n1" cmd then (true, found)
    else if Qt.startsWith "git rev-list --full-history" cmd
    then (true, "c0ffee")
    else (false, EmptyString);
  Git.writable := Git.writable env0;
  Git.parseDiffFormat := Git.parseDiffFormat env0
|}.

Definition world (core : Git.Env) : GitRuns.Env := {|
  GitRuns.gitEnv := core;
  GitRuns.refBit := fun t =>
    match t with
    | Git.TAG => 1 | Git.BRANCH => 2 | Git.RMT_BRANCH => 4
    | Git.CUR_BRANCH => 8 | Git.REF => 16 | Git.APPLIED => 32
    | Git.UN_APPLIED => 64 | Git.ANY_REF => 127
    end;
  GitRuns.SCRIPT_EXT := ".sh";
  GitRuns.optGoDown := true;
  GitRuns.ANY := 127;
  GitRuns.imageFormats := ["png"];
  GitRuns.TYPE_WRITER_FONT := ("Monospace", 10);
  GitRuns.longLog := fun r => "long log of " +:+ Git.sha r;
  GitRuns.isDiffCache := fun _ => false;
  GitRuns.isApplied := fun _ => false;
  GitRuns.isUnApplied := fun _ => false;
  GitRuns.committer := fun _ => "Joe";
  GitRuns.author := fun _ => "Joe";
  GitRuns.authorDate := fun _ => "0";
  GitRuns.getLocalDate := fun d => d;
  GitRuns.convertFromPlainText := fun t => t;
  GitRuns.removePgp := fun t => t;
  GitRuns.qSort := fun l => l;
  GitRuns.createFromString := fun _ => GitRuns.DiffError;
  GitRuns.render := fun _ _ => (EmptyString, None);
  GitRuns.toolInput := fun _ _ _ _ => (false, EmptyString);
  GitRuns.asyncStart := fun _ _ _ => false;
  GitRuns.populateRenamedPatches := fun _ _ _ => (false, []);
  GitRuns.startRevList := fun _ _ => false
|}.

Definition object (core : Git.State) : GitRuns.State := {|
  GitRuns.git := core;
  GitRuns.isGIT := true;
  GitRuns.refMore := ∅;
  GitRuns.history := []
|}.

End SampleRuns.

(* ===================================================================== *)
(** * Facts about the string helpers *)
(* ===================================================================== *)

Module QtFacts.

Local Arguments String.append : simpl nomatch.
Local Arguments Ascii.eqb : simpl never.

(** ** The helpers on the texts the sources handle *)

Example section_last_field :
  Qt.section " " (-1) (-1) "    12 abcdef" = "abcdef".
Proof. reflexivity. Qed.

Example section_version :
  Qt.section "." 0 2 (Qt.section " " (-1) (-1) "git version 2.1.0.rc1") = "2.1.0".
Proof. reflexivity. Qed.

Example section_arrow :
  Qt.section " (" 0 0 (Qt.section " --> " 1 1 "a/old.txt --> b/new.txt (R100%)")
  = "b/new.txt".
Proof. reflexivity. Qed.

Example replace_diff_tree :
  Qt.replace "git diff-tree" "git diff-tree -C" "git diff-tree --no-color -r -m x y"
  = "git diff-tree -C --no-color -r -m x y".
Proof. reflexivity. Qed.

Example trimmed_both_ends : Qt.trimmed "  ab c   " = "ab c".
Proof. reflexivity. Qed.

Example arg_int_padded : Qt.arg_int 42 6 = "    42".
Proof. reflexivity. Qed.

Example sort_by_padded_index :
  Qt.sort ["    10 b"; "     2 a"] = ["     2 a"; "    10 b"].
Proof. vm_compute. reflexivity. Qed.

Example dir_and_file : Qt.left (Qt.lastIndexOf "/" "src/git.cpp" + 1) "src/git.cpp" = "src/"
  /\ Qt.mid (Qt.lastIndexOf "/" "src/git.cpp" + 1) "src/git.cpp" = "git.cpp".
Proof. split; reflexivity. Qed.

Lemma append_nil_r (s : string) : s +:+ EmptyString = s.
Proof. induction s as [|a s IH]; [reflexivity|]. cbn. now rewrite IH. Qed.

Lemma append_assoc (a b c : string) : (a +:+ b) +:+ c = a +:+ (b +:+ c).
Proof. induction a as [|x a IH]; [reflexivity|]. cbn. now rewrite IH. Qed.

Lemma append_cons (a : ascii) (s t : string) :
  String a s +:+ t = String a (s +:+ t).
Proof. reflexivity. Qed.

Lemma noChar_app c (a b : string) :
  Qt.noChar c (a +:+ b) = Qt.noChar c a && Qt.noChar c b.
Proof.
  induction a as [|x a IH]; [reflexivity|].
  cbn. rewrite IH. now rewrite andb_assoc.
Qed.

Lemma takeS_dropS (n : nat) (s : string) : Qt.takeS n s +:+ Qt.dropS n s = s.
Proof.
  revert s; induction n as [|n IH]; intros [|a s]; cbn; try reflexivity.
  now rewrite IH.
Qed.

Lemma dropS_all (s : string) : Qt.dropS (String.length s) s = EmptyString.
Proof. induction s as [|a s IH]; [reflexivity|]. exact IH. Qed.

(** Cutting a string at a position inside it loses nothing. *)
Lemma left_mid (n : Z) (s : string) :
  0 <= n -> Qt.left n s +:+ Qt.mid n s = s.
Proof.
  intros Hn. unfold Qt.left, Qt.mid, Qt.size.
  destruct (n <? 0) eqn:E0; [apply Z.ltb_lt in E0; lia|]. cbn [orb].
  destruct (Z.of_nat (String.length s) <=? n) eqn:E1.
  - apply Z.leb_le in E1.
    destruct (Z.of_nat (String.length s) <? n) eqn:E2.
    + apply append_nil_r.
    + apply Z.ltb_ge in E2.
      assert (Z.to_nat n = String.length s) as -> by lia.
      rewrite dropS_all. apply append_nil_r.
  - apply Z.leb_gt in E1.
    destruct (Z.of_nat (String.length s) <? n) eqn:E2;
      [apply Z.ltb_lt in E2; lia|].
    apply takeS_dropS.
Qed.

Lemma lastIndexOf_from_lower c s i last :
  -1 <= last -> -1 <= i -> -1 <= Qt.lastIndexOf_from c s i last.
Proof.
  revert i last; induction s as [|a s IH]; intros i last Hl Hi; cbn; [exact Hl|].
  apply IH; [destruct (Ascii.eqb a c)|]; lia.
Qed.

Lemma lastIndexOf_lower c s : -1 <= Qt.lastIndexOf c s.
Proof. apply lastIndexOf_from_lower; lia. Qed.

(** A name is its directory part followed by its file part. *)
Lemma dir_and_name (name : string) :
  let idx := Qt.lastIndexOf "/" name + 1 in
  Qt.left idx name +:+ Qt.mid idx name = name.
Proof. cbn zeta. apply left_mid. pose proof (lastIndexOf_lower "/" name). lia. Qed.

Lemma startsWith_app (sep r : string) : Qt.startsWith sep (sep +:+ r) = true.
Proof.
  induction sep as [|a sep IH]; [reflexivity|].
  cbn. now rewrite Ascii.eqb_refl.
Qed.

Lemma indexOf_from_found (sep a r : string) (i : Z) :
  0 <= i -> sep <> EmptyString -> 0 <= Qt.indexOf_from sep (a +:+ sep +:+ r) i.
Proof.
  revert i; induction a as [|x a IH]; intros i Hi Hsep.
  - cbn [String.append]. destruct sep as [|c sep]; [congruence|].
    rewrite append_cons. cbn [Qt.indexOf_from].
    rewrite <- append_cons, startsWith_app. exact Hi.
  - rewrite append_cons. cbn [Qt.indexOf_from].
    destruct (Qt.startsWith sep _); [exact Hi|]. apply IH; [lia|exact Hsep].
Qed.

Lemma contains_app (sep a r : string) :
  sep <> EmptyString -> Qt.contains sep (a +:+ sep +:+ r) = true.
Proof.
  intros H. unfold Qt.contains, Qt.indexOf. apply Z.leb_le.
  now apply indexOf_from_found.
Qed.

(** ** Splitting at a separator that carries a marker character

    A separator is easy to locate when one of its characters, the marker,
    occurs neither before it in the separator nor in the field in front:
    the first occurrence is then where the field ends. *)
Section Marker.
Variables (sep : string) (c : ascii).
Hypothesis match_has_marker :
  forall s, Qt.startsWith sep s = true -> Qt.noChar c s = false.
Hypothesis no_early_match :
  forall a o r, Qt.noChar c (String a o) = true ->
    Qt.startsWith sep (String a o +:+ sep +:+ r) = false.
Hypothesis skip_sep :
  forall cur r,
    Qt.split_from sep 0 cur (sep +:+ r) = cur :: Qt.split_from sep 0 EmptyString r.

Lemma split_from_first (o r cur : string) :
  Qt.noChar c o = true ->
  Qt.split_from sep 0 cur (o +:+ sep +:+ r)
  = (cur +:+ o) :: Qt.split_from sep 0 EmptyString r.
Proof.
  revert cur; induction o as [|a o IH]; intros cur Ho.
  - cbn [String.append]. rewrite skip_sep, append_nil_r. reflexivity.
  - pose proof (no_early_match a o r Ho) as Hno.
    rewrite append_cons in Hno |- *. cbn [Qt.split_from]. rewrite Hno.
    cbn in Ho. apply andb_prop in Ho as [_ Ho].
    rewrite (IH _ Ho), append_assoc. reflexivity.
Qed.

Lemma split_from_none (s cur : string) :
  Qt.noChar c s = true -> Qt.split_from sep 0 cur s = [cur +:+ s].
Proof.
  revert cur; induction s as [|a s IH]; intros cur Hs.
  - cbn. now rewrite append_nil_r.
  - cbn [Qt.split_from].
    destruct (Qt.startsWith sep (String a s)) eqn:E.
    + apply match_has_marker in E. congruence.
    + cbn in Hs. apply andb_prop in Hs as [_ Hs].
      rewrite (IH _ Hs), append_assoc. reflexivity.
Qed.

Lemma split_first (o r : string) :
  Qt.noChar c o = true ->
  Qt.split sep (o +:+ sep +:+ r) = o :: Qt.split sep r.
Proof. intros H. unfold Qt.split. now rewrite split_from_first. Qed.

Lemma split_none (s : string) : Qt.noChar c s = true -> Qt.split sep s = [s].
Proof. intros H. unfold Qt.split. now rewrite split_from_none. Qed.
End Marker.

Ltac eqb_cases :=
  repeat match goal with
    | |- context [Ascii.eqb ?a ?b] =>
        destruct (Ascii.eqb_spec a b); try subst; try discriminate;
        try congruence; cbn in *
    end.

Lemma arrow_has_marker s :
  Qt.startsWith " --> " s = true -> Qt.noChar ">" s = false.
Proof.
  destruct s as [|a0 [|a1 [|a2 [|a3 s]]]]; cbn; try discriminate;
    eqb_cases; try discriminate; reflexivity.
Qed.

Lemma arrow_no_early a o r :
  Qt.noChar ">" (String a o) = true ->
  Qt.startsWith " --> " (String a o +:+ " --> " +:+ r) = false.
Proof.
  destruct o as [|a1 [|a2 [|a3 o]]]; cbn; intros H; eqb_cases;
    try reflexivity; try discriminate.
Qed.

Lemma arrow_skip cur r :
  Qt.split_from " --> " 0 cur (" --> " +:+ r)
  = cur :: Qt.split_from " --> " 0 EmptyString r.
Proof. reflexivity. Qed.

Lemma paren_has_marker s :
  Qt.startsWith " (" s = true -> Qt.noChar "(" s = false.
Proof.
  destruct s as [|a0 [|a1 s]]; cbn; try discriminate;
    eqb_cases; try discriminate; reflexivity.
Qed.

Lemma paren_no_early a o r :
  Qt.noChar "(" (String a o) = true ->
  Qt.startsWith " (" (String a o +:+ " (" +:+ r) = false.
Proof.
  destruct o as [|a1 o]; cbn; intros H; eqb_cases;
    try reflexivity; try discriminate.
Qed.

Lemma paren_skip cur r :
  Qt.split_from " (" 0 cur (" (" +:+ r)
  = cur :: Qt.split_from " (" 0 EmptyString r.
Proof. reflexivity. Qed.

Lemma split_arrow_first (o r : string) :
  Qt.noChar ">" o = true ->
  Qt.split " --> " (o +:+ " --> " +:+ r) = o :: Qt.split " --> " r.
Proof. exact (split_first " --> " ">" arrow_no_early arrow_skip o r). Qed.

Lemma split_arrow_none (s : string) :
  Qt.noChar ">" s = true -> Qt.split " --> " s = [s].
Proof. exact (split_none " --> " ">" arrow_has_marker s). Qed.

Lemma split_paren_first (o r : string) :
  Qt.noChar "(" o = true ->
  Qt.split " (" (o +:+ " (" +:+ r) = o :: Qt.split " (" r.
Proof. exact (split_first " (" "(" paren_no_early paren_skip o r). Qed.

Lemma split_paren_none (s : string) :
  Qt.noChar "(" s = true -> Qt.split " (" s = [s].
Proof. exact (split_none " (" "(" paren_has_marker s). Qed.

(** The head of a diff-tree command takes the rename-detection option. *)
Lemma replace_diff_tree_head (rest : string) :
  Qt.replace "git diff-tree" "git diff-tree -C" ("git diff-tree" +:+ rest)
  = "git diff-tree -C" +:+ Qt.replace "git diff-tree" "git diff-tree -C" rest.
Proof. reflexivity. Qed.

(** A path below an absolute directory is absolute: removing it through
    any directory removes the path itself. *)
Lemma filePath_absolute (d g x : string) :
  Qt.isRelativePath g = false -> Qt.filePath d (g +:+ x) = g +:+ x.
Proof.
  unfold Qt.filePath, Qt.isRelativePath. intros H.
  destruct g as [|a g]; [discriminate H|].
  cbn in *. destruct (Ascii.eqb "/" a); [reflexivity|discriminate H].
Qed.

Lemma length_append (a b : string) :
  String.length (a +:+ b) = (String.length a + String.length b)%nat.
Proof. induction a as [|x a IH]; [reflexivity|]. cbn. now rewrite IH. Qed.

(** Only the text of the option [-c] can stand where [-c] stands. *)
Lemma append_cancel_dash_c (x y : string) :
  x +:+ " " +:+ y = "-c " +:+ y -> x = "-c".
Proof.
  intros H. pose proof (f_equal String.length H) as L.
  rewrite !length_append in L. cbn in L.
  destruct x as [|a [|b [|c x]]]; cbn in L; try lia.
  cbn in H. injection H as -> ->. reflexivity.
Qed.

End QtFacts.

(* ===================================================================== *)
(** * Facts about the Git object *)
(* ===================================================================== *)

Module GitFacts.

Import Git QtFacts Sample.
Local Open Scope git_scope.
Local Arguments Qt.replace : simpl never.
Local Arguments getFiles_cmd : simpl never.
Local Arguments isSameFiles_cmd : simpl never.

(** ** File names and rename arrows *)

Lemma findFileIndex_from_hit rf nm dr s (n : nat) : forall i0 i,
  findFileIndex_from rf nm dr s i0 n = Some i -> 0 <= i0 ->
  i = -1 \/
  (i0 <= i /\ exists di ni,
     dirAt rf i = Some di /\ nameAt rf i = Some ni /\
     vec_at (dirNamesVec s) di = Some dr /\
     vec_at (fileNamesVec s) ni = Some nm).
Proof.
  induction n as [|n IH]; intros i0 i H Hi0; cbn in H.
  - left. congruence.
  - destruct (nameAt rf i0) as [ni|] eqn:Eni; [|discriminate]. cbn in H.
    destruct (vec_at (fileNamesVec s) ni) as [fname|] eqn:Efn; [|discriminate].
    cbn in H.
    destruct (String.eqb_spec fname nm) as [->|Hne].
    + destruct (dirAt rf i0) as [di|] eqn:Edi; [|discriminate]. cbn in H.
      destruct (vec_at (dirNamesVec s) di) as [dname|] eqn:Edn; [|discriminate].
      cbn in H.
      destruct (String.eqb_spec dname dr) as [->|Hne'].
      * injection H as <-. right. split; [lia|]. eauto 10.
      * destruct (IH _ _ H ltac:(lia)) as [?|[? ?]]; [now left|right].
        split; [lia|assumption].
    + destruct (IH _ _ H ltac:(lia)) as [?|[? ?]]; [now left|right].
      split; [lia|assumption].
Qed.

(** An index found for a name is the index of an entry that spells the
    name: directory part, then file part. *)
Lemma findFileIndex_hit rf name s i :
  findFileIndex rf name s = Some i -> 0 <= i -> filePath rf i s = Some name.
Proof.
  unfold findFileIndex. intros H Hi.
  destruct (Qt.isEmpty name); [injection H as <-; lia|].
  apply findFileIndex_from_hit in H; [|lia].
  destruct H as [->|[_ (di & ni & Hd & Hn & Hdn & Hfn)]]; [lia|].
  unfold filePath. rewrite Hd. cbn. rewrite Hdn. cbn. rewrite Hn. cbn.
  rewrite Hfn. cbn. f_equal. apply dir_and_name.
Qed.

Lemma section_arrow_dest (orig rest : string) :
  Qt.noChar ">" orig = true -> Qt.noChar ">" rest = true ->
  Qt.section " --> " 1 1 (orig +:+ " --> " +:+ rest) = rest.
Proof.
  intros Ho Hr. unfold Qt.section.
  rewrite (split_arrow_first _ _ Ho), (split_arrow_none _ Hr). reflexivity.
Qed.

Lemma section_paren_head (dest suffix : string) :
  Qt.noChar "(" dest = true ->
  suffix = EmptyString \/ (exists x, suffix = " (" +:+ x) ->
  Qt.section " (" 0 0 (dest +:+ suffix) = dest.
Proof.
  intros Hd [->|[x ->]]; unfold Qt.section.
  - rewrite append_nil_r, (split_paren_none _ Hd). reflexivity.
  - rewrite (split_paren_first _ _ Hd). cbn [length].
    destruct (Qt.split " (" x); reflexivity.
Qed.

(** C6, as it is stated, fails.  On a file set that holds a rename as the
    parser shapes it, the old name and the new name resolve to two
    different entries; and on no file set at all can the two names resolve
    to one entry, since an entry spells a single name. *)
Lemma rename_names_never_share_an_entry :
  (findFileIndex renameSet "old.txt" state0 = Some 1
   /\ findFileIndex renameSet "new.txt" state0 = Some 0)
  /\ ~ exists (rf : RevFile) (s : State) (i : Z),
        0 <= i /\ findFileIndex rf "old.txt" s = Some i
        /\ findFileIndex rf "new.txt" s = Some i.
Proof.
  split; [split; vm_compute; reflexivity|].
  intros (rf & s & i & Hi & Ho & Hn).
  apply findFileIndex_hit in Ho; [|exact Hi].
  apply findFileIndex_hit in Hn; [|exact Hi].
  rewrite Ho in Hn. discriminate Hn.
Qed.

(** C6, amended.  [findFileIndex] resolves a name to an entry that spells
    exactly that name, so the old and the new name of a rename, when both
    resolve, resolve to two different entries, one per name; and
    [removeExtraFileInfo], applied to the formatted rename
    [old --> new], with or without a trailing parenthesised note, yields
    the destination name alone.  (The names are free of the characters the
    arrow and the note are recognised by.) *)
Theorem rename_entries_and_destination :
  (forall (rf : RevFile) (s : State) (old new : string) (i j : Z),
     old <> new ->
     findFileIndex rf old s = Some i -> 0 <= i ->
     findFileIndex rf new s = Some j -> 0 <= j ->
     i <> j /\ filePath rf i s = Some old /\ filePath rf j s = Some new)
  /\ (forall (old new note : string),
        Qt.noChar ">" old = true ->
        Qt.noChar ">" (new +:+ note) = true ->
        Qt.noChar "(" new = true ->
        note = EmptyString \/ (exists x, note = " (" +:+ x) ->
        removeExtraFileInfo (old +:+ " --> " +:+ new +:+ note) = new).
Proof.
  split.
  - intros rf s old new i j Hne Ho Hi Hn Hj.
    apply findFileIndex_hit in Ho; [|exact Hi].
    apply findFileIndex_hit in Hn; [|exact Hj].
    repeat split; try assumption.
    intros ->. rewrite Ho in Hn. congruence.
  - intros old new note Hold Hnew Hparen Hnote.
    unfold removeExtraFileInfo.
    rewrite contains_app by discriminate.
    rewrite (section_arrow_dest _ _ Hold Hnew).
    now apply section_paren_head.
Qed.

Lemma rename_entries_and_destination_witness :
  (1 <> 0 /\ filePath renameSet 1 state0 = Some "old.txt"
   /\ filePath renameSet 0 state0 = Some "new.txt")
  /\ removeExtraFileInfo ("old.txt" +:+ " --> " +:+ "new.txt" +:+ " (R100%)")
     = "new.txt".
Proof.
  split.
  - apply (proj1 rename_entries_and_destination renameSet state0
             "old.txt" "new.txt" 1 0).
    + discriminate.
    + vm_compute. reflexivity.
    + lia.
    + vm_compute. reflexivity.
    + lia.
  - apply (proj2 rename_entries_and_destination "old.txt" "new.txt" " (R100%)").
    + vm_compute. reflexivity.
    + vm_compute. reflexivity.
    + vm_compute. reflexivity.
    + right. exists "R100%)". reflexivity.
Defined.

(** ** Reference resolution *)

Lemma containsName_In (x : string) (l : list string) :
  containsName x l = true <-> In x l.
Proof.
  unfold containsName. rewrite existsb_exists. split.
  - intros (y & Hy & E). apply String.eqb_eq in E. now subst.
  - intros H. exists x. split; [exact H|apply String.eqb_refl].
Qed.

Lemma containsName_not_In (x : string) (l : list string) :
  ~ In x l -> containsName x l = false.
Proof.
  intros H. destruct (containsName x l) eqn:E; [|reflexivity].
  apply containsName_In in E. contradiction.
Qed.

Lemma scanRefs_tag m t A : tagAt m t A -> scanRefs t TAG m = Some A.
Proof.
  induction m as [|[k rf] m IH]; intros [(rfA & Hin & Ht) Huniq].
  - destruct Hin.
  - cbn. destruct (containsName t (tags rf)) eqn:E; cbn.
    + apply containsName_In in E. f_equal. apply (Huniq k rf); [now left|exact E].
    + apply IH. split.
      * destruct Hin as [Heq|Hin]; [|eauto].
        injection Heq as -> ->. apply containsName_In in Ht. congruence.
      * intros A' rf' H' Ht'. apply (Huniq A' rf'); [now right|exact Ht'].
Qed.

Lemma scanRefs_branch m b B : branchAt m b B -> scanRefs b BRANCH m = Some B.
Proof.
  induction m as [|[k rf] m IH]; intros [(rfB & Hin & Hb) Huniq].
  - destruct Hin.
  - cbn. destruct (containsName b (branches rf)) eqn:E; cbn.
    + apply containsName_In in E. f_equal. apply (Huniq k rf); [now left|exact E].
    + apply IH. split.
      * destruct Hin as [Heq|Hin]; [|eauto].
        injection Heq as -> ->. apply containsName_In in Hb. congruence.
      * intros B' rf' H' Hb'. apply (Huniq B' rf'); [now right|exact Hb'].
Qed.

Lemma scanRefs_unnamed m name type :
  unnamed m name -> scanRefs name type m = None.
Proof.
  induction m as [|[k rf] m IH]; intros H; [reflexivity|].
  destruct (H k rf ltac:(now left)) as (H1 & H2 & H3 & H4 & H5).
  cbn [scanRefs].
  rewrite !containsName_not_In by assumption.
  apply String.eqb_neq in H5. rewrite H5, !andb_false_r.
  apply IH. intros k' rf' Hin. apply (H k' rf'). now right.
Qed.

(** C3.  When the index maps tag name [t] to [A] and branch name [b] to
    [B], [getRefSha] returns [A] for [t] asked as a tag and [B] for [b]
    asked as a branch, whatever [askGit] is, and leaves the object as it
    was.  For a name present in no entry it returns the absent
    identifier when [askGit] is false; when [askGit] is true it asks the
    external tool once, silently, for the abbreviated form, returns the
    trimmed answer of a successful resolution and the absent identifier
    when the resolution fails. *)
Theorem getRefSha_resolution (env : Env) (s : State) :
  (forall t A askGit, tagAt (refsShaMap s) t A ->
     getRefSha t TAG askGit env s = Some (A, s))
  /\ (forall b B askGit, branchAt (refsShaMap s) b B ->
        getRefSha b BRANCH askGit env s = Some (B, s))
  /\ (forall name type, unnamed (refsShaMap s) name ->
        getRefSha name type false env s = Some (EmptyString, s)
        /\ let cmd := "git rev-parse --revs-only " +:+ name in
           let r := tool env (trace s) (workDir s) cmd in
           exists s',
             getRefSha name type true env s
             = Some (if r.1 then Qt.trimmed r.2 else EmptyString, s')
             /\ trace s' = trace s ++ [EvRun (workDir s) cmd false r.1]
             /\ (r.1 = false ->
                 getRefSha name type true env s = Some (EmptyString, s'))).
Proof.
  repeat split.
  - intros t A askGit H. unfold getRefSha, bind, gets.
    now rewrite (scanRefs_tag _ _ _ H).
  - intros b B askGit H. unfold getRefSha, bind, gets.
    now rewrite (scanRefs_branch _ _ _ H).
  - unfold getRefSha, bind, gets. now rewrite (scanRefs_unnamed _ _ type H).
  - cbn zeta. unfold getRefSha, bind, gets, modify, run, ret.
    rewrite (scanRefs_unnamed _ _ type H). cbn.
    eexists. split; [reflexivity|]. split; [reflexivity|].
    intros ->. reflexivity.
Qed.

Lemma getRefSha_resolution_witness :
  getRefSha "v1" TAG true env0 state0 = Some ("mid", state0)
  /\ getRefSha "main" BRANCH true env0 state0 = Some ("tip", state0)
  /\ getRefSha "nonexistent" ANY_REF false env0 state0
     = Some (EmptyString, state0).
Proof.
  destruct (getRefSha_resolution env0 state0) as (Ht & Hb & Hn).
  split; [|split].
  - apply Ht. split.
    + eexists. split; [left; reflexivity|]. left. reflexivity.
    + intros A' rf' [E|[E|[]]] Hin; inversion E; subst; cbn in Hin;
        intuition discriminate.
  - apply Hb. split.
    + eexists. split; [right; left; reflexivity|]. left. reflexivity.
    + intros B' rf' [E|[E|[]]] Hin; inversion E; subst; cbn in Hin;
        intuition discriminate.
  - apply (Hn "nonexistent" ANY_REF).
    intros key rf [E|[E|[]]]; inversion E; subst; cbn;
      intuition discriminate.
Defined.

(** ** The transient cache key *)

(** One request for an arbitrary pair of trees: it has a defined result,
    and the cache afterwards is the cache before with, when a file set is
    returned, that file set stored under the transient key. *)
Lemma getFiles_pairwise (env : Env) (q : FilesRequest) (s : State) :
  pairwise env q ->
  exists res s',
    getFiles (req_sha q) (req_diffToSha q) (req_allFiles q) (req_path q) env s
    = Some (res, s')
    /\ revsFiles s'
       = match res with
         | Some rf => <[CUSTOM_SHA env := rf]> (revsFiles s)
         | None => revsFiles s
         end.
Proof.
  intros [Hd Hs]. apply String.eqb_neq in Hs.
  unfold getFiles, bind, ask, gets.
  destruct (revLookup (req_sha q) None s) as [r|]; [|now eauto].
  destruct (parentsCount r =? 0); [now eauto|].
  rewrite Hd, Hs, andb_false_r. cbn [andb negb].
  unfold EM_PROCESS_EVENTS, runDiffTreeWithRenameDetection, bind, modify, run, ret.
  cbn.
  match goal with
  | |- context [tool env ?tr ?wd ?c] => destruct (tool env tr wd c) as [ok1 out1]
  end.
  destruct ok1; cbn.
  - eexists _, _. split; reflexivity.
  - match goal with
    | |- context [tool env ?tr ?wd ?c] => destruct (tool env tr wd c) as [ok2 out2]
    end.
    destruct ok2; cbn; eexists _, _; split; reflexivity.
Qed.

Lemma size_le_delete (k : string) (m : gmap string RevFile) :
  (size m <= S (size (delete k m)))%nat.
Proof.
  rewrite map_size_delete. destruct (m !! k); cbn; lia.
Qed.



(** ** The parent/child fast path *)

Lemma getFiles_plain_trace env s id res s' :
  getFiles id EmptyString false EmptyString env s = Some (res, s') ->
  exists new, trace s' = trace s ++ new /\ Forall (plainEvent id) new.
Proof.
  unfold getFiles, bind, ask, gets.
  destruct (revLookup id None s) as [r|].
  2:{ intros [= <- <-]. exists []. split; [now rewrite app_nil_r|constructor]. }
  destruct (parentsCount r =? 0).
  { intros [= <- <-]. exists []. split; [now rewrite app_nil_r|constructor]. }
  rewrite andb_false_r. cbn [Qt.isEmpty negb andb].
  destruct (revsFiles s !! sha r) as [rf|].
  { intros [= <- <-]. exists []. split; [now rewrite app_nil_r|constructor]. }
  destruct (String.eqb id (ZERO_SHA env)).
  { intros [= <- <-]. exists []. split; [now rewrite app_nil_r|constructor]. }
  unfold EM_PROCESS_EVENTS, runDiffTreeWithRenameDetection, bind, modify, run, ret.
  cbn.
  fold (getFiles_cmd id).
  match goal with
  | |- context [tool env ?tr ?wd ?c] => destruct (tool env tr wd c) as [ok1 out1]
  end.
  destruct ok1; cbn.
  - destruct (revsFiles s !! sha r); intros [= <- <-]; cbn;
      eexists; (split; [rewrite <- app_assoc; reflexivity|]);
      cbn [app]; repeat (apply List.Forall_cons; [cbn; auto|]);
      apply List.Forall_nil.
  - match goal with
    | |- context [tool env ?tr ?wd ?c] => destruct (tool env tr wd c) as [ok2 out2]
    end.
    destruct ok2; cbn; [destruct (revsFiles s !! sha r)|]; intros [= <- <-]; cbn;
      eexists; (split; [rewrite <- !app_assoc; reflexivity|]);
      cbn [app]; repeat (apply List.Forall_cons; [cbn; auto|]);
      apply List.Forall_nil.
Qed.
Lemma getFiles_cmd_renames_differs (x y z : string) :
  Qt.replace "git diff-tree" "git diff-tree -C" (getFiles_cmd z)
  <> isSameFiles_cmd x y.
Proof.
  change (getFiles_cmd z) with ("git diff-tree" +:+ " --no-color -r -c " +:+ z).
  rewrite replace_diff_tree_head. unfold isSameFiles_cmd.
  cbv [String.append]. discriminate.
Qed.

Lemma getFiles_cmd_differs (x y : string) :
  x <> "-c" -> getFiles_cmd y <> isSameFiles_cmd x y.
Proof.
  intros Hx H. unfold getFiles_cmd, isSameFiles_cmd in H.
  apply Hx, (append_cancel_dash_c x y).
  cbv [String.append] in H. fold String.append in H.
  injection H as H. symmetry. exact H.
Qed.

(** C1.  When [X] is the sole parent of [Y], [isSameFiles X Y] is
    [isTreeModified Y] with the answer negated: the same answer, the same
    effects, defined exactly when [isTreeModified Y] is.  What the fast
    path lets the outside see is therefore what [isTreeModified Y] does,
    and the [git diff-tree] command of the general case is not among it.
    (The text [-c] is excluded for [X]: it is no identifier, and with it
    the general command would read like the one [getFiles] issues.)  When
    the file set of [Y] is in the cache, the answer comes from it and the
    state, trace included, is left as it was. *)
Theorem isSameFiles_sole_parent (env : Env) (s : State) (X Y : string) :
  isParentOf X Y s = true ->
  isSameFiles X Y env s
  = match isTreeModified Y env s with
    | Some (modified, s') => Some (negb modified, s')
    | None => None
    end
  /\ (X <> "-c" ->
      forall same s', isSameFiles X Y env s = Some (same, s') ->
      exists new,
        trace s' = trace s ++ new
        /\ forall dir rep ok, ~ In (EvRun dir (isSameFiles_cmd X Y) rep ok) new)
  /\ (forall r f modified,
        revLookup Y None s = Some r -> revsFiles s !! sha r = Some f ->
        isTreeModified_from f 0 (Z.to_nat (count f)) = Some modified ->
        isSameFiles X Y env s = Some (negb modified, s)).
Proof.
  intros HP.
  assert (isSameFiles X Y env s
          = match isTreeModified Y env s with
            | Some (modified, s') => Some (negb modified, s')
            | None => None
            end) as E.
  { unfold isSameFiles, bind at 1, gets. rewrite HP. unfold bind, ret.
    destruct (isTreeModified Y env s) as [[m s']|]; reflexivity. }
  split; [exact E|]. split.
  2:{ intros r f modified Hr Hf Hm. rewrite E.
      unfold isParentOf in HP. rewrite Hr in HP.
      apply andb_prop in HP as [HP _]. apply Z.eqb_eq in HP.
      unfold isTreeModified, getFiles, bind, ask, gets. rewrite Hr, HP.
      cbn. rewrite Hf. cbn. rewrite Hm. reflexivity. }
  intros HX same s' H. rewrite E in H.
  destruct (isTreeModified Y env s) as [[m s1]|] eqn:T; [|discriminate].
  injection H as <- <-.
  unfold isTreeModified, bind in T.
  destruct (getFiles Y EmptyString false EmptyString env s) as [[f s2]|] eqn:G;
    [|discriminate].
  apply getFiles_plain_trace in G as (new & Htr & Hnew).
  assert (s1 = s2) as ->.
  { destruct f as [f|]; [|now injection T].
    unfold deref in T. destruct (isTreeModified_from f 0 (Z.to_nat (count f)));
      [now injection T|discriminate]. }
  exists new. split; [exact Htr|].
  intros dir rep ok Hin.
  rewrite List.Forall_forall in Hnew. specialize (Hnew _ Hin). cbn in Hnew.
  destruct Hnew as [Hc|Hc]; symmetry in Hc.
  - now apply getFiles_cmd_renames_differs in Hc.
  - now apply getFiles_cmd_differs in Hc.
Qed.

Lemma isSameFiles_sole_parent_witness :
  isParentOf "mid" "tip" state1 = true
  /\ isSameFiles "mid" "tip" env1 state1
     = match isTreeModified "tip" env1 state1 with
       | Some (modified, s') => Some (negb modified, s')
       | None => None
       end.
Proof.
  split; [vm_compute; reflexivity|].
  apply (isSameFiles_sole_parent env1 state1 "mid" "tip").
  vm_compute. reflexivity.
Defined.

(** ** Invariants of the member functions *)

Section Transitions.

Variable env : Env.

Local Abbreviation trans := (trans env).

Lemma trans_ret {A} (I : State -> Prop) (a : A) : trans I I (ret a).
Proof. intros s x s' HI [= _ <-]. exact HI. Qed.

Lemma trans_ask (I : State -> Prop) : trans I I ask.
Proof. intros s x s' HI [= _ <-]. exact HI. Qed.

Lemma trans_gets {A} (I : State -> Prop) (f : State -> A) : trans I I (gets f).
Proof. intros s x s' HI [= _ <-]. exact HI. Qed.

Lemma trans_crash {A} (I J : State -> Prop) : trans I J (@crash A).
Proof. intros s x s' _ [=]. Qed.

Lemma trans_deref {A} (I : State -> Prop) (o : option A) : trans I I (deref o).
Proof. destruct o; [apply trans_ret|apply trans_crash]. Qed.

Lemma trans_bind {A B} (I K J : State -> Prop) (m : M A) (k : A -> M B) :
  trans I K m -> (forall a, trans K J (k a)) -> trans I J (bind m k).
Proof.
  intros Hm Hk s b s' HI H. unfold bind in H.
  destruct (m env s) as [[a s1]|] eqn:E; [|discriminate].
  exact (Hk a s1 b s' (Hm s a s1 HI E) H).
Qed.

End Transitions.

Create HintDb gitinv.

#[local] Hint Resolve trans_ret trans_ask trans_gets trans_crash trans_deref
  carried_set carried_events carried_post carried_highlighter
  carried_cacheNeedsUpdate carried_insert carried_remove : gitinv.

(** Walks through a command, one construct at a time.  A branching
    construct leaves the flag as it found it. *)
Ltac trans_go :=
  lazymatch goal with
  | |- trans _ _ _ (bind _ _) =>
      eapply trans_bind; [trans_go | intros ?; trans_go]
  | |- trans _ _ _ (run _) =>
      eapply carried_run;
      [ eassumption
      | first [ intros Hb; discriminate Hb | intros _; once constructor ] ]
  | |- trans _ ?I ?J (if ?c then _ else _) =>
      try (is_evar J; unify J I); destruct c; trans_go
  | |- trans _ ?I ?J (match ?x with _ => _ end) =>
      try (is_evar J; unify J I); destruct x; trans_go
  | |- _ => solve [eauto with gitinv]
  end.

Section CarriedThrough.

Variables (env : Env) (W : string -> Prop) (I : bool -> State -> Prop).
Hypothesis C : Carried env W I.

Local Abbreviation trans := (trans env).

Lemma trans_runDiffTree c :
  trans (I true) (I true) (runDiffTreeWithRenameDetection c).
Proof. unfold runDiffTreeWithRenameDetection. trans_go. Qed.

Hint Resolve trans_runDiffTree : gitinv.

Lemma trans_getAllMergeFiles r : trans (I true) (I true) (getAllMergeFiles r).
Proof. unfold getAllMergeFiles. trans_go. Qed.

Hint Resolve trans_getAllMergeFiles : gitinv.

Lemma trans_getFiles a b c d : trans (I true) (I true) (getFiles a b c d).
Proof. unfold getFiles. trans_go. Qed.

Hint Resolve trans_getFiles : gitinv.

Lemma trans_isTreeModified a : trans (I true) (I true) (isTreeModified a).
Proof. unfold isTreeModified. trans_go. Qed.

Hint Resolve trans_isTreeModified : gitinv.

Lemma trans_isSameFiles a b : trans (I true) (I true) (isSameFiles a b).
Proof. unfold isSameFiles. trans_go. Qed.

Lemma trans_addExtraFileInfo a b c d :
  trans (I true) (I true) (addExtraFileInfo a b c d).
Proof. unfold addExtraFileInfo. trans_go. Qed.

Lemma trans_formatPatchFileHeader a b c d e :
  trans (I true) (I true) (formatPatchFileHeader a b c d e).
Proof.
  pose proof trans_addExtraFileInfo. unfold formatPatchFileHeader. trans_go.
Qed.

Lemma trans_getRefSha n t a : trans (I true) (I true) (getRefSha n t a).
Proof. unfold getRefSha. trans_go. Qed.

Lemma trans_isPatchName n : trans (I true) (I true) (isPatchName n).
Proof. pose proof trans_getRefSha. unfold isPatchName. trans_go. Qed.

Lemma trans_checkEnvironment : trans (I true) (I true) checkEnvironment.
Proof. unfold checkEnvironment. trans_go. Qed.

Lemma trans_userInfo : trans (I true) (I true) userInfo.
Proof. unfold userInfo. trans_go. Qed.

Lemma trans_getOtherFiles l o : trans (I true) (I true) (getOtherFiles l o).
Proof. unfold getOtherFiles. trans_go. Qed.

Lemma trans_updateIndex l : trans (I true) (I true) (updateIndex l).
Proof. unfold updateIndex. trans_go. Qed.

Hint Resolve trans_getOtherFiles trans_updateIndex : gitinv.

Lemma trans_commitFiles_steps l o f :
  trans (I true) (I true) (commitFiles_steps l o f).
Proof. unfold commitFiles_steps. trans_go. Qed.

Lemma trans_mkPatchFromWorkDir m p l :
  W p -> trans (I true) (I true) (mkPatchFromWorkDir m p l).
Proof.
  intros Hp. pose proof (fun b d => carried_write env W I C b p d Hp).
  unfold mkPatchFromWorkDir. trans_go.
Qed.

Lemma trans_stgCommit_steps l m n f p ps ns :
  W p -> trans (I true) (I true) (stgCommit_steps l m n f p ps ns).
Proof.
  intros Hp. pose proof (fun m l => trans_mkPatchFromWorkDir m p l Hp).
  unfold stgCommit_steps. trans_go.
Qed.

Lemma carried_commitFiles l m am s ok s' :
  W (gitDir s +:+ "/qgit_cmt_msg.txt") ->
  I true s -> commitFiles l m am env s = Some (ok, s') -> I true s'.
Proof.
  intros HW HI H.
  unfold commitFiles, bind at 1, ask in H. unfold bind at 1, gets in H.
  match type of H with
  | ?body env s = _ =>
      enough (trans (I true) (I true) body) as T by exact (T s ok s' HI H)
  end.
  pose proof (fun b d => carried_write env W I C b _ d HW).
  pose proof trans_commitFiles_steps.
  trans_go.
Qed.

Lemma carried_stgCommit l m n f s ok s' :
  W (gitDir s +:+ "/qgit_tmp_patch.txt") ->
  I true s -> stgCommit l m n f env s = Some (ok, s') -> I true s'.
Proof.
  intros HW HI H.
  unfold stgCommit, bind at 1, ask in H. unfold bind at 1, gets in H.
  match type of H with
  | ?body env s = _ =>
      enough (trans (I true) (I true) body) as T by exact (T s ok s' HI H)
  end.
  pose proof (fun l m n f ps ns => trans_stgCommit_steps l m n f _ ps ns HW).
  trans_go.
Qed.

End CarriedThrough.

(** The flag invariant is carried. *)
Lemma Inv_log tr0 b s e : Inv tr0 b s -> silentOk e -> Inv tr0 b (log_event e s).
Proof.
  intros (Hb & new & Ht & Hn) He. split; [exact Hb|].
  exists (new ++ [e]). cbn. rewrite Ht, <- app_assoc. split; [reflexivity|].
  apply Forall_app. split; [exact Hn|]. now apply List.Forall_cons.
Qed.

Lemma Inv_carried env tr0 : Carried env (fun _ => True) (Inv tr0).
Proof.
  split.
  - intros b b' s x s' (_ & Hn) [= _ <-]. split; [reflexivity|exact Hn].
  - intros b c Hp s x s' HI [= _ <-]. apply Inv_log; [exact HI|].
    destruct HI as [Hb _]. cbn. rewrite Hb. destruct b; [exact I|now apply Hp].
  - intros b s x s' HI [= _ <-]. now apply Inv_log.
  - intros b c d s x s' HI [= _ <-]. now apply Inv_log.
  - intros b f v s x s' HI [= _ <-]. exact HI.
  - intros b c s x s' HI [= _ <-]. exact HI.
  - intros b k d s x s' HI [= _ <-]. exact HI.
  - intros b p d _ s x s' HI [= _ <-].
    assert (Inv tr0 b (log_event (EvWriteFile p d (writable env (trace s) p)) s))
      as H by now apply Inv_log.
    destruct (writable env (trace s) p); exact H.
  - intros b d n s x s' HI [= _ <-].
    exact (Inv_log tr0 b s (EvRemoveFile (Qt.filePath d n)) HI I).
Qed.

(** The file invariant is carried, whatever the flag. *)
Lemma Writes_log tr0 W s e :
  Writes tr0 W s -> writeOk W e -> Writes tr0 W (log_event e s).
Proof.
  intros (new & Ht & Hn) He.
  exists (new ++ [e]). cbn. rewrite Ht, <- app_assoc. split; [reflexivity|].
  apply Forall_app. split; [exact Hn|]. now apply List.Forall_cons.
Qed.

Lemma Writes_carried env tr0 W : Carried env W (fun _ => Writes tr0 W).
Proof.
  split.
  - intros b b' s x s' HI [= _ <-]. exact HI.
  - intros b c _ s x s' HI [= _ <-]. now apply Writes_log.
  - intros b s x s' HI [= _ <-]. now apply Writes_log.
  - intros b c d s x s' HI [= _ <-]. now apply Writes_log.
  - intros b f v s x s' HI [= _ <-]. exact HI.
  - intros b c s x s' HI [= _ <-]. exact HI.
  - intros b k d s x s' HI [= _ <-]. exact HI.
  - intros b p d Hp s x s' HI [= _ <-].
    assert (Writes tr0 W
              (log_event (EvWriteFile p d (writable env (trace s) p)) s)) as H.
    { apply Writes_log; [exact HI|]. cbn. now destruct (writable env (trace s) p). }
    destruct (writable env (trace s) p); exact H.
  - intros b d n s x s' HI [= _ <-].
    exact (Writes_log tr0 W s (EvRemoveFile (Qt.filePath d n)) HI I).
Qed.

Lemma bind_ret_tt {A} (m : M A) env s x s' :
  (_ <- m ;; ret tt) env s = Some (x, s') -> exists r, m env s = Some (r, s').
Proof.
  unfold bind, ret. destruct (m env s) as [[r s1]|]; [|discriminate].
  intros [= _ <-]. now exists r.
Qed.

Lemma Inv_exec env tr0 op s x s' :
  Inv tr0 true s -> exec op env s = Some (x, s') -> Inv tr0 true s'.
Proof.
  pose proof (Inv_carried env tr0) as C.
  intros HI H. destruct op; cbn [exec] in H;
    [|apply bind_ret_tt in H as [r E]..].
  - exact (trans_checkEnvironment env _ _ C s x s' HI H).
  - exact (trans_userInfo env _ _ C s r s' HI E).
  - exact (trans_getRefSha env _ _ C _ _ _ s r s' HI E).
  - exact (trans_isPatchName env _ _ C _ s r s' HI E).
  - exact (trans_runDiffTree env _ _ C _ s r s' HI E).
  - exact (trans_formatPatchFileHeader env _ _ C _ _ _ _ _ s r s' HI E).
  - exact (trans_mkPatchFromWorkDir env _ _ C _ _ _ I s r s' HI E).
  - exact (trans_getFiles env _ _ C _ _ _ _ s r s' HI E).
  - exact (trans_isTreeModified env _ _ C _ s r s' HI E).
  - exact (trans_isSameFiles env _ _ C _ _ s r s' HI E).
  - exact (trans_addExtraFileInfo env _ _ C _ _ _ _ s r s' HI E).
  - exact (trans_updateIndex env _ _ C _ s r s' HI E).
  - exact (carried_commitFiles env _ _ C _ _ _ s r s' I HI E).
  - exact (carried_stgCommit env _ _ C _ _ _ _ s r s' I HI E).
Qed.

Lemma Inv_exec_all env tr0 ops : forall s x s',
  Inv tr0 true s -> exec_all ops env s = Some (x, s') -> Inv tr0 true s'.
Proof.
  induction ops as [|op ops IH]; intros s x s' HI H; cbn [exec_all] in H.
  - injection H as _ <-. exact HI.
  - unfold bind in H.
    destruct (exec op env s) as [[u s1]|] eqn:E; [|discriminate].
    exact (IH s1 x s' (Inv_exec env tr0 op s u s1 HI E) H).
Qed.

(** ** The retry of the tree diff *)

(** [runDiffTreeWithRenameDetection] runs the command with rename
    detection switched on; when that attempt succeeds it is the only
    invocation and its output is the result, and when it fails the
    command is run exactly once more as it was given, without rename
    detection, and the status and output of that second run are the
    result.  A command that starts with [git diff-tree] receives the
    option [-C] right there.  The runner itself never repeats a command:
    [run] is one invocation whatever the outcome, and the tree diff of
    [isSameFiles], which goes to [run] directly, is invoked once and
    answers false when it fails. *)
Lemma runDiffTree_attempts (env : Env) (s : State) (runCmd : string) :
  let cmd := Qt.replace "git diff-tree" "git diff-tree -C" runCmd in
  let first := tool env (trace s) (workDir s) cmd in
  let ev1 := EvRun (workDir s) cmd false first.1 in
  let second := tool env (trace s ++ [ev1]) (workDir s) runCmd in
  let ev2 := EvRun (workDir s) runCmd true second.1 in
  (exists s',
     runDiffTreeWithRenameDetection runCmd env s
     = Some (if first.1 then (true, first.2) else second, s')
     /\ trace s' = trace s ++ (if first.1 then [ev1] else [ev1; ev2]))
  /\ (forall rest, runCmd = "git diff-tree" +:+ rest ->
        cmd = "git diff-tree -C"
                +:+ Qt.replace "git diff-tree" "git diff-tree -C" rest)
  /\ (forall c,
        let r := tool env (trace s) (workDir s) c in
        exists s',
          run c env s = Some (r, s')
          /\ trace s'
             = trace s ++ [EvRun (workDir s) c (errorReportingEnabled s) r.1])
  /\ (forall X Y,
        isParentOf X Y s = false -> isParentOf Y X s = false ->
        let r := tool env (trace s) (workDir s) (isSameFiles_cmd X Y) in
        exists same s',
          isSameFiles X Y env s = Some (same, s')
          /\ trace s'
             = trace s ++ [EvRun (workDir s) (isSameFiles_cmd X Y)
                             (errorReportingEnabled s) r.1]
          /\ (r.1 = false -> same = false)).
Proof.
  cbn zeta. repeat split.
  - unfold runDiffTreeWithRenameDetection, bind, modify, run, ret. cbn.
    destruct (tool env (trace s) (workDir s)
                (Qt.replace "git diff-tree" "git diff-tree -C" runCmd))
      as [ok1 out1]; cbn.
    destruct ok1; cbn.
    + eexists. split; reflexivity.
    + eexists. split; [reflexivity|]. cbn. now rewrite <- app_assoc.
  - intros rest ->. apply replace_diff_tree_head.
  - intros c. eexists. split; reflexivity.
  - intros X Y H1 H2. unfold isSameFiles, bind, gets, run, ret.
    rewrite H1, H2.
    destruct (tool env (trace s) (workDir s) (isSameFiles_cmd X Y))
      as [ok out]; cbn.
    destruct ok; cbn; eexists _, _; repeat split; try reflexivity.
    discriminate.
Qed.

Example runDiffTree_attempts_at_tip :
  (exists s',
     runDiffTreeWithRenameDetection "git diff-tree --no-color -r -c tip"
       env1 state1
     = Some ((true, "git version 2.1.0"), s')
     /\ trace s'
        = [EvRun "/repo" "git diff-tree -C --no-color -r -c tip" false false;
           EvRun "/repo" "git diff-tree --no-color -r -c tip" true true])
  /\ (exists same s',
        isSameFiles "root" "tip" env0 state0 = Some (same, s')
        /\ trace s'
           = [EvRun "/repo" "git diff-tree --no-color -r root tip" true false]
        /\ (false = false -> same = false)).
Proof.
  split.
  - exact (proj1 (runDiffTree_attempts env1 state1
                    "git diff-tree --no-color -r -c tip")).
  - apply (proj2 (proj2 (proj2 (runDiffTree_attempts env0 state0
                                  EmptyString))) "root" "tip");
      vm_compute; reflexivity.
Defined.

(** ** Scoped suppression of error reports *)

(** C7.  Error reporting is enabled when the object is built.  Whatever
    sequence of the public operations that probe silently is executed
    from a state with reporting enabled, reporting is enabled again when
    the sequence has returned, on every path through every operation;
    every command that was run silently meanwhile is one of the probes
    (the version probe of the highlighter, the configuration reads, the
    abbreviated-reference resolution, the first attempt with rename
    detection, the stash calls); and the next command that is run has its
    failure reported. *)
Theorem error_reporting_restored (env : Env) (ops : list Operation)
    (s s' : State) :
  errorReportingEnabled s = true ->
  exec_all ops env s = Some (tt, s') ->
  errorReportingEnabled s' = true
  /\ (exists new,
        trace s' = trace s ++ new
        /\ forall dir c ok, In (EvRun dir c false ok) new -> Probe c)
  /\ (forall c, exists r s'',
        run c env s' = Some (r, s'')
        /\ trace s'' = trace s' ++ [EvRun (workDir s') c true r.1]).
Proof.
  intros Hs H.
  assert (Inv (trace s) true s) as HI.
  { split; [exact Hs|]. exists []. split; [now rewrite app_nil_r|constructor]. }
  destruct (Inv_exec_all env (trace s) ops s tt s' HI H) as (Hb & new & Ht & Hn).
  repeat split.
  - exact Hb.
  - exists new. split; [exact Ht|]. intros dir c ok Hin.
    rewrite List.Forall_forall in Hn. exact (Hn _ Hin).
  - intros c. unfold run. rewrite Hb. eexists _, _. split; reflexivity.
Qed.

Lemma error_reporting_restored_witness :
  exists s',
    exec_all [OpCheckEnvironment; OpUserInfo; OpGetRefSha "abc" TAG true;
              OpIsSameFiles "mid" "tip";
              OpStgCommit ["new.txt"] "m" "p" true] env1 state1
    = Some (tt, s')
    /\ errorReportingEnabled s' = true.
Proof.
  eexists. split; [vm_compute; reflexivity|].
  eapply (error_reporting_restored env1
            [OpCheckEnvironment; OpUserInfo; OpGetRefSha "abc" TAG true;
             OpIsSameFiles "mid" "tip";
             OpStgCommit ["new.txt"] "m" "p" true] state1);
    vm_compute; reflexivity.
Defined.

(** ** Temporary files *)

Lemma bind_inv {A B} (m : M A) (k : A -> M B) env s b s' :
  bind m k env s = Some (b, s') ->
  exists a s1, m env s = Some (a, s1) /\ k a env s1 = Some (b, s').
Proof.
  unfold bind. destruct (m env s) as [[a s1]|]; [|discriminate].
  intros H. now exists a, s1.
Qed.

(** The last steps of both operations: the file is gone afterwards. *)
Lemma removed_at_exit {A} (f : string) (x : A) env s r s' :
  (wd <- gets workDir ;; QDir_remove wd f ;;; ret x) env s = Some (r, s') ->
  Qt.filePath (workDir s) f ∉ files s'.
Proof.
  intros H. injection H as _ Hs. subst s'. cbn.
  apply not_elem_of_difference. right. now apply elem_of_singleton.
Qed.

Lemma commitFiles_exit env s l m am ok s' :
  Qt.isRelativePath (gitDir s) = false ->
  commitFiles l m am env s = Some (ok, s') ->
  (writable env (trace s) (gitDir s +:+ "/qgit_cmt_msg.txt") = false
   /\ trace s' = trace s ++ [EvWriteFile (gitDir s +:+ "/qgit_cmt_msg.txt") m false])
  \/ gitDir s +:+ "/qgit_cmt_msg.txt" ∉ files s'.
Proof.
  intros Habs H. unfold commitFiles in H.
  apply bind_inv in H as (e & s1 & [= <- <-] & H).
  apply bind_inv in H as (gd & s1 & [= <- <-] & H).
  apply bind_inv in H as (w & s1 & Hw & H).
  unfold writeToFile in Hw. injection Hw as <- <-.
  destruct (writable env (trace s) (gitDir s +:+ "/qgit_cmt_msg.txt")) eqn:E.
  - right. cbn [negb] in H.
    apply bind_inv in H as (r & s2 & _ & H).
    apply removed_at_exit in H.
    now rewrite filePath_absolute in H.
  - left. cbn [negb] in H. injection H as _ Hs. subst s'. split; reflexivity.
Qed.

Lemma stgCommit_exit env s l m n f ok s' :
  Qt.isRelativePath (gitDir s) = false ->
  stgCommit l m n f env s = Some (ok, s') ->
  gitDir s +:+ "/qgit_tmp_patch.txt" ∉ files s'.
Proof.
  intros Habs H. unfold stgCommit in H.
  apply bind_inv in H as (e & s1 & [= <- <-] & H).
  apply bind_inv in H as (gd & s1 & [= <- <-] & H).
  apply bind_inv in H as (other & s1 & _ & H).
  apply bind_inv in H as (notSel & s2 & _ & H).
  apply bind_inv in H as (ex & s3 & _ & H).
  apply bind_inv in H as (u & s4 & _ & H).
  apply removed_at_exit in H.
  now rewrite filePath_absolute in H.
Qed.

Lemma Writes_start W s : Writes (trace s) W s.
Proof. exists []. split; [now rewrite app_nil_r|constructor]. Qed.

(** C9.  The Git directory is kept as an absolute path.  Whenever
    [commitFiles] returns, with success or with failure, the only file it
    wrote is the commit message file, and if it wrote it the file is gone
    from disk; whenever [stgCommit] returns, the only file it wrote is the
    patch file, and that file is not on disk. *)
Theorem temp_files_removed (env : Env) (s : State) :
  Qt.isRelativePath (gitDir s) = false ->
  (forall selFiles msg amend ok s',
     commitFiles selFiles msg amend env s = Some (ok, s') ->
     exists new,
       trace s' = trace s ++ new
       /\ forall p d, In (EvWriteFile p d true) new ->
            p = gitDir s +:+ "/qgit_cmt_msg.txt" /\ p ∉ files s')
  /\ (forall selFiles msg patchName fold ok s',
        stgCommit selFiles msg patchName fold env s = Some (ok, s') ->
        exists new,
          trace s' = trace s ++ new
          /\ (forall p d, In (EvWriteFile p d true) new ->
                p = gitDir s +:+ "/qgit_tmp_patch.txt")
          /\ gitDir s +:+ "/qgit_tmp_patch.txt" ∉ files s').
Proof.
  intros Habs. split.
  - intros l m am ok s' H.
    set (f := gitDir s +:+ "/qgit_cmt_msg.txt").
    destruct (carried_commitFiles env _ _ (Writes_carried env (trace s) (eq f))
                l m am s ok s' eq_refl (Writes_start _ s) H)
      as (new & Ht & Hn).
    exists new. split; [exact Ht|]. intros p d Hin.
    rewrite List.Forall_forall in Hn. pose proof (Hn _ Hin) as Hp. cbn in Hp.
    subst p. split; [reflexivity|].
    destruct (commitFiles_exit env s l m am ok s' Habs H) as [[_ Ht']|Hout];
      [|exact Hout].
    rewrite Ht in Ht'. apply app_inv_head in Ht'. subst new.
    destruct Hin as [Hin|[]]. discriminate Hin.
  - intros l m n fo ok s' H.
    set (f := gitDir s +:+ "/qgit_tmp_patch.txt").
    destruct (carried_stgCommit env _ _ (Writes_carried env (trace s) (eq f))
                l m n fo s ok s' eq_refl (Writes_start _ s) H)
      as (new & Ht & Hn).
    exists new. split; [exact Ht|]. split.
    + intros p d Hin. rewrite List.Forall_forall in Hn.
      pose proof (Hn _ Hin) as Hp. cbn in Hp. now subst p.
    + exact (stgCommit_exit env s l m n fo ok s' Habs H).
Qed.

Lemma temp_files_removed_witness :
  exists s',
    commitFiles ["new.txt"] "message" false env1 state1 = Some (true, s')
    /\ exists new,
         trace s' = trace state1 ++ new
         /\ forall p d, In (EvWriteFile p d true) new ->
              p = gitDir state1 +:+ "/qgit_cmt_msg.txt" /\ p ∉ files s'.
Proof.
  eexists. split; [vm_compute; reflexivity|].
  eapply (proj1 (temp_files_removed env1 state1 eq_refl)
            ["new.txt"] "message" false true).
  vm_compute. reflexivity.
Defined.

(** ** Unknown identifiers and root commits *)

(** C5.  For an identifier that has no record in the revision store (the
    main one, or that of a file history), [revLookup] yields the absent
    result, and the queries on the derived
    indices (children, near tags in both directions, descendant branches
    in both forms, short log) yield empty results; none of them is
    undefined. *)
Theorem unknown_identifier_queries (s : State) (id : string) :
  revs (revData s) !! id = None ->
  revLookup id None s = None
  /\ (forall h, revs h !! id = None -> revLookup id (Some h) s = None)
  /\ getChilds id s = Some []
  /\ (forall goDown, getNearTags goDown id s = Some [])
  /\ (forall shaOnly, getDescendantBranches id shaOnly s = Some [])
  /\ getShortLog id s = EmptyString.
Proof.
  intros H.
  assert (revLookup id None s = None) as L by exact H.
  unfold getChilds, getNearTags, getDescendantBranches, getShortLog.
  rewrite L. repeat split; auto.
Qed.

Lemma unknown_identifier_queries_witness :
  revs (revData state0) !! "nowhere" = None
  /\ getChilds "nowhere" state0 = Some [].
Proof.
  split; [vm_compute; reflexivity|].
  apply (unknown_identifier_queries state0 "nowhere"). vm_compute. reflexivity.
Defined.

(** C10.  For an identifier without a record in the revision store, and
    for one whose record has no parents, [getFiles] returns the absent
    result at once: the state after the call is the state before it, so
    the external tool was not invoked and the cache received nothing. *)
Theorem getFiles_unknown_or_root (env : Env) (s : State)
    (id diffToSha : string) (allFiles : bool) (path : string) :
  revLookup id None s = None
  \/ (exists r, revLookup id None s = Some r /\ parents r = []) ->
  getFiles id diffToSha allFiles path env s = Some (None, s).
Proof.
  intros [H|(r & H & Hp)]; unfold getFiles, bind, ask, gets; rewrite H.
  - reflexivity.
  - unfold parentsCount. rewrite Hp. reflexivity.
Qed.

Lemma getFiles_unknown_or_root_witness :
  getFiles "root" "tip" true "src" env0 state0 = Some (None, state0).
Proof.
  apply getFiles_unknown_or_root. right. eexists. split; [vm_compute|]; reflexivity.
Defined.

End GitFacts.


(* ===================================================================== *)
(** * Facts about the repository switch *)
(* ===================================================================== *)

Module MainImplFacts.

Import MainImpl Sample.

Lemma setRepository_unfold env beh c s :
  setRepository env beh c s
  = setRepository_with env (git_init (setRepository env) beh) c s.
Proof. destruct beh; reflexivity. Qed.

Lemma setRepository_busy env beh c s :
  setRepositoryBusy s = true -> setRepository env beh c s = (Returned, s).
Proof.
  intros H. rewrite setRepository_unfold. unfold setRepository_with.
  now rewrite H.
Qed.

(** While the flag is set, the calls that arrive during an initialisation
    leave it alone. *)
Lemma git_init_busy env beh : forall s,
  setRepositoryBusy s = true ->
  git_init (setRepository env) beh s = (verdict beh, s).
Proof.
  induction beh as [ok stg flag|i|call nested _ rest IH]; intros s H;
    cbn; try reflexivity.
  rewrite (setRepository_busy env nested call s H). now apply IH.
Qed.

Lemma completes_verdict beh :
  completes beh = true -> exists ok stg flag, verdict beh = inr (ok, stg, flag).
Proof.
  induction beh as [ok stg flag|i|call nested _ rest IH]; cbn; intros H.
  - now exists ok, stg, flag.
  - discriminate.
  - now apply IH.
Qed.

Lemma inFlight_from_app (a b : list Event) : forall cur top,
  inFlight_from cur top (a ++ b)
  = inFlight_from (inFlight_from cur top a).1 (inFlight_from cur top a).2 b.
Proof.
  induction a as [|e a IH]; intros cur top; [reflexivity|].
  destruct e; cbn; apply IH.
Qed.

(** A call that finds the flag clear runs one initialisation under the
    set flag and then goes on from the verdict alone. *)
Lemma setRepository_session env beh c s :
  setRepositoryBusy s = false ->
  setRepository env beh c s
  = setRepository_with env (fun s1 => (verdict beh, s1)) c s.
Proof.
  intros H. rewrite setRepository_unfold. unfold setRepository_with.
  rewrite H. cbv zeta. rewrite git_init_busy; [reflexivity|].
  destruct (getBaseDir env (newDir c)) as [dir changed].
  destruct changed; reflexivity.
Qed.

(** C8.  A [setRepository] call that finds the guard flag set returns at
    once: the window is in the state it was in, nothing was shown and no
    exception leaves the call.  Hence, from a point where no
    initialisation is in flight, a call with whatever further calls
    arrive during its initialisation never has two initialisations in
    flight, and none is in flight when it ends.  A call that finds the
    flag clear and whose initialisation runs to its end returns with the
    flag clear. *)
Theorem setRepository_guard (env : Env) (beh : InitRun) (c : Call) (s : State) :
  (setRepositoryBusy s = true -> setRepository env beh c s = (Returned, s))
  /\ (inFlight (trace s) = 0%nat ->
      inFlight (trace (setRepository env beh c s).2) = 0%nat
      /\ (maxInFlight (trace (setRepository env beh c s).2)
          <= Nat.max 1 (maxInFlight (trace s)))%nat)
  /\ (setRepositoryBusy s = false -> completes beh = true ->
      (setRepository env beh c s).1 = Returned
      /\ setRepositoryBusy (setRepository env beh c s).2 = false).
Proof.
  split; [apply setRepository_busy|]. split.
  - intros H0. destruct (setRepositoryBusy s) eqn:Hb.
    { rewrite setRepository_busy by exact Hb. cbn. split; [exact H0|lia]. }
    rewrite setRepository_session by exact Hb.
    unfold setRepository_with, inFlight, maxInFlight in *. rewrite Hb.
    destruct (inFlight_from 0 0 (trace s)) as [cur top] eqn:E. cbn in H0. subst cur.
    destruct (verdict beh) as [i|[[ok stg] flag]];
      destruct (getBaseDir env (newDir c)) as [dir changed];
      destruct changed; try destruct ok;
      try destruct (i =? exExiting env); try destruct (pending env);
      cbn; rewrite !inFlight_from_app, E; cbn; split; (reflexivity || lia).
  - intros Hb Hc. rewrite setRepository_session by exact Hb.
    destruct (completes_verdict beh Hc) as (ok & stg & flag & Hv).
    unfold setRepository_with. rewrite Hb, Hv.
    destruct (getBaseDir env (newDir c)) as [dir changed].
    destruct changed, ok; cbn; split; reflexivity.
Qed.

Lemma setRepository_guard_witness :
  setRepository window_env impatient open_repo
    (set_busy true window0) = (Returned, set_busy true window0)
  /\ (maxInFlight (trace (setRepository window_env impatient open_repo window0).2)
      <= 1)%nat
  /\ setRepositoryBusy (setRepository window_env impatient open_repo window0).2
     = false.
Proof.
  split; [|split].
  - apply (proj1 (setRepository_guard window_env impatient open_repo
                    (set_busy true window0))).
    reflexivity.
  - apply (proj1 (proj2 (setRepository_guard window_env impatient open_repo
                           window0))).
    reflexivity.
  - apply (proj2 (proj2 (setRepository_guard window_env impatient open_repo
                           window0))); reflexivity.
Defined.

(** Outside the claim: when an exception leaves the initialisation, the
    call ends with the flag still set. *)
Lemma setRepository_abandoned env beh c s :
  setRepositoryBusy s = false -> completes beh = false ->
  setRepositoryBusy (setRepository env beh c s).2 = true.
Proof.
  intros Hb Hc. rewrite setRepository_session by exact Hb.
  unfold setRepository_with. rewrite Hb.
  destruct (verdict beh) as [i|[[ok stg] flag]] eqn:Hv.
  - destruct (getBaseDir env (newDir c)) as [dir changed].
    destruct changed, (i =? exExiting env), (pending env); reflexivity.
  - exfalso. clear -Hc Hv.
    induction beh as [ok' stg' flag'|i|call nested _ rest IH]; cbn in *;
      try discriminate. now apply IH.
Qed.

End MainImplFacts.

(* ===================================================================== *)
(** * Facts about the further string and list operations *)
(* ===================================================================== *)

Module QtTextFacts.

Import QtFacts.
Local Arguments String.append : simpl nomatch.
Local Arguments Ascii.eqb : simpl never.

(** ** Joining what was split *)

Lemma startsWith_prefix (sep s : string) :
  Qt.startsWith sep s = true -> s = sep +:+ Qt.dropS (String.length sep) s.
Proof.
  revert s; induction sep as [|a sep IH]; intros s H; [reflexivity|].
  destruct s as [|b s]; [discriminate H|]. cbn in H |- *.
  destruct (Ascii.eqb_spec a b) as [->|]; [|discriminate H].
  now rewrite <- (IH s H).
Qed.

Lemma startsWith_length (sep s : string) :
  Qt.startsWith sep s = true -> (String.length sep <= String.length s)%nat.
Proof.
  intros H. rewrite (startsWith_prefix _ _ H), length_append. lia.
Qed.

Lemma split_from_cons (sep : string) (s : string) : forall skip cur,
  exists x l, Qt.split_from sep skip cur s = x :: l.
Proof.
  induction s as [|a s IH]; intros skip cur; cbn [Qt.split_from]; [eauto|].
  destruct skip as [|k]; [|apply IH].
  destruct (Qt.startsWith sep (String a s)); [eauto|apply IH].
Qed.

Lemma join_cons (sep x : string) (l : list string) :
  l <> [] -> Qt.join sep (x :: l) = x +:+ sep +:+ Qt.join sep l.
Proof. destruct l; [congruence|reflexivity]. Qed.

Lemma join_split_from (sep : string) : sep <> EmptyString ->
  forall s skip cur, (skip <= String.length s)%nat ->
  Qt.join sep (Qt.split_from sep skip cur s) = cur +:+ Qt.dropS skip s.
Proof.
  intros Hsep. induction s as [|a s IH]; intros skip cur Hk.
  - cbn in Hk. assert (skip = O) as -> by lia. cbn. now rewrite append_nil_r.
  - cbn [Qt.split_from]. destruct skip as [|k].
    + destruct (Qt.startsWith sep (String a s)) eqn:E.
      * destruct (split_from_cons sep s (String.length sep - 1) EmptyString)
          as (x & l & El).
        pose proof (startsWith_length _ _ E) as Hlen.
        pose proof (startsWith_prefix _ _ E) as Hpre.
        destruct sep as [|c sep]; [congruence|].
        cbn [String.length] in *. rewrite Nat.sub_succ, Nat.sub_0_r in *.
        rewrite join_cons by (rewrite El; discriminate).
        rewrite IH by lia. cbn [Qt.dropS] in Hpre |- *.
        rewrite Hpre. reflexivity.
      * rewrite IH by lia. cbn [Qt.dropS]. now rewrite append_assoc.
    + rewrite IH by (cbn in Hk; lia). reflexivity.
Qed.

(** Splitting a text at a separator and joining the fields with the same
    separator gives the text back. *)
Lemma join_split (sep s : string) :
  sep <> EmptyString -> Qt.join sep (Qt.split sep s) = s.
Proof.
  intros H. unfold Qt.split. rewrite (join_split_from sep H) by lia.
  reflexivity.
Qed.

(** ** Separators of one character *)

Section OneChar.
Variable c : ascii.
Local Abbreviation sep := (String c EmptyString).

Lemma char_has_marker s : Qt.startsWith sep s = true -> Qt.noChar c s = false.
Proof.
  destruct s as [|a s]; cbn; [discriminate|].
  destruct (Ascii.eqb_spec c a) as [->|]; [|discriminate].
  now rewrite Ascii.eqb_refl.
Qed.

Lemma char_no_early a o r :
  Qt.noChar c (String a o) = true ->
  Qt.startsWith sep (String a o +:+ sep +:+ r) = false.
Proof.
  cbn. rewrite (Ascii.eqb_sym c a).
  destruct (Ascii.eqb a c); [discriminate|reflexivity].
Qed.

Lemma char_skip cur r :
  Qt.split_from sep 0 cur (sep +:+ r) = cur :: Qt.split_from sep 0 EmptyString r.
Proof. cbn. now rewrite Ascii.eqb_refl. Qed.

Lemma split_char_first (o r : string) :
  Qt.noChar c o = true -> Qt.split sep (o +:+ String c r) = o :: Qt.split sep r.
Proof. exact (split_first sep c char_no_early char_skip o r). Qed.

Lemma split_char_none (s : string) :
  Qt.noChar c s = true -> Qt.split sep s = [s].
Proof. exact (split_none sep c char_has_marker s). Qed.

Lemma split_from_char_last (x : string) : Qt.noChar c x = true ->
  forall p cur,
  Qt.split_from sep 0 cur (p +:+ String c x) = Qt.split_from sep 0 cur p ++ [x].
Proof.
  intros Hx. induction p as [|a p IH]; intros cur.
  - change (EmptyString +:+ String c x) with (sep +:+ x).
    rewrite char_skip. fold (Qt.split sep x).
    now rewrite (split_char_none _ Hx).
  - rewrite append_cons. cbn [Qt.split_from Qt.startsWith].
    destruct (Ascii.eqb c a); cbn [String.length Nat.sub];
      rewrite IH; reflexivity.
Qed.

(** The last field is what follows the last separator. *)
Lemma section_last (p x : string) :
  Qt.noChar c x = true -> Qt.section sep (-1) (-1) (p +:+ String c x) = x.
Proof.
  intros Hx. unfold Qt.section, Qt.split.
  rewrite (split_from_char_last x Hx).
  set (l := Qt.split_from sep 0 EmptyString p).
  rewrite length_app. cbn [length].
  replace (-1 <? 0) with true by reflexivity.
  assert ((Z.of_nat (length l + 1) <=? -1 + Z.of_nat (length l + 1)) = false) as ->
    by (apply Z.leb_gt; lia).
  assert ((-1 + Z.of_nat (length l + 1) <? 0) = false) as ->
    by (apply Z.ltb_ge; lia).
  rewrite Z.ltb_irrefl. cbn [orb].
  replace (Z.to_nat (Z.max 0 (-1 + Z.of_nat (length l + 1)))) with (length l)
    by lia.
  replace (Z.to_nat (-1 + Z.of_nat (length l + 1)) + 1 - length l)%nat
    with 1%nat by lia.
  rewrite drop_app_length. reflexivity.
Qed.

Lemma section_last_whole (x : string) :
  Qt.noChar c x = true -> Qt.section sep (-1) (-1) x = x.
Proof.
  intros Hx. unfold Qt.section. rewrite (split_char_none _ Hx). reflexivity.
Qed.

(** The first field is what precedes the first separator, and the fields
    from the second on are what follows it. *)
Lemma section_first (o r : string) :
  Qt.noChar c o = true -> Qt.section sep 0 0 (o +:+ String c r) = o.
Proof.
  intros Ho. unfold Qt.section. rewrite (split_char_first _ _ Ho).
  cbn [length]. destruct (Qt.split sep r); reflexivity.
Qed.

Lemma section_rest (o r : string) :
  Qt.noChar c o = true -> Qt.section sep 1 (-1) (o +:+ String c r) = r.
Proof.
  intros Ho. unfold Qt.section. rewrite (split_char_first _ _ Ho).
  pose proof (join_split sep r ltac:(discriminate)) as J.
  set (l := Qt.split sep r) in *. cbn [length].
  destruct (split_from_cons sep r 0 EmptyString) as (x & l' & El).
  fold (Qt.split sep r) in El. fold l in El.
  assert (0 < Z.of_nat (length l)) by (rewrite El; cbn; lia).
  replace (1 <? 0) with false by reflexivity.
  replace (-1 <? 0) with true by reflexivity.
  assert ((Z.of_nat (S (length l)) <=? 1) = false) as -> by (apply Z.leb_gt; lia).
  assert ((-1 + Z.of_nat (S (length l)) <? 0) = false) as ->
    by (apply Z.ltb_ge; lia).
  assert ((-1 + Z.of_nat (S (length l)) <? 1) = false) as ->
    by (apply Z.ltb_ge; lia).
  cbn [orb]. replace (Z.to_nat (Z.max 0 1)) with 1%nat by lia.
  cbn [drop].
  replace (Z.to_nat (-1 + Z.of_nat (S (length l))) + 1 - 1)%nat
    with (length l) by lia.
  now rewrite firstn_all.
Qed.

End OneChar.

(** ** Directory part and file part of a path *)

Lemma lastIndexOf_from_app c (a b : string) : forall i last,
  Qt.lastIndexOf_from c (a +:+ b) i last
  = Qt.lastIndexOf_from c b (i + Qt.size a) (Qt.lastIndexOf_from c a i last).
Proof.
  induction a as [|x a IH]; intros i last.
  - cbn. f_equal. unfold Qt.size. cbn. lia.
  - rewrite append_cons. cbn [Qt.lastIndexOf_from]. rewrite IH. f_equal.
    unfold Qt.size. cbn [String.length]. lia.
Qed.

Lemma lastIndexOf_from_none c (s : string) : forall i last,
  Qt.noChar c s = true -> Qt.lastIndexOf_from c s i last = last.
Proof.
  induction s as [|x s IH]; intros i last H; [reflexivity|].
  cbn in H |- *. apply andb_prop in H as [Hx Hs].
  apply negb_true_iff in Hx. rewrite Hx. now apply IH.
Qed.

Lemma size_app (a b : string) : Qt.size (a +:+ b) = Qt.size a + Qt.size b.
Proof. unfold Qt.size. rewrite length_append. lia. Qed.

(** A path made of a directory name, empty or closed by a slash, and a
    file name without slashes is cut where the directory name ends. *)
Lemma lastIndexOf_dir (d n : string) :
  d = EmptyString \/ (exists d', d = d' +:+ "/") ->
  Qt.noChar "/" n = true ->
  Qt.lastIndexOf "/" (d +:+ n) + 1 = Qt.size d.
Proof.
  intros Hd Hn. unfold Qt.lastIndexOf.
  rewrite lastIndexOf_from_app, (lastIndexOf_from_none _ _ _ _ Hn).
  destruct Hd as [->|[d' ->]]; [reflexivity|].
  rewrite lastIndexOf_from_app, size_app. cbn. rewrite Ascii.eqb_refl.
  unfold Qt.size. cbn. lia.
Qed.

Lemma takeS_app (a b : string) : Qt.takeS (String.length a) (a +:+ b) = a.
Proof. induction a as [|x a IH]; [now destruct b|]. cbn. now rewrite IH. Qed.

Lemma dropS_app (a b : string) : Qt.dropS (String.length a) (a +:+ b) = b.
Proof. induction a as [|x a IH]; [now destruct b|]. exact IH. Qed.

Lemma left_app (a b : string) : Qt.left (Qt.size a) (a +:+ b) = a.
Proof.
  unfold Qt.left. rewrite size_app. unfold Qt.size.
  destruct (Z.of_nat (String.length a) <? 0) eqn:E0;
    [apply Z.ltb_lt in E0; lia|]. cbn [orb].
  destruct (Z.leb_spec (Z.of_nat (String.length a) + Z.of_nat (String.length b))
              (Z.of_nat (String.length a))).
  - assert (String.length b = O) as Hb by lia.
    destruct b; [|discriminate Hb]. apply append_nil_r.
  - rewrite Nat2Z.id. apply takeS_app.
Qed.

Lemma mid_app (a b : string) : Qt.mid (Qt.size a) (a +:+ b) = b.
Proof.
  unfold Qt.mid. rewrite size_app. unfold Qt.size.
  destruct (Z.ltb_spec (Z.of_nat (String.length a) + Z.of_nat (String.length b))
              (Z.of_nat (String.length a))); [lia|].
  rewrite Nat2Z.id. apply dropS_app.
Qed.

(** ** Decimal numbers *)

Lemma pretty_N_go_acc (x : N) : forall s,
  pretty_N_go x s = pretty_N_go x EmptyString +:+ s.
Proof.
  induction (N.lt_wf_0 x) as [x _ IH]; intros s.
  assert (x = 0 \/ 0 < x)%N as [->|Hx] by lia.
  - now rewrite !pretty_N_go_0.
  - rewrite (pretty_N_go_step x s), (pretty_N_go_step x EmptyString) by exact Hx.
    rewrite IH by (apply N.div_lt; lia).
    rewrite (IH (x `div` 10)%N ltac:(apply N.div_lt; lia)
               (String (pretty_N_char (x `mod` 10)) EmptyString)).
    now rewrite append_assoc.
Qed.

(** The decimal text of a number: one digit below ten, and otherwise
    the text of the tens followed by the last digit. *)
Lemma pretty_N_small (x : N) :
  (x < 10)%N -> pretty x = String (pretty_N_char x) EmptyString.
Proof.
  intros Hx. unfold pretty, pretty_N.
  destruct (decide (x = 0%N)) as [->|Hne]; [reflexivity|].
  rewrite pretty_N_go_step by lia.
  rewrite N.div_small, N.mod_small, pretty_N_go_0 by lia. reflexivity.
Qed.

Lemma pretty_N_snoc (x : N) :
  (10 <= x)%N ->
  pretty x
  = pretty (x `div` 10)%N +:+ String (pretty_N_char (x `mod` 10)) EmptyString.
Proof.
  intros Hx. unfold pretty, pretty_N.
  assert (0 < x `div` 10)%N by (apply N.div_str_pos; lia).
  destruct (decide (x = 0%N)); [lia|].
  destruct (decide ((x `div` 10)%N = 0%N)); [lia|].
  rewrite pretty_N_go_step by lia. apply pretty_N_go_acc.
Qed.

Lemma pretty_N_char_digit (d : N) : QtText.isDigit (pretty_N_char d) = true.
Proof. unfold pretty_N_char. repeat case_match; reflexivity. Qed.

Lemma pretty_N_head (x : N) :
  exists c rest, pretty x = String c rest /\ QtText.isDigit c = true.
Proof.
  induction (N.lt_wf_0 x) as [x _ IH].
  destruct (N.lt_ge_cases x 10) as [Hx|Hx].
  - rewrite (pretty_N_small x Hx). eexists _, _.
    split; [reflexivity|apply pretty_N_char_digit].
  - rewrite (pretty_N_snoc x Hx).
    destruct (IH (x `div` 10)%N) as (c & rest & -> & Hc);
      [apply N.div_lt; lia|].
    eexists _, _. split; [reflexivity|exact Hc].
Qed.

Lemma pretty_Z_nonneg (n : Z) : 0 <= n -> pretty n = pretty (Z.to_N n).
Proof. destruct n; [reflexivity|reflexivity|lia]. Qed.

(** The decimal text of a number that is not negative starts with a
    digit. *)
Lemma number_head (n : Z) :
  0 <= n ->
  exists c rest, QtText.number n = String c rest /\ QtText.isDigit c = true.
Proof.
  intros Hn. unfold QtText.number. rewrite (pretty_Z_nonneg n Hn).
  apply pretty_N_head.
Qed.

Lemma pretty_N_length_small (x : N) :
  (x < 10)%N -> String.length (pretty x) = 1%nat.
Proof. intros Hx. now rewrite (pretty_N_small x Hx). Qed.

Lemma pretty_N_length_snoc (x : N) :
  (10 <= x)%N ->
  String.length (pretty x) = S (String.length (pretty (x `div` 10)%N)).
Proof.
  intros Hx. rewrite (pretty_N_snoc x Hx), length_append. cbn. lia.
Qed.

Lemma pretty_N_length_mono (y : N) : forall x,
  (x <= y)%N -> (String.length (pretty x) <= String.length (pretty y))%nat.
Proof.
  induction (N.lt_wf_0 y) as [y _ IH]; intros x Hxy.
  destruct (N.lt_ge_cases y 10) as [Hy|Hy].
  - rewrite !pretty_N_length_small by lia. lia.
  - rewrite (pretty_N_length_snoc y Hy).
    destruct (N.lt_ge_cases x 10) as [Hx|Hx].
    + rewrite pretty_N_length_small by lia. lia.
    + rewrite (pretty_N_length_snoc x Hx).
      apply le_n_S, IH; [apply N.div_lt; lia|].
      apply N.Div0.div_le_mono. exact Hxy.
Qed.

Lemma pretty_N_length_bound (k : nat) : forall x,
  (x < 10 ^ N.of_nat (S k))%N -> (String.length (pretty x) <= S k)%nat.
Proof.
  induction k as [|k IH]; intros x Hx.
  - rewrite pretty_N_length_small; [lia|]. exact Hx.
  - destruct (N.lt_ge_cases x 10) as [Hs|Hs].
    + rewrite pretty_N_length_small by lia. lia.
    + rewrite (pretty_N_length_snoc x Hs). apply le_n_S, IH.
      apply N.Div0.div_lt_upper_bound.
      replace (N.of_nat (S (S k))) with (N.succ (N.of_nat (S k))) in Hx by lia.
      rewrite N.pow_succ_r' in Hx. exact Hx.
Qed.

(** ** The code-point order on padded numbers *)

Lemma compare_refl (a : string) : String.compare a a = Eq.
Proof.
  induction a as [|c a IH]; [reflexivity|]. cbn.
  assert (Ascii.compare c c = Eq) as ->; [|exact IH].
  unfold Ascii.compare. apply N.compare_refl.
Qed.

Lemma compare_app_prefix (p a b : string) :
  String.compare (p +:+ a) (p +:+ b) = String.compare a b.
Proof.
  induction p as [|c p IH]; [reflexivity|]. cbn.
  assert (Ascii.compare c c = Eq) as ->; [|exact IH].
  unfold Ascii.compare. apply N.compare_refl.
Qed.

Lemma compare_app_lt (a : string) : forall b r1 r2,
  String.compare a b = Lt -> String.length a = String.length b ->
  String.compare (a +:+ r1) (b +:+ r2) = Lt.
Proof.
  induction a as [|c a IH]; intros [|d b] r1 r2 H L; try discriminate.
  cbn in H |- *. destruct (Ascii.compare c d); try discriminate; [|reflexivity].
  apply IH; [exact H|]. now injection L.
Qed.

Lemma compare_snoc (a : string) : forall b (c d : ascii),
  String.length a = String.length b ->
  String.compare (a +:+ String c EmptyString) (b +:+ String d EmptyString)
  = match String.compare a b with
    | Eq => Ascii.compare c d
    | o => o
    end.
Proof.
  induction a as [|x a IH]; intros [|y b] c d L; try discriminate.
  - cbn. now destruct (Ascii.compare c d).
  - cbn. destruct (Ascii.compare x y); try reflexivity.
    apply IH. now injection L.
Qed.

Lemma pretty_N_char_lt (d e : N) :
  (d < e)%N -> (e < 10)%N ->
  Ascii.compare (pretty_N_char d) (pretty_N_char e) = Lt.
Proof.
  intros Hde He.
  assert (e = 1 \/ e = 2 \/ e = 3 \/ e = 4 \/ e = 5 \/ e = 6 \/ e = 7
          \/ e = 8 \/ e = 9)%N as He' by lia.
  assert (d = 0 \/ d = 1 \/ d = 2 \/ d = 3 \/ d = 4 \/ d = 5 \/ d = 6
          \/ d = 7 \/ d = 8)%N as Hd' by lia.
  repeat (destruct He' as [->|He']); try subst e;
    repeat (destruct Hd' as [->|Hd']); try subst d;
    first [reflexivity | lia].
Qed.

(** Between numbers with as many digits, the order of the texts is the
    order of the numbers. *)
Lemma pretty_N_compare (y : N) : forall x,
  (x < y)%N -> String.length (pretty x) = String.length (pretty y) ->
  String.compare (pretty x) (pretty y) = Lt.
Proof.
  induction (N.lt_wf_0 y) as [y _ IH]; intros x Hxy L.
  destruct (N.lt_ge_cases y 10) as [Hy|Hy].
  - rewrite (pretty_N_small x), (pretty_N_small y) by lia. cbn.
    now rewrite pretty_N_char_lt.
  - destruct (N.lt_ge_cases x 10) as [Hx|Hx].
    { rewrite (pretty_N_length_small x Hx), (pretty_N_length_snoc y Hy) in L.
      destruct (pretty_N_head (y `div` 10)%N) as (c & r & E & _).
      rewrite E in L. discriminate L. }
    rewrite (pretty_N_length_snoc x Hx), (pretty_N_length_snoc y Hy) in L.
    injection L as L.
    rewrite (pretty_N_snoc x Hx), (pretty_N_snoc y Hy), compare_snoc by exact L.
    pose proof (N.Div0.div_le_mono x y 10 ltac:(lia)) as Hq.
    destruct (N.eq_dec (x `div` 10)%N (y `div` 10)%N) as [Eq|Ne].
    + rewrite Eq, compare_refl. apply pretty_N_char_lt.
      * pose proof (N.Div0.div_mod x 10).
        pose proof (N.Div0.div_mod y 10). lia.
      * apply N.mod_lt. lia.
    + rewrite IH; [reflexivity|apply N.div_lt; lia|lia|exact L].
Qed.

Lemma spaces_add (m k : nat) :
  Qt.spaces (m + k) = Qt.spaces m +:+ Qt.spaces k.
Proof. induction m as [|m IH]; [reflexivity|]. cbn. now rewrite IH. Qed.

Lemma space_before_digit (c : ascii) :
  QtText.isDigit c = true -> Ascii.compare " " c = Lt.
Proof.
  destruct c as [[] [] [] [] [] [] [] []]; cbn; try discriminate; reflexivity.
Qed.

(** Padded to six characters, numbers below a million are ordered as
    texts the way they are ordered as numbers, whatever follows them. *)
Lemma arg_int_lt (i j : Z) (r1 r2 : string) :
  0 <= i -> i < j -> j < 1000000 ->
  String.compare (Qt.arg_int i 6 +:+ r1) (Qt.arg_int j 6 +:+ r2) = Lt.
Proof.
  intros Hi Hij Hj. unfold Qt.arg_int.
  rewrite (pretty_Z_nonneg i), (pretty_Z_nonneg j) by lia.
  set (x := Z.to_N i). set (y := Z.to_N j).
  assert (x < y)%N as Hxy by lia.
  pose proof (pretty_N_length_mono y x ltac:(lia)) as Hmono.
  pose proof (pretty_N_length_bound 5 y ltac:(cbn; lia)) as Hby.
  set (a := pretty x) in *. set (b := pretty y) in *.
  replace (6 - String.length a)%nat
    with ((6 - String.length b) + (String.length b - String.length a))%nat
    by lia.
  rewrite spaces_add, !append_assoc, compare_app_prefix.
  destruct (String.length b - String.length a)%nat as [|k] eqn:Ek.
  - cbn [Qt.spaces String.append].
    apply compare_app_lt; [|lia].
    apply pretty_N_compare; [exact Hxy|]. fold a b. lia.
  - destruct (pretty_N_head y) as (c & rest & E & Hc). fold b in E.
    rewrite E. cbn. now rewrite (space_before_digit c Hc).
Qed.

Lemma arg_int_le (i j : Z) (r1 r2 : string) :
  0 <= i < 1000000 -> 0 <= j < 1000000 ->
  String.le (Qt.arg_int i 6 +:+ r1) (Qt.arg_int j 6 +:+ r2) -> i <= j.
Proof.
  intros Hi Hj H. destruct (Z.le_gt_cases i j) as [|Hlt]; [assumption|].
  exfalso. unfold String.le, String.leb in H.
  rewrite String.compare_antisym in H.
  rewrite (arg_int_lt j i r2 r1) in H by lia. exact H.
Qed.

(** ** The first pair of dots *)

Lemma startsWith_dots (x : ascii) (t : string) :
  Qt.startsWith ".." (String x t)
  = Ascii.eqb "." x && match t with
                       | String y _ => Ascii.eqb "." y
                       | EmptyString => false
                       end.
Proof.
  cbn. destruct (Ascii.eqb "." x); [|reflexivity].
  destruct t as [|y t]; [reflexivity|]. cbn. now destruct (Ascii.eqb "." y).
Qed.

Lemma indexOf_dots (a r : string) : forall i,
  0 <= i -> Qt.indexOf_from ".." (a +:+ ".") i = -1 ->
  Qt.indexOf_from ".." (a +:+ ".." +:+ r) i = i + Qt.size a.
Proof.
  induction a as [|x a IH]; intros i Hi H.
  - change (EmptyString +:+ ".." +:+ r) with (String "." (String "." r)).
    cbn [Qt.indexOf_from]. rewrite startsWith_dots, !Ascii.eqb_refl.
    unfold Qt.size. cbn. lia.
  - rewrite append_cons in H |- *. cbn [Qt.indexOf_from] in H |- *.
    rewrite startsWith_dots in H |- *.
    assert (match a +:+ ".." +:+ r with
            | String y _ => Ascii.eqb "." y
            | EmptyString => false
            end
            = match a +:+ "." with
              | String y _ => Ascii.eqb "." y
              | EmptyString => false
              end) as -> by now destruct a.
    destruct (Ascii.eqb "." x && _); [lia|].
    rewrite IH by (try lia; exact H). unfold Qt.size. cbn [String.length]. lia.
Qed.

Lemma replaceAt_field (a h b z : string) :
  QtText.replaceAt (Qt.size a) (Qt.size h) z (a +:+ h +:+ b) = a +:+ z +:+ b.
Proof.
  unfold QtText.replaceAt. rewrite !size_app. unfold Qt.size.
  destruct (Z.ltb_spec (Z.of_nat (String.length a)) 0); [lia|].
  destruct (Z.ltb_spec (Z.of_nat (String.length a)
                        + (Z.of_nat (String.length h)
                           + Z.of_nat (String.length b)))
              (Z.of_nat (String.length a))); [lia|].
  cbn [orb]. rewrite Nat2Z.id, takeS_app.
  replace (Z.to_nat (Z.of_nat (String.length a) + Z.of_nat (String.length h)))
    with (String.length (a +:+ h)) by (rewrite length_append; lia).
  now rewrite <- (append_assoc a h b), dropS_app.
Qed.

(** ** Lines *)

Lemma splitLines_first (first rest : string) : forall cur,
  Qt.noChar QtText.lf first = true ->
  exists x,
    QtText.splitLines_from cur (first +:+ String QtText.lf rest)
    = x :: QtText.splitLines rest.
Proof.
  induction first as [|a first IH]; intros cur H.
  - exists cur. cbn. reflexivity.
  - cbn in H. apply andb_prop in H as [Ha Hf]. apply negb_true_iff in Ha.
    cbn [String.append QtText.splitLines_from]. rewrite Ha.
    destruct first as [|b first'].
    + cbn [String.append]. rewrite Ascii.eqb_refl, andb_true_r.
      destruct (Ascii.eqb a QtText.cr).
      * now exists cur.
      * cbn. eexists. reflexivity.
    + cbn [String.append]. cbn in Hf. apply andb_prop in Hf as [Hb Hf'].
      apply negb_true_iff in Hb. rewrite Hb, andb_false_r.
      apply (IH (cur +:+ String a EmptyString)).
      cbn. now rewrite Hb, Hf'.
Qed.

Lemma splitLines_from_cons (s : string) : forall cur,
  exists x l, QtText.splitLines_from cur s = x :: l.
Proof.
  induction s as [|b s IH]; intros c; [cbn; eauto|].
  destruct s as [|d s']; cbn [QtText.splitLines_from].
  - destruct (Ascii.eqb b QtText.lf); eauto.
  - destruct (Ascii.eqb b QtText.lf); [eauto|].
    destruct (Ascii.eqb b QtText.cr && Ascii.eqb d QtText.lf); [eauto|apply IH].
Qed.

Lemma splitLines_from_step (cur : string) (a b : ascii) (s : string) :
  QtText.splitLines_from cur (String a (String b s))
  = if Ascii.eqb a QtText.lf
    then cur :: QtText.splitLines_from EmptyString (String b s)
    else if Ascii.eqb a QtText.cr && Ascii.eqb b QtText.lf
         then cur :: QtText.splitLines_from EmptyString s
         else QtText.splitLines_from (cur +:+ String a EmptyString) (String b s).
Proof. reflexivity. Qed.

Lemma join_splitLines (s : string) : forall cur,
  Qt.noChar QtText.cr s = true ->
  Qt.join Git.nl (QtText.splitLines_from cur s) = cur +:+ s.
Proof.
  induction s as [|a s IH]; intros cur H.
  - cbn. now rewrite append_nil_r.
  - cbn [Qt.noChar] in H. apply andb_prop in H as [Ha Hs].
    apply negb_true_iff in Ha.
    destruct s as [|b s'].
    + cbn [QtText.splitLines_from].
      destruct (Ascii.eqb_spec a QtText.lf) as [->|Hne]; [reflexivity|].
      cbn. reflexivity.
    + rewrite splitLines_from_step, Ha, andb_false_l.
      destruct (Ascii.eqb_spec a QtText.lf) as [->|Hne].
      * destruct (splitLines_from_cons (String b s') EmptyString)
          as (x & l & E).
        rewrite join_cons by (rewrite E; discriminate).
        rewrite (IH EmptyString Hs). reflexivity.
      * rewrite (IH _ Hs), append_assoc. reflexivity.
Qed.

End QtTextFacts.

(* ===================================================================== *)
(** * Facts about the file-state cache *)
(* ===================================================================== *)

Module GitCacheFacts.

Import Git QtFacts Sample GitFacts.
Local Open Scope git_scope.
Local Arguments Qt.replace : simpl never.

(** A request for the files of the working directory is answered from
    the cache alone. *)
Lemma getFiles_zero (env : Env) (s : State) (diffToSha path : string) :
  getFiles (ZERO_SHA env) diffToSha false path env s
  = Some (match revLookup (ZERO_SHA env) None s with
          | Some r => if parentsCount r =? 0 then None
                      else revsFiles s !! sha r
          | None => None
          end, s).
Proof.
  unfold getFiles, bind, ask, gets.
  destruct (revLookup (ZERO_SHA env) None s) as [r|]; [|reflexivity].
  destruct (parentsCount r =? 0); [reflexivity|].
  rewrite String.eqb_refl, !andb_false_r. cbn [negb].
  destruct (revsFiles s !! sha r); reflexivity.
Qed.

Lemma getOtherFiles_state env s sel o l s' :
  getOtherFiles sel o env s = Some (l, s') -> s' = s.
Proof.
  unfold getOtherFiles. unfold bind at 1, ask. unfold bind at 1.
  rewrite getFiles_zero. unfold bind, deref, gets, ret, crash.
  repeat case_match; congruence.
Qed.

(** The outcome of a successful run of the tree diff, whichever attempt
    it comes from, with the events it leaves. *)
Lemma runDiffTree_state env s c o s' :
  runDiffTreeWithRenameDetection c env s = Some (o, s') ->
  revsFiles s' = revsFiles s /\ revData s' = revData s
  /\ cacheNeedsUpdate s' = cacheNeedsUpdate s
  /\ fileNamesVec s' = fileNamesVec s /\ dirNamesVec s' = dirNamesVec s.
Proof.
  unfold runDiffTreeWithRenameDetection, bind, modify, run, ret. cbn.
  destruct (tool env (trace s) (workDir s) _) as [[] out]; cbn;
    intros [= <- <-]; repeat split.
Qed.


Lemma getAllMergeFiles_outcome env s r res s1 :
  getAllMergeFiles r env s = Some (res, s1) ->
  revData s1 = revData s
  /\ cacheNeedsUpdate s1 = cacheNeedsUpdate s
  /\ match res with
     | Some rf =>
         revsFiles s1 !! (ALL_MERGE_FILES env +:+ sha r) = Some rf
         /\ (revsFiles s1 = revsFiles s
             \/ revsFiles s1 = <[ALL_MERGE_FILES env +:+ sha r := rf]> (revsFiles s))
     | None => revsFiles s1 = revsFiles s
     end.
Proof.
  unfold getAllMergeFiles. unfold bind at 1, ask. unfold bind at 1, gets.
  destruct (revsFiles s !! (ALL_MERGE_FILES env +:+ sha r)) as [rf|] eqn:E.
  { intros [= <- <-]. repeat split; auto. }
  intros H.
  apply bind_inv in H as (u & s2 & [= _ <-] & H).
  apply bind_inv in H as (o & s3 & Ho & H).
  apply runDiffTree_state in Ho as (Hf & Hd & Hc & _). cbn in Hf, Hd, Hc.
  destruct o as [[] out]; cbn [negb fst snd] in H.
  - injection H as <- <-. cbn. rewrite Hf, Hd, Hc.
    repeat split; [apply lookup_insert_eq|now right].
  - injection H as <- <-. now rewrite Hf, Hd, Hc.
Qed.

(** X1.  A file set that [getFiles] has returned for a revision, without
    a diff target, is served from the cache from then on: the same
    request, for the plain set or for all the files of a merge, returns
    the same set again and leaves the object, trace included, as it is;
    the external tool is not asked twice.  (Records are stored under
    their own identifier.) *)
Theorem getFiles_answered_from_cache (env : Env) (s s1 : State)
    (id path path' : string) (allFiles : bool) (rf : RevFile) :
  (forall r, revLookup id None s = Some r -> sha r = id) ->
  getFiles id EmptyString allFiles path env s = Some (Some rf, s1) ->
  getFiles id EmptyString allFiles path' env s1 = Some (Some rf, s1).
Proof.
  intros Hid H. unfold getFiles in H |- *.
  unfold bind at 1, ask in H. unfold bind at 1, gets in H.
  unfold bind at 1, ask. unfold bind at 1, gets.
  destruct (revLookup id None s) as [r|] eqn:Hr; [|discriminate H].
  specialize (Hid r eq_refl).
  destruct (parentsCount r =? 0) eqn:Hp; [discriminate H|].
  change (Qt.isEmpty EmptyString) with true in H.
  rewrite andb_true_r in H. cbn [negb andb] in H.
  destruct ((1 <? parentsCount r) && allFiles) eqn:Hm.
  - pose proof (getAllMergeFiles_outcome _ _ _ _ _ H) as (Hd & _ & Hc & _).
    unfold revLookup in Hr |- *. rewrite Hd, Hr, Hp.
    change (Qt.isEmpty EmptyString) with true.
    rewrite andb_true_r, Hm.
    unfold getAllMergeFiles, bind, ask, gets. now rewrite Hc.
  - unfold bind at 1, gets in H.
    destruct (revsFiles s !! sha r) as [rf0|] eqn:Hc.
    + injection H as <- <-. rewrite Hr, Hp.
      change (Qt.isEmpty EmptyString) with true.
      rewrite andb_true_r, Hm. unfold bind, gets. cbn [negb andb].
      now rewrite Hc.
    + destruct (String.eqb id (ZERO_SHA env)); [discriminate H|].
      apply bind_inv in H as (u & s2 & [= _ <-] & H).
      apply bind_inv in H as (o & s3 & Ho & H).
      apply runDiffTree_state in Ho as (Hf & Hd & _). cbn in Hf, Hd.
      destruct o as [[] out]; cbn [negb fst snd] in H; [|discriminate H].
      unfold bind at 1, gets in H. rewrite Hf, Hc in H.
      injection H as <- <-. unfold revLookup in Hr |- *. cbn.
      rewrite Hd, Hr, Hp. change (Qt.isEmpty EmptyString) with true.
      rewrite andb_true_r, Hm.
      unfold bind, gets. cbn. now rewrite Hid, lookup_insert_eq.
Qed.

Lemma getFiles_answered_from_cache_witness :
  exists rf s1,
    getFiles "mid" EmptyString false EmptyString env1 state0 = Some (Some rf, s1)
    /\ trace s1 <> []
    /\ getFiles "mid" EmptyString false "src" env1 s1 = Some (Some rf, s1).
Proof.
  eexists _, _. split; [vm_compute; reflexivity|]. split; [discriminate|].
  apply (getFiles_answered_from_cache env1 state0 _ "mid" EmptyString "src" false).
  - intros r Hr. vm_compute in Hr. injection Hr as <-. reflexivity.
  - vm_compute. reflexivity.
Defined.


Lemma insertNewFiles_outcome env s k d rf s1 :
  insertNewFiles k d env s = Some (rf, s1) ->
  revsFiles s1 = <[k := rf]> (revsFiles s) /\ revData s1 = revData s
  /\ cacheNeedsUpdate s1 = cacheNeedsUpdate s.
Proof. intros [= <- <-]. repeat split. Qed.

(** X2.  What a [getFiles] request does to the cache.  A request that
    returns nothing stores nothing and leaves the mark for a cache that
    needs saving as it is.  A request that returns a file set either found
    it in the cache, which it leaves alone, or stored exactly that set
    under exactly one key: the transient key for a request with a diff
    target, the merge key of the revision for all the files of a merge,
    and the identifier asked for otherwise; only this last, a newly
    computed plain set, marks the cache as needing to be saved.  The
    revision store is never touched. *)
Theorem getFiles_cache_effect (env : Env) (s s' : State)
    (id diffToSha : string) (allFiles : bool) (path : string)
    (res : option RevFile) :
  getFiles id diffToSha allFiles path env s = Some (res, s') ->
  revData s' = revData s
  /\ match res with
     | None =>
         revsFiles s' = revsFiles s
         /\ cacheNeedsUpdate s' = cacheNeedsUpdate s
     | Some rf =>
         (revsFiles s' = revsFiles s
          /\ cacheNeedsUpdate s' = cacheNeedsUpdate s)
         \/ (Qt.isEmpty diffToSha = false
             /\ revsFiles s' = <[CUSTOM_SHA env := rf]> (revsFiles s)
             /\ cacheNeedsUpdate s' = cacheNeedsUpdate s)
         \/ (allFiles = true
             /\ (exists r, revLookup id None s = Some r
                   /\ revsFiles s'
                      = <[ALL_MERGE_FILES env +:+ sha r := rf]> (revsFiles s))
             /\ cacheNeedsUpdate s' = cacheNeedsUpdate s)
         \/ (Qt.isEmpty diffToSha = true
             /\ revsFiles s' = <[id := rf]> (revsFiles s)
             /\ cacheNeedsUpdate s' = true)
     end.
Proof.
  intros H. unfold getFiles in H.
  unfold bind at 1, ask in H. unfold bind at 1, gets in H.
  destruct (revLookup id None s) as [r|] eqn:Hr.
  2:{ injection H as <- <-. auto. }
  destruct (parentsCount r =? 0).
  { injection H as <- <-. auto. }
  destruct ((1 <? parentsCount r) && Qt.isEmpty diffToSha && allFiles) eqn:Hm.
  { apply andb_prop in Hm as [_ ->].
    apply getAllMergeFiles_outcome in H as (Hd & Hc & H).
    split; [exact Hd|]. destruct res as [rf|]; [|now split].
    destruct H as [_ [H|H]]; [now left|].
    right; right; left. split; [reflexivity|]. split; [|exact Hc]. now exists r. }
  destruct (negb (Qt.isEmpty diffToSha) && negb (String.eqb id (ZERO_SHA env)))
    eqn:Hpair.
  { apply andb_prop in Hpair as [Hb _]. apply negb_true_iff in Hb.
    apply bind_inv in H as (u & s2 & [= _ <-] & H).
    apply bind_inv in H as (o & s3 & Ho & H).
    apply runDiffTree_state in Ho as (Hf & Hd & Hc & _). cbn in Hf, Hd, Hc.
    destruct o as [[] out]; cbn [negb fst snd] in H.
    - injection H as <- <-. cbn. rewrite Hf, Hd, Hc. split; [reflexivity|].
      right; left. auto.
    - injection H as <- <-. now rewrite Hf, Hd, Hc. }
  unfold bind at 1, gets in H.
  destruct (revsFiles s !! sha r) as [rf0|] eqn:Hc0.
  { injection H as <- <-. auto. }
  destruct (String.eqb id (ZERO_SHA env)) eqn:Hz.
  { injection H as <- <-. auto. }
  rewrite andb_true_r in Hpair. apply negb_false_iff in Hpair.
  apply bind_inv in H as (u & s2 & [= _ <-] & H).
  apply bind_inv in H as (o & s3 & Ho & H).
  apply runDiffTree_state in Ho as (Hf & Hd & Hc & _). cbn in Hf, Hd, Hc.
  destruct o as [[] out]; cbn [negb fst snd] in H.
  - unfold bind at 1, gets in H. rewrite Hf, Hc0 in H.
    injection H as <- <-. cbn. rewrite Hf, Hd. split; [reflexivity|].
    right; right; right. auto.
  - injection H as <- <-. now rewrite Hf, Hd, Hc.
Qed.

Lemma getFiles_cache_effect_witness :
  exists res s',
    getFiles "mid" EmptyString false EmptyString env1 state0 = Some (res, s')
    /\ revData s' = revData state0.
Proof.
  eexists _, _. split; [vm_compute; reflexivity|].
  refine (proj1 (getFiles_cache_effect env1 state0 _ "mid" EmptyString false
                   EmptyString _ _)).
  vm_compute. reflexivity.
Defined.

End GitCacheFacts.

(* ===================================================================== *)
(** * Facts about names: files, references, patch headers *)
(* ===================================================================== *)

Module GitNamesFacts.

Import Git GitTools QtFacts QtTextFacts Sample GitFacts.
Local Open Scope git_scope.

(** ** Looking a path up *)

Lemma findFileIndex_from_finds rf nm dr s (n : nat) : forall i0 i,
  0 <= i0 <= i -> i < i0 + Z.of_nat n ->
  spells rf s i dr nm ->
  (forall k, i0 <= k < i -> exists d f, spells rf s k d f) ->
  exists j, findFileIndex_from rf nm dr s i0 n = Some j
            /\ i0 <= j <= i /\ spells rf s j dr nm.
Proof.
  induction n as [|n IH]; intros i0 i Hi Hn Hs Hwf; [lia|].
  cbn [findFileIndex_from].
  destruct (Z.eq_dec i0 i) as [->|Hne].
  - destruct Hs as (di & ni & Hd & Hnm & Hdn & Hfn).
    rewrite Hnm. cbn. rewrite Hfn. cbn. rewrite String.eqb_refl, Hd. cbn.
    rewrite Hdn. cbn. rewrite String.eqb_refl.
    exists i. repeat split; try lia. now exists di, ni.
  - destruct (Hwf i0 ltac:(lia)) as (d & f & di & ni & Hd & Hnm & Hdn & Hfn).
    assert (exists j, findFileIndex_from rf nm dr s (i0 + 1) n = Some j
                      /\ i0 + 1 <= j <= i /\ spells rf s j dr nm)
      as (j & Hj & Hr & Hsp).
    { apply IH; try lia; [exact Hs|]. intros k Hk. apply Hwf. lia. }
    rewrite Hnm. cbn. rewrite Hfn. cbn.
    destruct (String.eqb_spec f nm) as [->|_].
    + rewrite Hd. cbn. rewrite Hdn. cbn.
      destruct (String.eqb_spec d dr) as [->|_].
      * exists i0. repeat split; try lia. now exists di, ni.
      * exists j. repeat split; try lia; assumption.
    + exists j. repeat split; try lia; assumption.
Qed.

(** X3.  [findFileIndex] finds every path that the file set holds.
    When entry [i] spells the path, a directory name that is empty or
    closed by a slash followed by a file name without slashes, the
    search returns the first entry that spells this path, at [i] or
    before it, and [filePath] at the returned index gives the path back.
    The empty path is never found.  (The entries before [i] read valid
    positions of the name tables.) *)
Theorem findFileIndex_finds_path (rf : RevFile) (s : State) (i : Z)
    (dname fname : string) :
  0 <= i -> spells rf s i dname fname ->
  dname = EmptyString \/ (exists d', dname = d' +:+ "/") ->
  Qt.noChar "/" fname = true ->
  dname +:+ fname <> EmptyString ->
  (forall k, 0 <= k < i -> exists d f, spells rf s k d f) ->
  (exists j, findFileIndex rf (dname +:+ fname) s = Some j
             /\ 0 <= j <= i
             /\ filePath rf j s = Some (dname +:+ fname))
  /\ findFileIndex rf EmptyString s = Some (-1).
Proof.
  intros Hi Hs Hd Hf Hne Hwf. split; [|reflexivity].
  unfold findFileIndex.
  destruct (Qt.isEmpty (dname +:+ fname)) eqn:E.
  { destruct (dname +:+ fname); [congruence|discriminate E]. }
  rewrite (lastIndexOf_dir dname fname Hd Hf), left_app, mid_app.
  assert (i < count rf) as Hc.
  { destruct Hs as (di & ni & Hdi & _). unfold dirAt, vec_at in Hdi.
    destruct (i <? 0); [discriminate Hdi|].
    destruct (pathsIdx rf !! Z.to_nat i) eqn:L; [|discriminate Hdi].
    apply lookup_lt_Some in L. unfold count. lia. }
  destruct (findFileIndex_from_finds rf fname dname s (Z.to_nat (count rf)) 0 i)
    as (j & Hj & Hr & di & ni & H1 & H2 & H3 & H4); try lia; try assumption.
  exists j. repeat split; try lia; [exact Hj|].
  unfold filePath. rewrite H1. cbn. rewrite H3. cbn. rewrite H2. cbn.
  rewrite H4. reflexivity.
Qed.

Lemma findFileIndex_finds_path_witness :
  exists j, findFileIndex renameSet (EmptyString +:+ "old.txt") state0 = Some j
            /\ 0 <= j <= 1
            /\ filePath renameSet j state0 = Some (EmptyString +:+ "old.txt").
Proof.
  apply (findFileIndex_finds_path renameSet state0 1 EmptyString "old.txt").
  - lia.
  - exists 0, 1. repeat split.
  - now left.
  - reflexivity.
  - discriminate.
  - intros k Hk. assert (k = 0) as -> by lia.
    exists EmptyString, "new.txt", 0, 0. repeat split.
Defined.

(** ** The reference index *)

Lemma scanRefs_sound refName type m key :
  scanRefs refName type m = Some key ->
  exists rf, In (key, rf) m /\ listed type refName rf.
Proof.
  induction m as [|[k rf] m IH]; [discriminate|]. cbn [scanRefs].
  repeat match goal with
  | |- (if ?c && ?d then _ else _) = _ -> _ =>
      let E := fresh "E" in
      destruct (c && d) eqn:E;
      [ apply andb_prop in E as [Et E]; intros [= <-]; exists rf;
        split; [now left|] | clear E ]
  end.
  6:{ intros H. destruct (IH H) as (rf' & Hin & Hl). exists rf'.
      split; [now right|exact Hl]. }
  all: try apply containsName_In in E; try apply String.eqb_eq in E;
    destruct type; try discriminate Et; cbn; auto 10.
Qed.

Lemma scanRefs_complete refName type m :
  (exists key rf, In (key, rf) m /\ listed type refName rf) ->
  is_Some (scanRefs refName type m).
Proof.
  induction m as [|[k rf] m IH]; intros (key & rf' & Hin & Hl); [destruct Hin|].
  cbn [scanRefs].
  repeat match goal with
  | |- is_Some (if ?c && ?d then _ else _) =>
      let E := fresh "E" in
      destruct (c && d) eqn:E; [eauto|apply andb_false_iff in E]
  end.
  destruct Hin as [[= <- <-]|Hin]; [|apply IH; eauto].
  exfalso.
  destruct type; cbn in Hl, E, E0, E1, E2, E3;
    repeat match goal with
    | H : _ \/ _ |- _ => destruct H as [H|H]; try discriminate H
    end;
    repeat match goal with
    | H : containsName _ _ = false |- _ =>
        apply not_true_iff_false in H; rewrite containsName_In in H
    | H : String.eqb _ _ = false |- _ => apply String.eqb_neq in H
    end; try tauto; try congruence.
Qed.

(** X4.  A query of the reference index is sound and complete.  Whatever
    [getRefSha] returns without asking the external tool is the key of an
    entry that lists the name under the kind asked for, or the absent
    identifier; when some entry lists the name under that kind, the key of
    such an entry is returned; and what is found under a specific kind is
    found when any kind is accepted.  The current branch alone is never
    found in the index.  The object is left as it is. *)
Theorem getRefSha_sound_and_complete (env : Env) (s : State)
    (refName : string) (type : RefType) :
  exists key,
    getRefSha refName type false env s = Some (key, s)
    /\ (key = EmptyString
        \/ exists rf, In (key, rf) (refsShaMap s) /\ listed type refName rf)
    /\ ((exists k rf, In (k, rf) (refsShaMap s) /\ listed type refName rf) ->
        exists rf, In (key, rf) (refsShaMap s) /\ listed type refName rf)
    /\ (key <> EmptyString ->
        exists key', getRefSha refName ANY_REF false env s = Some (key', s)
                     /\ exists rf, In (key', rf) (refsShaMap s)
                                   /\ listed ANY_REF refName rf)
    /\ getRefSha refName CUR_BRANCH false env s = Some (EmptyString, s).
Proof.
  assert (forall t, getRefSha refName t false env s
            = Some (default EmptyString (scanRefs refName t (refsShaMap s)), s))
    as G.
  { intros t. unfold getRefSha, bind, gets.
    now destruct (scanRefs refName t (refsShaMap s)). }
  assert (forall key rf, listed type refName rf -> In (key, rf) (refsShaMap s) ->
            exists key', scanRefs refName ANY_REF (refsShaMap s) = Some key'
              /\ exists rf', In (key', rf') (refsShaMap s)
                             /\ listed ANY_REF refName rf') as Any.
  { intros key rf Hl Hin.
    destruct (scanRefs_complete refName ANY_REF (refsShaMap s)) as [key' E].
    - exists key, rf. split; [exact Hin|].
      destruct type; cbn in Hl |- *; tauto.
    - exists key'. split; [exact E|]. now apply scanRefs_sound. }
  assert (getRefSha refName CUR_BRANCH false env s = Some (EmptyString, s))
    as Cur.
  { rewrite G.
    destruct (scanRefs refName CUR_BRANCH (refsShaMap s)) as [k|] eqn:Ec;
      [|reflexivity].
    apply scanRefs_sound in Ec as (? & _ & []). }
  destruct (scanRefs refName type (refsShaMap s)) as [key|] eqn:E.
  - pose proof (scanRefs_sound _ _ _ _ E) as (rf & Hin & Hl).
    exists key. split; [now rewrite G, E|].
    split; [eauto|]. split; [eauto|]. split; [|exact Cur].
    intros _. destruct (Any key rf Hl Hin) as (key' & E' & H').
    exists key'. split; [|exact H']. now rewrite G, E'.
  - exists EmptyString. split; [now rewrite G, E|].
    split; [auto|]. split; [|split; [congruence|exact Cur]].
    intros H. apply scanRefs_complete in H as [k Hk]. congruence.
Qed.

Lemma getRefSha_sound_and_complete_witness :
  exists rf, In ("mid", rf) (refsShaMap state0) /\ listed TAG "v1" rf.
Proof.
  destruct (getRefSha_sound_and_complete env0 state0 "v1" TAG)
    as (key & E & _ & H & _).
  vm_compute in E. injection E as <-.
  apply H. eexists "mid", _. split; [left; reflexivity|]. left. reflexivity.
Defined.

Lemma getRefSha_index env s refName type :
  getRefSha refName type false env s
  = Some (default EmptyString (scanRefs refName type (refsShaMap s)), s).
Proof.
  unfold getRefSha, bind, gets.
  now destruct (scanRefs refName type (refsShaMap s)).
Qed.

Lemma isEmpty_false (x : string) : Qt.isEmpty x = false <-> x <> EmptyString.
Proof. destruct x; cbn; split; congruence. Qed.

(** X5.  [isPatchName] is answered from the reference index alone and
    leaves the object as it is.  It answers true only when some entry
    under a key that is not empty carries the name as its patch name,
    and, the keys of the index being identifiers, it answers true
    whenever some entry carries it.  The empty name counts as the patch
    name of every entry that has no patch. *)
Theorem isPatchName_from_index (env : Env) (s : State) (nm : string) :
  exists b,
    isPatchName nm env s = Some (b, s)
    /\ (b = true ->
        exists key rf, In (key, rf) (refsShaMap s)
                       /\ key <> EmptyString /\ stgitPatch rf = nm)
    /\ ((forall key rf, In (key, rf) (refsShaMap s) -> key <> EmptyString) ->
        (exists key rf, In (key, rf) (refsShaMap s) /\ stgitPatch rf = nm) ->
        b = true).
Proof.
  unfold isPatchName. unfold bind at 1. rewrite getRefSha_index.
  destruct (scanRefs nm UN_APPLIED (refsShaMap s)) as [u|] eqn:Eu;
    cbv [default from_option id].
  - pose proof (scanRefs_sound _ _ _ _ Eu) as (rf & Hin & Hl). cbn in Hl.
    destruct (Qt.isEmpty u) eqn:Hu; cbn [negb].
    + unfold bind. rewrite getRefSha_index.
      destruct (scanRefs nm APPLIED (refsShaMap s)) as [a|] eqn:Ea;
        cbv [default from_option id].
      * pose proof (scanRefs_sound _ _ _ _ Ea) as (rf' & Hin' & Hl').
        cbn in Hl'. eexists. split; [reflexivity|]. split.
        -- intros Hb. apply negb_true_iff, isEmpty_false in Hb. eauto.
        -- intros Hk _. apply negb_true_iff, isEmpty_false. eauto.
      * eexists. split; [reflexivity|]. split; [discriminate|].
        intros Hk _. destruct u; [|discriminate Hu].
        now destruct (Hk _ _ Hin).
    + exists true. split; [reflexivity|]. split; [|reflexivity].
      intros _. apply isEmpty_false in Hu. eauto.
  - change (Qt.isEmpty EmptyString) with true. cbn [negb].
    unfold bind. rewrite getRefSha_index.
    destruct (scanRefs nm APPLIED (refsShaMap s)) as [a|] eqn:Ea;
      cbv [default from_option id].
    + pose proof (scanRefs_sound _ _ _ _ Ea) as (rf' & Hin' & Hl').
      cbn in Hl'. eexists. split; [reflexivity|]. split.
      * intros Hb. apply negb_true_iff, isEmpty_false in Hb. eauto.
      * intros Hk _. apply negb_true_iff, isEmpty_false. eauto.
    + eexists. split; [reflexivity|]. split; [discriminate|].
      intros _ (key & rf & Hin & Hp).
      destruct (scanRefs_complete nm UN_APPLIED (refsShaMap s)) as [k Hk];
        [|congruence].
      exists key, rf. now split.
Qed.

Lemma isPatchName_from_index_witness :
  isPatchName EmptyString env0 state0 = Some (true, state0).
Proof.
  destruct (isPatchName_from_index env0 state0 EmptyString) as (b & E & _ & H).
  rewrite E. f_equal. f_equal. apply H.
  - intros key rf [[= <- <-]|[[= <- <-]|[]]]; discriminate.
  - eexists "mid", _. split; [left; reflexivity|reflexivity].
Defined.

(** ** Patch file headers *)

Lemma section_arrow_orig (orig rest : string) :
  Qt.noChar ">" orig = true ->
  Qt.section " --> " 0 0 (orig +:+ " --> " +:+ rest) = orig.
Proof.
  intros Ho. unfold Qt.section. rewrite (split_arrow_first _ _ Ho).
  cbn [length]. destruct (Qt.split " --> " rest); reflexivity.
Qed.

Lemma contains_arrow_none (x : string) :
  Qt.noChar ">" x = true -> Qt.contains " --> " x = false.
Proof.
  intros H. unfold Qt.contains, Qt.indexOf. apply Z.leb_gt.
  assert (forall i, Qt.indexOf_from " --> " x i = -1) as ->; [|lia].
  induction x as [|a x IH]; intros i; [reflexivity|].
  cbn [Qt.indexOf_from].
  destruct (Qt.startsWith " --> " (String a x)) eqn:E.
  - apply arrow_has_marker in E. congruence.
  - apply IH. cbn in H. now apply andb_prop in H as [_ H].
Qed.

(** X6.  The header of a file in a patch.  For a combined diff it is the
    name as given, and nothing is looked up.  Otherwise the file set of
    the revision is consulted: when the entry found for the name carries
    the rename [old --> new], with or without a trailing note, the header
    names the old file on the [a/] side and the new one on the [b/] side;
    when no file set is available, a name without an arrow stands on both
    sides.  In each case the object is left as [getFiles] leaves it. *)
Theorem formatPatchFileHeader_names (env : Env) (s : State)
    (rowName sha_ diffToSha : string) (allMergeFiles : bool) :
  formatPatchFileHeader rowName sha_ diffToSha true allMergeFiles env s
  = Some ("diff --combined " +:+ rowName, s)
  /\ (forall f s1 i old new note,
        getFiles sha_ diffToSha allMergeFiles EmptyString env s
        = Some (Some f, s1) ->
        findFileIndex f rowName s1 = Some i -> 0 <= i ->
        extendedStatus f i = old +:+ " --> " +:+ new +:+ note ->
        Qt.noChar ">" old = true ->
        Qt.noChar ">" (new +:+ note) = true ->
        Qt.noChar "(" new = true ->
        note = EmptyString \/ (exists x, note = " (" +:+ x) ->
        formatPatchFileHeader rowName sha_ diffToSha false allMergeFiles env s
        = Some ("diff --git a/" +:+ old +:+ " b/" +:+ new, s1))
  /\ (forall s1,
        getFiles sha_ diffToSha allMergeFiles EmptyString env s
        = Some (None, s1) ->
        Qt.noChar ">" rowName = true ->
        formatPatchFileHeader rowName sha_ diffToSha false allMergeFiles env s
        = Some ("diff --git a/" +:+ rowName +:+ " b/" +:+ rowName, s1)).
Proof.
  split; [reflexivity|]. split.
  - intros f s1 i old new note HG Hi Hi0 Hext Hold Hnew Hparen Hnote.
    unfold formatPatchFileHeader, addExtraFileInfo.
    unfold bind at 1. unfold bind at 1. rewrite HG.
    unfold bind at 1. unfold bind at 1. unfold gets. cbv beta iota.
    unfold id. rewrite Hi. cbn [deref ret].
    assert ((i =? -1) = false) as -> by (apply Z.eqb_neq; lia).
    rewrite Hext.
    assert (Qt.isEmpty (old +:+ " --> " +:+ new +:+ note) = false) as ->
      by now destruct old.
    unfold ret at 1. cbv beta iota.
    rewrite contains_app by discriminate.
    rewrite (section_arrow_dest _ _ Hold Hnew), (section_arrow_orig _ _ Hold).
    rewrite (section_paren_head _ _ Hparen Hnote). reflexivity.
  - intros s1 HG Hrow.
    unfold formatPatchFileHeader, addExtraFileInfo.
    unfold bind at 1. unfold bind at 1. rewrite HG. cbn [ret].
    now rewrite (contains_arrow_none _ Hrow).
Qed.

Lemma formatPatchFileHeader_names_witness :
  formatPatchFileHeader "new.txt" "tip" EmptyString false false env0 state0
  = Some ("diff --git a/" +:+ "old.txt" +:+ " b/" +:+ "new.txt", state0).
Proof.
  apply (proj1 (proj2 (formatPatchFileHeader_names env0 state0 "new.txt" "tip"
                         EmptyString false))
           renameSet state0 0 "old.txt" "new.txt" " (R100%)").
  - vm_compute. reflexivity.
  - vm_compute. reflexivity.
  - lia.
  - reflexivity.
  - reflexivity.
  - reflexivity.
  - reflexivity.
  - right. exists "R100%)". reflexivity.
Defined.

(** ** Comparing two trees *)

(** X7.  When one revision is the sole parent of the other (and, the
    history being acyclic, not also its child), [isSameFiles] gives the
    same answer and does the same to the object in whichever order the
    two are named. *)
Theorem isSameFiles_either_order (env : Env) (s : State) (X Y : string) :
  isParentOf X Y s = true -> isParentOf Y X s = false ->
  isSameFiles Y X env s = isSameFiles X Y env s.
Proof.
  intros H1 H2. unfold isSameFiles, bind at 1, gets.
  rewrite H2. unfold bind at 1. rewrite H1.
  unfold bind at 2, gets. rewrite H1. reflexivity.
Qed.

Lemma isSameFiles_either_order_witness :
  isSameFiles "tip" "mid" env1 state1 = isSameFiles "mid" "tip" env1 state1.
Proof.
  apply isSameFiles_either_order; vm_compute; reflexivity.
Defined.

End GitNamesFacts.

(* ===================================================================== *)
(** * Facts about the index, commits and the stash *)
(* ===================================================================== *)

Module GitCommitFacts.

Import Git GitTools QtFacts Sample GitFacts GitCacheFacts.
Local Open Scope git_scope.

(** ** Rules for commands *)

Section Hoare.

Variable env : Env.

Local Abbreviation hoare := (hoare env).

Lemma hoare_ret {A} (P : State -> Prop) (Q : A -> State -> Prop) (a : A) :
  (forall s, P s -> Q a s) -> hoare P (ret a) Q.
Proof. intros H s x s' HP [= <- <-]. now apply H. Qed.

Lemma hoare_bind {A B} (P : State -> Prop) (Q : A -> State -> Prop)
    (R : B -> State -> Prop) (m : M A) (k : A -> M B) :
  hoare P m Q -> (forall a, hoare (Q a) (k a) R) -> hoare P (bind m k) R.
Proof.
  intros Hm Hk s b s' HP H.
  apply bind_inv in H as (a & s1 & H1 & H2).
  exact (Hk a s1 b s' (Hm s a s1 HP H1) H2).
Qed.

Lemma hoare_conseq {A} (P : State -> Prop) (Q Q' : A -> State -> Prop)
    (m : M A) :
  hoare P m Q -> (forall a s, Q a s -> Q' a s) -> hoare P m Q'.
Proof. intros Hm HQ s a s' HP H. exact (HQ _ _ (Hm s a s' HP H)). Qed.

(** A command that leaves the state as it is keeps whatever holds. *)
Lemma hoare_same {A} (P : State -> Prop) (m : M A) :
  (forall s a s', m env s = Some (a, s') -> s' = s) -> hoare P m (fun _ => P).
Proof. intros Hm s a s' HP H. now rewrite (Hm s a s' H). Qed.

Lemma hoare_ask {B} (P : State -> Prop) (R : B -> State -> Prop)
    (k : Env -> M B) :
  hoare P (k env) R -> hoare P (bind ask k) R.
Proof. intros Hk s b s' HP H. exact (Hk s b s' HP H). Qed.

Lemma hoare_gets {A} (P : State -> Prop) (f : State -> A) :
  hoare P (gets f) (fun _ => P).
Proof. apply hoare_same. now intros s x s' [= _ <-]. Qed.

Lemma hoare_deref {A} (P : State -> Prop) (o : option A) :
  hoare P (deref o) (fun _ => P).
Proof. apply hoare_same. destruct o; [now intros s x s' [= _ <-]|discriminate]. Qed.

Lemma hoare_getFiles_zero (P : State -> Prop) d p :
  hoare P (getFiles (ZERO_SHA env) d false p) (fun _ => P).
Proof. apply hoare_same. intros s x s'. rewrite getFiles_zero. now intros [= _ <-]. Qed.

Lemma hoare_getOtherFiles (P : State -> Prop) l o :
  hoare P (getOtherFiles l o) (fun _ => P).
Proof. apply hoare_same. intros s x s'. apply getOtherFiles_state. Qed.

End Hoare.

(** ** Stopping at the first failure *)

Lemma failFast_log tr0 s e :
  failFast tr0 true s -> failFast tr0 (succeeded e) (log_event e s).
Proof.
  intros (new & Ht & Hn). exists (new ++ [e]). cbn [trace log_event].
  rewrite Ht, <- app_assoc. split; [reflexivity|].
  destruct (succeeded e) eqn:E.
  - apply Forall_app. split; [exact Hn|]. now apply List.Forall_cons.
  - now exists new, e.
Qed.

Section FailFast.

Variables (env : Env) (tr0 : list Event).

Local Abbreviation hoare := (hoare env).
Local Abbreviation FF := (failFast tr0).

Lemma failFast_run c : hoare (FF true) (run c) (fun r => FF r.1).
Proof.
  intros s r s' HP [= <- <-].
  exact (failFast_log tr0 s (EvRun _ _ _ _) HP).
Qed.

Lemma failFast_write p d : hoare (FF true) (writeToFile p d) FF.
Proof.
  intros s r s' HP [= <- <-].
  pose proof (failFast_log tr0 s (EvWriteFile p d (writable env (trace s) p)) HP)
    as H.
  cbn [succeeded] in H. now destruct (writable env (trace s) p).
Qed.

Lemma failFast_updateIndex l : hoare (FF true) (updateIndex l) FF.
Proof.
  unfold updateIndex.
  apply hoare_ask.
  eapply hoare_bind; [apply hoare_getFiles_zero|]. intros f.
  eapply hoare_bind; [apply hoare_gets|]. intros s0.
  eapply hoare_bind; [apply hoare_deref|]. intros sp.
  eapply hoare_bind with (Q := fun failed => FF (negb failed)).
  { destruct (isNil sp.2); cbn [negb].
    - apply hoare_ret. auto.
    - eapply hoare_bind; [apply failFast_run|]. intros r. apply hoare_ret.
      intros s. now rewrite negb_involutive. }
  intros [|]; cbn [negb]; [now apply hoare_ret|].
  eapply hoare_bind with (Q := fun failed => FF (negb failed)).
  { destruct (isNil sp.1); cbn [negb].
    - apply hoare_ret. auto.
    - eapply hoare_bind; [apply failFast_run|]. intros r. apply hoare_ret.
      intros s. now rewrite negb_involutive. }
  intros [|]; cbn [negb]; now apply hoare_ret.
Qed.

Lemma failFast_commitFiles_steps l o f :
  hoare (FF true) (commitFiles_steps l o f) FF.
Proof.
  unfold commitFiles_steps.
  apply hoare_ask.
  eapply hoare_bind; [apply hoare_getOtherFiles|]. intros notSel.
  eapply hoare_bind with (Q := fun failed => FF (negb failed)).
  { destruct (isNil notSel); cbn [negb].
    - apply hoare_ret. auto.
    - eapply hoare_bind; [apply failFast_run|]. intros r. apply hoare_ret.
      intros s. now rewrite negb_involutive. }
  intros [|]; cbn [negb]; [now apply hoare_ret|].
  eapply hoare_bind; [apply failFast_updateIndex|].
  intros [|]; cbn [negb]; [|now apply hoare_ret].
  eapply hoare_bind; [apply failFast_run|].
  intros [[|] out]; cbn [negb fst]; [|now apply hoare_ret].
  eapply hoare_bind with (Q := fun failed => FF (negb failed)).
  { destruct (isNil notSel); cbn [negb].
    - apply hoare_ret. auto.
    - eapply hoare_bind; [apply failFast_updateIndex|]. intros r.
      apply hoare_ret. intros s. now rewrite negb_involutive. }
  intros [|]; cbn [negb]; now apply hoare_ret.
Qed.

End FailFast.

Lemma failFast_start s : failFast (trace s) true s.
Proof. exists []. split; [now rewrite app_nil_r|constructor]. Qed.

(** The trace only grows. *)
Lemma updateIndex_grows env s l a s' :
  updateIndex l env s = Some (a, s') -> exists new, trace s' = trace s ++ new.
Proof.
  intros H.
  destruct (trans_updateIndex env _ _
              (Writes_carried env (trace s) (fun _ => True)) l s a s'
              (Writes_start _ s) H) as (new & Ht & _).
  now exists new.
Qed.

Lemma commitFiles_steps_committed env s l o f s' :
  commitFiles_steps l o f env s = Some (true, s') ->
  exists pre dir rep post,
    trace s'
    = trace s ++ pre
        ++ EvRun dir ("git commit" +:+ o +:+ " -F " +:+ quote env f) rep true
        :: post.
Proof.
  intros H. unfold commitFiles_steps in H.
  apply bind_inv in H as (e & s0 & [= <- <-] & H).
  apply bind_inv in H as (notSel & s1 & H1 & H).
  apply getOtherFiles_state in H1 as ->.
  apply bind_inv in H as (resetFailed & s2 & H2 & H).
  assert (exists n2, trace s2 = trace s ++ n2) as (n2 & T2).
  { destruct (isNil notSel); cbn [negb] in H2.
    - injection H2 as _ <-. exists []. now rewrite app_nil_r.
    - apply bind_inv in H2 as (r & s2' & [= _ <-] & [= _ <-]). now eexists. }
  destruct resetFailed; [discriminate H|].
  apply bind_inv in H as (u & s3 & H3 & H).
  apply updateIndex_grows in H3 as (n3 & T3).
  destruct u; cbn [negb] in H; [|discriminate H].
  apply bind_inv in H as (c & s4 & H4 & H).
  injection H4 as <- <-.
  destruct (tool env (trace s3) (workDir s3) _) as [[] out] eqn:Ec;
    cbn [negb fst] in H; [|discriminate H].
  apply bind_inv in H as (restoreFailed & s5 & H5 & H).
  assert (exists n5, trace s5
                     = (trace s3 ++ [EvRun (workDir s3)
                          ("git commit" +:+ o +:+ " -F " +:+ quote env f)
                          (errorReportingEnabled s3) true]) ++ n5)
    as (n5 & T5).
  { destruct (isNil notSel); cbn [negb] in H5.
    - injection H5 as _ <-. exists []. now rewrite app_nil_r.
    - apply bind_inv in H5 as (r & s5' & H5 & [= _ <-]).
      apply updateIndex_grows in H5 as (n5 & T5). now exists n5. }
  destruct restoreFailed; [discriminate H|]. injection H as <-.
  exists (n2 ++ n3), (workDir s3), (errorReportingEnabled s3), n5.
  rewrite T5, T3, T2, <- !app_assoc. reflexivity.
Qed.

(** X8.  [commitFiles] stops at the first failure.  When it returns
    true, every step it took succeeded, the writing of the message file
    and each command it ran, and the commit command is among them.  When
    it returns false, one step failed, every step before it had
    succeeded, and nothing was done afterwards but to remove the message
    file; the step that fails may come after the commit itself, so false
    does not tell that no commit was made. *)
Theorem commitFiles_stops_at_first_failure (env : Env) (s s' : State)
    (selFiles : list string) (msg : string) (amend ok : bool) :
  commitFiles selFiles msg amend env s = Some (ok, s') ->
  exists new,
    trace s' = trace s ++ new
    /\ (ok = true ->
        Forall (fun e => succeeded e = true) new
        /\ exists dir rep,
             In (EvRun dir
                   (commitFiles_cmd env amend (gitDir s +:+ "/qgit_cmt_msg.txt"))
                   rep true) new)
    /\ (ok = false ->
        exists pre e post,
          new = pre ++ e :: post
          /\ Forall (fun e => succeeded e = true) pre
          /\ succeeded e = false
          /\ Forall isRemoval post).
Proof.
  intros H. unfold commitFiles in H.
  apply bind_inv in H as (e & s0 & [= <- <-] & H).
  apply bind_inv in H as (gd & s0 & [= <- <-] & H).
  apply bind_inv in H as (w & s1 & Hw & H).
  pose proof (failFast_write env (trace s) _ _ s w s1 (failFast_start s) Hw)
    as F1.
  destruct w; cbn [negb] in H.
  2:{ injection H as <- <-. destruct F1 as (new & Ht & pre & e & -> & Hpre & He).
      exists (pre ++ [e]). split; [exact Ht|]. split; [discriminate|].
      intros _. exists pre, e, []. repeat split; auto. }
  apply bind_inv in H as (r & s2 & Hsteps & H).
  pose proof (failFast_commitFiles_steps env (trace s) _ _ _ s1 r s2 F1 Hsteps)
    as F2.
  injection H as <- <-. cbn [trace log_event set_files].
  destruct F2 as (new & Ht & F2). rewrite Ht.
  exists (new ++ [EvRemoveFile (Qt.filePath (workDir s2)
                                  (gitDir s +:+ "/qgit_cmt_msg.txt"))]).
  split; [now rewrite app_assoc|]. split.
  - intros ->. split.
    + apply Forall_app. split; [exact F2|]. now apply List.Forall_cons.
    + apply commitFiles_steps_committed in Hsteps
        as (pre & dir & rep & post & Hc).
      destruct F1 as (n1 & T1 & _). rewrite Ht, T1, <- !app_assoc in Hc.
      apply app_inv_head in Hc. exists dir, rep.
      apply in_or_app. left. rewrite Hc.
      apply in_or_app. right. apply in_or_app. right. now left.
  - intros ->. destruct F2 as (pre & e & -> & Hpre & He).
    exists pre, e, [EvRemoveFile (Qt.filePath (workDir s2)
                                    (gitDir s +:+ "/qgit_cmt_msg.txt"))].
    rewrite <- app_assoc. repeat split; auto.
    apply List.Forall_cons; [exact I|apply List.Forall_nil].
Qed.

Lemma commitFiles_stops_at_first_failure_witness :
  exists s' new,
    commitFiles ["new.txt"] "message" false env1 state1 = Some (true, s')
    /\ trace s' = trace state1 ++ new
    /\ Forall (fun e => succeeded e = true) new.
Proof.
  eexists.
  destruct (commitFiles_stops_at_first_failure env1 state1 _ ["new.txt"]
              "message" false true
              ltac:(vm_compute; reflexivity)) as (new & Ht & Hok & _).
  exists new. split; [vm_compute; reflexivity|]. split; [exact Ht|].
  now apply Hok.
Defined.

(** ** Adding to and removing from the index *)

Lemma updateIndex_split_partition files_ s sel : forall toAdd toRemove,
  updateIndex_split files_ sel s = Some (toAdd, toRemove) ->
  toAdd ++ toRemove ≡ₚ sel.
Proof.
  induction sel as [|it sel IH]; intros toAdd toRemove H; cbn in H.
  - injection H as <- <-. reflexivity.
  - destruct files_ as [f|]; [|discriminate H]. cbn in H.
    destruct (findFileIndex f it s) as [idx|]; [|discriminate H]. cbn in H.
    destruct (statusCmp f idx DELETED) as [del|]; [|discriminate H]. cbn in H.
    destruct (updateIndex_split (Some f) sel s) as [[a r]|]; [|discriminate H].
    specialize (IH a r eq_refl). cbn in H.
    destruct del; injection H as <- <-.
    + rewrite <- IH. symmetry. apply Permutation_middle.
    + cbn. now rewrite IH.
Qed.

(** X9.  [updateIndex] hands every selected file to exactly one of its
    two commands.  The selection is split, each file going to the list
    to remove when its entry in the working directory set is deleted and
    to the list to add otherwise; the only commands run are [git rm] on
    the first list and [git add] on the second; on success each list
    that is not empty went through its command, successfully.  For an
    empty selection nothing is run and the answer is true. *)
Theorem updateIndex_each_file_once (env : Env) (s s' : State)
    (selFiles : list string) (ok : bool) :
  updateIndex selFiles env s = Some (ok, s') ->
  exists toAdd toRemove new,
    toAdd ++ toRemove ≡ₚ selFiles
    /\ trace s' = trace s ++ new
    /\ let rm := "git rm --cached --ignore-unmatch -- "
                   +:+ quoteList env toRemove in
       let add := "git add -- " +:+ quoteList env toAdd in
       Forall (fun e => exists r,
                 e = EvRun (workDir s) rm (errorReportingEnabled s) r
                 \/ e = EvRun (workDir s) add (errorReportingEnabled s) r) new
       /\ (selFiles = [] -> new = [] /\ ok = true)
       /\ (ok = true ->
           (toRemove <> [] ->
            In (EvRun (workDir s) rm (errorReportingEnabled s) true) new)
           /\ (toAdd <> [] ->
               In (EvRun (workDir s) add (errorReportingEnabled s) true) new)).
Proof.
  intros H. unfold updateIndex in H.
  apply bind_inv in H as (e & s0 & [= <- <-] & H).
  apply bind_inv in H as (f & s0 & Hf & H).
  rewrite getFiles_zero in Hf. injection Hf as <- <-.
  apply bind_inv in H as (s0 & s1 & [= <- <-] & H).
  apply bind_inv in H as ([toAdd toRemove] & s1 & Hs & H).
  unfold deref in Hs.
  match type of Hs with
  | match ?x with _ => _ end _ _ = _ => destruct x as [sp|] eqn:Hsp
  end; [|discriminate Hs].
  injection Hs as -> <-. cbn [fst snd] in H.
  exists toAdd, toRemove.
  pose proof (updateIndex_split_partition _ _ _ _ _ Hsp) as Hperm.
  assert (selFiles = [] -> toAdd = [] /\ toRemove = []) as Hnil.
  { intros ->. cbn in Hsp. now injection Hsp as <- <-. }
  apply bind_inv in H as (rmFailed & s2 & Hrm & H).
  assert (forall (es : list Event),
            trace s' = trace s ++ es ->
            (let rm := "git rm --cached --ignore-unmatch -- "
                         +:+ quoteList env toRemove in
             let add := "git add -- " +:+ quoteList env toAdd in
             Forall (fun e => exists r,
                       e = EvRun (workDir s) rm (errorReportingEnabled s) r
                       \/ e = EvRun (workDir s) add (errorReportingEnabled s) r)
                    es
             /\ (selFiles = [] -> es = [] /\ ok = true)
             /\ (ok = true ->
                 (toRemove <> [] ->
                  In (EvRun (workDir s) rm (errorReportingEnabled s) true) es)
                 /\ (toAdd <> [] ->
                     In (EvRun (workDir s) add (errorReportingEnabled s) true)
                        es))) ->
            exists new,
              toAdd ++ toRemove ≡ₚ selFiles
              /\ trace s' = trace s ++ new
              /\ (let rm := "git rm --cached --ignore-unmatch -- "
                              +:+ quoteList env toRemove in
                  let add := "git add -- " +:+ quoteList env toAdd in
                  Forall (fun e => exists r,
                            e = EvRun (workDir s) rm (errorReportingEnabled s) r
                            \/ e = EvRun (workDir s) add
                                     (errorReportingEnabled s) r) new
                  /\ (selFiles = [] -> new = [] /\ ok = true)
                  /\ (ok = true ->
                      (toRemove <> [] ->
                       In (EvRun (workDir s) rm (errorReportingEnabled s) true)
                          new)
                      /\ (toAdd <> [] ->
                          In (EvRun (workDir s) add
                                (errorReportingEnabled s) true) new))))
    as Done.
  { intros es Ht Hes. exists es. split; [exact Hperm|]. split; [exact Ht|exact Hes]. }
  destruct toRemove as [|x toRemove]; cbn [isNil negb] in Hrm.
  - injection Hrm as <- <-.
    apply bind_inv in H as (addFailed & s3 & Hadd & H).
    destruct toAdd as [|y toAdd]; cbn [isNil negb] in Hadd.
    + injection Hadd as <- <-. injection H as <- <-.
      apply (Done []); [now rewrite app_nil_r|]. cbn zeta.
      repeat split; auto; intros Hne; now destruct Hne.
    + apply bind_inv in Hadd as (r & s3' & [= <- <-] & [= <- <-]).
      destruct (tool env (trace s) (workDir s) _) as [[] out];
        cbn [negb fst] in H; injection H as <- <-;
        (eapply (Done [_]); [reflexivity|]); cbn zeta;
        (split; [apply List.Forall_cons;
                   [eexists; right; reflexivity|constructor]|]);
        (split; [intros Hs; destruct (Hnil Hs); discriminate|]).
      * intros _. split; [congruence|]. intros _. now left.
      * discriminate.
  - apply bind_inv in Hrm as (r & s2' & [= <- <-] & [= <- <-]).
    destruct (tool env (trace s) (workDir s) _) as [[] out] eqn:Er;
      cbn [negb fst] in H.
    + apply bind_inv in H as (addFailed & s3 & Hadd & H).
      destruct toAdd as [|y toAdd]; cbn [isNil negb] in Hadd.
      * injection Hadd as <- <-. injection H as <- <-.
        eapply (Done [_]); [reflexivity|]. cbn zeta.
        split; [apply List.Forall_cons;
                  [eexists; left; reflexivity|constructor]|].
        split; [intros Hs; destruct (Hnil Hs); discriminate|].
        intros _. split; [|congruence]. intros _. now left.
      * apply bind_inv in Hadd as (r & s3' & [= <- <-] & [= <- <-]).
        cbn [trace log_event workDir errorReportingEnabled] in H.
        clear Er.
        destruct (tool env _ (workDir s) _) as [[] out'];
          cbn [negb fst] in H; injection H as <- <-;
          (eapply (Done [_; _]);
           [cbn [trace log_event]; now rewrite <- app_assoc|]); cbn zeta;
          (split; [apply List.Forall_cons; [eexists; left; reflexivity|];
                   apply List.Forall_cons;
                     [eexists; right; reflexivity|constructor]|]);
          (split; [intros Hs; destruct (Hnil Hs); discriminate|]).
        -- intros _. split; intros _; [now left|right; now left].
        -- discriminate.
    + injection H as <- <-.
      eapply (Done [_]); [reflexivity|]. cbn zeta.
      split; [apply List.Forall_cons;
                [eexists; left; reflexivity|constructor]|].
      split; [intros Hs; destruct (Hnil Hs); discriminate|]. discriminate.
Qed.

Lemma updateIndex_each_file_once_witness :
  exists s' toAdd toRemove new,
    updateIndex ["new.txt"; "old.txt"] env1 state1 = Some (true, s')
    /\ toAdd ++ toRemove ≡ₚ ["new.txt"; "old.txt"]
    /\ trace s' = trace state1 ++ new.
Proof.
  eexists.
  destruct (updateIndex_each_file_once env1 state1 _ ["new.txt"; "old.txt"]
              true ltac:(vm_compute; reflexivity))
    as (toAdd & toRemove & new & Hp & Ht & _).
  exists toAdd, toRemove, new. split; [vm_compute; reflexivity|]. now split.
Defined.

(** ** Stash and unstash *)

Lemma stashNesting_app (a b : list Event) : forall d,
  stashNesting d (a ++ b)
  = match stashNesting d a with
    | Some d' => stashNesting d' b
    | None => None
    end.
Proof.
  induction a as [|e a IH]; intros d; [reflexivity|].
  cbn [app stashNesting]. destruct e; try apply IH.
  destruct (String.eqb cmd "git stash"); [apply IH|].
  destruct (String.eqb cmd "git stash pop"); [|apply IH].
  destruct d; [reflexivity|apply IH].
Qed.

Lemma stashOpen_log tr0 d d' s e :
  stashOpen tr0 d s -> stashNesting d [e] = Some d' ->
  stashOpen tr0 d' (log_event e s).
Proof.
  intros (new & Ht & Hn) He. exists (new ++ [e]). cbn [trace log_event].
  rewrite Ht, <- app_assoc. split; [reflexivity|].
  now rewrite stashNesting_app, Hn.
Qed.

Section Stash.

Variables (env : Env) (tr0 : list Event).

Local Abbreviation hoare := (hoare env).
Local Abbreviation SO := (stashOpen tr0).

Lemma hoare_ret_same {A} (P : State -> Prop) (a : A) :
  hoare P (ret a) (fun _ => P).
Proof. now apply hoare_ret. Qed.

Lemma stash_neutral d c :
  String.eqb c "git stash" = false -> String.eqb c "git stash pop" = false ->
  hoare (SO d) (run c) (fun _ => SO d).
Proof.
  intros H1 H2 s r s' HP [= _ <-].
  apply (stashOpen_log tr0 d d s _ HP). cbn. now rewrite H1, H2.
Qed.

Lemma stash_push d : hoare (SO d) (run "git stash") (fun _ => SO (S d)).
Proof.
  intros s r s' HP [= _ <-]. now apply (stashOpen_log tr0 d (S d) s _ HP).
Qed.

Lemma stash_pop d : hoare (SO (S d)) (run "git stash pop") (fun _ => SO d).
Proof.
  intros s r s' HP [= _ <-]. now apply (stashOpen_log tr0 (S d) d s _ HP).
Qed.

Lemma stash_flag d b :
  hoare (SO d) (modify (set_errorReportingEnabled b)) (fun _ => SO d).
Proof. intros s r s' HP [= _ <-]. exact HP. Qed.

Lemma stash_write d p x : hoare (SO d) (writeToFile p x) (fun _ => SO d).
Proof.
  intros s r s' HP [= _ <-].
  pose proof (stashOpen_log tr0 d d s
                (EvWriteFile p x (writable env (trace s) p)) HP eq_refl) as H.
  now destruct (writable env (trace s) p).
Qed.

Lemma stash_remove d dir n : hoare (SO d) (QDir_remove dir n) (fun _ => SO d).
Proof.
  intros s r s' HP [= _ <-].
  exact (stashOpen_log tr0 d d s (EvRemoveFile _) HP eq_refl).
Qed.

Create HintDb stash.

#[local] Hint Resolve hoare_gets hoare_deref hoare_getFiles_zero
  hoare_getOtherFiles hoare_ret_same stash_push stash_pop stash_flag
  stash_write stash_remove : stash.

(** Walks through a command; a command other than the two stash calls
    is told apart from them by its text. *)
Ltac stash_go :=
  lazymatch goal with
  | |- GitTools.hoare _ _ (bind ask _) _ => apply hoare_ask; stash_go
  | |- GitTools.hoare _ _ (bind _ _) _ =>
      eapply hoare_bind; [stash_go | intros ?; cbv beta; stash_go]
  | |- GitTools.hoare _ ?P (if ?c then _ else _) ?Q =>
      try (is_evar Q; unify Q (fun _ : _ => P)); destruct c; stash_go
  | |- GitTools.hoare _ _ (ret _) ?Q =>
      first [ is_evar Q; apply hoare_ret_same
            | apply hoare_ret; intros ? ?; assumption ]
  | |- GitTools.hoare _ _ (run "git stash") _ => apply stash_push
  | |- GitTools.hoare _ _ (run "git stash pop") _ => apply stash_pop
  | |- GitTools.hoare _ _ (run _) _ => apply stash_neutral; reflexivity
  | |- _ => solve [eauto with stash]
  end.

Lemma stash_updateIndex d l : hoare (SO d) (updateIndex l) (fun _ => SO d).
Proof. unfold updateIndex. stash_go. Qed.

Hint Resolve stash_updateIndex : stash.

Lemma stash_mkPatchFromWorkDir d m p l :
  hoare (SO d) (mkPatchFromWorkDir m p l) (fun _ => SO d).
Proof. unfold mkPatchFromWorkDir. stash_go. Qed.

Hint Resolve stash_mkPatchFromWorkDir : stash.

Lemma stash_stgCommit_steps l m n f p ps ns :
  hoare (SO 0) (stgCommit_steps l m n f p ps ns)
    (fun e => SO (match e with
                  | StgFailAndUnstash => if ps then 1 else 0
                  | _ => 0
                  end)).
Proof. unfold stgCommit_steps. destruct ps; cbv beta iota; stash_go. Qed.

Lemma stash_stgCommit l m n f : hoare (SO 0) (stgCommit l m n f) (fun _ => SO 0).
Proof.
  unfold stgCommit. apply hoare_ask.
  eapply hoare_bind; [apply hoare_gets|]. intros gd.
  eapply hoare_bind; [apply hoare_getOtherFiles|]. intros other.
  eapply hoare_bind with (Q := fun _ => SO 0).
  { destruct (negb (isNil other)); stash_go. }
  intros notSel.
  eapply hoare_bind; [apply stash_stgCommit_steps|]. intros e.
  eapply hoare_bind with (Q := fun _ => SO 0).
  { destruct e, (negb (isNil other)); stash_go. }
  intros _. stash_go.
Qed.

End Stash.

(** X10.  [stgCommit] leaves no stash behind and takes none that is not
    its own.  Whenever it returns, on success and on each of its failure
    paths, the [git stash] and [git stash pop] calls it made are well
    nested: a stash is popped only after it was made, and each one made
    is popped before the function returns. *)
Theorem stgCommit_stash_balanced (env : Env) (s s' : State)
    (selFiles : list string) (msg patchName : string) (fold ok : bool) :
  stgCommit selFiles msg patchName fold env s = Some (ok, s') ->
  exists new, trace s' = trace s ++ new /\ stashNesting 0 new = Some 0%nat.
Proof.
  intros H.
  apply (stash_stgCommit env (trace s) selFiles msg patchName fold s ok s');
    [|exact H].
  exists []. split; [now rewrite app_nil_r|reflexivity].
Qed.

Lemma stgCommit_stash_balanced_witness :
  exists s' new,
    stgCommit ["new.txt"] "m" "p" true env1 state1 = Some (true, s')
    /\ trace s' = trace state1 ++ new /\ stashNesting 0 new = Some 0%nat
    /\ In (EvRun "/repo" "git stash" false true) new.
Proof.
  eexists.
  destruct (stgCommit_stash_balanced env1 state1 _ ["new.txt"] "m" "p" true
              true ltac:(vm_compute; reflexivity)) as (new & Ht & Hn).
  exists new. split; [vm_compute; reflexivity|]. split; [exact Ht|].
  split; [exact Hn|].
  vm_compute in Ht. apply (app_inv_head []) in Ht. subst new.
  vm_compute. tauto.
Defined.

End GitCommitFacts.

(* ===================================================================== *)
(** * Facts about the load order *)
(* ===================================================================== *)

Module GitOrderFacts.

Import Git GitTools QtFacts QtTextFacts Sample.

(** An identifier behind its padded position in load order. *)
Local Abbreviation tag :=
  (fun p : Z * string => Qt.arg_int p.1 6 +:+ String " " p.2).

Lemma strip_tag (p : Z * string) :
  Qt.noChar " " p.2 = true -> Qt.section " " (-1) (-1) (tag p) = p.2.
Proof. apply section_last. Qed.

Lemma sorted_tags (items : list (Z * string)) :
  Forall (fun p => 0 <= p.1 < 1000000) items ->
  StronglySorted String.le (tag <$> items) ->
  StronglySorted (fun p q : Z * string => p.1 <= q.1) items.
Proof.
  induction items as [|p items IH]; intros Hb Hs; [constructor|].
  inversion Hb as [|? ? Hp Hb']; subst.
  cbn [fmap list_fmap] in Hs. inversion Hs as [|? ? Hs' Hall]; subst.
  constructor; [now apply IH|].
  rewrite List.Forall_forall in Hall, Hb' |- *. intros q Hq.
  apply (arg_int_le _ _ (String " " p.2) (String " " q.2));
    [exact Hp|now apply Hb'|].
  apply Hall. apply (in_map tag) in Hq. exact Hq.
Qed.

(** Sorting the tagged identifiers and stripping the tags gives the
    identifiers, each as often as before, in the order of their
    positions. *)
Lemma sort_tagged (items : list (Z * string)) :
  Forall (fun p => 0 <= p.1 < 1000000) items ->
  Forall (fun p => Qt.noChar " " p.2 = true) items ->
  exists items',
    items' ≡ₚ items
    /\ Qt.section " " (-1) (-1) <$> Qt.sort (tag <$> items) = snd <$> items'
    /\ StronglySorted (fun p q : Z * string => p.1 <= q.1) items'.
Proof.
  intros Hb Hn. unfold Qt.sort.
  pose proof (merge_sort_Permutation String.le (tag <$> items)) as Hperm.
  pose proof (StronglySorted_merge_sort String.le (tag <$> items)) as Hsort.
  destruct (Permutation_map_inv tag items Hperm) as (items' & E & Hp).
  exists items'. split; [now symmetry|].
  assert (Forall (fun p => 0 <= p.1 < 1000000) items') as Hb'
    by now rewrite <- Hp.
  assert (Forall (fun p => Qt.noChar " " p.2 = true) items') as Hn'
    by now rewrite <- Hp.
  change (map tag items') with (tag <$> items') in E. rewrite E in Hsort |- *.
  split; [|now apply sorted_tags].
  clear -Hn'. induction Hn' as [|p l Hp _ IH]; [reflexivity|].
  cbn [fmap list_fmap]. rewrite IH. f_equal. now apply strip_tag.
Qed.

(** The position recorded with an identifier is that of its record. *)
Local Abbreviation placed :=
  (fun (s : State) (p : Z * string) =>
     exists r, revLookup p.2 None s = Some r /\ orderIdx r = p.1).

Lemma sorted_by_load_order s (items : list (Z * string)) :
  Forall (placed s) items ->
  StronglySorted (fun p q : Z * string => p.1 <= q.1) items ->
  StronglySorted (byLoadOrder s) (snd <$> items).
Proof.
  intros Hpl Hs. induction Hs as [|p items _ IH Hall]; [constructor|].
  inversion Hpl as [|? ? (rp & Hrp & Hip) Hpl']; subst.
  cbn [fmap list_fmap]. constructor; [now apply IH|].
  rewrite List.Forall_forall in Hall, Hpl' |- *. intros x Hx.
  apply in_map_iff in Hx as (q & <- & Hq).
  destruct (Hpl' q Hq) as (rq & Hrq & Hiq).
  intros ra rb Ha Hb. rewrite Hrp in Ha. rewrite Hrq in Hb.
  injection Ha as <-. injection Hb as <-. rewrite Hip, Hiq. now apply Hall.
Qed.

(** What a list of placed identifiers, free of spaces and below the
    millionth position, becomes when it is tagged, sorted and stripped. *)
Lemma sort_placed s (items : list (Z * string)) :
  Forall (placed s) items ->
  Forall (fun p => 0 <= p.1 < 1000000) items ->
  Forall (fun p => Qt.noChar " " p.2 = true) items ->
  let out := Qt.section " " (-1) (-1) <$> Qt.sort (tag <$> items) in
  out ≡ₚ snd <$> items /\ StronglySorted (byLoadOrder s) out.
Proof.
  intros Hpl Hb Hn. cbn zeta.
  destruct (sort_tagged items Hb Hn) as (items' & Hp & -> & Hs).
  split; [now rewrite Hp|].
  apply sorted_by_load_order; [now rewrite Hp|exact Hs].
Qed.

(** The identifiers of the list that are loaded, with their positions. *)
Local Abbreviation placedOf :=
  (fun (s : State) (l : list string) =>
     omap (fun x => r ← revLookup x None s; Some (orderIdx r, x)) l).

Lemma sortShaListByIndex_tag_loaded s (l : list string) : forall acc,
  sortShaListByIndex_tag acc l s = Some (acc ++ (tag <$> placedOf s l)).
Proof.
  induction l as [|x l IH]; intros acc; cbn [sortShaListByIndex_tag omap list_omap].
  - now rewrite app_nil_r.
  - unfold appendNamesWithId.
    destruct (revLookup x None s) as [r|] eqn:E; cbn.
    + rewrite IH, <- app_assoc. cbn [app]. now rewrite append_assoc.
    + apply IH.
Qed.

Lemma placedOf_facts s (l : list string) :
  Forall (placed s) (placedOf s l)
  /\ snd <$> placedOf s l = filter (fun x => loaded s x = true) l
  /\ forall p, In p (placedOf s l) -> In p.2 l.
Proof.
  induction l as [|x l (IH1 & IH2 & IH3)]; [repeat split; [constructor|intros ? []]|].
  cbn [omap list_omap]. unfold loaded in *. rewrite filter_cons.
  destruct (revLookup x None s) as [r|] eqn:E; cbn.
  - split; [|split].
    + apply List.Forall_cons; [cbn; eauto|exact IH1].
    + cbn in IH2. now rewrite IH2.
    + intros p [<-|Hp]; [now left|right; now apply IH3].
  - split; [exact IH1|]. split; [exact IH2|].
    intros p Hp. right. now apply IH3.
Qed.

(** X11.  [sortShaListByIndex] keeps the identifiers that are loaded,
    each as often as it was given, drops the others, and returns them in
    load order, earliest first.  (Identifiers hold no space, and the
    positions fit the six characters they are padded to: beyond a million
    revisions the textual sort no longer follows the positions.) *)
Theorem sortShaListByIndex_in_load_order (s : State) (shaList : list string) :
  Forall (fun x => Qt.noChar " " x = true) shaList ->
  (forall x r, In x shaList -> revLookup x None s = Some r ->
     0 <= orderIdx r < 1000000) ->
  exists out,
    sortShaListByIndex shaList s = Some out
    /\ out ≡ₚ filter (fun x => loaded s x = true) shaList
    /\ StronglySorted (byLoadOrder s) out.
Proof.
  intros Hn Hb. unfold sortShaListByIndex.
  rewrite sortShaListByIndex_tag_loaded. cbn.
  destruct (placedOf_facts s shaList) as (Hpl & Hsnd & Hin).
  eexists. split; [reflexivity|]. rewrite <- Hsnd.
  apply sort_placed; [exact Hpl| |].
  - rewrite List.Forall_forall in Hpl |- *. intros p Hp.
    destruct (Hpl p Hp) as (r & Hr & <-). exact (Hb _ _ (Hin p Hp) Hr).
  - rewrite List.Forall_forall in Hn |- *. intros p Hp. exact (Hn _ (Hin p Hp)).
Qed.

Lemma sortShaListByIndex_in_load_order_witness :
  sortShaListByIndex ["root"; "unknown"; "tip"; "mid"] state0
  = Some ["tip"; "mid"; "root"]
  /\ exists out,
       sortShaListByIndex ["root"; "unknown"; "tip"; "mid"] state0 = Some out
       /\ out ≡ₚ filter (fun x => loaded state0 x = true)
                   ["root"; "unknown"; "tip"; "mid"]
       /\ StronglySorted (byLoadOrder state0) out.
Proof.
  split; [vm_compute; reflexivity|].
  apply sortShaListByIndex_in_load_order.
  - repeat (apply List.Forall_cons; [reflexivity|]). apply List.Forall_nil.
  - intros x r [<-|[<-|[<-|[<-|[]]]]] Hr; vm_compute in Hr;
      try discriminate Hr; injection Hr as <-; cbn; lia.
Defined.

Lemma mapM_placed s (ids : list string) :
  Forall (fun x => loaded s x = true) ids ->
  mapM (fun c => rc ← revLookup c None s;
                 Some (Qt.arg_int (orderIdx rc) 6 +:+ " " +:+ c)) ids
  = Some (tag <$> placedOf s ids)
  /\ snd <$> placedOf s ids = ids.
Proof.
  intros H.
  enough (Forall2 (fun c y => (rc ← revLookup c None s;
                                Some (Qt.arg_int (orderIdx rc) 6 +:+ " " +:+ c))
                              = Some y) ids (tag <$> placedOf s ids)
          /\ snd <$> placedOf s ids = ids) as [F E]
    by (split; [now apply mapM_Some|exact E]).
  induction H as [|x ids Hx _ [IH1 IH2]]; [split; [constructor|reflexivity]|].
  unfold loaded in Hx. apply bool_decide_eq_true_1 in Hx as [r Hr].
  cbn [omap list_omap]. rewrite Hr. cbn. rewrite IH2.
  split; [|reflexivity].
  constructor; [|exact IH1]. now rewrite Hr.
Qed.

(** X12.  [getChilds] returns the children of a revision in load
    order, earliest first, each child once per entry of the record.  It
    has a result only when every child is loaded.  (Identifiers hold no
    space, positions are below a million.) *)
Theorem getChilds_in_load_order (s : State) (parent_ : string) (r : Rev)
    (ids : list string) :
  revLookup parent_ None s = Some r ->
  mapM (vec_at (revOrder (revData s))) (childs r) = Some ids ->
  Forall (fun x => Qt.noChar " " x = true) ids ->
  (forall x rx, In x ids -> revLookup x None s = Some rx ->
     0 <= orderIdx rx < 1000000) ->
  (Forall (fun x => loaded s x = true) ids ->
   exists out,
     getChilds parent_ s = Some out
     /\ out ≡ₚ ids /\ StronglySorted (byLoadOrder s) out)
  /\ (is_Some (getChilds parent_ s) ->
      Forall (fun x => loaded s x = true) ids).
Proof.
  intros Hr Hids Hn Hb. unfold getChilds. rewrite Hr, Hids. cbn. split.
  - intros Hl. destruct (mapM_placed s ids Hl) as [-> Hsnd]. cbn.
    destruct (placedOf_facts s ids) as (Hpl & _ & Hin).
    eexists. split; [reflexivity|]. rewrite <- Hsnd at 2.
    apply sort_placed; [exact Hpl| |].
    + rewrite List.Forall_forall in Hpl |- *. intros p Hp.
      destruct (Hpl p Hp) as (rx & Hrx & <-). exact (Hb _ _ (Hin p Hp) Hrx).
    + rewrite List.Forall_forall in Hn |- *. intros p Hp.
      exact (Hn _ (Hin p Hp)).
  - intros [out Hout].
    destruct (mapM _ ids) as [tagged|] eqn:E; [|discriminate Hout].
    apply mapM_Some in E. clear -E.
    induction E as [|x y ids tagged Hx _ IH]; [constructor|].
    constructor; [|exact IH]. unfold loaded.
    destruct (revLookup x None s); [|discriminate Hx].
    now apply bool_decide_eq_true_2.
Qed.

Lemma getChilds_in_load_order_witness :
  exists out,
    getChilds "root" SampleTools.fork = Some out
    /\ out ≡ₚ ["a"; "b"]
    /\ StronglySorted (byLoadOrder SampleTools.fork) out.
Proof.
  apply (proj1 (getChilds_in_load_order SampleTools.fork "root"
                  (SampleTools.rev_with "root" [] [2; 1] 3) ["a"; "b"]
                  ltac:(vm_compute; reflexivity) ltac:(vm_compute; reflexivity)
                  ltac:(repeat constructor)
                  ltac:(intros x rx [<-|[<-|[]]] Hr; vm_compute in Hr;
                        injection Hr as <-; cbn; lia))).
  repeat constructor.
Defined.

End GitOrderFacts.

(* ===================================================================== *)
(** * Facts about trees, file kinds and working directory files *)
(* ===================================================================== *)

Module GitToolsFacts.

Import Git GitTools QtFacts QtTextFacts Sample GitFacts GitCacheFacts.
Local Open Scope git_scope.

(** ** The order of tree entries *)

Lemma ltb_compare (a b : string) :
  String.ltb a b = true <-> String.compare a b = Lt.
Proof. unfold String.ltb. destruct (String.compare a b); split; congruence. Qed.

Lemma ltb_irrefl (a : string) : String.ltb a a = false.
Proof. unfold String.ltb. now rewrite compare_refl. Qed.

Lemma ltb_le (a b : string) : String.ltb a b = true -> String.le a b.
Proof.
  intros H. apply ltb_compare in H. unfold String.le, String.leb.
  now rewrite H.
Qed.

Lemma ltb_asym (a b : string) :
  String.ltb a b = true -> String.ltb b a = false.
Proof.
  intros H. apply ltb_compare in H. unfold String.ltb.
  rewrite String.compare_antisym, H. reflexivity.
Qed.

Lemma ltb_trans (a b c : string) :
  String.ltb a b = true -> String.ltb b c = true -> String.ltb a c = true.
Proof.
  intros Hab Hbc.
  assert (String.le a c) as Hac
    by (etransitivity; [exact (ltb_le _ _ Hab)|exact (ltb_le _ _ Hbc)]).
  unfold String.le, String.leb in Hac. unfold String.ltb.
  destruct (String.compare a c) eqn:E; [|reflexivity|contradiction].
  apply String.compare_eq_iff in E. subst c.
  apply ltb_asym in Hab. congruence.
Qed.

Lemma ltb_total (a b : string) :
  String.ltb a b = false -> String.ltb b a = false -> a = b.
Proof.
  unfold String.ltb. intros H1 H2.
  destruct (String.compare a b) eqn:E; [|discriminate H1|].
  - now apply String.compare_eq_iff.
  - rewrite String.compare_antisym, E in H2. discriminate H2.
Qed.

(** The comparison reads two keys in turn: whether the entry is a
    directory, and the name. *)
Lemma operator_lt_keys (a b : TreeEntry.t) :
  TreeEntry.operator_lt a b
  = if Bool.eqb (String.eqb (TreeEntry.type a) "tree")
                (String.eqb (TreeEntry.type b) "tree")
    then String.ltb (TreeEntry.name a) (TreeEntry.name b)
    else String.eqb (TreeEntry.type a) "tree".
Proof.
  unfold TreeEntry.operator_lt.
  destruct (String.eqb_spec (TreeEntry.type a) (TreeEntry.type b)) as [->|Hne].
  - now rewrite Bool.eqb_reflx.
  - destruct (String.eqb_spec (TreeEntry.type a) "tree") as [Ha|Ha];
      destruct (String.eqb_spec (TreeEntry.type b) "tree") as [Hb|Hb];
      cbn; try reflexivity.
    congruence.
Qed.

(** X13.  [TreeEntry::operator<] is a strict order that a sort can rely
    on: no entry is below itself, the relation is transitive, and two
    entries neither of which is below the other have the same name and
    are both directories or both not.  Every directory is below every
    entry that is not one, whatever the names. *)
Theorem TreeEntry_order :
  (forall a, TreeEntry.operator_lt a a = false)
  /\ (forall a b c,
        TreeEntry.operator_lt a b = true -> TreeEntry.operator_lt b c = true ->
        TreeEntry.operator_lt a c = true)
  /\ (forall a b,
        TreeEntry.operator_lt a b = false -> TreeEntry.operator_lt b a = false ->
        TreeEntry.name a = TreeEntry.name b
        /\ (TreeEntry.type a = "tree" <-> TreeEntry.type b = "tree"))
  /\ (forall a b,
        TreeEntry.type a = "tree" -> TreeEntry.type b <> "tree" ->
        TreeEntry.operator_lt a b = true /\ TreeEntry.operator_lt b a = false).
Proof.
  repeat split.
  - intros a. rewrite operator_lt_keys, Bool.eqb_reflx. apply ltb_irrefl.
  - intros a b c. rewrite !operator_lt_keys.
    destruct (String.eqb (TreeEntry.type a) "tree"),
             (String.eqb (TreeEntry.type b) "tree"),
             (String.eqb (TreeEntry.type c) "tree"); cbn;
      try discriminate; try reflexivity; apply ltb_trans.
  - revert H H0. rewrite !operator_lt_keys.
    destruct (String.eqb (TreeEntry.type a) "tree"),
             (String.eqb (TreeEntry.type b) "tree"); cbn;
      try discriminate; apply ltb_total.
  - revert H H0. rewrite !operator_lt_keys.
    destruct (String.eqb_spec (TreeEntry.type a) "tree"),
             (String.eqb_spec (TreeEntry.type b) "tree"); cbn;
      try discriminate; tauto.
  - revert H H0. rewrite !operator_lt_keys.
    destruct (String.eqb_spec (TreeEntry.type a) "tree"),
             (String.eqb_spec (TreeEntry.type b) "tree"); cbn;
      try discriminate; tauto.
  - rewrite operator_lt_keys.
    destruct (String.eqb_spec (TreeEntry.type a) "tree"),
             (String.eqb_spec (TreeEntry.type b) "tree"); cbn;
      try reflexivity; contradiction.
  - rewrite operator_lt_keys.
    destruct (String.eqb_spec (TreeEntry.type a) "tree"),
             (String.eqb_spec (TreeEntry.type b) "tree"); cbn;
      try reflexivity; contradiction.
Qed.

Lemma TreeEntry_order_witness :
  let dir := {| TreeEntry.name := "zlib"; TreeEntry.sha := "1";
                TreeEntry.type := "tree" |} in
  let file := {| TreeEntry.name := "README"; TreeEntry.sha := "2";
                 TreeEntry.type := "blob" |} in
  TreeEntry.operator_lt dir file = true /\ TreeEntry.operator_lt file dir = false.
Proof.
  cbn zeta.
  apply (proj2 (proj2 (proj2 TreeEntry_order))); [reflexivity|discriminate].
Defined.

(** ** File kinds *)

Lemma isBinaryFile_ext formats (p e : string) :
  Qt.noChar "." e = true ->
  isBinaryFile formats (p +:+ String "." e)
  = containsName (QtText.toLower e) formats
    || existsb (String.eqb (QtText.toLower e)) binaryFileExtensions.
Proof.
  intros He. unfold isBinaryFile, isImageFile.
  rewrite (section_last "." p e He).
  now destruct (containsName (QtText.toLower e) formats).
Qed.

Lemma isBinaryFile_bare formats (e : string) :
  Qt.noChar "." e = true ->
  isBinaryFile formats e
  = containsName (QtText.toLower e) formats
    || existsb (String.eqb (QtText.toLower e)) binaryFileExtensions.
Proof.
  intros He. unfold isBinaryFile, isImageFile.
  rewrite (section_last_whole "." e He).
  now destruct (containsName (QtText.toLower e) formats).
Qed.

(** X14.  [isBinaryFile] looks at nothing but the text after the last
    dot of the name, and not at its letter case: two names whose
    extensions agree up to case are classified alike, wherever they lie.
    A name without a dot is taken for its own extension, so that a file
    called [zip] counts as binary.  Every image file is binary, and so is
    every name whose extension, in small letters, is in the built-in
    list. *)
Theorem isBinaryFile_by_extension (formats : list string)
    (p p' e e' : string) :
  Qt.noChar "." e = true -> Qt.noChar "." e' = true ->
  QtText.toLower e = QtText.toLower e' ->
  isBinaryFile formats (p +:+ String "." e)
  = isBinaryFile formats (p' +:+ String "." e')
  /\ isBinaryFile formats e = isBinaryFile formats (p +:+ String "." e)
  /\ (isImageFile formats (p +:+ String "." e) = true ->
      isBinaryFile formats (p +:+ String "." e) = true)
  /\ (In (QtText.toLower e) binaryFileExtensions ->
      isBinaryFile formats (p +:+ String "." e) = true).
Proof.
  intros He He' Hl. repeat split.
  - now rewrite !isBinaryFile_ext, Hl.
  - now rewrite isBinaryFile_ext, isBinaryFile_bare.
  - unfold isBinaryFile. now intros ->.
  - intros Hin. rewrite isBinaryFile_ext by exact He.
    apply orb_true_iff. right. apply existsb_exists.
    exists (QtText.toLower e). split; [exact Hin|apply String.eqb_refl].
Qed.

Lemma isBinaryFile_by_extension_witness :
  isBinaryFile ["png"] ("src/archive.old" +:+ String "." "TGZ")
  = isBinaryFile ["png"] ("x" +:+ String "." "tgz")
  /\ isBinaryFile ["png"] "TGZ" = true.
Proof.
  destruct (isBinaryFile_by_extension ["png"] "src/archive.old" "x" "TGZ" "tgz")
    as (H1 & H2 & _ & H4); try reflexivity.
  split; [exact H1|]. rewrite H2. apply H4.
  cbn. tauto.
Defined.

(** ** Files of the working directory *)

Lemma indexOf_from_In (x : string) (l : list string) : forall i,
  0 <= i ->
  (QtText.indexOf_from x l i = -1 -> ~ In x l)
  /\ (QtText.indexOf_from x l i <> -1 -> In x l).
Proof.
  induction l as [|y l IH]; intros i Hi; cbn [QtText.indexOf_from].
  - split; [auto|congruence].
  - destruct (String.eqb_spec y x) as [->|Hne].
    + split; [lia|]. intros _. now left.
    + destruct (IH (i + 1) ltac:(lia)) as [H1 H2]. split.
      * intros H [?|Hin]; [congruence|]. now apply H1.
      * intros H. right. now apply H2.
Qed.

Lemma getWorkDirFiles_dirs_NoDup (fp : string) (cnt : nat) : forall j dirs,
  NoDup dirs -> NoDup (getWorkDirFiles_dirs fp j cnt dirs).
Proof.
  induction cnt as [|cnt IH]; intros j dirs H; [exact H|].
  cbn [getWorkDirFiles_dirs]. apply IH.
  destruct (Z.eqb_spec (QtText.indexOf (Qt.section "/" 0 j fp) dirs) (-1))
    as [E|_]; [|exact H].
  apply NoDup_app. split; [exact H|]. split; [|apply NoDup_singleton].
  intros x Hx Hx'. apply list_elem_of_singleton in Hx'. subst x.
  apply (proj1 (indexOf_from_In _ dirs 0 ltac:(lia)) E).
  now apply list_elem_of_In.
Qed.

Lemma getWorkDirFiles_dirs_origin (fp : string) (cnt : nat) : forall j dirs d,
  In d (getWorkDirFiles_dirs fp j cnt dirs) ->
  In d dirs \/ exists j', d = Qt.section "/" 0 j' fp.
Proof.
  induction cnt as [|cnt IH]; intros j dirs d H; [now left|].
  cbn [getWorkDirFiles_dirs] in H. apply IH in H as [H|H]; [|now right].
  destruct (QtText.indexOf (Qt.section "/" 0 j fp) dirs =? -1); [|now left].
  apply in_app_or in H as [H|[<-|[]]]; [now left|right; eauto].
Qed.

Lemma getWorkDirFiles_from_facts f status_ s (n : nat) :
  forall i files_ dirs files' dirs',
  getWorkDirFiles_from f status_ s i n files_ dirs = Some (files', dirs') ->
  (NoDup dirs -> NoDup dirs')
  /\ (forall fp, In fp files' ->
        In fp files_
        \/ exists k, filePath f k s = Some fp
                     /\ statusCmp f k status_ = Some true)
  /\ (forall d, In d dirs' ->
        In d dirs \/ exists fp j, In fp files' /\ d = Qt.section "/" 0 j fp)
  /\ (forall fp, In fp files_ -> In fp files').
Proof.
  induction n as [|n IH]; intros i files_ dirs files' dirs' H;
    cbn [getWorkDirFiles_from] in H.
  - injection H as <- <-. repeat split; auto.
  - destruct (statusCmp f i status_) as [[|]|] eqn:Ec; cbn in H;
      [|now apply IH in H|discriminate H].
    destruct (filePath f i s) as [fp|] eqn:Ef; [|discriminate H]. cbn in H.
    apply IH in H as (H1 & H2 & H3 & H4). repeat split.
    + intros Hd. now apply H1, getWorkDirFiles_dirs_NoDup.
    + intros x Hx. apply H2 in Hx as [Hx|Hx]; [|now right].
      apply in_app_or in Hx as [Hx|[<-|[]]]; [now left|right; eauto].
    + intros d Hd. apply H3 in Hd as [Hd|Hd]; [|now right].
      apply getWorkDirFiles_dirs_origin in Hd as [Hd|[j ->]]; [now left|].
      right. exists fp, j. split; [|reflexivity].
      apply H4, in_or_app. right. now left.
    + intros x Hx. apply H4, in_or_app. now left.
Qed.

(** X15.  [getWorkDirFiles] reads the working directory from the cache
    and changes nothing.  The files it lists are the paths of the cached
    entries that match the status asked for; the directories it lists are
    leading parts of listed files, and none of them is listed twice.
    Without a cached working directory set both lists are empty. *)
Theorem getWorkDirFiles_lists (env : Env) (s s' : State) (status_ : Z)
    (files_ dirs : list string) :
  getWorkDirFiles status_ env s = Some ((files_, dirs), s') ->
  s' = s
  /\ NoDup dirs
  /\ (forall d, In d dirs ->
        exists fp j, In fp files_ /\ d = Qt.section "/" 0 j fp)
  /\ match getFiles (ZERO_SHA env) EmptyString false EmptyString env s with
     | Some (Some f, _) =>
         forall fp, In fp files_ ->
           exists k, filePath f k s = Some fp
                     /\ statusCmp f k status_ = Some true
     | _ => files_ = [] /\ dirs = []
     end.
Proof.
  unfold getWorkDirFiles. unfold bind at 1, ask. unfold bind at 1.
  rewrite getFiles_zero.
  destruct (match revLookup (ZERO_SHA env) None s with
            | Some r => if parentsCount r =? 0 then None
                        else revsFiles s !! sha r
            | None => None
            end) as [f|].
  2:{ intros [= <- <- <-]. repeat split; [constructor|intros ? []]. }
  unfold bind, gets, deref.
  destruct (getWorkDirFiles_from f status_ (id s) 0 (Z.to_nat (count f)) [] [])
    as [[fs ds]|] eqn:E; [|discriminate].
  intros [= <- <- <-].
  apply getWorkDirFiles_from_facts in E as (H1 & H2 & H3 & _).
  repeat split.
  - apply H1. constructor.
  - intros d Hd. destruct (H3 d Hd) as [[]|H]. exact H.
  - intros fp Hfp. destruct (H2 fp Hfp) as [[]|H]. exact H.
Qed.

Lemma getWorkDirFiles_lists_witness :
  getWorkDirFiles 127 env1 SampleTools.fork
  = Some ((["src/git.cpp"; "src/ui/main.cpp"; "README"], ["src"; "src/ui"]),
          SampleTools.fork)
  /\ NoDup ["src"; "src/ui"].
Proof.
  split; [vm_compute; reflexivity|].
  eapply (fun H => proj1 (proj2 (getWorkDirFiles_lists env1 SampleTools.fork
                                   _ 127 _ ["src"; "src/ui"] H))).
  vm_compute. reflexivity.
Defined.

(** ** Blob identifiers and file contents *)

Lemma midN_field (pre h rest : string) :
  QtText.midN (Qt.size pre) (Qt.size h) (pre +:+ h +:+ rest) = h.
Proof.
  unfold QtText.midN. rewrite !size_app. unfold Qt.size.
  destruct (Z.ltb_spec (Z.of_nat (String.length pre)
                        + (Z.of_nat (String.length h)
                           + Z.of_nat (String.length rest)))
              (Z.of_nat (String.length pre))); [lia|].
  destruct (Z.ltb_spec (Z.of_nat (String.length h)) 0); [lia|].
  rewrite !Nat2Z.id, dropS_app. apply takeS_app.
Qed.

(** X16.  [getFileSha].  A file that is listed among the changes of the
    working directory has the working directory identifier as its blob
    identifier, and the external tool is not asked.  For a revision that
    is not the working directory the tree listing of that revision is
    asked once: a failure gives the absent identifier, and from a listing
    line the forty characters after the twelve of mode and kind are
    returned. *)
Theorem getFileSha_cases (env : Env) (s : State) (ANY : Z) (file : string) :
  (forall files_ dirs,
     getWorkDirFiles ANY env s = Some ((files_, dirs), s) -> In file files_ ->
     getFileSha ANY file (ZERO_SHA env) env s = Some (ZERO_SHA env, s))
  /\ (forall revSha,
        revSha <> ZERO_SHA env ->
        let cmd := "git ls-tree -r " +:+ revSha +:+ " " +:+ quote env file in
        let r := tool env (trace s) (workDir s) cmd in
        exists sha_,
          getFileSha ANY file revSha env s
          = Some (sha_,
                  log_event (EvRun (workDir s) cmd (errorReportingEnabled s) r.1)
                    s)
          /\ (r.1 = false -> sha_ = EmptyString)
          /\ (forall pre h rest,
                r = (true, pre +:+ h +:+ rest) ->
                Qt.size pre = 12 -> Qt.size h = 40 -> sha_ = h)).
Proof.
  split.
  - intros files_ dirs Hw Hin. unfold getFileSha.
    unfold bind at 1, ask. unfold bind at 1. rewrite String.eqb_refl.
    unfold bind at 1. rewrite Hw. cbn [ret fst].
    apply containsName_In in Hin. now rewrite Hin.
  - intros revSha Hne. cbn zeta. apply String.eqb_neq in Hne.
    unfold getFileSha, bind, ask, run, ret. rewrite Hne.
    destruct (tool env (trace s) (workDir s) _) as [[] out]; cbn [negb fst snd].
    + eexists. split; [reflexivity|]. split; [discriminate|].
      intros pre h rest [= ->] Hp Hh. rewrite <- Hp, <- Hh.
      apply midN_field.
    + eexists. split; [reflexivity|]. split; [reflexivity|]. discriminate.
Qed.

Lemma getFileSha_cases_witness :
  getFileSha 127 "src/git.cpp" (ZERO_SHA env1) env1 SampleTools.fork
  = Some (ZERO_SHA env1, SampleTools.fork)
  /\ exists s', getFileSha 127 "src/git.cpp" "a" SampleTools.env2 SampleTools.fork
                = Some (SampleTools.blobSha, s').
Proof.
  split.
  - apply (proj1 (getFileSha_cases env1 SampleTools.fork 127 "src/git.cpp")
             ["src/git.cpp"; "src/ui/main.cpp"; "README"] ["src"; "src/ui"]).
    + vm_compute. reflexivity.
    + now left.
  - destruct (proj2 (getFileSha_cases SampleTools.env2 SampleTools.fork 127
                       "src/git.cpp") "a" ltac:(discriminate))
      as (sha_ & E & _ & H).
    eexists. rewrite E. f_equal. f_equal.
    apply (H "100644 blob " SampleTools.blobSha
             (tab +:+ "src/git.cpp")); reflexivity.
Defined.

(** X17.  [saveFile] answers whether the file could be written, and
    nothing else.  It reads the content with one command, the working
    copy for the working directory identifier, an empty diff for a
    deleted file and the blob otherwise, and then writes whatever the
    command printed: a failed read is not reported, its output is written
    and the answer can be true. *)
Theorem saveFile_answers_the_write (env : Env) (s : State)
    (formats : list string) (fileSha fileName path : string) :
  let cmd :=
    if String.eqb fileSha (ZERO_SHA env) then "cat " +:+ quote env fileName
    else if Qt.isEmpty fileSha then "git diff-tree HEAD HEAD"
    else "git cat-file blob " +:+ fileSha in
  let r := tool env (trace s) (workDir s) cmd in
  let ev := EvRun (workDir s) cmd (errorReportingEnabled s) r.1 in
  let w := writable env (trace s ++ [ev]) path in
  exists s',
    saveFile formats fileSha fileName path env s = Some (w, s')
    /\ trace s' = trace s ++ [ev; EvWriteFile path r.2 w]
    /\ (w = true -> path ∈ files s').
Proof.
  cbn zeta. unfold saveFile, getFile, bind, ask, run, ret, writeToFile.
  cbn [trace log_event fst snd].
  set (cmd := if String.eqb fileSha (ZERO_SHA env) then _ else _).
  destruct (isBinaryFile formats fileName);
    destruct (writable env _ path) eqn:W;
    (eexists; split; [reflexivity|]; split;
     [cbn; now rewrite <- app_assoc|]);
    try discriminate; intros _; cbn; set_solver.
Qed.

(** ** Diffs *)

(** X18.  The synchronous [getDiff] returns the output of the diff
    command without its first line, the line that names the revision; the
    line ends of what remains are line feeds, so that an output without
    carriage returns is returned as it is.  The status of the command is
    not looked at.  For the empty identifier nothing is run and the
    result is empty. *)
Theorem getDiff_drops_first_line (env : Env) (s : State) (sha_ : string) :
  getDiff EmptyString env s = Some (EmptyString, s)
  /\ (sha_ <> EmptyString ->
      let cmd := "git diff-tree --find-renames -p " +:+ sha_ in
      let r := tool env (trace s) (workDir s) cmd in
      exists out,
        getDiff sha_ env s
        = Some (out,
                log_event (EvRun (workDir s) cmd (errorReportingEnabled s) r.1) s)
        /\ (r.2 = EmptyString -> out = EmptyString)
        /\ (forall first rest,
              r.2 = first +:+ String QtText.lf rest ->
              Qt.noChar QtText.lf first = true ->
              out = Qt.join nl (QtText.splitLines rest)
              /\ (Qt.noChar QtText.cr rest = true -> out = rest))).
Proof.
  split; [reflexivity|]. intros Hne. cbn zeta.
  unfold getDiff. destruct sha_ as [|a sha_]; [congruence|].
  cbn [Qt.isEmpty]. unfold bind, run, ret. cbn [snd].
  eexists. split; [reflexivity|]. split.
  - intros ->. reflexivity.
  - intros first rest -> Hf.
    assert (tail (QtText.splitLines (first +:+ String QtText.lf rest))
            = QtText.splitLines rest) as ->.
    { unfold QtText.splitLines at 1.
      now destruct (splitLines_first first rest EmptyString Hf) as (x & ->). }
    split; [reflexivity|].
    intros Hr. unfold QtText.splitLines. now rewrite join_splitLines.
Qed.

Lemma getDiff_drops_first_line_witness :
  exists s',
    getDiff "a" SampleTools.env2 SampleTools.fork
    = Some ("diff --git a/x.c b/x.c" +:+ nl +:+ "+int x;", s').
Proof.
  destruct (proj2 (getDiff_drops_first_line SampleTools.env2 SampleTools.fork
                     "a") ltac:(discriminate)) as (out & E & _ & H).
  eexists. rewrite E. f_equal. f_equal.
  apply (H "0123abcd" ("diff --git a/x.c b/x.c" +:+ nl +:+ "+int x;"));
    reflexivity.
Defined.

Lemma saveFile_answers_the_write_witness :
  exists s',
    saveFile [] EmptyString "x.c" "/tmp/x.c" SampleTools.env2 SampleTools.fork
    = Some (true, s')
    /\ trace s' = [EvRun "/repo" "git diff-tree HEAD HEAD" true false;
                   EvWriteFile "/tmp/x.c" "fatal" true]
    /\ "/tmp/x.c" ∈ files s'.
Proof.
  destruct (saveFile_answers_the_write SampleTools.env2 SampleTools.fork []
              EmptyString "x.c" "/tmp/x.c") as (s' & E & Ht & Hf).
  exists s'. split; [exact E|]. split; [exact Ht|]. now apply Hf.
Defined.

(** X19.  [getWorkDirDiff] runs one diff of the working directory
    against HEAD, for the file given or for all of them.  A failure gives
    the empty text.  In the output of a success the forty characters that
    follow the first pair of dots, the blob identifier of the index side,
    are replaced by the working directory identifier, and an output
    without a pair of dots is returned as it is. *)
Theorem getWorkDirDiff_index_sha (env : Env) (s : State) (fileName : string) :
  let cmd :=
    "git diff-index --no-color -r -z -m -p --full-index --no-commit-id HEAD"
      +:+ (if negb (Qt.isEmpty fileName) then " -- " +:+ quote env fileName
           else EmptyString) in
  let r := tool env (trace s) (workDir s) cmd in
  exists out,
    getWorkDirDiff fileName env s
    = Some (out,
            log_event (EvRun (workDir s) cmd (errorReportingEnabled s) r.1) s)
    /\ (r.1 = false -> out = EmptyString)
    /\ (r.1 = true -> Qt.indexOf ".." r.2 = -1 -> out = r.2)
    /\ (forall a h b,
          r = (true, a +:+ ".." +:+ h +:+ b) ->
          Qt.contains ".." (a +:+ ".") = false -> Qt.size h = 40 ->
          out = a +:+ ".." +:+ ZERO_SHA env +:+ b).
Proof.
  cbn zeta. unfold getWorkDirDiff, bind, ask, run, ret.
  destruct (tool env (trace s) (workDir s) _) as [[] out] eqn:E;
    cbn [negb fst snd].
  2:{ eexists. split; [reflexivity|]. split; [reflexivity|].
      split; [discriminate|]. discriminate. }
  eexists. split; [reflexivity|]. split; [discriminate|]. split.
  - intros _ ->. reflexivity.
  - intros a h b [= ->] Ha Hh.
    unfold Qt.contains, Qt.indexOf in Ha. apply Z.leb_gt in Ha.
    assert (Qt.indexOf_from ".." (a +:+ ".") 0 = -1) as Ha'.
    { assert (forall t i, -1 <= i -> -1 <= Qt.indexOf_from ".." t i) as G.
      { induction t as [|x t IH]; intros i Hi; cbn [Qt.indexOf_from]; [lia|].
        destruct (Qt.startsWith ".." (String x t)); [exact Hi|].
        apply IH. lia. }
      pose proof (G (a +:+ ".") 0 ltac:(lia)). lia. }
    unfold Qt.indexOf. rewrite (indexOf_dots a (h +:+ b) 0 ltac:(lia) Ha').
    assert ((0 + Qt.size a =? -1) = false) as ->
      by (apply Z.eqb_neq; unfold Qt.size; lia).
    cbn [negb].
    replace (0 + Qt.size a + 2) with (Qt.size (a +:+ ".."))
      by (rewrite size_app; reflexivity).
    rewrite <- Hh, <- (append_assoc a ".." (h +:+ b)).
    rewrite replaceAt_field. now rewrite append_assoc.
Qed.

Lemma getWorkDirDiff_index_sha_witness :
  exists s',
    getWorkDirDiff "x.c" SampleTools.env2 SampleTools.fork
    = Some (("diff --git a/x.c b/x.c" +:+ nl +:+ "index 1234567")
              +:+ ".." +:+ ZERO_SHA SampleTools.env2 +:+ " 100644", s').
Proof.
  destruct (getWorkDirDiff_index_sha SampleTools.env2 SampleTools.fork "x.c")
    as (out & E & _ & _ & H).
  eexists. rewrite E. f_equal. f_equal.
  apply (H ("diff --git a/x.c b/x.c" +:+ nl +:+ "index 1234567")
           SampleTools.blobSha " 100644"); reflexivity.
Defined.

(** ** Patches *)

Lemma last_cons_default (x : string) (l : list string) :
  last (x :: l) = Some (List.last (x :: l) EmptyString).
Proof.
  revert x. induction l as [|y l IH]; intros x; [reflexivity|].
  rewrite last_cons_cons. rewrite IH. reflexivity.
Qed.

(** The options of the format-patch command. *)
Local Abbreviation formatPatch_opts :=
  (fun (env : Env) (cfg : PatchSettings) (dirPath remoteDir : string) =>
     (if NUMBERS_F cfg && negb (negb (Qt.isEmpty remoteDir))
      then " -n" else EmptyString)
     +:+ (if negb (Qt.isEmpty remoteDir) then " --keep-subject"
          else EmptyString)
     +:+ " -o " +:+ quote env dirPath
     +:+ (if negb (Qt.isEmpty (FPOpt cfg))
          then " " +:+ Qt.trimmed (FPOpt cfg) else EmptyString)).

Lemma formatPatch_run env s cfg first_ rest dirPath remoteDir :
  let dir := if negb (Qt.isEmpty remoteDir) then remoteDir else workDir s in
  let cmd := "git format-patch --no-color"
               +:+ formatPatch_opts env cfg dirPath remoteDir
               +:+ " " +:+ List.last (first_ :: rest) EmptyString
               +:+ "^.." +:+ first_ in
  let ok := (tool env (trace s) dir cmd).1 in
  formatPatch cfg (first_ :: rest) dirPath remoteDir env s
  = Some (ok, log_event (EvRun dir cmd (errorReportingEnabled s) ok) s).
Proof.
  cbn zeta. unfold formatPatch. unfold bind at 1, ask. unfold bind at 1, gets.
  destruct (negb (Qt.isEmpty remoteDir)) eqn:R;
    unfold bind, modify, ret, run; rewrite last_cons_default;
    cbn [deref ret head]; destruct s; reflexivity.
Qed.

(** X20.  [formatPatch] runs one [git format-patch] for the range from
    the parent of the last identifier of the list to the first one.  When
    a remote directory is given the command runs there, and in every case
    the working directory of the object is afterwards what it was before,
    whether the command failed or not: the object differs from what it
    was by the recorded run alone.  On an empty list the call has no
    defined result. *)
Theorem formatPatch_restores_workDir (env : Env) (s : State)
    (cfg : PatchSettings) (dirPath remoteDir : string) :
  formatPatch cfg [] dirPath remoteDir env s = None
  /\ forall first_ rest,
       let shaList := first_ :: rest in
       let remote := negb (Qt.isEmpty remoteDir) in
       let dir := if remote then remoteDir else workDir s in
       exists cmd opts ok,
         cmd = "git format-patch --no-color" +:+ opts
                 +:+ " " +:+ List.last shaList EmptyString +:+ "^.." +:+ first_
         /\ formatPatch cfg shaList dirPath remoteDir env s
            = Some (ok, log_event (EvRun dir cmd (errorReportingEnabled s) ok) s)
         /\ ok = (tool env (trace s) dir cmd).1.
Proof.
  split.
  - unfold formatPatch, bind, ask, gets, modify, ret.
    now destruct (negb (Qt.isEmpty remoteDir)).
  - intros first_ rest. cbn zeta. eexists _, _, _.
    split; [reflexivity|]. split; [apply formatPatch_run|reflexivity].
Qed.

Lemma formatPatch_restores_workDir_witness :
  exists ok s',
    formatPatch SampleTools.patchSettings ["a"; "root"] "/tmp/p" "/other"
      SampleTools.env2 SampleTools.fork = Some (ok, s')
    /\ workDir s' = "/repo"
    /\ exists cmd, trace s' = [EvRun "/other" cmd true ok].
Proof.
  destruct (proj2 (formatPatch_restores_workDir SampleTools.env2
                     SampleTools.fork SampleTools.patchSettings "/tmp/p"
                     "/other") "a" ["root"]) as (cmd & opts & ok & _ & E & _).
  eexists _, _. split; [exact E|]. split; [reflexivity|].
  eexists. reflexivity.
Defined.

(** ** Quoting *)

(** X21.  Quoting a list of names gives the names quoted one by one and
    separated by single spaces.  The empty list is the exception: it
    gives one empty quoted argument, not nothing. *)
Theorem quoteList_is_quote_of_each (env : Env) (sl : list string) :
  (sl <> [] -> quoteList env sl = Qt.join " " (quote env <$> sl))
  /\ quoteList env [] = quote env EmptyString.
Proof.
  split; [|reflexivity].
  induction sl as [|x sl IH]; [congruence|]. intros _.
  destruct sl as [|y sl]; [reflexivity|].
  specialize (IH ltac:(discriminate)).
  change (quote env <$> x :: y :: sl)
    with (quote env x :: (quote env <$> y :: sl)).
  rewrite join_cons by discriminate. rewrite <- IH.
  unfold quoteList, quote. rewrite join_cons by discriminate.
  rewrite !QtFacts.append_assoc. reflexivity.
Qed.

Lemma quoteList_is_quote_of_each_witness :
  quoteList env0 ["a b"; "c"] = "$a b$ $c$".
Proof.
  rewrite (proj1 (quoteList_is_quote_of_each env0 ["a b"; "c"]))
    by discriminate.
  reflexivity.
Defined.

End GitToolsFacts.

(* ===================================================================== *)
(** * Facts about the menu of recent repositories *)
(* ===================================================================== *)

Module MainMenuFacts.

Import MainMenu QtFacts QtTextFacts.

(** ** Removing the entry that is put in front *)

(** What the [indexOf] and [removeAt] calls amount to. *)
Local Abbreviation withoutFirst :=
  (fun (x : string) (l : list string) =>
     if negb (QtText.indexOf x l =? -1)
     then QtText.removeAt (QtText.indexOf x l) l else l).

Lemma indexOf_from_range (x : string) (l : list string) : forall i,
  0 <= i ->
  QtText.indexOf_from x l i = -1 \/ i <= QtText.indexOf_from x l i.
Proof.
  induction l as [|y l IH]; intros i Hi; cbn; [now left|].
  destruct (String.eqb y x); [right; lia|].
  destruct (IH (i + 1) ltac:(lia)); [now left|right; lia].
Qed.

Lemma indexOf_from_shift (x : string) (l : list string) : forall i,
  0 <= i ->
  QtText.indexOf_from x l i
  = if QtText.indexOf_from x l 0 =? -1 then -1
    else QtText.indexOf_from x l 0 + i.
Proof.
  induction l as [|y l IH]; intros i Hi; cbn [QtText.indexOf_from];
    [reflexivity|].
  destruct (String.eqb y x); [reflexivity|].
  rewrite (IH (i + 1)), (IH (0 + 1)) by lia.
  destruct (Z.eqb_spec (QtText.indexOf_from x l 0) (-1)) as [E|E];
    [reflexivity|].
  destruct (indexOf_from_range x l 0 ltac:(lia)) as [?|Hlow]; [contradiction|].
  destruct (Z.eqb_spec (QtText.indexOf_from x l 0 + (0 + 1)) (-1)); lia.
Qed.

Lemma withoutFirst_cons (x y : string) (l : list string) :
  withoutFirst x (y :: l) = if String.eqb y x then l else y :: withoutFirst x l.
Proof.
  unfold QtText.indexOf, QtText.removeAt. cbn [QtText.indexOf_from].
  destruct (String.eqb y x); [reflexivity|].
  rewrite (indexOf_from_shift x l (0 + 1)) by lia.
  destruct (Z.eqb_spec (QtText.indexOf_from x l 0) (-1)) as [E|E];
    [reflexivity|].
  destruct (indexOf_from_range x l 0 ltac:(lia)) as [?|Hlow]; [contradiction|].
  destruct (Z.eqb_spec (QtText.indexOf_from x l 0 + (0 + 1)) (-1)); [lia|].
  cbn [negb].
  replace (Z.to_nat (QtText.indexOf_from x l 0 + (0 + 1)))
    with (S (Z.to_nat (QtText.indexOf_from x l 0))) by lia.
  reflexivity.
Qed.

Lemma withoutFirst_facts (x : string) (l : list string) :
  (forall y, In y (withoutFirst x l) -> In y l)
  /\ (NoDup l -> NoDup (withoutFirst x l) /\ ~ In x (withoutFirst x l)).
Proof.
  induction l as [|y l [IH1 IH2]].
  - split; [auto|]. intros _. split; [constructor|intros []].
  - rewrite withoutFirst_cons.
    destruct (String.eqb_spec y x) as [->|Hne].
    + split; [intros z Hz; now right|].
      intros Hd. apply NoDup_cons in Hd as [Hx Hd]. split; [exact Hd|].
      intros Hin. apply Hx. now apply list_elem_of_In.
    + split.
      * intros z [<-|Hz]; [now left|right; now apply IH1].
      * intros Hd. apply NoDup_cons in Hd as [Hy Hd].
        destruct (IH2 Hd) as [Hn Hx]. split.
        -- apply NoDup_cons. split; [|exact Hn].
           intros Hin. apply Hy. apply list_elem_of_In, IH1.
           now apply list_elem_of_In.
        -- intros [?|Hin]; [congruence|contradiction].
Qed.

(** ** The numbered entries *)

Lemma addRecents_take (MAX : Z) (l : list string) : forall idx,
  let k := Z.to_nat (Z.max 1 (MAX - idx + 1)) in
  addRecents MAX idx l = (numberedFrom idx (take k l), take k l).
Proof.
  induction l as [|it l IH]; intros idx; cbn zeta; cbn [addRecents].
  - now rewrite take_nil.
  - destruct (Z.gtb_spec (idx + 1) MAX) as [H|H].
    + replace (Z.to_nat (Z.max 1 (MAX - idx + 1))) with 1%nat by lia.
      cbn. now rewrite take_0.
    + rewrite IH. cbn [fst snd].
      replace (Z.to_nat (Z.max 1 (MAX - idx + 1)))
        with (S (Z.to_nat (Z.max 1 (MAX - (idx + 1) + 1)))) by lia.
      reflexivity.
Qed.

Lemma numberedFrom_isNumbered (l : list string) : forall idx,
  0 <= idx -> Forall (fun txt => isNumbered txt = true) (numberedFrom idx l).
Proof.
  induction l as [|it l IH]; intros idx Hi; cbn [numberedFrom]; constructor.
  - destruct (number_head idx Hi) as (c & rest & -> & Hc). exact Hc.
  - apply IH. lia.
Qed.

Lemma filter_all (P : string -> bool) (l : list string) :
  Forall (fun x => P x = true) l -> List.filter P l = l.
Proof.
  induction 1 as [|x l Hx _ IH]; [reflexivity|]. cbn. now rewrite Hx, IH.
Qed.

Lemma filter_none (P : string -> bool) (l : list string) :
  Forall (fun x => P x = true) l -> List.filter (fun x => negb (P x)) l = [].
Proof.
  induction 1 as [|x l Hx _ IH]; [reflexivity|]. cbn. now rewrite Hx, IH.
Qed.

Lemma filter_idem (P : string -> bool) (l : list string) :
  List.filter P (List.filter P l) = List.filter P l.
Proof.
  apply filter_all. apply List.Forall_forall. intros x Hx.
  now apply List.filter_In in Hx.
Qed.

(** One window: what the menu and the stored list become. *)
Lemma doUpdateRecentRepoMenu_result (MAX : Z) (newEntry : string)
    (menu recents : list string) :
  let k := Z.to_nat (Z.max 1 MAX) in
  let stored :=
    take k (if negb (Qt.isEmpty newEntry)
            then newEntry :: withoutFirst newEntry recents
            else withoutFirst newEntry recents) in
  doUpdateRecentRepoMenu MAX newEntry menu recents
  = (List.filter (fun txt => negb (isNumbered txt)) menu
       ++ numberedFrom 1 stored, stored).
Proof.
  cbn zeta. unfold doUpdateRecentRepoMenu. rewrite addRecents_take.
  cbn [fst snd]. replace (MAX - 1 + 1) with MAX by lia. reflexivity.
Qed.

(** A second update with the same entry changes nothing. *)
Lemma stored_again (k : nat) (e : string) (l : list string) :
  (0 < k)%nat -> e <> EmptyString ->
  let stored := take k (e :: l) in
  take k (e :: withoutFirst e stored) = stored.
Proof.
  intros Hk He. cbn zeta. destruct k as [|k]; [lia|].
  cbn [take]. rewrite withoutFirst_cons, String.eqb_refl.
  cbn [take]. f_equal. apply take_ge. rewrite length_take. lia.
Qed.

Lemma filter_numbered_plain (l : list string) :
  List.filter isNumbered (List.filter (fun txt => negb (isNumbered txt)) l) = [].
Proof.
  induction l as [|x l IH]; [reflexivity|]. cbn.
  destruct (isNumbered x) eqn:E; cbn; [exact IH|]. now rewrite E.
Qed.

(** Once the stored list has the new entry in front and fits the limit,
    every further window is shown this list and leaves it as it is. *)
Lemma updateRecentRepoMenu_settled (MAX : Z) (e : string)
    (menus : list (list string)) (stored : list string) :
  take (Z.to_nat (Z.max 1 MAX)) (e :: withoutFirst e stored) = stored ->
  e <> EmptyString ->
  updateRecentRepoMenu MAX e menus stored
  = ((fun m => List.filter (fun txt => negb (isNumbered txt)) m
                 ++ numberedFrom 1 stored) <$> menus, stored).
Proof.
  intros Hfix He. induction menus as [|m menus IH]; [reflexivity|].
  cbn [updateRecentRepoMenu]. rewrite doUpdateRecentRepoMenu_result.
  assert (Qt.isEmpty e = false) as -> by (destruct e; [congruence|reflexivity]).
  cbn [negb fst snd]. rewrite Hfix, IH. reflexivity.
Qed.

(** X22.  The menu of recent repositories.  After
    [updateRecentRepoMenu] with an entry that is not empty, in an
    application with at least one main window: the stored list has the
    new entry in front, followed by entries of the old list; it holds no
    more entries than the limit allows (one at least); it has no
    duplicates when the old list had none.  Every window shows this very
    list, numbered from 1, and its other actions are what they were, in
    their order.  A second update with the same entry changes nothing. *)
Theorem updateRecentRepoMenu_consistent (MAX : Z) (newEntry : string)
    (menus : list (list string)) (recents : list string) :
  newEntry <> EmptyString -> menus <> [] ->
  let r := updateRecentRepoMenu MAX newEntry menus recents in
  (exists rest, r.2 = newEntry :: rest /\ forall x, In x rest -> In x recents)
  /\ (length r.2 <= Z.to_nat (Z.max 1 MAX))%nat
  /\ (NoDup recents -> NoDup r.2)
  /\ Forall2 (fun m m' =>
                List.filter isNumbered m' = numberedFrom 1 r.2
                /\ List.filter (fun txt => negb (isNumbered txt)) m'
                   = List.filter (fun txt => negb (isNumbered txt)) m)
             menus r.1
  /\ updateRecentRepoMenu MAX newEntry r.1 r.2 = r.
Proof.
  intros He Hm. cbn zeta.
  assert (Qt.isEmpty newEntry = false) as Hne
    by (destruct newEntry; [congruence|reflexivity]).
  set (k := Z.to_nat (Z.max 1 MAX)).
  assert (0 < k)%nat as Hk by (unfold k; lia).
  set (stored := take k (newEntry :: withoutFirst newEntry recents)).
  set (f := fun m : list string =>
              List.filter (fun txt => negb (isNumbered txt)) m
                ++ numberedFrom 1 stored).
  assert (take k (newEntry :: withoutFirst newEntry stored) = stored) as Hfix
    by (apply stored_again; assumption).
  assert (updateRecentRepoMenu MAX newEntry menus recents = (f <$> menus, stored))
    as ->.
  { destruct menus as [|m menus]; [congruence|].
    cbn [updateRecentRepoMenu]. rewrite doUpdateRecentRepoMenu_result.
    rewrite Hne. cbn [negb fst snd]. fold k. fold stored.
    now rewrite (updateRecentRepoMenu_settled MAX newEntry menus stored Hfix He). }
  cbn [fst snd].
  assert (forall m, List.filter isNumbered (f m) = numberedFrom 1 stored) as Hnum.
  { intros m. unfold f. rewrite List.filter_app, filter_numbered_plain.
    apply filter_all, numberedFrom_isNumbered. lia. }
  assert (forall m, List.filter (fun txt => negb (isNumbered txt)) (f m)
                    = List.filter (fun txt => negb (isNumbered txt)) m) as Hplain.
  { intros m. unfold f. rewrite List.filter_app, filter_idem.
    rewrite (filter_none isNumbered (numberedFrom 1 stored))
      by (apply numberedFrom_isNumbered; lia).
    apply app_nil_r. }
  destruct (withoutFirst_facts newEntry recents) as [Hsub Hnd].
  split; [|split; [|split; [|split]]].
  - unfold stored. destruct k as [|k']; [lia|]. cbn [take].
    eexists. split; [reflexivity|]. intros x Hx. apply Hsub.
    apply list_elem_of_In in Hx. apply list_elem_of_In.
    now apply (subseteq_take k').
  - unfold stored. rewrite length_take. lia.
  - intros Hd. destruct (Hnd Hd) as [Hn Hx].
    apply (sublist_NoDup stored (newEntry :: withoutFirst newEntry recents));
      [|apply sublist_take].
    apply NoDup_cons. split; [|exact Hn].
    intros Hin. apply Hx. now apply list_elem_of_In.
  - clear Hm. induction menus as [|m menus IH]; constructor; [|exact IH].
    split; [apply Hnum|apply Hplain].
  - rewrite (updateRecentRepoMenu_settled MAX newEntry _ stored Hfix He).
    f_equal. rewrite <- list_fmap_compose. apply list_fmap_ext.
    intros _ m _. cbn [compose]. rewrite Hplain. reflexivity.
Qed.

Lemma updateRecentRepoMenu_consistent_witness :
  let r := updateRecentRepoMenu 3 "/c"
             [["&Open"; "1 /a"; "2 /b"; "E&xit"]; ["&Open"]]
             ["/a"; "/b"; "/c"; "/d"] in
  r = ([["&Open"; "E&xit"; "1 /c"; "2 /a"; "3 /b"];
        ["&Open"; "1 /c"; "2 /a"; "3 /b"]], ["/c"; "/a"; "/b"])
  /\ updateRecentRepoMenu 3 "/c" r.1 r.2 = r.
Proof.
  cbn zeta. split; [vm_compute; reflexivity|].
  apply (updateRecentRepoMenu_consistent 3 "/c"
           [["&Open"; "1 /a"; "2 /b"; "E&xit"]; ["&Open"]]
           ["/a"; "/b"; "/c"; "/d"]); discriminate.
Defined.

End MainMenuFacts.

(* ===================================================================== *)
(** * Facts about the import of dropped revisions *)
(* ===================================================================== *)

Module MainDropFacts.

Import Git GitTools MainDrop QtFacts QtTextFacts GitFacts GitToolsFacts.
Import Sample SampleTools SampleDrop.
Local Open Scope drop_scope.

(** ** The commands of the Git object that an import runs *)

Lemma format_patch_not_reset (x : string) (d : Z) :
  "git format-patch --no-color" +:+ x <> resetCommits_cmd d.
Proof. unfold resetCommits_cmd. cbv [String.append]. discriminate. Qed.

Lemma formatPatch_noReset env g cfg sha_ dirPath remoteDir ok g' :
  formatPatch cfg [sha_] dirPath remoteDir env g = Some (ok, g') ->
  exists e, Git.trace g' = Git.trace g ++ [e] /\ noReset e.
Proof.
  rewrite formatPatch_run. intros [= _ <-]. eexists. split; [reflexivity|].
  intros d. apply format_patch_not_reset.
Qed.

Lemma applyPatchFile_noReset env g cfg p fold dd ok g' :
  applyPatchFile cfg p fold dd env g = Some (ok, g') ->
  exists new, Git.trace g' = Git.trace g ++ new /\ Forall noReset new.
Proof.
  unfold applyPatchFile, bind, ask, run, ret.
  destruct (isStGIT cfg); [destruct fold|].
  - destruct (tool env (Git.trace g) (workDir g) _) as [[] out]; cbn.
    + intros [= _ <-]. eexists [_; _]. cbn. rewrite <- app_assoc.
      split; [reflexivity|].
      repeat (apply List.Forall_cons;
              [intros d; unfold resetCommits_cmd; cbv [String.append];
               discriminate|]).
      apply List.Forall_nil.
    + intros [= _ <-]. eexists [_]. split; [reflexivity|].
      apply List.Forall_cons; [|apply List.Forall_nil].
      intros d; unfold resetCommits_cmd; cbv [String.append]; discriminate.
  - intros [= _ <-]. eexists [_]. split; [reflexivity|].
    apply List.Forall_cons; [|apply List.Forall_nil].
    intros d; unfold resetCommits_cmd; cbv [String.append]; discriminate.
  - intros [= _ <-]. eexists [_]. split; [reflexivity|].
    apply List.Forall_cons; [|apply List.Forall_nil].
    intros d; unfold resetCommits_cmd. rewrite !QtFacts.append_assoc.
    cbv [String.append]; discriminate.
Qed.

(** ** Steps of the main window *)

Lemma bindD_inv {A B} (m : D A) (k : A -> D B) env s b s' :
  bindD m k env s = Some (b, s') ->
  exists a s1, m env s = Some (a, s1) /\ k a env s1 = Some (b, s').
Proof.
  unfold bindD. destruct (m env s) as [[a s1]|]; [|discriminate].
  intros H. now exists a, s1.
Qed.

(** From [s] to [s'] the import went on: the drop flag is as it was,
    no failure was reported and the status bar was not cleared, and no
    commit was taken back. *)
Local Abbreviation going :=
  (fun s s' : State =>
     dropping s' = dropping s
     /\ (exists lu, ui s' = ui s ++ lu /\ Forall inProgress lu)
     /\ (exists lg, Git.trace (git s') = Git.trace (git s) ++ lg
                    /\ Forall noReset lg)).

Lemma going_refl s : going s s.
Proof.
  split; [reflexivity|].
  split; exists []; (split; [now rewrite app_nil_r|constructor]).
Qed.

Lemma going_trans s1 s2 s3 : going s1 s2 -> going s2 s3 -> going s1 s3.
Proof.
  intros (D1 & (u1 & U1 & F1) & (g1 & G1 & N1))
         (D2 & (u2 & U2 & F2) & (g2 & G2 & N2)).
  split; [congruence|]. split.
  - exists (u1 ++ u2). rewrite U2, U1, <- app_assoc. split; [reflexivity|].
    now apply Forall_app.
  - exists (g1 ++ g2). rewrite G2, G1, <- app_assoc. split; [reflexivity|].
    now apply Forall_app.
Qed.

Lemma going_ui e env s x s' :
  inProgress e -> uiDo e env s = Some (x, s') -> going s s'.
Proof.
  intros He [= _ <-]. split; [reflexivity|]. split.
  - exists [e]. split; [reflexivity|]. now apply List.Forall_cons.
  - exists []. cbn. split; [now rewrite app_nil_r|constructor].
Qed.

Lemma going_git {A} (m : Git.M A) env s a s' :
  (forall g g' x, m (gitEnv env) g = Some (x, g') ->
     exists new, Git.trace g' = Git.trace g ++ new /\ Forall noReset new) ->
  liftGit m env s = Some (a, s') -> going s s'.
Proof.
  intros Hm H. unfold liftGit in H.
  destruct (m (gitEnv env) (git s)) as [[x g']|] eqn:E; [|discriminate H].
  injection H as _ <-. split; [reflexivity|]. split.
  - exists []. cbn. split; [now rewrite app_nil_r|constructor].
  - cbn. exact (Hm _ _ _ E).
Qed.

Lemma importing_inProgress (a b : string) :
  inProgress (UiShowMessage ("Importing revision " +:+ a +:+ " of " +:+ b)).
Proof. intros k. cbv [String.append]. discriminate. Qed.

(** The loop: it makes between one attempt and as many as there are
    entries, the counter counts them, and it leaves with the iterator at
    the beginning exactly when the last entry was attempted. *)
Lemma revisionsDropped_loop_attempts fold total (revs : list string) :
  forall n env s r atBegin s',
  revisionsDropped_loop fold total revs n env s = Some ((r, atBegin), s') ->
  going s s'
  /\ exists k, 1 <= k <= Z.of_nat (length revs) /\ r = n + k
               /\ (atBegin = true <-> k = Z.of_nat (length revs)).
Proof.
  induction revs as [|it rest IH]; intros n env s r atBegin s' H;
    [discriminate H|].
  cbn [revisionsDropped_loop] in H.
  assert (forall s1, going s s1 ->
            going s s1
            /\ exists k, 1 <= k <= Z.of_nat (length (it :: rest))
                         /\ n + 1 = n + k
                         /\ (isNil rest = true
                             <-> k = Z.of_nat (length (it :: rest)))) as Exit.
  { intros s1 Hg. split; [exact Hg|]. exists 1. cbn [length].
    split; [lia|]. split; [reflexivity|].
    destruct rest; cbn; split; intros; try lia; try discriminate;
      reflexivity. }
  apply bindD_inv in H as (e & s0 & [= <- <-] & H).
  apply bindD_inv in H as (u & s1 & H1 & H).
  apply going_ui in H1; [|apply importing_inProgress].
  destruct (dirExists env (Qt.section "@" 1 (-1) it)); cbn [negb] in H.
  2:{ injection H as <- <- <-. now apply Exit. }
  apply bindD_inv in H as (ok & s2 & H2 & H).
  apply going_git in H2;
    [|intros g g' x Hx; apply formatPatch_noReset in Hx as (ev & -> & Hev);
      exists [ev]; split; [reflexivity|now apply List.Forall_cons]].
  pose proof (going_trans _ _ _ H1 H2) as G2.
  destruct ok; cbn [negb] in H.
  2:{ injection H as <- <- <-. now apply Exit. }
  apply bindD_inv in H as (u3 & s3 & H3 & H).
  apply going_ui in H3; [|exact I].
  pose proof (going_trans _ _ _ G2 H3) as G3.
  apply bindD_inv in H as (fs & s4 & [= <- <-] & H).
  destruct (patchFiles env (Git.trace (git s3)) (ui s3)) as [|f [|f' fs]].
  1,3: injection H as <- <- <-; now apply Exit.
  apply bindD_inv in H as (applied & s5 & H5 & H).
  apply going_git in H5;
    [|intros g g' x Hx; exact (applyPatchFile_noReset _ _ _ _ _ _ _ _ Hx)].
  apply bindD_inv in H as (u6 & s6 & H6 & H).
  apply going_ui in H6; [|exact I].
  pose proof (going_trans _ _ _ (going_trans _ _ _ G3 H5) H6) as G6.
  destruct applied; cbn [negb] in H.
  2:{ injection H as <- <- <-. now apply Exit. }
  destruct (isNil rest) eqn:En.
  { injection H as <- <- <-. destruct (Exit _ G6) as [_ (k & Hk & Hr & Hb)].
    split; [exact G6|]. exists k. repeat split; try tauto. }
  apply IH in H as (G & k & Hk & -> & Hb).
  split; [exact (going_trans _ _ _ G6 G)|].
  exists (1 + k). cbn [length]. split; [lia|]. split; [lia|].
  rewrite Hb. split; lia.
Qed.

Lemma append_cancel_l (a x y : string) : a +:+ x = a +:+ y -> x = y.
Proof.
  induction a as [|c a IH]; [auto|]. cbn. intros [= H]. now apply IH.
Qed.

Lemma failedMessage_inj (j k : Z) : failedMessage j = failedMessage k -> j = k.
Proof.
  unfold failedMessage. intros [= H]. apply append_cancel_l in H.
  now apply (inj pretty).
Qed.

Lemma resetCommits_cmd_inj (j k : Z) :
  resetCommits_cmd j = resetCommits_cmd k -> j = k.
Proof.
  unfold resetCommits_cmd. intros H. apply append_cancel_l in H.
  now apply (inj pretty).
Qed.

Lemma inProgress_not_failed (lu : list UiEvent) (k : Z) :
  Forall inProgress lu -> ~ In (failedMessage k) lu.
Proof.
  intros H Hin. rewrite List.Forall_forall in H.
  exact (H _ Hin k eq_refl).
Qed.

Lemma inProgress_not_cleared (lu : list UiEvent) :
  Forall inProgress lu -> ~ In UiClearMessage lu.
Proof. intros H Hin. rewrite List.Forall_forall in H. exact (H _ Hin). Qed.

Lemma noReset_not_reset (lg : list Git.Event) dir d rep ok :
  Forall noReset lg -> ~ In (EvRun dir (resetCommits_cmd d) rep ok) lg.
Proof.
  intros H Hin. rewrite List.Forall_forall in H. exact (H _ Hin d eq_refl).
Qed.

(** X23.  What [revisionsDropped] reports and takes back.  When it
    returns, the drop flag is off again.  With [n] revisions dropped, the
    failure of an attempt is reported only for an attempt before the
    [n]-th: when the last of the revisions fails to import, the status
    bar is cleared as after a success.  Commits are taken back only on a
    repository without StGit for which the user chose the working
    directory, and their number is the number of attempts before the
    one reported as failed, or, when none is reported, all [n] of them,
    the last attempt counted whether it succeeded or not. *)
Theorem revisionsDropped_outcome (env : Env) (s s' : State)
    (remoteRevs : list string) :
  revisionsDropped remoteRevs env s = Some (tt, s') ->
  dropping s = false ->
  Z.of_nat (length remoteRevs) < 2 ^ 31 ->
  dropping s' = false
  /\ exists newUi newGit,
       ui s' = ui s ++ newUi
       /\ Git.trace (git s') = Git.trace (git s) ++ newGit
       /\ (forall k, In (failedMessage k) newUi ->
             1 <= k < Z.of_nat (length remoteRevs))
       /\ (forall dir d rep ok,
             In (EvRun dir (resetCommits_cmd d) rep ok) newGit ->
             answer env = 1 /\ isStGIT (cfg env) = false
             /\ (In (failedMessage (d + 1)) newUi
                 \/ (d = Z.of_nat (length remoteRevs)
                     /\ In UiClearMessage newUi))).
Proof.
  intros H Hd _. unfold revisionsDropped in H.
  apply bindD_inv in H as (e & s0 & [= <- <-] & H).
  apply bindD_inv in H as (d & s0 & [= <- <-] & H).
  rewrite Hd in H.
  destruct (staleDir env).
  { injection H as <-. split; [exact Hd|]. eexists [_], []. cbn.
    split; [reflexivity|]. split; [now rewrite app_nil_r|]. split.
    - intros k [Hk|[]]. unfold failedMessage in Hk. injection Hk as Hk.
      cbv [String.append] in Hk. discriminate Hk.
    - intros ? ? ? ? []. }
  destruct (negb (askApplyPatchParameters (isStGIT (cfg env)) (answer env)).1)
    eqn:Ha.
  { injection H as <-. split; [exact Hd|]. exists [], []. cbn.
    rewrite !app_nil_r. repeat split; intros; contradiction. }
  apply bindD_inv in H as (u1 & s1 & [= <- <-] & H).
  apply bindD_inv in H as (u2 & s2 & [= <- <-] & H).
  apply bindD_inv in H as (u3 & s3 & [= <- <-] & H).
  apply bindD_inv in H as (u4 & s4 & [= <- <-] & H).
  apply bindD_inv in H as ([r atBegin] & s5 & Hloop & H).
  apply revisionsDropped_loop_attempts in Hloop
    as ((D5 & (lu & U5 & Flu) & (lg & G5 & Flg)) & k & Hk & Hr & Hb).
  rewrite length_rev in Hk, Hb. cbn in U5, G5, D5. cbn [fst snd] in H.
  set (n := Z.of_nat (length remoteRevs)) in *.
  apply bindD_inv in H as (revNum & s6 & H6 & H).
  apply bindD_inv in H as (u7 & s7 & H7 & H).
  apply bindD_inv in H as (u8 & s8 & [= <- <-] & H).
  apply bindD_inv in H as (u9 & s9 & [= <- <-] & H).
  apply bindD_inv in H as (u10 & s10 & [= <- <-] & H).
  injection H as <-. cbn [dropping ui git]. split; [reflexivity|].
  assert ((askApplyPatchParameters (isStGIT (cfg env)) (answer env)).2.1 = true
          -> answer env = 1 /\ isStGIT (cfg env) = false) as Hwd.
  { unfold askApplyPatchParameters. destruct (isStGIT (cfg env)); cbn;
      [discriminate|]. intros Hw. apply Z.eqb_eq in Hw. now split. }
  assert (exists msg,
            ui s6 = ui s5 ++ [msg] /\ git s6 = git s5
            /\ ((atBegin = true /\ msg = UiClearMessage /\ revNum = r)
                \/ (atBegin = false /\ msg = failedMessage r
                    /\ revNum = r - 1))) as (msg & U6 & G6 & Hmsg).
  { destruct atBegin.
    - apply bindD_inv in H6 as (u & s6' & [= <- <-] & [= <- <-]).
      eexists. split; [reflexivity|]. split; [reflexivity|]. left. auto.
    - apply bindD_inv in H6 as (u & s6' & [= <- <-] & [= <- <-]).
      eexists. split; [reflexivity|]. split; [reflexivity|]. right. auto. }
  assert (exists tl,
            ui s7 = ui s6 /\ Git.trace (git s7) = Git.trace (git s6) ++ tl
            /\ (tl = []
                \/ ((askApplyPatchParameters (isStGIT (cfg env))
                       (answer env)).2.1 = true
                    /\ exists dir rep ok,
                         tl = [EvRun dir (resetCommits_cmd revNum) rep ok])))
    as (tl & U7 & G7 & Htl).
  { destruct ((askApplyPatchParameters (isStGIT (cfg env)) (answer env)).2.1)
      eqn:Ew; cbn [andb] in H7.
    - destruct (0 <? revNum).
      + apply bindD_inv in H7 as (x & s7' & Hx & [= <- <-]).
        unfold liftGit, resetCommits, bind, run, ret in Hx.
        injection Hx as _ <-. cbn [ui git Git.trace log_event].
        eexists. split; [reflexivity|]. split; [reflexivity|].
        right. split; [reflexivity|]. eexists _, _, _. reflexivity.
      + injection H7 as _ <-. exists []. rewrite app_nil_r. auto.
    - injection H7 as _ <-. exists []. rewrite app_nil_r. auto. }
  exists ([UiSetOverrideCursor; UiRaise; UiProcessEvents] ++ lu ++ [msg]
          ++ [UiDirRmdir (curDir env +:+ PATCHES_DIR env);
              UiRestoreOverrideCursor; UiRefreshRepo]),
         (lg ++ tl).
  split.
  { rewrite U7, U6, U5. cbn. rewrite <- !app_assoc. reflexivity. }
  split.
  { rewrite G7, G6, G5. cbn. now rewrite <- app_assoc. }
  assert (forall j, In (failedMessage j)
                      ([UiSetOverrideCursor; UiRaise; UiProcessEvents] ++ lu
                       ++ [msg]
                       ++ [UiDirRmdir (curDir env +:+ PATCHES_DIR env);
                           UiRestoreOverrideCursor; UiRefreshRepo]) ->
                    msg = failedMessage j) as Hfail.
  { intros j Hin. cbn in Hin.
    destruct Hin as [Hin|[Hin|[Hin|Hin]]]; try discriminate Hin.
    apply in_app_or in Hin as [Hin|Hin];
      [now apply inProgress_not_failed in Hin|].
    cbn in Hin. destruct Hin as [Hin|[Hin|[Hin|[Hin|[]]]]];
      try discriminate Hin. exact Hin. }
  split.
  - intros j Hin. apply Hfail in Hin.
    destruct Hmsg as [(_ & -> & _)|(Hat & -> & _)]; [discriminate Hin|].
    apply failedMessage_inj in Hin. subst j.
    assert (k <> n) by (intros E; apply Hb in E; congruence). lia.
  - intros dir d0 rep ok Hin. apply in_app_or in Hin as [Hin|Hin];
      [now apply noReset_not_reset in Hin|].
    destruct Htl as [->|(Hw & dir' & rep' & ok' & ->)]; [destruct Hin|].
    destruct Hin as [Hin|[]].
    assert (resetCommits_cmd revNum = resetCommits_cmd d0) as Hc
      by congruence.
    apply resetCommits_cmd_inj in Hc. subst d0.
    destruct (Hwd Hw) as [Hans Hst]. split; [exact Hans|].
    split; [exact Hst|].
    destruct Hmsg as [(Hat & -> & ->)|(Hat & -> & ->)].
    + right. split; [apply Hb in Hat; lia|].
      cbn. right. right. right. apply in_or_app. right. now left.
    + left. replace (r - 1 + 1) with r by lia.
      cbn. right. right. right. apply in_or_app. right. now left.
Qed.

Lemma revisionsDropped_outcome_witness :
  exists s',
    revisionsDropped ["b@/other"; "a@/other"] dropEnv dropWindow
      = Some (tt, s')
    /\ dropping s' = false
    /\ exists newUi newGit,
         ui s' = ui dropWindow ++ newUi
         /\ Git.trace (git s') = Git.trace (git dropWindow) ++ newGit
         /\ (forall k, In (failedMessage k) newUi -> 1 <= k < 2)
         /\ (forall dir d rep ok,
               In (EvRun dir (resetCommits_cmd d) rep ok) newGit ->
               answer dropEnv = 1 /\ isStGIT (cfg dropEnv) = false
               /\ (In (failedMessage (d + 1)) newUi
                   \/ (d = 2 /\ In UiClearMessage newUi))).
Proof.
  eexists. split; [vm_compute; reflexivity|].
  apply (revisionsDropped_outcome dropEnv dropWindow _
           ["b@/other"; "a@/other"]);
    vm_compute; reflexivity.
Defined.

Lemma revisionsDropped_loop_first_fails (env : Env) (s : State)
    (fold : bool) (total : Z) (item : string) (rest : list string) (n : Z) :
  dirExists env (Qt.section "@" 1 (-1) item) = false ->
  revisionsDropped_loop fold total (item :: rest) n env s
  = Some ((n + 1, Git.isNil rest),
          {| git := git s; dropping := dropping s;
             ui := ui s
                   ++ [UiShowMessage
                         ("Importing revision " +:+ QtText.number (n + 1)
                          +:+ " of " +:+ QtText.number total)] |}).
Proof.
  intros H. cbn [revisionsDropped_loop]. unfold bindD, askD, uiDo.
  rewrite H. reflexivity.
Qed.

(** X24.  A drop whose first attempt fails.  The revisions are imported
    from the last entry backwards; when the directory named by the last
    entry does not exist, the first attempt is the only one.  With other
    entries before it, the failure of revision 1 is reported and no
    command runs.  When the entry is the only one, the status bar is
    cleared instead, and on a repository without StGit for which the user
    chose the working directory, one commit is taken back although none
    was made. *)
Theorem revisionsDropped_first_attempt_fails (env : Env) (s : State)
    (earlier : list string) (item : string) :
  dropping s = false ->
  staleDir env = false ->
  answer env = 1 ->
  isStGIT (cfg env) = false ->
  dirExists env (Qt.section "@" 1 (-1) item) = false ->
  exists s',
    revisionsDropped (earlier ++ [item]) env s = Some (tt, s')
    /\ dropping s' = false
    /\ ui s'
       = ui s
         ++ [UiSetOverrideCursor; UiRaise; UiProcessEvents;
             UiShowMessage
               ("Importing revision " +:+ QtText.number 1 +:+ " of "
                +:+ QtText.number (Z.of_nat (length (earlier ++ [item]))));
             if Git.isNil earlier then UiClearMessage else failedMessage 1;
             UiDirRmdir (curDir env +:+ PATCHES_DIR env);
             UiRestoreOverrideCursor; UiRefreshRepo]
    /\ Git.trace (git s')
       = Git.trace (git s)
         ++ (if Git.isNil earlier
             then [EvRun (Git.workDir (git s)) (resetCommits_cmd 1)
                     (Git.errorReportingEnabled (git s))
                     (Git.tool (gitEnv env) (Git.trace (git s))
                        (Git.workDir (git s)) (resetCommits_cmd 1)).1]
             else []).
Proof.
  intros Hd Hstale Hans Hst Hdir.
  unfold revisionsDropped, bindD, askD, getsD, setDropping, uiDo, retD.
  rewrite Hd, Hstale. unfold askApplyPatchParameters. rewrite Hst, Hans.
  cbn [negb fst snd Z.eqb git dropping ui].
  rewrite rev_app_distr. cbn [rev app].
  set (n := Z.of_nat (length (earlier ++ [item]))).
  assert (Git.isNil (rev earlier) = Git.isNil earlier) as Hnil.
  { destruct earlier as [|e es]; [reflexivity|]. cbn [rev].
    now destruct (rev es). }
  rewrite (revisionsDropped_loop_first_fails env _ false n item
             (rev earlier) 0 Hdir).
  cbn [negb fst snd git dropping ui]. rewrite Hnil.
  destruct earlier as [|e es]; cbn [Git.isNil].
  - cbn [andb Z.ltb Z.add Z.compare Pos.compare].
    unfold liftGit, resetCommits, Git.bind, Git.run, Git.ret.
    cbn [git dropping ui fst Git.trace Git.log_event].
    eexists. split; [reflexivity|]. cbn [git dropping ui].
    split; [reflexivity|]. rewrite <- !app_assoc. cbn [app].
    split; reflexivity.
  - cbn [andb Z.ltb Z.add Z.sub Z.compare Pos.compare Z.pos_sub Z.opp].
    eexists. split; [reflexivity|]. cbn [git dropping ui].
    split; [reflexivity|]. rewrite <- !app_assoc. cbn [app].
    split; [reflexivity|]. now rewrite app_nil_r.
Qed.

Lemma revisionsDropped_first_attempt_fails_witness :
  exists s',
    revisionsDropped ([] ++ ["a@/other"])
      {| gitEnv := gitEnv dropEnv; cfg := cfg dropEnv;
         curDir := curDir dropEnv; PATCHES_DIR := PATCHES_DIR dropEnv;
         optDragDrop := optDragDrop dropEnv; staleDir := false;
         answer := 1; dirExists := fun _ => false;
         patchFiles := patchFiles dropEnv |} dropWindow = Some (tt, s')
    /\ dropping s' = false
    /\ In UiClearMessage (ui s')
    /\ Git.trace (git s')
       = Git.trace (git dropWindow)
         ++ [EvRun "/repo" "git reset --soft HEAD~1" true false].
Proof.
  destruct (revisionsDropped_first_attempt_fails
              {| gitEnv := gitEnv dropEnv; cfg := cfg dropEnv;
                 curDir := curDir dropEnv; PATCHES_DIR := PATCHES_DIR dropEnv;
                 optDragDrop := optDragDrop dropEnv; staleDir := false;
                 answer := 1; dirExists := fun _ => false;
                 patchFiles := patchFiles dropEnv |} dropWindow []
              "a@/other" eq_refl eq_refl eq_refl eq_refl eq_refl)
    as (s' & Hrun & Hdrop & Hui & Htrace).
  exists s'. split; [exact Hrun|]. split; [exact Hdrop|]. split.
  - rewrite Hui. cbn. auto 10.
  - rewrite Htrace. vm_compute. reflexivity.
Defined.

End MainDropFacts.

(* ===================================================================== *)
(** * Facts about the commands that are run again *)
(* ===================================================================== *)

Module GitRunsFacts.

Import GitRuns.
Import Git GitTools QtFacts GitFacts GitCacheFacts GitCommitFacts.
Local Open Scope git_scope.

(** ** Attempts that are not run again *)

Lemma attemptsGit_app (a b : list Git.Event) :
  attemptsGit (a ++ b) = attemptsGit a ++ attemptsGit b.
Proof. apply omap_app. Qed.

Lemma attempts_app (a b : list Action) :
  attempts (a ++ b) = attempts a ++ attempts b.
Proof. apply omap_app. Qed.

Lemma attempts_DoGit (tr : list Git.Event) :
  attempts (DoGit <$> tr) = attemptsGit tr.
Proof.
  induction tr as [|e tr IH]; [reflexivity|].
  cbn. unfold attempts, attemptsGit in IH. cbn in IH. rewrite IH.
  reflexivity.
Qed.

Lemma settledRuns_app (a b : list (string * bool)) :
  settledRuns a -> settledRuns b ->
  (forall c, In (c, false) a -> Forall (notAgain c) b) ->
  settledRuns (a ++ b).
Proof.
  induction a as [|[c ok] a IH]; intros Ha Hb Hx; [exact Hb|].
  cbn [app settledRuns fst snd] in *. destruct Ha as [H1 H2]. split.
  - intros ->. apply Forall_app. split; [now apply H1|].
    apply Hx. now left.
  - apply IH; [exact H2|exact Hb|]. intros k Hk. apply Hx. now right.
Qed.

Lemma settledRuns_settled (rs : list (string * bool)) (c c' : string) :
  settledRuns rs -> rerunAfterFailure rs c c' -> c = withRenameDetection c'.
Proof.
  intros H (pre & mid & post & ok' & -> & Hs). revert H.
  induction pre as [|x pre IH]; cbn [app settledRuns fst snd].
  - intros [H _]. specialize (H eq_refl).
    apply Forall_app in H as [_ H]. apply Forall_cons in H as [H _].
    exact (H Hs).
  - intros [_ H]. exact (IH H).
Qed.

Lemma failuresIn_app K a b :
  failuresIn K a -> failuresIn K b -> failuresIn K (a ++ b).
Proof. intros Ha Hb. apply Forall_app. now split. Qed.

Lemma failuresIn_mono K K' rs :
  (forall k, In k K -> In k K') -> failuresIn K rs -> failuresIn K' rs.
Proof.
  intros HK H. eapply Forall_impl; [exact H|]. intros r Hr E. auto.
Qed.

(** ** The invariant through the commands of the object *)

Lemma Calm_start (s : State) (K : list string) : Calm (trace s) (Some K) s.
Proof.
  exists []. split; [now rewrite app_nil_r|]. split; [exact I|constructor].
Qed.

Lemma Calm_done tr0 K s : Calm tr0 K s -> Calm tr0 None s.
Proof. intros (new & H1 & H2 & _). now exists new. Qed.

Lemma Calm_mono tr0 K K' s :
  (forall k, In k K -> In k K') -> Calm tr0 (Some K) s -> Calm tr0 (Some K') s.
Proof.
  intros HK (new & H1 & H2 & H3). exists new. split; [exact H1|].
  split; [exact H2|]. exact (failuresIn_mono K K' _ HK H3).
Qed.

Lemma Calm_quiet tr0 K s s' ev :
  trace s' = trace s ++ ev -> attemptsGit ev = [] ->
  Calm tr0 K s -> Calm tr0 K s'.
Proof.
  intros Ht He (new & H1 & H2 & H3). exists (new ++ ev).
  rewrite Ht, H1, <- app_assoc, attemptsGit_app, He, app_nil_r. auto.
Qed.

(** A run after which the call may run any command that is not one of
    those that have failed. *)
Lemma Calm_run tr0 K s c ok :
  Forall (fun k => ~ sameCommand k c) K ->
  Calm tr0 (Some K) s ->
  Calm tr0 (Some (if ok : bool then K else c :: K))
    (log_event (EvRun (workDir s) c (errorReportingEnabled s) ok) s).
Proof.
  intros HK (new & H1 & H2 & H3).
  exists (new ++ [EvRun (workDir s) c (errorReportingEnabled s) ok]).
  cbn [trace log_event]. rewrite H1, <- app_assoc. split; [reflexivity|].
  rewrite attemptsGit_app. cbn. split.
  - apply settledRuns_app; [exact H2|cbn; split; [constructor|exact I]|].
    intros k Hk. constructor; [|constructor]. intros Hs. exfalso.
    unfold failuresIn in H3. rewrite List.Forall_forall in H3.
    specialize (H3 _ Hk eq_refl). cbn in H3.
    rewrite List.Forall_forall in HK. exact (HK _ H3 Hs).
  - apply failuresIn_app.
    + destruct ok; [exact H3|].
      eapply failuresIn_mono; [|exact H3]. intros k Hk. now right.
    + constructor; [|constructor]. cbn. intros ->. now left.
Qed.

Section Rules.

Variables (env : Env) (tr0 : list Event).

Local Abbreviation hoare := (hoare env).
Local Abbreviation quiet := (quiet env).

Lemma quiet_same {A} (m : M A) :
  (forall s a s', m env s = Some (a, s') -> s' = s) -> quiet m.
Proof.
  intros H s a s' E. rewrite (H s a s' E). exists [].
  now rewrite app_nil_r.
Qed.

Lemma quiet_ret {A} (a : A) : quiet (ret a).
Proof. apply quiet_same. now intros s x s' [= _ <-]. Qed.

Lemma quiet_gets {A} (f : State -> A) : quiet (gets f).
Proof. apply quiet_same. now intros s x s' [= _ <-]. Qed.

Lemma quiet_deref {A} (o : option A) : quiet (deref o).
Proof.
  apply quiet_same. destruct o; [now intros s x s' [= _ <-]|discriminate].
Qed.

Lemma quiet_crash {A} : quiet (@crash A).
Proof. intros s a s' [=]. Qed.

Lemma quiet_bind {A B} (m : M A) (k : A -> M B) :
  quiet m -> (forall a, quiet (k a)) -> quiet (bind m k).
Proof.
  intros Hm Hk s b s' H. apply bind_inv in H as (a & s1 & H1 & H2).
  destruct (Hm _ _ _ H1) as (e1 & T1 & A1).
  destruct (Hk a _ _ _ H2) as (e2 & T2 & A2).
  exists (e1 ++ e2). rewrite T2, T1, <- app_assoc, attemptsGit_app, A1, A2.
  auto.
Qed.

Lemma quiet_ask {B} (k : Env -> M B) : quiet (k env) -> quiet (bind ask k).
Proof. intros H s b s' E. exact (H s b s' E). Qed.

Lemma quiet_modify (f : State -> State) :
  (forall s, exists ev, trace (f s) = trace s ++ ev /\ attemptsGit ev = []) ->
  quiet (modify f).
Proof. intros H s a s' [= _ <-]. apply H. Qed.

Lemma quiet_flag b : quiet (modify (set_errorReportingEnabled b)).
Proof.
  apply quiet_modify. intros s. exists []. now rewrite app_nil_r.
Qed.

Lemma quiet_workDir d : quiet (modify (set_workDir d)).
Proof.
  apply quiet_modify. intros s. exists []. now rewrite app_nil_r.
Qed.

Lemma quiet_cacheFlag b : quiet (modify (set_cacheNeedsUpdate b)).
Proof.
  apply quiet_modify. intros s. exists []. now rewrite app_nil_r.
Qed.

Lemma quiet_highlighter b v : quiet (modify (set_textHighlighter b v)).
Proof.
  apply quiet_modify. intros s. exists []. now rewrite app_nil_r.
Qed.

Lemma quiet_postError c d : quiet (modify (log_event (EvPostError c d))).
Proof. apply quiet_modify. intros s. now exists [EvPostError c d]. Qed.

Lemma quiet_processEvents : quiet EM_PROCESS_EVENTS.
Proof. apply quiet_modify. intros s. now exists [EvProcessEvents]. Qed.

Lemma quiet_write p d : quiet (writeToFile p d).
Proof.
  intros s a s' [= _ <-].
  exists [EvWriteFile p d (writable env (trace s) p)].
  now destruct (writable env (trace s) p).
Qed.

Lemma quiet_remove d n : quiet (QDir_remove d n).
Proof.
  intros s a s' [= _ <-]. now exists [EvRemoveFile (Qt.filePath d n)].
Qed.

Lemma quiet_insertNewFiles k d : quiet (insertNewFiles k d).
Proof.
  intros s a s' [= _ <-]. exists []. now rewrite app_nil_r.
Qed.

Lemma quiet_getFiles_zero d p : quiet (getFiles (ZERO_SHA env) d false p).
Proof.
  apply quiet_same. intros s x s'. rewrite getFiles_zero. now intros [= _ <-].
Qed.

Lemma quiet_getOtherFiles l o : quiet (getOtherFiles l o).
Proof. apply quiet_same. intros s x s'. apply getOtherFiles_state. Qed.

Lemma quiet_getWorkDirFiles st : quiet (getWorkDirFiles st).
Proof.
  unfold getWorkDirFiles. apply quiet_ask.
  apply quiet_bind; [apply quiet_getFiles_zero|]. intros [f|];
    [|apply quiet_ret].
  apply quiet_bind; [apply quiet_gets|]. intros s. apply quiet_deref.
Qed.

(** A command that adds no attempt keeps the invariant. *)
Lemma calm_quiet {A} K (m : M A) :
  quiet m -> hoare (Calm tr0 K) m (fun _ => Calm tr0 K).
Proof.
  intros Hm s a s' HP E. destruct (Hm s a s' E) as (ev & Ht & He).
  exact (Calm_quiet tr0 K s s' ev Ht He HP).
Qed.

(** A run whose failure is looked at: the call goes on after a success
    and runs nothing more after a failure. *)
Lemma calm_run K c :
  Forall (fun k => ~ sameCommand k c) K ->
  hoare (Calm tr0 (Some K)) (run c)
    (fun r => Calm tr0 (if r.1 then Some K else None)).
Proof.
  intros HK s r s' HP [= <- <-].
  pose proof (Calm_run tr0 K s c (tool env (trace s) (workDir s) c).1 HK HP)
    as H.
  destruct (tool env (trace s) (workDir s) c).1; [exact H|].
  exact (Calm_done _ _ _ H).
Qed.

(** A run whose status is not looked at: its command joins those that
    may have failed. *)
Lemma calm_run_on K c :
  Forall (fun k => ~ sameCommand k c) K ->
  hoare (Calm tr0 (Some K)) (run c) (fun _ => Calm tr0 (Some (c :: K))).
Proof.
  intros HK s r s' HP [= <- <-].
  pose proof (Calm_run tr0 K s c (tool env (trace s) (workDir s) c).1 HK HP)
    as H.
  destruct (tool env (trace s) (workDir s) c).1; [|exact H].
  eapply Calm_mono; [|exact H]. intros k Hk. now right.
Qed.

(** A run whose failure is looked at by a call that then still runs
    commands. *)
Lemma calm_run_exact K c :
  Forall (fun k => ~ sameCommand k c) K ->
  hoare (Calm tr0 (Some K)) (run c)
    (fun r => Calm tr0 (Some (if r.1 then K else c :: K))).
Proof.
  intros HK s r s' HP [= <- <-].
  exact (Calm_run tr0 K s c (tool env (trace s) (workDir s) c).1 HK HP).
Qed.

(** The tree diff with its second attempt, in a call that has seen no
    failure and runs nothing after it. *)
Lemma calm_runDiffTree c :
  hoare (Calm tr0 (Some [])) (runDiffTreeWithRenameDetection c)
    (fun _ => Calm tr0 None).
Proof.
  intros s r s' (new & H1 & H2 & H3) E.
  destruct (runDiffTree_attempts env s c) as ((s1 & E1 & T1) & _).
  cbv zeta in E1, T1. rewrite E1 in E. injection E as _ <-.
  set (cmd := Qt.replace "git diff-tree" "git diff-tree -C" c) in *.
  set (first := tool env (trace s) (workDir s) cmd) in *.
  eexists. rewrite T1, H1, <- app_assoc. split; [reflexivity|].
  split; [|exact I]. rewrite attemptsGit_app.
  assert (forall k, In (k, false) (attemptsGit new) -> False) as Hnone.
  { intros k Hk. unfold failuresIn in H3. rewrite List.Forall_forall in H3.
    exact (H3 _ Hk eq_refl). }
  apply settledRuns_app; [exact H2| |intros k Hk; destruct (Hnone k Hk)].
  destruct (first.1); cbn.
  - split; [discriminate|exact I].
  - split; [|split; [intros _; constructor|exact I]].
    intros _. constructor; [|constructor]. intros _. reflexivity.
Qed.

End Rules.

(** ** Telling commands apart *)

(** Two command lines whose first words differ run different commands;
    the words are read off the text. *)
Ltac differ :=
  let H := fresh in
  intros H; unfold sameCommand, commandWords in H;
  cbv [words_from List.filter isOption Qt.isEmpty String.append Ascii.eqb
       Bool.eqb negb andb] in H;
  discriminate H.

Ltac differ_all := repeat (apply List.Forall_cons; [differ|]); apply List.Forall_nil.

(** ** The member functions of the [Git] module *)

Create HintDb quiet.
Create HintDb calm.

#[local] Hint Resolve quiet_ret quiet_gets quiet_deref quiet_crash quiet_flag
  quiet_workDir quiet_cacheFlag quiet_highlighter quiet_postError
  quiet_processEvents quiet_write quiet_remove quiet_insertNewFiles
  quiet_getFiles_zero quiet_getOtherFiles quiet_getWorkDirFiles : quiet.

(** Walks through a command that runs nothing. *)
Ltac quiet_go :=
  lazymatch goal with
  | |- GitRuns.quiet _ (bind ask _) => apply quiet_ask; quiet_go
  | |- GitRuns.quiet _ (bind _ _) =>
      apply quiet_bind; [quiet_go | intros ?; cbv beta; quiet_go]
  | |- GitRuns.quiet _ (if ?c then _ else _) => destruct c; quiet_go
  | |- GitRuns.quiet _ (match ?c with _ => _ end) => destruct c; quiet_go
  | |- _ => solve [eauto with quiet]
  end.

(** Walks through a command whose runs are each looked at: after a
    failure nothing more is run. *)
Ltac calm_go :=
  lazymatch goal with
  | |- GitTools.hoare _ _ (ret _) _ =>
      apply hoare_ret; intros ? ?; cbv beta in *; cbn [fst snd negb];
        first [assumption | eapply Calm_done; eassumption]
  | |- GitTools.hoare _ (Calm _ None) _ _ =>
      eapply hoare_conseq;
        [apply calm_quiet; quiet_go
        | intros ? ? ?; cbv beta in *;
            first [assumption | destruct_calm_post]]
  | |- GitTools.hoare _ _ (bind ask _) _ => apply hoare_ask; calm_go
  | |- GitTools.hoare _ _ (bind (run _) _) _ =>
      eapply hoare_bind;
        [apply calm_run; first [differ_all | solve [auto]]
        | intros [[] ?]; cbn [fst snd negb]; calm_go]
  | |- GitTools.hoare _ _ (bind (runDiffTreeWithRenameDetection _) _) _ =>
      eapply hoare_bind;
        [apply calm_runDiffTree | intros ?; cbv beta; calm_go]
  | |- GitTools.hoare _ _ (bind _ _) _ =>
      eapply hoare_bind;
        [first [apply calm_quiet; quiet_go | solve [eauto with calm]]
        | intros ?; cbv beta; calm_go]
  | |- GitTools.hoare _ _ (if ?c then _ else _) _ => destruct c; calm_go
  | |- GitTools.hoare _ _ (match ?c with _ => _ end) _ => destruct c; calm_go
  | |- GitTools.hoare _ _ (ret _) _ =>
      apply hoare_ret; intros ? ?; cbv beta in *; cbn [fst snd negb];
        first [assumption | eapply Calm_done; eassumption]
  | |- GitTools.hoare _ _ (runDiffTreeWithRenameDetection _) _ =>
      apply calm_runDiffTree
  | |- GitTools.hoare _ _ (run _) _ =>
      eapply hoare_conseq;
        [apply calm_run; first [differ_all | solve [auto]]
        | intros [[] ?] ? ?; cbv beta in *; cbn [fst snd negb] in *;
            first [assumption | eapply Calm_done; eassumption]]
  | |- _ =>
      first
        [ eapply hoare_conseq;
            [apply calm_quiet; quiet_go
            | intros ? ? ?; cbv beta in *;
                first [assumption | eapply Calm_done; eassumption]]
        | eapply hoare_conseq;
            [solve [eauto with calm]
            | intros ? ? ?; cbv beta in *;
                first [assumption | eapply Calm_done; eassumption
                      | destruct_calm_post]] ]
  end
with destruct_calm_post :=
  lazymatch goal with
  | |- Calm _ (if ?b then _ else _) _ => destruct b; assumption
  end.

(** The invariant with more commands that may have failed, or with no
    bound on them. *)
Ltac widen_in H :=
  cbv beta in *;
  first [ exact H
        | exact (Calm_done _ _ _ H)
        | eapply Calm_mono; [|exact H]; cbn; intros ?; tauto ].

Ltac widen := let s := fresh in let H := fresh in intros s H; widen_in H.

Section Functions.

Variables (env : Env) (tr0 : list Event).

Local Abbreviation hoare := (hoare env).
Local Abbreviation ends := (fun _ => Calm tr0 None).

Lemma calm_checkEnvironment :
  hoare (Calm tr0 (Some [])) checkEnvironment (fun _ => Calm tr0 None).
Proof. unfold checkEnvironment. calm_go. Qed.

Lemma calm_setTextCodec tc :
  hoare (Calm tr0 (Some [])) (setTextCodec tc) (fun _ => Calm tr0 None).
Proof. unfold setTextCodec. calm_go. Qed.

Lemma calm_getRefSha n t a :
  hoare (Calm tr0 (Some [])) (getRefSha n t a) (fun _ => Calm tr0 None).
Proof. unfold getRefSha. calm_go. Qed.

Lemma quiet_getRefSha n t : quiet env (getRefSha n t false).
Proof. unfold getRefSha. cbn [negb]. quiet_go. Qed.

Lemma calm_isPatchName n :
  hoare (Calm tr0 (Some [])) (isPatchName n) (fun _ => Calm tr0 None).
Proof.
  eapply hoare_conseq; [apply calm_quiet|intros ? ?; apply Calm_done].
  unfold isPatchName.
  apply quiet_bind; [apply quiet_getRefSha|]. intros u.
  destruct (negb (Qt.isEmpty u)); [apply quiet_ret|].
  apply quiet_bind; [apply quiet_getRefSha|]. intros a. apply quiet_ret.
Qed.

(** *** The tree diffs *)

Lemma calm_getAllMergeFiles r :
  hoare (Calm tr0 (Some [])) (getAllMergeFiles r) (fun _ => Calm tr0 None).
Proof. unfold getAllMergeFiles. calm_go. Qed.

Hint Resolve calm_getAllMergeFiles : calm.

Lemma calm_getFiles x d a p :
  hoare (Calm tr0 (Some [])) (getFiles x d a p) (fun _ => Calm tr0 None).
Proof. unfold getFiles. calm_go. Qed.

Hint Resolve calm_getFiles : calm.

Lemma calm_isTreeModified x :
  hoare (Calm tr0 (Some [])) (isTreeModified x) (fun _ => Calm tr0 None).
Proof. unfold isTreeModified. calm_go. Qed.

Hint Resolve calm_isTreeModified : calm.

Lemma calm_isSameFiles a b :
  hoare (Calm tr0 (Some [])) (isSameFiles a b) (fun _ => Calm tr0 None).
Proof. unfold isSameFiles. calm_go. Qed.

Lemma calm_addExtraFileInfo n x d a :
  hoare (Calm tr0 (Some [])) (addExtraFileInfo n x d a)
    (fun _ => Calm tr0 None).
Proof. unfold addExtraFileInfo. calm_go. Qed.

Hint Resolve calm_addExtraFileInfo : calm.

Lemma calm_formatPatchFileHeader n x d c a :
  hoare (Calm tr0 (Some [])) (formatPatchFileHeader n x d c a)
    (fun _ => Calm tr0 None).
Proof. unfold formatPatchFileHeader. calm_go. Qed.

(** *** Diffs, files and trees *)

Lemma calm_getDiff x :
  hoare (Calm tr0 (Some [])) (getDiff x) (fun _ => Calm tr0 None).
Proof. unfold getDiff. calm_go. Qed.

Lemma calm_getWorkDirDiff f :
  hoare (Calm tr0 (Some [])) (getWorkDirDiff f) (fun _ => Calm tr0 None).
Proof. unfold getWorkDirDiff. calm_go. Qed.

Lemma calm_getFileSha any f r :
  hoare (Calm tr0 (Some [])) (getFileSha any f r) (fun _ => Calm tr0 None).
Proof. unfold getFileSha. calm_go. Qed.

Lemma calm_getFile x f :
  hoare (Calm tr0 (Some [])) (getFile x f) (fun _ => Calm tr0 None).
Proof. unfold getFile. calm_go. Qed.

Hint Resolve calm_getFile : calm.

Lemma calm_saveFile fm x f p :
  hoare (Calm tr0 (Some [])) (saveFile fm x f p) (fun _ => Calm tr0 None).
Proof. unfold saveFile. calm_go. Qed.

(** [saveFile] does not look at the status of its read: the command may
    have failed when the file is written. *)
Lemma calm_saveFile_on fm x f p :
  hoare (Calm tr0 (Some [])) (saveFile fm x f p)
    (fun _ => Calm tr0 (Some ["cat " +:+ quote env f;
                              "git diff-tree HEAD HEAD";
                              "git cat-file blob " +:+ x])).
Proof.
  unfold saveFile, getFile.
  eapply hoare_bind
    with (Q := fun _ => Calm tr0 (Some ["cat " +:+ quote env f;
                                        "git diff-tree HEAD HEAD";
                                        "git cat-file blob " +:+ x])).
  - apply hoare_ask.
    eapply hoare_bind; [apply calm_run_on; constructor|]. intros r.
    apply hoare_ret. intros s H. eapply Calm_mono; [|exact H].
    intros k [<-|[]].
    destruct (String.eqb x (ZERO_SHA env)); [now left|].
    destruct (Qt.isEmpty x); [right; now left|right; right; now left].
  - intros d. destruct (isBinaryFile fm f); apply calm_quiet; quiet_go.
Qed.

Lemma calm_getTree q t ti w p :
  hoare (Calm tr0 (Some [])) (getTree q t ti w p) (fun _ => Calm tr0 None).
Proof.
  unfold getTree. apply hoare_ask.
  eapply hoare_bind; [apply calm_quiet; quiet_go|]. intros w'. cbv beta zeta.
  eapply hoare_bind
    with (Q := fun t : bool * string => Calm tr0 (if t.1 then Some [] else None)).
  { destruct (String.eqb t (ZERO_SHA env)); calm_go. }
  intros [[] tree]; cbn [fst snd negb]; [|calm_go].
  eapply hoare_bind
    with (Q := fun o : bool * string => Calm tr0 (if o.1 then Some [] else None)).
  { destruct (negb (Qt.isEmpty tree)); calm_go. }
  intros [[] out]; cbn [fst snd negb]; calm_go.
Qed.

(** *** Patches, branches and tags *)

Lemma calm_resetCommits n :
  hoare (Calm tr0 (Some [])) (resetCommits n) (fun _ => Calm tr0 None).
Proof. unfold resetCommits. calm_go. Qed.

Lemma calm_applyPatchFile cfg p f d :
  hoare (Calm tr0 (Some [])) (applyPatchFile cfg p f d)
    (fun _ => Calm tr0 None).
Proof. unfold applyPatchFile. calm_go. Qed.

Lemma calm_formatPatch cfg l d r :
  hoare (Calm tr0 (Some [])) (formatPatch cfg l d r) (fun _ => Calm tr0 None).
Proof. unfold formatPatch. calm_go. Qed.

Lemma calm_makeBranch x b :
  hoare (Calm tr0 (Some [])) (makeBranch x b) (fun _ => Calm tr0 None).
Proof. unfold makeBranch. calm_go. Qed.

Lemma calm_makeTag x t m :
  hoare (Calm tr0 (Some [])) (makeTag x t m) (fun _ => Calm tr0 None).
Proof. unfold makeTag. calm_go. Qed.

(** *** Index and commits *)

Lemma calm_updateIndex K l :
  (forall x, Forall (fun k => ~ sameCommand k
                      ("git rm --cached --ignore-unmatch -- " +:+ x)) K) ->
  (forall x, Forall (fun k => ~ sameCommand k ("git add -- " +:+ x)) K) ->
  hoare (Calm tr0 (Some K)) (updateIndex l)
    (fun ok => Calm tr0 (if ok then Some K else None)).
Proof.
  intros Hrm Hadd. unfold updateIndex. apply hoare_ask.
  eapply hoare_bind; [apply calm_quiet; quiet_go|]. intros files_.
  eapply hoare_bind; [apply calm_quiet; quiet_go|]. intros s.
  eapply hoare_bind; [apply calm_quiet; quiet_go|]. intros split.
  cbv beta zeta.
  eapply hoare_bind
    with (Q := fun failed : bool => Calm tr0 (if failed then None else Some K)).
  { destruct (negb (isNil split.2)); calm_go. }
  intros [|]; [calm_go|].
  eapply hoare_bind
    with (Q := fun failed : bool => Calm tr0 (if failed then None else Some K)).
  { destruct (negb (isNil split.1)); calm_go. }
  intros [|]; calm_go.
Qed.

Lemma calm_updateIndex_fresh l :
  hoare (Calm tr0 (Some [])) (updateIndex l)
    (fun ok => Calm tr0 (if ok then Some [] else None)).
Proof. apply calm_updateIndex; intros x; constructor. Qed.

Lemma calm_mkPatchFromWorkDir m p l :
  hoare (Calm tr0 (Some [])) (mkPatchFromWorkDir m p l)
    (fun ok => Calm tr0 (if ok then Some [] else None)).
Proof.
  unfold mkPatchFromWorkDir. apply hoare_ask.
  eapply hoare_bind; [apply calm_updateIndex_fresh|].
  intros [|]; cbn [negb]; [|calm_go].
  eapply hoare_bind; [apply calm_run; differ_all|].
  intros [[] out]; cbn [fst snd negb]; [|calm_go].
  intros s ok s' HP E. destruct (quiet_write env _ _ s ok s' E) as (ev & T & A).
  pose proof (Calm_quiet tr0 _ s s' ev T A HP) as H.
  destruct ok; [exact H|exact (Calm_done _ _ _ H)].
Qed.

Lemma calm_commitFiles_steps l o f :
  hoare (Calm tr0 (Some [])) (commitFiles_steps l o f) (fun _ => Calm tr0 None).
Proof.
  unfold commitFiles_steps. apply hoare_ask.
  eapply hoare_bind; [apply calm_quiet; quiet_go|]. intros notSel.
  eapply hoare_bind
    with (Q := fun failed : bool => Calm tr0 (if failed then None else Some [])).
  { destruct (negb (isNil notSel)); calm_go. }
  intros [|]; [calm_go|].
  eapply hoare_bind; [apply calm_updateIndex_fresh|].
  intros [|]; cbn [negb]; [|calm_go].
  eapply hoare_bind; [apply calm_run; differ_all|].
  intros [[] out]; cbn [fst snd negb]; [|calm_go].
  eapply hoare_bind
    with (Q := fun failed : bool => Calm tr0 (if failed then None else Some [])).
  { destruct (negb (isNil notSel)); [|calm_go].
    eapply hoare_bind; [apply calm_updateIndex_fresh|].
    intros [|]; calm_go. }
  intros [|]; calm_go.
Qed.

Hint Resolve calm_commitFiles_steps : calm.

Lemma calm_commitFiles l m a :
  hoare (Calm tr0 (Some [])) (commitFiles l m a) (fun _ => Calm tr0 None).
Proof.
  unfold commitFiles. apply hoare_ask.
  eapply hoare_bind; [apply calm_quiet; quiet_go|]. intros gd.
  eapply hoare_bind; [apply calm_quiet; quiet_go|]. intros [|]; cbn [negb];
    [|calm_go].
  eapply hoare_bind; [apply calm_commitFiles_steps|]. intros r. calm_go.
Qed.

(** *** The commit through StGit

    The statuses of [git stash], [git stash pop] and [git reset] are not
    looked at, and after a failure of an [stg] command the two that undo
    the stash are still run: the commands that may have failed are told
    apart from each command that follows. *)

Lemma calm_stgCommit_steps l m n f p (ps : bool) ns :
  hoare (Calm tr0 (Some [])) (stgCommit_steps l m n f p ps ns)
    (fun e => Calm tr0
                (match e with
                 | StgFailAndUnstash =>
                     Some ["stg status --reset";
                           "stg edit --message " +:+ quote env (Qt.trimmed m);
                           "stg fold " +:+ quote env p;
                           "stg refresh";
                           "stg import --mail --name " +:+ quote env n
                             +:+ " " +:+ quote env p;
                           "git stash"]
                 | _ => None
                 end)).
Proof.
  unfold stgCommit_steps. apply hoare_ask.
  eapply hoare_bind; [apply calm_mkPatchFromWorkDir|].
  intros [|]; cbn [negb]; [|calm_go].
  eapply hoare_bind with (Q := fun _ => Calm tr0 (Some ["git stash"])).
  { destruct ps.
    - eapply hoare_bind; [apply calm_quiet; quiet_go|]. intros ?.
      eapply hoare_bind; [apply calm_run_on; differ_all|]. intros ?.
      apply calm_quiet. quiet_go.
    - apply hoare_ret. widen. }
  intros ?.
  eapply hoare_bind; [apply calm_run_exact; differ_all|].
  intros [[] out]; cbn [fst snd negb]; [|apply hoare_ret; widen].
  eapply hoare_bind
    with (Q := fun failed : bool =>
                 Calm tr0 (Some (if failed
                                 then ["stg status --reset";
                                       "stg edit --message "
                                         +:+ quote env (Qt.trimmed m);
                                       "stg fold " +:+ quote env p;
                                       "stg refresh";
                                       "stg import --mail --name "
                                         +:+ quote env n
                                         +:+ " " +:+ quote env p;
                                       "git stash"]
                                 else ["git stash"]))).
  { destruct f.
    - eapply hoare_bind
        with (Q := fun editFailed : bool =>
                     Calm tr0 (Some (if editFailed
                                     then ["stg edit --message "
                                             +:+ quote env (Qt.trimmed m);
                                           "git stash"]
                                     else ["git stash"]))).
      { destruct (negb (Qt.isEmpty m)).
        - eapply hoare_bind; [apply calm_run_exact; differ_all|].
          intros [[] o]; cbn [fst snd negb]; apply hoare_ret; widen.
        - apply hoare_ret. widen. }
      intros [|]; [apply hoare_ret; widen|].
      eapply hoare_bind; [apply calm_run_exact; differ_all|].
      intros [[] o]; cbn [fst snd negb]; [|apply hoare_ret; widen].
      eapply hoare_bind; [apply calm_run_exact; differ_all|].
      intros [[] o']; cbn [fst snd negb]; apply hoare_ret; widen.
    - eapply hoare_bind; [apply calm_run_exact; differ_all|].
      intros [[] o]; cbn [fst snd negb]; apply hoare_ret; widen. }
  intros [|]; [apply hoare_ret; widen|].
  destruct ps; [|apply hoare_ret; widen].
  eapply hoare_bind; [apply calm_quiet; quiet_go|]. intros ?.
  eapply hoare_bind; [apply calm_run_on; differ_all|]. intros ?.
  eapply hoare_bind; [apply calm_quiet; quiet_go|]. intros ?.
  eapply hoare_bind with (Q := fun _ => Calm tr0 None).
  { destruct (negb (isNil ns)); [|apply hoare_ret; widen].
    eapply hoare_bind;
      [apply calm_updateIndex; intros x; differ_all|].
    intros u. apply hoare_ret. intros s H. destruct u; widen_in H. }
  intros [|]; apply hoare_ret; widen.
Qed.

Lemma calm_stgCommit l m n f :
  hoare (Calm tr0 (Some [])) (stgCommit l m n f) (fun _ => Calm tr0 None).
Proof.
  unfold stgCommit. apply hoare_ask.
  eapply hoare_bind; [apply calm_quiet; quiet_go|]. intros gd.
  eapply hoare_bind; [apply calm_quiet; quiet_go|]. intros other.
  cbv zeta.
  eapply hoare_bind; [apply calm_quiet; quiet_go|]. intros notSel.
  eapply hoare_bind; [apply calm_stgCommit_steps|]. intros e.
  eapply hoare_bind with (Q := fun _ => Calm tr0 None).
  { destruct e; try (apply hoare_ret; widen).
    destruct (negb (isNil other)); [|apply hoare_ret; widen].
    eapply hoare_bind; [apply calm_run_on; differ_all|]. intros ?.
    eapply hoare_bind; [apply calm_quiet; quiet_go|]. intros ?.
    eapply hoare_bind; [apply calm_run_on; differ_all|]. intros ?.
    eapply hoare_conseq; [apply calm_quiet; quiet_go|]. intros ?. widen. }
  intros ?. calm_go.
Qed.

(** [userInfo] asks for the same four settings whatever the answers. *)
Lemma userInfo_attempts s l s' :
  userInfo env s = Some (l, s') ->
  exists new o1 o2 o3 o4,
    trace s' = trace s ++ new
    /\ attemptsGit new
       = [("git config user.name", o1); ("git config user.email", o2);
          ("git config --global user.name", o3);
          ("git config --global user.email", o4)].
Proof.
  unfold userInfo, bind, ask, modify, run, ret. cbn. intros [= _ <-].
  cbn [trace log_event set_errorReportingEnabled].
  eexists _, _, _, _, _. rewrite <- !app_assoc. split; [reflexivity|].
  reflexivity.
Qed.

End Functions.

(** Every member function of the [Git] module that starts afresh ends
    with no failed attempt run again. *)
Lemma calm_trace {A} (env : Env) (m : M A) :
  (forall tr0, hoare env (Calm tr0 (Some [])) m (fun _ => Calm tr0 None)) ->
  forall s a s', m env s = Some (a, s') ->
  exists new, trace s' = trace s ++ new /\ settledRuns (attemptsGit new).
Proof.
  intros H s a s' E.
  destruct (H (trace s) s a s' (Calm_start s []) E) as (new & H1 & H2 & _).
  now exists new.
Qed.

(** ** The further member functions *)

Local Open Scope runs_scope.

Lemma bindR_inv {A B} (m : R A) (k : A -> R B) env s b s' :
  bindR m k env s = Some (b, s') ->
  exists a s1, m env s = Some (a, s1) /\ k a env s1 = Some (b, s').
Proof.
  unfold bindR. destruct (m env s) as [[a s1]|]; [|discriminate].
  intros H. now exists a, s1.
Qed.

Lemma liftGit_inv {A} (m : M A) env s a s' :
  liftGit m env s = Some (a, s') ->
  exists g,
    m (gitEnv env) (git s) = Some (a, g)
    /\ s' = {| git := g; isGIT := isGIT s; refMore := refMore s;
               history := history s
                          ++ (DoGit <$> drop (length (trace (git s)))
                                          (trace g)) |}.
Proof.
  unfold liftGit. destruct (m (gitEnv env) (git s)) as [[x g]|];
    [|discriminate].
  intros [= <- <-]. now exists g.
Qed.

Lemma CalmR_start (s : GitRuns.State) (K : list string) :
  CalmR (history s) (Some K) s.
Proof.
  exists []. split; [now rewrite app_nil_r|]. split; [exact I|constructor].
Qed.

Lemma CalmR_done h0 K s : CalmR h0 K s -> CalmR h0 None s.
Proof. intros (new & H1 & H2 & _). now exists new. Qed.

Lemma CalmR_mono h0 K K' s :
  (forall k, In k K -> In k K') ->
  CalmR h0 (Some K) s -> CalmR h0 (Some K') s.
Proof.
  intros HK (new & H1 & H2 & H3). exists new. split; [exact H1|].
  split; [exact H2|]. exact (failuresIn_mono K K' _ HK H3).
Qed.

Lemma CalmR_quiet h0 K (s s' : GitRuns.State) ev :
  history s' = history s ++ ev -> attempts ev = [] ->
  CalmR h0 K s -> CalmR h0 K s'.
Proof.
  intros Ht He (new & H1 & H2 & H3). exists (new ++ ev).
  rewrite Ht, H1, <- app_assoc, attempts_app, He, app_nil_r. auto.
Qed.

(** One more attempt, of a command that is none of those that failed. *)
Lemma CalmR_attempt h0 K (s s' : GitRuns.State) a c ok :
  history s' = history s ++ [a] -> attempt a = Some (c, ok) ->
  Forall (fun k => ~ sameCommand k c) K ->
  CalmR h0 (Some K) s ->
  CalmR h0 (Some (if ok : bool then K else c :: K)) s'.
Proof.
  intros Ht Ha HK (new & H1 & H2 & H3). exists (new ++ [a]).
  rewrite Ht, H1, <- app_assoc. split; [reflexivity|].
  rewrite attempts_app.
  assert (attempts [a] = [(c, ok)]) as -> by (unfold attempts; cbn; now rewrite Ha).
  split.
  - apply settledRuns_app; [exact H2|cbn; split; [constructor|exact I]|].
    intros k Hk. constructor; [|constructor]. intros Hs. exfalso.
    unfold failuresIn in H3. rewrite List.Forall_forall in H3.
    specialize (H3 _ Hk eq_refl). cbn in H3.
    rewrite List.Forall_forall in HK. exact (HK _ H3 Hs).
  - apply failuresIn_app.
    + destruct ok; [exact H3|].
      eapply failuresIn_mono; [|exact H3]. intros k Hk. now right.
    + constructor; [|constructor]. cbn. intros ->. now left.
Qed.

Section RulesR.

Variables (env : GitRuns.Env) (h0 : list Action).

Local Abbreviation hoareR := (hoareR env).
Local Abbreviation quietR := (quietR env).

Lemma hoareR_ret {A} (P : GitRuns.State -> Prop) (Q : A -> _ -> Prop) (a : A) :
  (forall s, P s -> Q a s) -> hoareR P (retR a) Q.
Proof. intros H s x s' HP [= <- <-]. now apply H. Qed.

Lemma hoareR_bind {A B} (P : GitRuns.State -> Prop) (Q : A -> _ -> Prop)
    (T : B -> _ -> Prop) (m : R A) (k : A -> R B) :
  hoareR P m Q -> (forall a, hoareR (Q a) (k a) T) -> hoareR P (bindR m k) T.
Proof.
  intros Hm Hk s b s' HP H.
  apply bindR_inv in H as (a & s1 & H1 & H2).
  exact (Hk a s1 b s' (Hm s a s1 HP H1) H2).
Qed.

Lemma hoareR_conseq {A} (P : GitRuns.State -> Prop) (Q Q' : A -> _ -> Prop)
    (m : R A) :
  hoareR P m Q -> (forall a s, Q a s -> Q' a s) -> hoareR P m Q'.
Proof. intros Hm HQ s a s' HP H. exact (HQ _ _ (Hm s a s' HP H)). Qed.

Lemma hoareR_ask {B} (P : GitRuns.State -> Prop) (T : B -> _ -> Prop)
    (k : GitRuns.Env -> R B) :
  hoareR P (k env) T -> hoareR P (bindR askR k) T.
Proof. intros Hk s b s' HP H. exact (Hk s b s' HP H). Qed.

Lemma quietR_same {A} (m : R A) :
  (forall s a s', m env s = Some (a, s') -> history s' = history s) ->
  quietR m.
Proof.
  intros H s a s' E. rewrite (H s a s' E). exists [].
  now rewrite app_nil_r.
Qed.

Lemma quietR_ret {A} (a : A) : quietR (retR a).
Proof. apply quietR_same. now intros s x s' [= _ <-]. Qed.

Lemma quietR_gets {A} (f : GitRuns.State -> A) : quietR (getsR f).
Proof. apply quietR_same. now intros s x s' [= _ <-]. Qed.

Lemma quietR_deref {A} (o : option A) : quietR (derefR o).
Proof.
  apply quietR_same. destruct o; [now intros s x s' [= _ <-]|discriminate].
Qed.

Lemma quietR_crash {A} : quietR (@crashR A).
Proof. intros s a s' [=]. Qed.

Lemma quietR_bind {A B} (m : R A) (k : A -> R B) :
  quietR m -> (forall a, quietR (k a)) -> quietR (bindR m k).
Proof.
  intros Hm Hk s b s' H. apply bindR_inv in H as (a & s1 & H1 & H2).
  destruct (Hm _ _ _ H1) as (e1 & T1 & A1).
  destruct (Hk a _ _ _ H2) as (e2 & T2 & A2).
  exists (e1 ++ e2). rewrite T2, T1, <- app_assoc, attempts_app, A1, A2.
  auto.
Qed.

Lemma quietR_ask {B} (k : GitRuns.Env -> R B) :
  quietR (k env) -> quietR (bindR askR k).
Proof. intros H s b s' E. exact (H s b s' E). Qed.

Lemma quietR_act a : attempt a = None -> quietR (act a).
Proof.
  intros Ha s x s' [= _ <-]. exists [a]. split; [reflexivity|].
  unfold attempts. cbn. now rewrite Ha.
Qed.

Lemma quietR_lift {A} (m : M A) : quiet (gitEnv env) m -> quietR (liftGit m).
Proof.
  intros Hm s a s' E. apply liftGit_inv in E as (g & E & ->).
  destruct (Hm _ _ _ E) as (ev & T & A1). cbn [history].
  exists (DoGit <$> ev). split.
  - now rewrite T, drop_app_length.
  - now rewrite attempts_DoGit.
Qed.

Lemma calmR_quiet {A} K (m : R A) :
  quietR m -> hoareR (CalmR h0 K) m (fun _ => CalmR h0 K).
Proof.
  intros Hm s a s' HP E. destruct (Hm s a s' E) as (ev & Ht & He).
  exact (CalmR_quiet h0 K s s' ev Ht He HP).
Qed.

(** A member function of the [Git] module called before any failure. *)
Lemma calmR_lift {A} (m : M A) (Q : A -> option (list string)) :
  (forall tr0,
     hoare (gitEnv env) (Calm tr0 (Some [])) m (fun a => Calm tr0 (Q a))) ->
  hoareR (CalmR h0 (Some [])) (liftGit m) (fun a => CalmR h0 (Q a)).
Proof.
  intros Hm s a s' (new & H1 & H2 & H3) E.
  apply liftGit_inv in E as (g & E & ->).
  destruct (Hm (trace (git s)) (git s) a g (Calm_start _ []) E)
    as (ev & T & S1 & B1).
  exists (new ++ (DoGit <$> ev)). cbn [history].
  rewrite T, drop_app_length, H1, <- app_assoc. split; [reflexivity|].
  rewrite attempts_app, attempts_DoGit.
  assert (forall k, In (k, false) (attempts new) -> False) as Hnone.
  { intros k Hk. unfold failuresIn in H3. rewrite List.Forall_forall in H3.
    exact (H3 _ Hk eq_refl). }
  split.
  - apply settledRuns_app; [exact H2|exact S1|].
    intros k Hk. destruct (Hnone k Hk).
  - destruct (Q a) as [K'|]; [|exact I].
    apply failuresIn_app; [|exact B1].
    apply List.Forall_forall. intros [k ok] Hk E'. cbn in E'. subst ok.
    destruct (Hnone k Hk).
Qed.

Lemma calmR_lift_run K c :
  Forall (fun k => ~ sameCommand k c) K ->
  hoareR (CalmR h0 (Some K)) (liftGit (run c))
    (fun r => CalmR h0 (if r.1 then Some K else None)).
Proof.
  intros HK s r s' HP E. apply liftGit_inv in E as (g & [= <- <-] & ->).
  cbn [trace log_event fst]. rewrite drop_app_length.
  set (ok := (tool (gitEnv env) (trace (git s)) (workDir (git s)) c).1).
  assert (CalmR h0 (Some (if ok then K else c :: K))
            {| git := log_event (EvRun (workDir (git s)) c
                                   (errorReportingEnabled (git s)) ok) (git s);
               isGIT := isGIT s; refMore := refMore s;
               history := history s
                          ++ (DoGit <$> [EvRun (workDir (git s)) c
                                           (errorReportingEnabled (git s))
                                           ok]) |}) as H.
  { eapply (CalmR_attempt h0 K s _ (DoGit (EvRun (workDir (git s)) c
                                            (errorReportingEnabled (git s))
                                            ok)) c ok);
      [reflexivity|reflexivity|exact HK|exact HP]. }
  destruct ok; [exact H|exact (CalmR_done _ _ _ H)].
Qed.

Lemma calmR_runInput K c buf :
  Forall (fun k => ~ sameCommand k c) K ->
  hoareR (CalmR h0 (Some K)) (runInput c buf)
    (fun r => CalmR h0 (if r.1 then Some K else None)).
Proof.
  intros HK s r s' HP [= <- <-].
  set (ok := (toolInput env (history s) (workDir (git s)) c buf).1).
  pose proof (CalmR_attempt h0 K s (log (DoRunInput (workDir (git s)) c buf
                                          (errorReportingEnabled (git s)) ok) s)
                _ c ok eq_refl eq_refl HK HP) as H.
  cbn [fst]. destruct ok; [exact H|exact (CalmR_done _ _ _ H)].
Qed.

Lemma calmR_runAsync K c :
  Forall (fun k => ~ sameCommand k c) K ->
  hoareR (CalmR h0 (Some K)) (runAsync c)
    (fun p => CalmR h0 (if p then Some K else None)).
Proof.
  intros HK s r s' HP [= <- <-].
  set (ok := asyncStart env (history s) (workDir (git s)) c).
  pose proof (CalmR_attempt h0 K s (log (DoRunAsync (workDir (git s)) c
                                          (errorReportingEnabled (git s)) ok) s)
                _ c ok eq_refl eq_refl HK HP) as H.
  destruct ok; [exact H|exact (CalmR_done _ _ _ H)].
Qed.

End RulesR.

Create HintDb quietR.
Create HintDb calmR.

#[local] Hint Resolve quietR_ret quietR_gets quietR_deref quietR_crash
  : quietR.

Ltac quietR_go :=
  lazymatch goal with
  | |- GitRuns.quietR _ (bindR askR _) => apply quietR_ask; quietR_go
  | |- GitRuns.quietR _ (bindR _ _) =>
      apply quietR_bind; [quietR_go | intros ?; cbv beta; quietR_go]
  | |- GitRuns.quietR _ (if ?c then _ else _) => destruct c; quietR_go
  | |- GitRuns.quietR _ (match ?c with _ => _ end) => destruct c; quietR_go
  | |- GitRuns.quietR _ (liftGit _) => apply quietR_lift; quiet_go
  | |- GitRuns.quietR _ (act _) => apply quietR_act; reflexivity
  | |- _ => solve [eauto with quietR]
  end.

Ltac widenR_in H :=
  cbv beta in *;
  first [ exact H
        | exact (CalmR_done _ _ _ H)
        | eapply CalmR_mono; [|exact H]; cbn; intros ?; tauto ].

Ltac widenR := let s := fresh in let H := fresh in intros s H; widenR_in H.

Ltac calmR_go :=
  lazymatch goal with
  | |- GitRuns.hoareR _ _ (retR _) _ =>
      apply hoareR_ret; cbn [fst snd negb]; widenR
  | |- GitRuns.hoareR _ (CalmR _ None) _ _ =>
      eapply hoareR_conseq;
        [apply calmR_quiet; quietR_go | intros ?; widenR]
  | |- GitRuns.hoareR _ _ (bindR askR _) _ => apply hoareR_ask; calmR_go
  | |- GitRuns.hoareR _ _ (bindR (liftGit (run _)) _) _ =>
      eapply hoareR_bind;
        [apply calmR_lift_run; first [differ_all | solve [auto]]
        | intros [[] ?]; cbn [fst snd negb]; calmR_go]
  | |- GitRuns.hoareR _ _ (bindR (runInput _ _) _) _ =>
      eapply hoareR_bind;
        [apply calmR_runInput; first [differ_all | solve [auto]]
        | intros [[] ?]; cbn [fst snd negb]; calmR_go]
  | |- GitRuns.hoareR _ _ (bindR (runAsync _) _) _ =>
      eapply hoareR_bind;
        [apply calmR_runAsync; first [differ_all | solve [auto]]
        | intros []; cbn [fst snd negb]; calmR_go]
  | |- GitRuns.hoareR _ _ (bindR _ _) _ =>
      eapply hoareR_bind;
        [first [apply calmR_quiet; quietR_go | solve [eauto with calmR]]
        | intros ?; cbv beta; calmR_go]
  | |- GitRuns.hoareR _ _ (if ?c then _ else _) _ => destruct c; calmR_go
  | |- GitRuns.hoareR _ _ (match ?c with _ => _ end) _ =>
      destruct c; calmR_go
  | |- GitRuns.hoareR _ _ (liftGit (run _)) _ =>
      eapply hoareR_conseq;
        [apply calmR_lift_run; first [differ_all | solve [auto]]
        | intros [[] ?]; cbn [fst snd negb]; widenR]
  | |- GitRuns.hoareR _ _ (runInput _ _) _ =>
      eapply hoareR_conseq;
        [apply calmR_runInput; first [differ_all | solve [auto]]
        | intros [[] ?]; cbn [fst snd negb]; widenR]
  | |- GitRuns.hoareR _ _ (runAsync _) _ =>
      eapply hoareR_conseq;
        [apply calmR_runAsync; first [differ_all | solve [auto]]
        | intros []; cbn [fst snd negb]; widenR]
  | |- _ =>
      first
        [ eapply hoareR_conseq;
            [apply calmR_quiet; quietR_go | intros ?; widenR]
        | eapply hoareR_conseq;
            [solve [eauto with calmR] | intros ?; widenR] ]
  end.

Section FunctionsR.

Variables (env : GitRuns.Env) (h0 : list Action).

Local Abbreviation hoareR := (hoareR env).
Local Abbreviation starts := (CalmR h0 (Some [])).

(** A member function of the [Git] module, called on its own. *)
Lemma calmR_call {A} (m : M A) :
  (forall tr0,
     hoare (gitEnv env) (Calm tr0 (Some [])) m (fun _ => Calm tr0 None)) ->
  hoareR starts (liftGit m) (fun _ => CalmR h0 None).
Proof. intros H. exact (calmR_lift env h0 m (fun _ => None) H). Qed.

Lemma calmR_runAsScript c :
  hoareR starts (runAsScript c) (fun _ => CalmR h0 None).
Proof. unfold runAsScript. calmR_go. Qed.

Lemma calmR_getTextCodec :
  hoareR starts getTextCodec (fun _ => CalmR h0 None).
Proof. unfold getTextCodec. calmR_go. Qed.

Lemma quietR_set_tagMsg x m :
  quietR env (fun _ s => Some (tt, set_tagMsg x m s)).
Proof. apply quietR_same. now intros s a s' [= _ <-]. Qed.

Hint Resolve quietR_set_tagMsg : quietR.

Lemma calmR_getTagMsg x :
  hoareR starts (getTagMsg x) (fun _ => CalmR h0 None).
Proof. unfold getTagMsg. calmR_go. Qed.

Hint Resolve calmR_getTagMsg : calmR.

Lemma calmR_getRevInfo x :
  hoareR starts (getRevInfo x) (fun _ => CalmR h0 None).
Proof.
  unfold getRevInfo. apply hoareR_ask.
  destruct (Qt.isEmpty x); [calmR_go|].
  eapply hoareR_bind; [apply calmR_quiet; quietR_go|]. intros ty.
  destruct (ty =? 0); [calmR_go|].
  eapply hoareR_bind; [apply calmR_quiet; quietR_go|]. intros s.
  cbv zeta.
  eapply hoareR_bind with (Q := fun _ => CalmR h0 None); [|intros ?; calmR_go].
  destruct (negb (Z.land ty (refBit env TAG) =? 0)); calmR_go.
Qed.

Lemma calmR_getDiffAsync x d c :
  hoareR starts (getDiffAsync x d c) (fun _ => CalmR h0 None).
Proof. unfold getDiffAsync. calmR_go. Qed.

Lemma calmR_getFileFor rc x f :
  hoareR starts (getFileFor rc x f) (fun _ => CalmR h0 None).
Proof.
  unfold getFileFor. apply hoareR_ask. destruct (negb rc); [|calmR_go].
  eapply hoareR_bind; [apply calmR_call; intros; apply calm_getFile|].
  intros ?. calmR_go.
Qed.

Lemma calmR_getHighlightedFile rc x f :
  hoareR starts (getHighlightedFile rc x f) (fun _ => CalmR h0 None).
Proof.
  unfold getHighlightedFile. apply hoareR_ask.
  eapply hoareR_bind; [apply calmR_quiet; quietR_go|]. intros found.
  destruct (negb found); [calmR_go|].
  eapply hoareR_bind; [apply calmR_quiet; quietR_go|]. intros wd.
  cbv zeta.
  eapply hoareR_bind.
  { apply (calmR_lift env h0 _
             (fun _ => Some ["cat " +:+ quote (gitEnv env) f;
                             "git diff-tree HEAD HEAD";
                             "git cat-file blob " +:+ x])).
    intros tr0. apply calm_saveFile_on. }
  intros saved. cbv beta. destruct (negb saved); [calmR_go|].
  destruct (negb rc).
  - eapply hoareR_bind; [apply calmR_lift_run; differ_all|].
    intros r.
    eapply hoareR_bind with (Q := fun _ => CalmR h0 None); [|intros ?; calmR_go].
    eapply hoareR_conseq;
      [apply calmR_quiet|intros ? s H; destruct r.1; widenR_in H].
    apply quietR_lift. unfold on_getHighlightedFile_eof.
    apply quiet_bind; [apply quiet_gets|]. intros wd'.
    apply quiet_bind; [apply quiet_gets|]. intros fs.
    induction (entryList wd' "qgit_hlght_input" fs) as [|it sl IH];
      cbn [removeEach]; [apply quiet_ret|].
    apply quiet_bind; [apply quiet_remove|]. intros ?. exact IH.
  - eapply hoareR_bind; [apply calmR_runAsync; differ_all|].
    intros []; calmR_go.
Qed.

Lemma calmR_getLastCommitMsg :
  hoareR starts getLastCommitMsg (fun _ => CalmR h0 None).
Proof. unfold getLastCommitMsg. calmR_go. Qed.

Lemma calmR_getDesc x fh :
  hoareR starts (getDesc x fh) (fun _ => CalmR h0 None).
Proof.
  unfold getDesc. apply hoareR_ask.
  destruct (Qt.isEmpty x); [calmR_go|].
  eapply hoareR_bind; [apply calmR_quiet; quietR_go|]. intros [c|];
    [|calmR_go].
  destruct (isDiffCache env c); [calmR_go|].
  eapply hoareR_bind; [apply calmR_quiet; quietR_go|]. intros s. cbv zeta.
  eapply hoareR_bind; [apply calmR_quiet; quietR_go|]. intros mapping2.
  eapply hoareR_bind; [apply calmR_call; intros; apply calm_getDiff|].
  intros diffText. calmR_go.
Qed.

(** *** The newest name of a file *)

Lemma calmR_getNewestFileName_turn b f :
  hoareR starts (getNewestFileName_turn b f)
    (fun n => CalmR h0 (match n with Some _ => Some [] | None => None end)).
Proof.
  unfold getNewestFileName_turn. apply hoareR_ask. cbv zeta.
  eapply hoareR_bind; [apply calmR_lift_run; constructor|].
  intros [[] out]; cbn [fst snd negb]; [|calmR_go].
  destruct (negb (Qt.isEmpty out)); [calmR_go|].
  eapply hoareR_bind; [apply calmR_quiet; quietR_go|]. intros ?.
  eapply hoareR_bind; [apply calmR_quiet; quietR_go|]. intros ?.
  eapply hoareR_bind; [apply calmR_lift_run; constructor|].
  intros [[] out1]; cbn [fst snd negb]; [|calmR_go].
  eapply hoareR_bind
    with (Q := fun h : bool * string =>
                 CalmR h0 (if h.1 then Some [] else None)).
  { destruct (Qt.isEmpty out1); calmR_go. }
  intros [[] out2]; cbn [fst snd negb]; [|calmR_go].
  destruct (Qt.isEmpty out2); [calmR_go|].
  eapply hoareR_bind with (Q := fun _ => starts).
  { intros s p s' HP [= <- <-].
    eapply CalmR_quiet; [reflexivity|reflexivity|exact HP]. }
  intros p. destruct (negb p.1); [calmR_go|].
  eapply hoareR_bind; [apply calmR_quiet; quietR_go|]. intros ?. calmR_go.
Qed.

Lemma calmR_getNewestFileName (turns : nat) b : forall f,
  hoareR starts (getNewestFileName turns b f) (fun _ => CalmR h0 None).
Proof.
  induction turns as [|k IH]; intros f; cbn [getNewestFileName];
    [intros s a s' _ [=]|].
  eapply hoareR_bind; [apply calmR_getNewestFileName_turn|].
  intros [newCur|]; [apply IH|calmR_go].
Qed.

Lemma calmR_startFileHistory turns x f :
  hoareR starts (startFileHistory turns x f) (fun _ => CalmR h0 None).
Proof.
  unfold startFileHistory. apply hoareR_ask.
  eapply hoareR_bind; [apply calmR_quiet; quietR_go|]. intros d.
  eapply hoareR_bind; [apply calmR_quiet; quietR_go|]. intros branches.
  cbv zeta.
  eapply hoareR_bind; [apply calmR_getNewestFileName|]. intros newest.
  eapply hoareR_bind; [apply calmR_quiet; quietR_go|]. intros ?.
  eapply hoareR_bind; [apply calmR_quiet; quietR_go|]. intros shas.
  intros s ok s' HP [= <- <-].
  eapply CalmR_quiet; [reflexivity|reflexivity|exact HP].
Qed.

Lemma calmR_getPatchFilter e r :
  hoareR starts (getPatchFilter e r) (fun _ => CalmR h0 None).
Proof. unfold getPatchFilter. calmR_go. Qed.

(** *** Tags and patches *)

Lemma calmR_deleteTag x :
  hoareR starts (deleteTag x) (fun _ => CalmR h0 None).
Proof. unfold deleteTag. calmR_go. Qed.

Lemma calmR_stgPush x :
  hoareR starts (stgPush x) (fun _ => CalmR h0 None).
Proof.
  unfold stgPush. apply hoareR_ask.
  eapply hoareR_bind; [apply calmR_quiet; quietR_go|].
  intros [|first_ [|? ?]]; calmR_go.
Qed.

Lemma calmR_stgPop x :
  hoareR starts (stgPop x) (fun _ => CalmR h0 None).
Proof.
  unfold stgPop. apply hoareR_ask.
  eapply hoareR_bind; [apply calmR_quiet; quietR_go|].
  intros [|first_ [|? ?]]; calmR_go.
Qed.

End FunctionsR.

(** ** Every member function *)

Lemma calm_updateIndex_ends env tr0 l :
  hoare env (Calm tr0 (Some [])) (updateIndex l) (fun _ => Calm tr0 None).
Proof.
  eapply hoare_conseq; [apply calm_updateIndex_fresh|].
  intros [] s H; widen_in H.
Qed.

Lemma calm_mkPatchFromWorkDir_ends env tr0 m p l :
  hoare env (Calm tr0 (Some [])) (mkPatchFromWorkDir m p l)
    (fun _ => Calm tr0 None).
Proof.
  eapply hoare_conseq; [apply calm_mkPatchFromWorkDir|].
  intros [] s H; widen_in H.
Qed.

Lemma calm_saveFile_ends env tr0 fm x f p :
  hoare env (Calm tr0 (Some [])) (saveFile fm x f p) (fun _ => Calm tr0 None).
Proof.
  eapply hoare_conseq; [apply calm_saveFile_on|]. intros ? s H. widen_in H.
Qed.

#[local] Hint Resolve calm_checkEnvironment calm_setTextCodec calm_getRefSha
  calm_isPatchName calm_getAllMergeFiles calm_getFiles calm_isTreeModified
  calm_isSameFiles calm_addExtraFileInfo calm_formatPatchFileHeader
  calm_getDiff calm_getWorkDirDiff calm_getFileSha calm_getFile
  calm_saveFile_ends calm_getTree calm_resetCommits calm_applyPatchFile
  calm_formatPatch calm_makeBranch calm_makeTag calm_updateIndex_ends
  calm_mkPatchFromWorkDir_ends calm_commitFiles calm_stgCommit
  calm_runDiffTree : calm.

#[local] Hint Resolve calmR_runAsScript calmR_getTextCodec calmR_getTagMsg
  calmR_getRevInfo calmR_getDiffAsync calmR_getFileFor
  calmR_getHighlightedFile calmR_getLastCommitMsg calmR_getDesc
  calmR_getNewestFileName calmR_startFileHistory calmR_getPatchFilter
  calmR_deleteTag calmR_stgPush calmR_stgPop : calmR.

(** Whatever member function is called, [userInfo] apart, no command
    that failed is run again by the call, unless it is the tree diff. *)
Lemma invoke_calm (op : Member) (env : GitRuns.Env) (h0 : list Action) :
  op <> CallUserInfo ->
  hoareR env (CalmR h0 (Some [])) (invoke op) (fun _ => CalmR h0 None).
Proof.
  intros Hop. unfold invoke, call. apply hoareR_ask.
  destruct op; try (destruct (Hop eq_refl));
    (eapply hoareR_bind; [|intros ?; calmR_go]);
    first [ solve [eauto with calmR]
          | apply calmR_call; intros ?; solve [eauto with calm]
          | apply calmR_quiet; quietR_go
          | calmR_go ].
Qed.

Lemma invoke_userInfo (env : GitRuns.Env) s x s' :
  invoke CallUserInfo env s = Some (x, s') ->
  exists new o1 o2 o3 o4,
    history s' = history s ++ new
    /\ attempts new
       = [("git config user.name", o1); ("git config user.email", o2);
          ("git config --global user.name", o3);
          ("git config --global user.email", o4)].
Proof.
  unfold invoke, call. intros H.
  apply bindR_inv in H as (e & s0 & [= <- <-] & H).
  apply bindR_inv in H as (l & s1 & H & [= _ <-]).
  apply liftGit_inv in H as (g & H & ->).
  apply userInfo_attempts in H as (new & o1 & o2 & o3 & o4 & T & A).
  exists (DoGit <$> new), o1, o2, o3, o4. cbn [history].
  rewrite T, drop_app_length, attempts_DoGit. auto.
Qed.

Lemma invoke_settled (f : Member) (env : GitRuns.Env) s x s' :
  f <> CallUserInfo ->
  invoke f env s = Some (x, s') ->
  exists new, history s' = history s ++ new /\ settledRuns (attempts new).
Proof.
  intros Hf H.
  destruct (invoke_calm f env (history s) Hf s x s' (CalmR_start _ _) H)
    as (new & E & S & _).
  now exists new.
Qed.

Lemma liftGit_run_eq (env : GitRuns.Env) (s : GitRuns.State) (c : string) :
  let r := tool (gitEnv env) (trace (git s)) (workDir (git s)) c in
  let ev := EvRun (workDir (git s)) c (errorReportingEnabled (git s)) r.1 in
  liftGit (run c) env s
  = Some (r, {| git := log_event ev (git s); isGIT := isGIT s;
                refMore := refMore s; history := history s ++ [DoGit ev] |}).
Proof.
  cbv zeta. unfold liftGit, run. cbn [log_event trace].
  now rewrite drop_app_length.
Qed.

(** One turn of the search for the newest name, from the answer of
    [git ls-tree] on. *)
Lemma getNewestFileName_turn_attempts (env : GitRuns.Env) (s : GitRuns.State)
    (branches : list string) (curFileName : string) n s' :
  let args := Qt.join " " branches +:+ " -- " +:+ curFileName in
  let g := git s in
  let rep := errorReportingEnabled g in
  let ev1 := EvRun (workDir g) ("git ls-tree " +:+ args) rep true in
  let r := tool (gitEnv env) (trace g ++ [ev1]) (workDir g)
             ("git rev-list -n1 " +:+ args) in
  let ev2 := EvRun (workDir g) ("git rev-list -n1 " +:+ args) rep r.1 in
  let h := tool (gitEnv env) (trace g ++ [ev1; ev2]) (workDir g)
             ("git rev-list --full-history -n1 " +:+ args) in
  tool (gitEnv env) (trace g) (workDir g) ("git ls-tree " +:+ args)
  = (true, EmptyString) ->
  getNewestFileName_turn branches curFileName env s = Some (n, s') ->
  attempts (drop (length (history s)) (history s'))
  = ("git ls-tree " +:+ args, true)
    :: ("git rev-list -n1 " +:+ args, r.1)
    :: (if r.1 && Qt.isEmpty r.2
        then [("git rev-list --full-history -n1 " +:+ args, h.1)]
        else []).
Proof.
  cbv zeta. intros Hls H. unfold getNewestFileName_turn in H.
  apply bindR_inv in H as (e & s0 & [= <- <-] & H). cbv zeta in H.
  apply bindR_inv in H as (ls & s1 & H1 & H).
  rewrite liftGit_run_eq in H1. cbv zeta in H1. rewrite Hls in H1.
  cbn [fst] in H1. injection H1 as <- <-.
  cbn [fst snd negb Qt.isEmpty] in H.
  apply bindR_inv in H as ([] & s2 & [= <-] & H).
  apply bindR_inv in H as ([] & s3 & [= <-] & H).
  apply bindR_inv in H as (r & s4 & H4 & H).
  rewrite liftGit_run_eq in H4. cbv zeta in H4.
  cbn [log git history log_event trace workDir errorReportingEnabled] in H4.
  injection H4 as <- <-.
  destruct (tool (gitEnv env) (trace (git s) ++ _) (workDir (git s))
              ("git rev-list -n1 " +:+ _)) as [ok1 out1].
  cbn [fst snd] in *.
  assert (forall (x : option string) (t : GitRuns.State) l,
            history t = history s ++ l ->
            Some (x, t) = Some (n, s') ->
            attempts (drop (length (history s)) (history s')) = attempts l)
    as Fin.
  { intros x t l E [= _ <-]. now rewrite E, drop_app_length. }
  destruct ok1; cbn [negb andb] in *.
  - destruct (Qt.isEmpty out1) eqn:Eo.
    + apply bindR_inv in H as (h & s5 & H5 & H).
      rewrite liftGit_run_eq in H5. cbv zeta in H5.
      cbn [log git history log_event trace workDir errorReportingEnabled]
        in H5.
      rewrite <- app_assoc in H5. cbn [app] in H5.
      injection H5 as <- <-.
      destruct (tool (gitEnv env) (trace (git s) ++ _) (workDir (git s))
                  ("git rev-list --full-history -n1 " +:+ _)) as [ok2 out2].
      cbn [fst snd] in *.
      destruct ok2; cbn [negb] in H;
        [destruct (Qt.isEmpty out2)|];
        [| apply bindR_inv in H as (p & s6 & [= <- <-] & H);
           destruct (negb _);
           [|apply bindR_inv in H as (nc & s7 & H7 & H);
             destruct (head _); [|discriminate];
             injection H7 as _ <-] |];
        (etransitivity;
           [eapply Fin; [|exact H];
            cbn [history log]; rewrite <- !app_assoc; reflexivity
           |reflexivity]).
    + apply bindR_inv in H as (h & s5 & [= <- <-] & H).
      cbn [fst snd negb] in H. rewrite Eo in H.
      apply bindR_inv in H as (p & s6 & [= <- <-] & H);
        destruct (negb _);
        [|apply bindR_inv in H as (nc & s7 & H7 & H);
          destruct (head _); [|discriminate];
          injection H7 as _ <-];
        (etransitivity;
           [eapply Fin; [|exact H];
            cbn [history log]; rewrite <- !app_assoc; reflexivity
           |reflexivity]).
  - etransitivity;
      [eapply Fin; [|exact H];
       cbn [history log]; rewrite <- !app_assoc; reflexivity
      |reflexivity].
Qed.

(** ** The one command that is run again after it failed *)




End GitRunsFacts.
